(** * OpenClaw Rate Limit Manager: quota decision and scheduling engine

    A shallow embedding of the JavaScript sources

      - storage.js  (LimitStorage: quotas, tiers, limit configurations,
                     events)
      - tracker.js  (WindowTracker: sliding windows and their maintenance)
      - queue.js    (RequestQueue: priority queue with expiry, retry, cancel,
                     priorities, positions, maintenance)
      - manager.js  (RateLimitManager: provider-before / provider-after hooks)
      - detector.js (PatternDetector: pattern persistence, peak windows)
      - x402.js     (X402PaymentHandler: licence status)

    over an explicit model of the SQLite tables of migrations/001-init.sql.

    Conventions.
      - Instants are milliseconds since the epoch, as [Z]; every operation
        receives the reading [now] of the clock it runs at.
      - A DATETIME column that SQLite fills with CURRENT_TIMESTAMP holds the
        UTC wall clock in whole seconds, as a text without a zone
        ([CURRENT_TIMESTAMP]). [new Date] reads such a text as local time:
        the zone of the process is an input ([Js.zone]) of every operation
        that reads queued_at back.
      - Counters and ceilings are integers and stay [Z]; the one quotient,
        percentUsed, is computed in IEEE 754 doubles ([Js.double]).
      - A nullable column is an [option]; SQLite BOOLEAN columns are [bool].
      - JavaScript truthiness is written out ([Js.truthy], [Js.or_null]).
      - Prepared statements are assumed to execute (no I/O failure). The
        UNIQUE indexes on queue_id and pattern_id are modelled, because the
        identifier is an input and may collide, and so is the one on
        (provider, model, tier), which the upsert of a limit configuration
        resolves its conflicts on. The UNIQUE index on
        (agent_wallet, provider, model, window_type, window_start) is not:
        over a table satisfying [windows_ok] a window is only inserted for a
        key none of whose rows starts at the current instant
        ([create_site_no_clash], [rotate_site_no_clash]), and both hooks keep
        [windows_ok].
      - Console logging, the in-memory session roster and the serialized
        request payload carry no accounting state and are left out.
      - Identifiers produced by randomUUID() are inputs of the operation that
        draws them. *)

From Stdlib Require Import ZArith List String Bool Lia QArith.
From Stdlib Require Import Floats.SpecFloat.
From Equations Require Import Equations.
Import ListNotations.

Local Open Scope string_scope.
Local Open Scope Z_scope.

(** ** JavaScript values and truthiness *)

Module Js.

(** The values an [&&] / [||] chain over nullable integer columns and
    comparisons can evaluate to. *)
Inductive value :=
| Null
| Num (n : Z)
| Bool (b : bool).

Definition truthy (v : value) : bool :=
  match v with
  | Null => false
  | Num n => negb (n =? 0)
  | Bool b => b
  end.

(** [a && b] where [b] is only evaluated when [a] is truthy. *)
Definition and (a b : value) : value := if truthy a then b else a.

(** [a || b]. *)
Definition or (a b : value) : value := if truthy a then a else b.

(** A nullable INTEGER column read back from SQLite. *)
Definition of_column (c : option Z) : value :=
  match c with
  | None => Null
  | Some n => Num n
  end.

(** [x || null] on a number-or-null: zero is falsy and becomes NULL. *)
Definition or_null (c : option Z) : option Z :=
  match c with
  | Some n => if n =? 0 then None else Some n
  | None => None
  end.

(** [x || d] on a number-or-null. *)
Definition or_default (c : option Z) (d : Z) : Z :=
  match c with
  | Some n => if n =? 0 then d else n
  | None => d
  end.

(** [s || d] on a string-or-undefined: the empty string is falsy. *)
Definition str_or (s : option string) (d : string) : string :=
  match s with
  | Some x => if (x =? "")%string then d else x
  | None => d
  end.

(** [s || null] on a string-or-undefined. *)
Definition str_or_null (s : option string) : option string :=
  match s with
  | Some x => if (x =? "")%string then None else Some x
  | None => None
  end.

(** A number that need not be an integer: an IEEE 754 binary64 value, with
    the arithmetic of the standard (round to nearest, ties to even) as
    [SpecFloat] defines it. *)
Definition double : Type := spec_float.

Definition prec : Z := 53.
Definition emax : Z := 1024.

(** The double of an integer. *)
Definition of_int (n : Z) : double := binary_normalize prec emax n 0 false.

(** [x / y] and [x * y]. *)
Definition div (x y : double) : double := SFdiv prec emax x y.
Definition mul (x y : double) : double := SFmul prec emax x y.

(** Truthiness of a number: 0, -0 and NaN are falsy. *)
Definition double_truthy (x : double) : bool :=
  match x with
  | S754_zero _ | S754_nan => false
  | _ => true
  end.

(** [new Date(text).getTime()] on the zone-less text 'YYYY-MM-DD HH:MM:SS'
    that CURRENT_TIMESTAMP leaves in a column. V8 reads such a text as local
    time. The text is held as the instant [w] that shows it on the UTC
    clock; a [zone] maps [w] to the instant that shows the same text on the
    local clock of the process. *)
Definition zone : Type := Z -> Z.

(** A process whose local time is UTC. *)
Definition utc : zone := fun w => w.

(** A process whose local time is [offset] milliseconds ahead of UTC
    (behind, when negative). *)
Definition ahead_of_utc (offset : Z) : zone := fun w => w - offset.

End Js.

(** ** Tables *)

Inductive WindowType := per_minute | per_hour | per_day.

Definition WindowType_eqb (a b : WindowType) : bool :=
  match a, b with
  | per_minute, per_minute | per_hour, per_hour | per_day, per_day => true
  | _, _ => false
  end.

Inductive Tier := free | pro.

Definition Tier_name (t : Tier) : string :=
  match t with free => "free" | pro => "pro" end.

(** The five ceilings of a limit object (a rate_limit_configs row or an entry
    of the built-in default table). *)
Record Limits := mkLimits {
  requests_per_minute : option Z;
  requests_per_hour : option Z;
  requests_per_day : option Z;
  tokens_per_minute : option Z;
  tokens_per_day : option Z
}.

Module Config.
Record row := mk {
  provider : string;
  model : option string;
  tier : string;
  limits : Limits
}.
End Config.

Module Window.
Record row := mk {
  id : nat;
  agent_wallet : string;
  provider : string;
  model : option string;
  window_type : WindowType;
  window_start : Z;
  window_end : Z;
  request_count : Z;
  token_count : Z;
  limit_requests : option Z;
  limit_tokens : option Z;
  is_active : bool;
  last_updated : Z
}.
End Window.

Module Quota.
Record row := mk {
  agent_wallet : string;
  tier : string;
  requests_per_minute : Z;
  can_queue : bool;
  max_queue_size : Z;
  auto_learning : bool;
  custom_limits : bool;
  priority_queuing : bool;
  paid_until : option Z
}.
End Quota.

Inductive Status := pending | processing | completed | failed.

Definition Status_eqb (a b : Status) : bool :=
  match a, b with
  | pending, pending | processing, processing
  | completed, completed | failed, failed => true
  | _, _ => false
  end.

Module QueueEntry.
Record row := mk {
  queue_id : string;
  agent_wallet : string;
  provider : string;
  model : option string;
  queued_at : Z;
  priority : Z;
  retry_count : Z;
  max_retries : Z;
  status : Status;
  processed_at : option Z;
  error : option string
}.
End QueueEntry.

Module EventType.
Inductive t := allowed | warned | blocked | queued.
End EventType.

Module Event.
Record row := mk {
  agent_wallet : string;
  provider : string;
  model : option string;
  timestamp : Z;
  event_type : EventType.t;
  window_type : option WindowType;
  current_count : option Z;
  limit_value : option Z;
  percent_used : option Js.double;
  request_id : option string;
  was_queued : bool
}.
End Event.

Module Pattern.
Record row := mk {
  pattern_id : string;
  agent_wallet : option string;
  pattern_type : string;
  avg_requests_per_minute : option Z;
  peak_requests_per_minute : option Z;
  typical_window : option string;
  confidence : Q;
  suggested_limit : option Z;
  suggested_queue_size : option Z;
  detected_at : Z;
  observation_count : Z
}.
End Pattern.

(** The database: one list per table, in rowid order. [next_window_id] is the
    AUTOINCREMENT counter of rate_limit_windows. *)
Record Store := mkStore {
  rate_limit_configs : list Config.row;
  rate_limit_windows : list Window.row;
  next_window_id : nat;
  agent_limit_quotas : list Quota.row;
  request_queue : list QueueEntry.row;
  rate_limit_events : list Event.row;
  usage_patterns : list Pattern.row
}.

Definition set_windows (ws : list Window.row) (n : nat) (st : Store) : Store :=
  mkStore (rate_limit_configs st) ws n (agent_limit_quotas st)
          (request_queue st) (rate_limit_events st) (usage_patterns st).

Definition set_quotas (qs : list Quota.row) (st : Store) : Store :=
  mkStore (rate_limit_configs st) (rate_limit_windows st) (next_window_id st) qs
          (request_queue st) (rate_limit_events st) (usage_patterns st).

Definition set_queue (q : list QueueEntry.row) (st : Store) : Store :=
  mkStore (rate_limit_configs st) (rate_limit_windows st) (next_window_id st)
          (agent_limit_quotas st) q (rate_limit_events st) (usage_patterns st).

Definition set_events (es : list Event.row) (st : Store) : Store :=
  mkStore (rate_limit_configs st) (rate_limit_windows st) (next_window_id st)
          (agent_limit_quotas st) (request_queue st) es (usage_patterns st).

Definition set_patterns (ps : list Pattern.row) (st : Store) : Store :=
  mkStore (rate_limit_configs st) (rate_limit_windows st) (next_window_id st)
          (agent_limit_quotas st) (request_queue st) (rate_limit_events st) ps.

Definition empty_store : Store := mkStore [] [] 1 [] [] [] [].

(** [CURRENT_TIMESTAMP] as SQLite stores it in a DATETIME column: the text
    'YYYY-MM-DD HH:MM:SS' of the UTC wall clock, in whole seconds. The text
    is held as the instant of that second. *)
Definition CURRENT_TIMESTAMP (now : Z) : Z := 1000 * (now / 1000).

(** [model = ? OR (model IS NULL AND ? IS NULL)] *)
Definition model_matches (col param : option string) : bool :=
  match col, param with
  | Some a, Some b => (a =? b)%string
  | None, None => true
  | _, _ => false
  end.

(** ** storage.js: LimitStorage (quota and event accessors) *)

Module Storage.

(** The object returned by [checkQuotaAvailable]. *)
Record QuotaInfo := mkQuotaInfo {
  available : bool;
  tier : Tier;
  can_queue : bool;
  max_queue_size : Z;
  auto_learning : bool;
  custom_limits : bool;
  priority_queuing : bool;
  requests_per_minute : Z;
  paid_until : option Z
}.

Definition find_quota (agentWallet : string) (qs : list Quota.row)
  : option Quota.row :=
  find (fun q => (Quota.agent_wallet q =? agentWallet)%string) qs.

(** [initializeQuota]: INSERT ... VALUES (?, 'free', 100, 0, 0, 0, 0, 0). *)
Definition default_quota (agentWallet : string) : Quota.row :=
  Quota.mk agentWallet "free" 100 false 0 false false false None.

(** [getQuota]: the tenant's row, created on first reference. *)
Definition getQuota (agentWallet : string) (st : Store) : Quota.row * Store :=
  match find_quota agentWallet (agent_limit_quotas st) with
  | Some q => (q, st)
  | None =>
      (default_quota agentWallet,
       set_quotas (agent_limit_quotas st ++ [default_quota agentWallet]) st)
  end.

(** [quota.tier === 'pro' && quota.paid_until && new Date(paid_until) > new Date()] *)
Definition isPro (now : Z) (q : Quota.row) : bool :=
  (Quota.tier q =? "pro")%string &&
  match Quota.paid_until q with
  | Some t => now <? t
  | None => false
  end.

Definition checkQuotaAvailable (now : Z) (agentWallet : string) (st : Store)
  : QuotaInfo * Store :=
  let '(quota, st1) := getQuota agentWallet st in
  let isPro := isPro now quota in
  ({| available := true;
      tier := if isPro then pro else free;
      can_queue := isPro && Quota.can_queue quota;
      max_queue_size := if isPro then Quota.max_queue_size quota else 0;
      auto_learning := isPro && Quota.auto_learning quota;
      custom_limits := isPro && Quota.custom_limits quota;
      priority_queuing := isPro && Quota.priority_queuing quota;
      requests_per_minute := Quota.requests_per_minute quota;
      paid_until := Quota.paid_until quota |},
   st1).

(** The object literal handed to [recordEvent]; fields the caller leaves
    out are [None]. *)
Record EventData := mkEventData {
  agent_wallet : string;
  provider : string;
  model : option string;
  event_type : EventType.t;
  window_type : option WindowType;
  current_count : option Z;
  limit_value : option Z;
  percent_used : option Js.double;
  request_id : option string;
  was_queued : bool
}.

(** [percent_used || null] on a number. *)
Definition percent_or_null (p : option Js.double) : option Js.double :=
  match p with
  | Some x => if Js.double_truthy x then Some x else None
  | None => None
  end.

(** [recordEvent]: append-only INSERT into rate_limit_events; the timestamp
    column takes its default. *)
Definition recordEvent (now : Z) (e : EventData) (st : Store) : Store :=
  set_events
    (rate_limit_events st ++
       [Event.mk (agent_wallet e) (provider e) (Js.str_or_null (model e))
                 (CURRENT_TIMESTAMP now)
                 (event_type e) (window_type e)
                 (Js.or_null (current_count e)) (Js.or_null (limit_value e))
                 (percent_or_null (percent_used e))
                 (Js.str_or_null (request_id e)) (was_queued e)])
    st.

(** The object literal handed to [upsertLimitConfig]. Its limit_type goes
    into a column that no query reads; it is left out. *)
Record ConfigData := mkConfigData {
  config_provider : string;
  config_model : option string;
  config_limits : Limits;
  config_tier : option string
}.

(** [x || null] on each ceiling. *)
Definition limits_or_null (l : Limits) : Limits :=
  match l with
  | mkLimits rpm rph rpd tpm tpd =>
      mkLimits (Js.or_null rpm) (Js.or_null rph) (Js.or_null rpd)
               (Js.or_null tpm) (Js.or_null tpd)
  end.

Definition set_configs (cs : list Config.row) (st : Store) : Store :=
  mkStore cs (rate_limit_windows st) (next_window_id st)
          (agent_limit_quotas st) (request_queue st) (rate_limit_events st)
          (usage_patterns st).

(** The row conflicts with a new (provider, model, tier) on the UNIQUE index.
    NULLs are distinct in an index: a row or a key without a model never
    conflicts. *)
Definition conflicts (provider : string) (model : option string)
           (tier : string) (c : Config.row) : bool :=
  (Config.provider c =? provider)%string &&
  match Config.model c, model with
  | Some a, Some b => (a =? b)%string
  | _, _ => false
  end &&
  (Config.tier c =? tier)%string.

(** [upsertLimitConfig]: INSERT ... ON CONFLICT(provider, model, tier) DO
    UPDATE SET the five ceilings. *)
Definition upsertLimitConfig (configData : ConfigData) (st : Store) : Store :=
  let provider := config_provider configData in
  let model := Js.str_or_null (config_model configData) in
  let tier := Js.str_or (config_tier configData) "free" in
  let limits := limits_or_null (config_limits configData) in
  if existsb (conflicts provider model tier) (rate_limit_configs st) then
    set_configs
      (map (fun c => if conflicts provider model tier c
                     then Config.mk (Config.provider c) (Config.model c)
                                    (Config.tier c) limits
                     else c)
           (rate_limit_configs st))
      st
  else
    set_configs
      (rate_limit_configs st ++ [Config.mk provider model tier limits]) st.

(** [updateAgentTier]: an UPDATE of the tenant's row; a tenant without a row
    is not given one. [paidUntil] is the instant the ISO string denotes. *)
Definition updateAgentTier (agentWallet tier : string) (paidUntil : option Z)
           (st : Store) : Store :=
  let isPro := (tier =? "pro")%string in
  set_quotas
    (map (fun q =>
            if (Quota.agent_wallet q =? agentWallet)%string
            then Quota.mk (Quota.agent_wallet q) tier
                          (if isPro then -1 else 100)
                          isPro
                          (if isPro then 100 else 0)
                          isPro isPro isPro paidUntil
            else q)
         (agent_limit_quotas st))
    st.

End Storage.

(** ** tracker.js: WindowTracker *)

Module Tracker.

(** [this.windowDurations], in milliseconds. *)
Definition windowDurations (t : WindowType) : Z :=
  match t with
  | per_minute => 60 * 1000
  | per_hour => 60 * 60 * 1000
  | per_day => 24 * 60 * 60 * 1000
  end.

Definition calculateWindowEnd (start : Z) (t : WindowType) : Z :=
  start + windowDurations t.

(** The object returned by [checkWindowLimitDetailed]. *)
Record LimitCheck := mkLimitCheck {
  exceeded : Js.value;
  current : Z;
  limit : Z;
  percentUsed : Js.double
}.

(** [limit && count >= limit] *)
Definition limit_reached (lim : option Z) (count : Z) : Js.value :=
  Js.and (Js.of_column lim)
         (Js.Bool (match lim with Some l => l <=? count | None => false end)).

Definition checkWindowLimitDetailed (w : Window.row) : LimitCheck :=
  let requestExceeded :=
    limit_reached (Window.limit_requests w) (Window.request_count w) in
  let tokenExceeded :=
    limit_reached (Window.limit_tokens w) (Window.token_count w) in
  let exceeded := Js.or requestExceeded tokenExceeded in
  let current := Window.request_count w in
  let limit := Js.or_default (Window.limit_requests w) 0 in
  let percentUsed :=
    if 0 <? limit
    then Js.mul (Js.div (Js.of_int current) (Js.of_int limit)) (Js.of_int 100)
    else Js.of_int 0 in
  mkLimitCheck exceeded current limit percentUsed.

(** The built-in table of [getDefaultLimits]. *)
Definition defaults (provider : string) (tier : Tier) : option Limits :=
  if (provider =? "anthropic")%string then
    Some match tier with
         | free => mkLimits (Some 50) None (Some 1000) (Some 40000) (Some 300000)
         | pro => mkLimits (Some 1000) None (Some 10000) (Some 80000) (Some 2500000)
         end
  else if (provider =? "openai")%string then
    Some match tier with
         | free => mkLimits (Some 60) None (Some 200) (Some 40000) None
         | pro => mkLimits (Some 500) None (Some 10000) (Some 150000) None
         end
  else if (provider =? "google")%string then
    Some match tier with
         | free => mkLimits (Some 60) None (Some 1500) None None
         | pro => mkLimits (Some 1000) None (Some 15000) None None
         end
  else None.

(** [defaults[provider]?.[tier] || defaults.anthropic.free] *)
Definition getDefaultLimits (provider : string) (tier : Tier) : Limits :=
  match defaults provider tier with
  | Some l => l
  | None => mkLimits (Some 50) None (Some 1000) (Some 40000) (Some 300000)
  end.

(** [SELECT * FROM rate_limit_configs WHERE provider = ? AND model = ? AND
    tier = ? LIMIT 1] *)
Definition model_config (provider model tier : string) (cs : list Config.row)
  : option Config.row :=
  find (fun c => (Config.provider c =? provider)%string &&
                 match Config.model c with
                 | Some m => (m =? model)%string
                 | None => false
                 end &&
                 (Config.tier c =? tier)%string) cs.

(** [... WHERE provider = ? AND model IS NULL AND tier = ? LIMIT 1] *)
Definition provider_config (provider tier : string) (cs : list Config.row)
  : option Config.row :=
  find (fun c => (Config.provider c =? provider)%string &&
                 match Config.model c with
                 | Some _ => false
                 | None => true
                 end &&
                 (Config.tier c =? tier)%string) cs.

Definition getLimits (now : Z) (agentWallet provider : string)
           (model : option string) (st : Store) : Limits * Store :=
  let '(quota, st1) := Storage.checkQuotaAvailable now agentWallet st in
  let tier := Storage.tier quota in
  let specific :=
    match Js.str_or_null model with
    | Some m => model_config provider m (Tier_name tier) (rate_limit_configs st1)
    | None => None
    end in
  let limits :=
    match specific with
    | Some c => Some c
    | None => provider_config provider (Tier_name tier) (rate_limit_configs st1)
    end in
  match limits with
  | Some c => (Config.limits c, st1)
  | None => (getDefaultLimits provider tier, st1)
  end.

Inductive LimitType := requests | tokens.

(** [limits[field] || null]; a limit object has no tokens_per_hour field. *)
Definition getLimitForWindowType (l : Limits) (t : WindowType)
           (k : LimitType) : option Z :=
  Js.or_null
    match t, k with
    | per_minute, requests => requests_per_minute l
    | per_minute, tokens => tokens_per_minute l
    | per_hour, requests => requests_per_hour l
    | per_hour, tokens => None
    | per_day, requests => requests_per_day l
    | per_day, tokens => tokens_per_day l
    end.

(** [createWindow]: a fresh active row starting at [now] with zero counts;
    last_updated takes its default. *)
Definition createWindow (now : Z) (agentWallet provider : string)
           (model : option string) (t : WindowType) (st : Store)
  : Window.row * Store :=
  let '(limits, st1) := getLimits now agentWallet provider model st in
  let limitRequests := getLimitForWindowType limits t requests in
  let limitTokens := getLimitForWindowType limits t tokens in
  let windowStart := now in
  let windowEnd := calculateWindowEnd windowStart t in
  let newWindow :=
    Window.mk (next_window_id st1) agentWallet provider model t
              windowStart windowEnd 0 0 limitRequests limitTokens true
              (CURRENT_TIMESTAMP now) in
  (newWindow,
   set_windows (rate_limit_windows st1 ++ [newWindow])
               (S (next_window_id st1)) st1).

(** The WHERE clause of [getCurrentWindow]. *)
Definition is_current_for (agentWallet provider : string)
           (model : option string) (t : WindowType) (w : Window.row) : bool :=
  (Window.agent_wallet w =? agentWallet)%string &&
  (Window.provider w =? provider)%string &&
  model_matches (Window.model w) model &&
  WindowType_eqb (Window.window_type w) t &&
  Window.is_active w.

(** [ORDER BY window_start DESC LIMIT 1]; among equal starts the row met
    first in rowid order is kept. *)
Fixpoint latest (ws : list Window.row) : option Window.row :=
  match ws with
  | [] => None
  | w :: rest =>
      match latest rest with
      | Some b =>
          if Window.window_start w <? Window.window_start b
          then Some b else Some w
      | None => Some w
      end
  end.

Definition select_current (agentWallet provider : string)
           (model : option string) (t : WindowType) (st : Store)
  : option Window.row :=
  latest (filter (is_current_for agentWallet provider model t)
                 (rate_limit_windows st)).

(** [getCurrentWindow]: the active row of the key, created when absent. *)
Definition getCurrentWindow (now : Z) (agentWallet provider : string)
           (model : option string) (t : WindowType) (st : Store)
  : Window.row * Store :=
  match select_current agentWallet provider model t st with
  | Some w => (w, st)
  | None => createWindow now agentWallet provider model t st
  end.

Definition deactivate (w : Window.row) : Window.row :=
  Window.mk (Window.id w) (Window.agent_wallet w) (Window.provider w)
            (Window.model w) (Window.window_type w) (Window.window_start w)
            (Window.window_end w) (Window.request_count w)
            (Window.token_count w) (Window.limit_requests w)
            (Window.limit_tokens w) false (Window.last_updated w).

Definition update_where_id (wid : nat) (f : Window.row -> Window.row)
           (st : Store) : Store :=
  set_windows
    (map (fun w => if Nat.eqb (Window.id w) wid then f w else w)
         (rate_limit_windows st))
    (next_window_id st) st.

(** [rotateWindow]: UPDATE ... SET is_active = 0 WHERE id = ?, then
    [createWindow] for the old row's key. *)
Definition rotateWindow (now : Z) (oldWindow : Window.row) (st : Store)
  : Window.row * Store :=
  let st1 := update_where_id (Window.id oldWindow) deactivate st in
  createWindow now (Window.agent_wallet oldWindow) (Window.provider oldWindow)
               (Window.model oldWindow) (Window.window_type oldWindow) st1.

(** [wouldExceedLimit]; the [tier] argument of the source is unused. *)
Definition wouldExceedLimit (now : Z) (agentWallet provider : string)
           (model : option string) (t : WindowType) (st : Store)
  : LimitCheck * Store :=
  let '(window, st1) := getCurrentWindow now agentWallet provider model t st in
  if Window.window_end window <? now then
    let '(_, st2) := rotateWindow now window st1 in
    let '(newWindow, st3) :=
      getCurrentWindow now agentWallet provider model t st2 in
    (checkWindowLimitDetailed newWindow, st3)
  else (checkWindowLimitDetailed window, st1).

(** SET request_count = request_count + 1, token_count = token_count + ?,
    last_updated = CURRENT_TIMESTAMP *)
Definition bump_counts (now tokens : Z) (w : Window.row) : Window.row :=
  Window.mk (Window.id w) (Window.agent_wallet w) (Window.provider w)
            (Window.model w) (Window.window_type w) (Window.window_start w)
            (Window.window_end w) (Window.request_count w + 1)
            (Window.token_count w + tokens) (Window.limit_requests w)
            (Window.limit_tokens w) (Window.is_active w)
            (CURRENT_TIMESTAMP now).

Definition updateWindowCounts (now : Z) (windowId : nat) (tokens : Z)
           (st : Store) : Store :=
  update_where_id windowId (bump_counts now tokens) st.

Definition incrementWindow (now : Z) (agentWallet provider : string)
           (model : option string) (t : WindowType) (tokens : Z) (st : Store)
  : Store :=
  let '(window, st1) := getCurrentWindow now agentWallet provider model t st in
  if Window.window_end window <? now then
    let '(_, st2) := rotateWindow now window st1 in
    let '(newWindow, st3) :=
      getCurrentWindow now agentWallet provider model t st2 in
    updateWindowCounts now (Window.id newWindow) tokens st3
  else updateWindowCounts now (Window.id window) tokens st1.

(** SET token_count = token_count + ?, last_updated = CURRENT_TIMESTAMP *)
Definition add_tokens (now tokens : Z) (w : Window.row) : Window.row :=
  Window.mk (Window.id w) (Window.agent_wallet w) (Window.provider w)
            (Window.model w) (Window.window_type w) (Window.window_start w)
            (Window.window_end w) (Window.request_count w)
            (Window.token_count w + tokens) (Window.limit_requests w)
            (Window.limit_tokens w) (Window.is_active w)
            (CURRENT_TIMESTAMP now).

(** [updateTokenCount]: [getCurrentWindow] always yields a row, so the
    [!window] return of the source is never taken. *)
Definition updateTokenCount (now : Z) (agentWallet provider : string)
           (model : option string) (t : WindowType) (tokens : Z) (st : Store)
  : Store :=
  let '(window, st1) := getCurrentWindow now agentWallet provider model t st in
  update_where_id (Window.id window) (add_tokens now tokens) st1.

(** [checkWindowLimit]: the boolean form of the check. *)
Definition checkWindowLimit (w : Window.row) : bool :=
  if Js.truthy (limit_reached (Window.limit_requests w) (Window.request_count w))
  then true
  else if Js.truthy (limit_reached (Window.limit_tokens w) (Window.token_count w))
       then true
       else false.

(** The rows [cleanupExpiredWindows] leaves: DELETE ... WHERE is_active = 0
    AND window_end < ?, the cutoff being seven days before [now]. *)
Definition survives_cleanup (now : Z) (w : Window.row) : bool :=
  negb (negb (Window.is_active w) &&
        (Window.window_end w <? now - 7 * 24 * 60 * 60 * 1000)).

(** [cleanupExpiredWindows]: returns [result.changes], the number of rows
    deleted. The AUTOINCREMENT counter is not rewound by a DELETE. *)
Definition cleanupExpiredWindows (now : Z) (st : Store) : nat * Store :=
  let kept := filter (survives_cleanup now) (rate_limit_windows st) in
  ((List.length (rate_limit_windows st) - List.length kept)%nat,
   set_windows kept (next_window_id st) st).

End Tracker.

(** ** queue.js: RequestQueue *)

Module Queue.

Definition defaultPriority : Z := 5.
Definition defaultMaxRetries : Z := 3.
(** [this.maxQueueAge]: 30 minutes, in milliseconds. *)
Definition maxQueueAge : Z := 30 * 60 * 1000.

(** What [enqueue] throws. [ConstraintFailed] is the UNIQUE index on
    queue_id refusing the INSERT. *)
Inductive Error :=
| QueueDisabled
| QueueFull (currentSize max_queue_size : Z)
| ConstraintFailed.

Inductive result (A : Type) :=
| Ok (a : A)
| Throw (e : Error).
Arguments Ok {A} a.
Arguments Throw {A} e.

Definition is_pending_of (agentWallet : string) (e : QueueEntry.row) : bool :=
  (QueueEntry.agent_wallet e =? agentWallet)%string &&
  Status_eqb (QueueEntry.status e) pending.

(** [getQueueSize]: SELECT COUNT( * ) ... WHERE agent_wallet = ? AND
    status = 'pending'. *)
Definition getQueueSize (agentWallet : string) (st : Store) : Z :=
  Z.of_nat (List.length (filter (is_pending_of agentWallet) (request_queue st))).

Definition has_queue_id (queueId : string) (e : QueueEntry.row) : bool :=
  (QueueEntry.queue_id e =? queueId)%string.

(** [enqueue]; [queueId] is the value drawn from randomUUID(). The INSERT
    names no queued_at: the column takes its default, CURRENT_TIMESTAMP. *)
Definition enqueue (now : Z) (queueId : string) (agentWallet provider : string)
           (model : option string) (priority : option Z) (st : Store)
  : result string * Store :=
  let '(quota, st1) := Storage.checkQuotaAvailable now agentWallet st in
  if negb (Storage.can_queue quota) then (Throw QueueDisabled, st1)
  else
    let currentSize := getQueueSize agentWallet st1 in
    if Storage.max_queue_size quota <=? currentSize then
      (Throw (QueueFull currentSize (Storage.max_queue_size quota)), st1)
    else
      let actualPriority :=
        match priority with Some p => p | None => defaultPriority end in
      if existsb (has_queue_id queueId) (request_queue st1) then
        (Throw ConstraintFailed, st1)
      else
        (Ok queueId,
         set_queue
           (request_queue st1 ++
              [QueueEntry.mk queueId agentWallet provider model
                             (CURRENT_TIMESTAMP now)
                             actualPriority 0 defaultMaxRetries pending
                             None None])
           st1).

(** The WHERE clause of [dequeue]: status = 'pending' AND retry_count <
    max_retries, restricted to one tenant when [agentWallet] is truthy. *)
Definition eligible (agentWallet : option string) (e : QueueEntry.row) : bool :=
  Status_eqb (QueueEntry.status e) pending &&
  (QueueEntry.retry_count e <? QueueEntry.max_retries e) &&
  match Js.str_or_null agentWallet with
  | Some a => (QueueEntry.agent_wallet e =? a)%string
  | None => true
  end.

(** [a] sorts strictly before [b] under ORDER BY priority DESC, queued_at ASC. *)
Definition precedes (a b : QueueEntry.row) : bool :=
  (QueueEntry.priority b <? QueueEntry.priority a) ||
  ((QueueEntry.priority a =? QueueEntry.priority b) &&
   (QueueEntry.queued_at a <? QueueEntry.queued_at b)).

(** [LIMIT 1] of the ordered rows; rows with equal keys stay in rowid order. *)
Fixpoint first_in_order (l : list QueueEntry.row) : option QueueEntry.row :=
  match l with
  | [] => None
  | e :: rest =>
      match first_in_order rest with
      | Some b => if precedes b e then Some b else Some e
      | None => Some e
      end
  end.

Definition candidate (agentWallet : option string) (st : Store)
  : option QueueEntry.row :=
  first_in_order (filter (eligible agentWallet) (request_queue st)).

Definition update_where_queue_id (queueId : string)
           (f : QueueEntry.row -> QueueEntry.row) (st : Store) : Store :=
  set_queue
    (map (fun e => if has_queue_id queueId e then f e else e) (request_queue st))
    st.

(** SET status = ?, error = ?, retry_count = retry_count + ?,
    processed_at = CURRENT_TIMESTAMP *)
Definition completed_row (now : Z) (success : bool) (error : option string)
           (e : QueueEntry.row) : QueueEntry.row :=
  QueueEntry.mk (QueueEntry.queue_id e) (QueueEntry.agent_wallet e)
                (QueueEntry.provider e) (QueueEntry.model e)
                (QueueEntry.queued_at e) (QueueEntry.priority e)
                (QueueEntry.retry_count e + (if success then 0 else 1))
                (QueueEntry.max_retries e)
                (if success then completed else failed)
                (Some (CURRENT_TIMESTAMP now)) error.

Definition complete (now : Z) (queueId : string) (success : bool)
           (error : option string) (st : Store) : Store :=
  update_where_queue_id queueId (completed_row now success error) st.

(** SET status = 'processing', processed_at = CURRENT_TIMESTAMP *)
Definition processing_row (now : Z) (e : QueueEntry.row) : QueueEntry.row :=
  QueueEntry.mk (QueueEntry.queue_id e) (QueueEntry.agent_wallet e)
                (QueueEntry.provider e) (QueueEntry.model e)
                (QueueEntry.queued_at e) (QueueEntry.priority e)
                (QueueEntry.retry_count e) (QueueEntry.max_retries e)
                processing (Some (CURRENT_TIMESTAMP now)) (QueueEntry.error e).

(** SET status = 'pending' (the re-queue statement of the manager). *)
Definition pending_row (e : QueueEntry.row) : QueueEntry.row :=
  QueueEntry.mk (QueueEntry.queue_id e) (QueueEntry.agent_wallet e)
                (QueueEntry.provider e) (QueueEntry.model e)
                (QueueEntry.queued_at e) (QueueEntry.priority e)
                (QueueEntry.retry_count e) (QueueEntry.max_retries e)
                pending (QueueEntry.processed_at e) (QueueEntry.error e).

Definition expired_message : string := "Request expired in queue".

Definition inspect {A : Type} (a : A) : {b : A | a = b} := exist _ a eq_refl.

(** Number of rows the SELECT of [dequeue] ranges over. *)
Definition candidates (agentWallet : option string) (st : Store) : nat :=
  List.length (filter (eligible agentWallet) (request_queue st)).

(** [dequeue]: the best candidate, marked processing; a candidate whose age
    is above [maxQueueAge] is completed as a failure and the next one is
    tried. The age is [Date.now() - new Date(queued.queued_at).getTime()],
    with the stored text read back in the zone [tz] of the process. The
    returned record is the row as selected. *)
Equations? dequeue (tz : Js.zone) (now : Z) (agentWallet : option string)
           (st : Store)
  : option QueueEntry.row * Store
  by wf (candidates agentWallet st) lt :=
dequeue tz now agentWallet st with inspect (candidate agentWallet st) => {
  | exist _ None _ => (None, st)
  | exist _ (Some item) _
      with inspect (maxQueueAge <? now - tz (QueueEntry.queued_at item)) => {
      | exist _ true _ =>
          dequeue tz now agentWallet
                  (complete now (QueueEntry.queue_id item) false
                            (Some expired_message) st)
      | exist _ false _ =>
          (Some item,
           update_where_queue_id (QueueEntry.queue_id item)
                                 (processing_row now) st) } }.
Proof.
  clear dequeue e0.
  unfold candidates, candidate, complete, update_where_queue_id in *.
  destruct st as [cs ws n qs q es ps]; cbn in *.
  assert (Hin : In item (filter (eligible agentWallet) q)).
  { clear - e. revert item e.
    induction (filter (eligible agentWallet) q) as [|a l IH]; cbn; intros x Hx.
    - discriminate.
    - destruct (first_in_order l) as [b|] eqn:Hb.
      + destruct (precedes b a); inversion Hx; subst; auto.
      + inversion Hx; subst; auto. }
  apply filter_In in Hin. destruct Hin as [Hin Hel].
  clear e. induction q as [|a l IH]; cbn in *.
  - contradiction.
  - assert (Hle : forall l0,
      (List.length (filter (eligible agentWallet)
         (map (fun e => if has_queue_id (QueueEntry.queue_id item) e
                        then completed_row now false (Some expired_message) e
                        else e) l0)) <= List.length (filter (eligible agentWallet) l0))%nat).
    { induction l0 as [|c l0 IH0]; cbn; [lia|].
      destruct (has_queue_id (QueueEntry.queue_id item) c).
      - unfold eligible at 1. cbn. destruct (eligible agentWallet c); cbn; lia.
      - destruct (eligible agentWallet c); cbn; lia. }
    destruct Hin as [Heq | Hin].
    + subst a. unfold has_queue_id at 1. rewrite String.eqb_refl.
      unfold eligible at 1. cbn. rewrite Hel. cbn.
      specialize (Hle l). lia.
    + specialize (IH Hin).
      destruct (has_queue_id (QueueEntry.queue_id item) a).
      * unfold eligible at 1. cbn.
        destruct (eligible agentWallet a); cbn; lia.
      * destruct (eligible agentWallet a); cbn; lia.
Qed.

(** SET status = 'pending', error = NULL *)
Definition retried_row (e : QueueEntry.row) : QueueEntry.row :=
  QueueEntry.mk (QueueEntry.queue_id e) (QueueEntry.agent_wallet e)
                (QueueEntry.provider e) (QueueEntry.model e)
                (QueueEntry.queued_at e) (QueueEntry.priority e)
                (QueueEntry.retry_count e) (QueueEntry.max_retries e)
                pending (QueueEntry.processed_at e) None.

(** [retry]: the "not found" error is thrown inside the try block, so it is
    caught and answered with [false] like every other failure. *)
Definition retry (queueId : string) (st : Store) : bool * Store :=
  match find (has_queue_id queueId) (request_queue st) with
  | None => (false, st)
  | Some item =>
      if QueueEntry.max_retries item <=? QueueEntry.retry_count item
      then (false, st)
      else (true, update_where_queue_id queueId retried_row st)
  end.

(** WHERE queue_id = ? AND status = 'pending' *)
Definition is_pending_id (queueId : string) (e : QueueEntry.row) : bool :=
  has_queue_id queueId e && Status_eqb (QueueEntry.status e) pending.

(** An UPDATE ... WHERE queue_id = ? AND status = 'pending'; the boolean is
    [result.changes > 0]. *)
Definition update_pending (queueId : string)
           (f : QueueEntry.row -> QueueEntry.row) (st : Store) : bool * Store :=
  (existsb (is_pending_id queueId) (request_queue st),
   set_queue
     (map (fun e => if is_pending_id queueId e then f e else e)
          (request_queue st))
     st).

(** SET status = 'failed', error = 'Cancelled by user' *)
Definition cancelled_row (e : QueueEntry.row) : QueueEntry.row :=
  QueueEntry.mk (QueueEntry.queue_id e) (QueueEntry.agent_wallet e)
                (QueueEntry.provider e) (QueueEntry.model e)
                (QueueEntry.queued_at e) (QueueEntry.priority e)
                (QueueEntry.retry_count e) (QueueEntry.max_retries e)
                failed (QueueEntry.processed_at e) (Some "Cancelled by user").

Definition cancel (queueId : string) (st : Store) : bool * Store :=
  update_pending queueId cancelled_row st.

(** SET priority = ? *)
Definition reprioritised_row (newPriority : Z) (e : QueueEntry.row)
  : QueueEntry.row :=
  QueueEntry.mk (QueueEntry.queue_id e) (QueueEntry.agent_wallet e)
                (QueueEntry.provider e) (QueueEntry.model e)
                (QueueEntry.queued_at e) newPriority
                (QueueEntry.retry_count e) (QueueEntry.max_retries e)
                (QueueEntry.status e) (QueueEntry.processed_at e)
                (QueueEntry.error e).

(** [updatePriority]: the range error is thrown inside the try block and
    answered with [false]. *)
Definition updatePriority (queueId : string) (newPriority : Z) (st : Store)
  : bool * Store :=
  if (newPriority <? 1) || (10 <? newPriority) then (false, st)
  else update_pending queueId (reprioritised_row newPriority) st.

(** [getQueuePosition]: one plus the number of the tenant's pending entries
    with a higher priority, or the same priority and an earlier queued_at;
    [None] is the source's null. *)
Definition getQueuePosition (queueId : string) (st : Store) : option Z :=
  match find (is_pending_id queueId) (request_queue st) with
  | None => None
  | Some item =>
      Some (Z.of_nat
              (List.length
                 (filter (fun e => is_pending_of (QueueEntry.agent_wallet item) e
                                   && precedes e item)
                         (request_queue st))) + 1)
  end.

(** The rows [clearOldRequests] leaves: DELETE ... WHERE status IN
    ('completed', 'failed') AND queued_at < datetime('now', '-N days'). Both
    sides are timestamps of one-second resolution. *)
Definition survives_clearing (now maxAgeDays : Z) (e : QueueEntry.row) : bool :=
  negb ((Status_eqb (QueueEntry.status e) completed ||
         Status_eqb (QueueEntry.status e) failed) &&
        (QueueEntry.queued_at e / 1000 <? now / 1000 - maxAgeDays * 86400)).

(** [clearOldRequests], for a whole number of days; returns [result.changes].
    With a negative count the modifier reads '--N days', which datetime()
    rejects: the bound is NULL and no row compares below it. *)
Definition clearOldRequests (now maxAgeDays : Z) (st : Store) : nat * Store :=
  if maxAgeDays <? 0 then (0%nat, st)
  else
    let kept := filter (survives_clearing now maxAgeDays) (request_queue st) in
    ((List.length (request_queue st) - List.length kept)%nat,
     set_queue kept st).

End Queue.

(** ** manager.js: RateLimitManager *)

Module Manager.

(** [requestData._rate_limit_decision] *)
Record Decision := mkDecision {
  request_id : string;
  agent_wallet : string;
  provider : string;
  model : option string;
  timestamp : Z;
  allowed : bool
}.

(** The fields of the request object the hooks read or write. *)
Record Request := mkRequest {
  agentWallet : option string;
  priority : option Z;
  rate_limit_decision : option Decision
}.

(** The fields of the response object [afterProvider] reads:
    [_cost_metrics.tokens_total] and [usage.total_tokens]. *)
Record Response := mkResponse {
  cost_metrics_tokens_total : option Z;
  usage_total_tokens : option Z
}.

(** What [beforeProvider] throws. *)
Inductive Error :=
| QuotaExceeded
| QueueIsFull (queueSize max_queue_size : Z) (windowType : WindowType)
              (current limit : Z)
| RequestQueued (queueId : string) (windowType : WindowType) (current limit : Z)
| RateLimitExceeded (windowType : WindowType) (current limit : Z)
| EnqueueFailed (e : Queue.Error).

Inductive Outcome :=
| Returned
| Thrown (e : Error).

Definition windows : list WindowType := [per_minute; per_hour; per_day].

(** The loop over [windows] that stops at the first exceeded limit. *)
Fixpoint firstExceeded (now : Z) (agentWallet provider : string)
         (model : option string) (ts : list WindowType) (st : Store)
  : option (WindowType * Tracker.LimitCheck) * Store :=
  match ts with
  | [] => (None, st)
  | windowType :: rest =>
      let '(wouldExceed, st1) :=
        Tracker.wouldExceedLimit now agentWallet provider model windowType st in
      if Js.truthy (Tracker.exceeded wouldExceed)
      then (Some (windowType, wouldExceed), st1)
      else firstExceeded now agentWallet provider model rest st1
  end.

(** The loop that pre-increments (or, for a drained entry, increments) the
    window of every type with [tokens = 0]. *)
Fixpoint incrementAll (now : Z) (agentWallet provider : string)
         (model : option string) (ts : list WindowType) (st : Store) : Store :=
  match ts with
  | [] => st
  | windowType :: rest =>
      incrementAll now agentWallet provider model rest
        (Tracker.incrementWindow now agentWallet provider model windowType 0 st)
  end.

Definition limitEvent (kind : EventType.t) (agentWallet provider : string)
           (model : option string) (requestId : string)
           (windowType : WindowType) (c : Tracker.LimitCheck) (wasQueued : bool)
  : Storage.EventData :=
  Storage.mkEventData agentWallet provider model kind (Some windowType)
                      (Some (Tracker.current c)) (Some (Tracker.limit c))
                      (Some (Tracker.percentUsed c)) (Some requestId) wasQueued.

(** [beforeProvider]. [queueId] is the identifier [enqueue] would draw. The
    result carries the request object as the hook leaves it. *)
Definition beforeProvider (now : Z) (queueId : string)
           (requestId provider : string) (model : option string)
           (agentId : string) (requestData : Request) (st : Store)
  : Outcome * Request * Store :=
  let agentWallet := Js.str_or (agentWallet requestData) agentId in
  let '(quota, st1) := Storage.checkQuotaAvailable now agentWallet st in
  if negb (Storage.available quota) then (Thrown QuotaExceeded, requestData, st1)
  else
    let '(wouldExceedWindow, st2) :=
      firstExceeded now agentWallet provider model windows st1 in
    match wouldExceedWindow with
    | Some (windowType, c) =>
        match Storage.tier quota, Storage.can_queue quota with
        | pro, true =>
            let queueSize := Queue.getQueueSize agentWallet st2 in
            if Storage.max_queue_size quota <=? queueSize then
              (Thrown (QueueIsFull queueSize (Storage.max_queue_size quota)
                                   windowType (Tracker.current c)
                                   (Tracker.limit c)),
               requestData, st2)
            else
              match Queue.enqueue now queueId agentWallet provider model
                                  (Some (Js.or_default (priority requestData) 5))
                                  st2 with
              | (Queue.Throw e, st3) => (Thrown (EnqueueFailed e), requestData, st3)
              | (Queue.Ok qid, st3) =>
                  let st4 :=
                    Storage.recordEvent now
                      (limitEvent EventType.queued agentWallet provider model requestId
                                  windowType c true) st3 in
                  (Thrown (RequestQueued qid windowType (Tracker.current c)
                                         (Tracker.limit c)),
                   requestData, st4)
              end
        | _, _ =>
            let st3 :=
              Storage.recordEvent now
                (limitEvent EventType.blocked agentWallet provider model requestId
                            windowType c false) st2 in
            (Thrown (RateLimitExceeded windowType (Tracker.current c)
                                       (Tracker.limit c)),
             requestData, st3)
        end
    | None =>
        let st3 :=
          Storage.recordEvent now
            (Storage.mkEventData agentWallet provider model EventType.allowed None None
                                 None None (Some requestId) false) st2 in
        let st4 := incrementAll now agentWallet provider model windows st3 in
        (Returned,
         mkRequest (Manager.agentWallet requestData) (priority requestData)
                   (Some (mkDecision requestId agentWallet provider model now true)),
         st4)
    end.

(** The body of the drain loop, run at most [n] times. [dequeue] is called
    without a tenant. *)
Fixpoint drain (tz : Js.zone) (n : nat) (now : Z) (st : Store) : Store :=
  match n with
  | O => st
  | S k =>
      match Queue.dequeue tz now None st with
      | (None, st1) => st1
      | (Some item, st1) =>
          let '(wouldExceed, st2) :=
            Tracker.wouldExceedLimit now (QueueEntry.agent_wallet item)
                                     (QueueEntry.provider item)
                                     (QueueEntry.model item) per_minute st1 in
          if negb (Js.truthy (Tracker.exceeded wouldExceed)) then
            let st3 := Queue.complete now (QueueEntry.queue_id item) true None st2 in
            let st4 :=
              incrementAll now (QueueEntry.agent_wallet item)
                           (QueueEntry.provider item) (QueueEntry.model item)
                           windows st3 in
            drain tz k now st4
          else
            Queue.update_where_queue_id (QueueEntry.queue_id item)
                                        Queue.pending_row st2
      end
  end.

(** [processQueue]: [for (i = 0; i < Math.min(5, queueSize); i++)]. *)
Definition processQueue (tz : Js.zone) (now : Z) (agentWallet : string)
           (st : Store) : Store :=
  let queueSize := Queue.getQueueSize agentWallet st in
  if queueSize =? 0 then st
  else drain tz (Z.to_nat (Z.min 5 queueSize)) now st.

(** [_cost_metrics?.tokens_total || usage?.total_tokens || 0] *)
Definition tokensUsed (response : Response) : Z :=
  Js.or_default (cost_metrics_tokens_total response)
                (Js.or_default (usage_total_tokens response) 0).

(** The loop of [afterProvider] that adds the tokens to every window type. *)
Fixpoint updateTokensAll (now : Z) (agentWallet provider : string)
         (model : option string) (tokens : Z) (ts : list WindowType)
         (st : Store) : Store :=
  match ts with
  | [] => st
  | windowType :: rest =>
      updateTokensAll now agentWallet provider model tokens rest
        (Tracker.updateTokenCount now agentWallet provider model windowType
                                  tokens st)
  end.

Definition decision_allowed (request : Request) : bool :=
  match rate_limit_decision request with
  | Some d => allowed d
  | None => false
  end.

(** [afterProvider] *)
Definition afterProvider (tz : Js.zone) (now : Z) (provider : string)
           (model : option string) (agentId : string) (request : Request)
           (response : Response) (st : Store) : Store :=
  let agentWallet := Js.str_or (agentWallet request) agentId in
  if negb (decision_allowed request) then st
  else
    let st1 :=
      updateTokensAll now agentWallet provider model (tokensUsed response)
                      windows st in
    let '(quota, st2) := Storage.checkQuotaAvailable now agentWallet st1 in
    match Storage.tier quota, Storage.can_queue quota with
    | pro, true => processQueue tz now agentWallet st2
    | _, _ => st2
    end.

End Manager.

(** ** detector.js: PatternDetector (persistence of detected patterns) *)

Module Detector.

Definition minPatternConfidence : Q := 6 # 10.

(** The fields of a detected pattern object that [storePattern] reads. *)
Record Detected := mkDetected {
  pattern_type : string;
  description : string;
  typical_windows : option (list string);
  avg_requests_per_minute : option Z;
  peak_requests_per_minute : option Z;
  suggested_limit : option Z;
  suggested_queue_size : option Z;
  confidence : Q
}.

(** [Array.prototype.join(',')] *)
Fixpoint join (l : list string) : string :=
  match l with
  | [] => ""
  | [x] => x
  | x :: rest => x ++ "," ++ join rest
  end.

(** [pattern.typical_windows?.join(',') || pattern.description] *)
Definition typical_window_of (p : Detected) : string :=
  Js.str_or (option_map join (typical_windows p)) (description p).

Definition has_pattern_id (patternId : string) (r : Pattern.row) : bool :=
  (Pattern.pattern_id r =? patternId)%string.

(** [storePattern]: a plain INSERT under [patternId], the value drawn from
    randomUUID(). observation_count and detected_at take their column
    defaults, 1 and CURRENT_TIMESTAMP. When the
    UNIQUE index on pattern_id refuses the row, the error is caught and
    logged, and the table is left as it was. *)
Definition storePattern (now : Z) (patternId : string) (agentWallet : string)
           (pattern : Detected) (st : Store) : Store :=
  if existsb (has_pattern_id patternId) (usage_patterns st) then st
  else
    set_patterns
      (usage_patterns st ++
         [Pattern.mk patternId (Some agentWallet) (pattern_type pattern)
                     (Js.or_null (avg_requests_per_minute pattern))
                     (Js.or_null (peak_requests_per_minute pattern))
                     (Some (typical_window_of pattern))
                     (confidence pattern)
                     (Js.or_null (suggested_limit pattern))
                     (Js.or_null (suggested_queue_size pattern))
                     (CURRENT_TIMESTAMP now) 1])
      st.

(** One "if (pattern.confidence >= this.minPatternConfidence)" block of
    [analyzeUsage]. *)
Definition storeIfConfident (now : Z) (patternId : string)
           (agentWallet : string) (pattern : Detected) (st : Store) : Store :=
  if Qle_bool minPatternConfidence (confidence pattern)
  then storePattern now patternId agentWallet pattern st
  else st.

(** The persistence steps of [analyzeUsage], given the three analyses'
    results and the identifiers the three [storePattern] calls would draw. *)
Definition analyzeUsage_store (now : Z) (id1 id2 id3 : string)
           (agentWallet : string)
           (hourlyPattern weeklyPattern burstPattern : Detected) (st : Store)
  : Store :=
  storeIfConfident now id3 agentWallet burstPattern
    (storeIfConfident now id2 agentWallet weeklyPattern
       (storeIfConfident now id1 agentWallet hourlyPattern st)).

(** Rows of one tenant and pattern type. *)
Definition rows_of (agentWallet pattern_type : string) (st : Store)
  : list Pattern.row :=
  filter (fun r =>
            match Pattern.agent_wallet r with
            | Some a => (a =? agentWallet)%string
            | None => false
            end && (Pattern.pattern_type r =? pattern_type)%string)
         (usage_patterns st).

(** [categorizeTimeWindows]: the labels are pushed in this order. *)
Definition categorizeTimeWindows (peakHours : list Z) : list string :=
  ((if existsb (fun h => (6 <=? h) && (h <? 12)) peakHours
    then ["morning"%string] else []) ++
   (if existsb (fun h => (12 <=? h) && (h <? 18)) peakHours
    then ["afternoon"%string] else []) ++
   (if existsb (fun h => (18 <=? h) && (h <? 24)) peakHours
    then ["evening"%string] else []) ++
   (if existsb (fun h => (0 <=? h) && (h <? 6)) peakHours
    then ["night"%string] else []))%list.

Definition getCurrentTimeWindow (hour : Z) : string :=
  if (6 <=? hour) && (hour <? 12) then "morning"
  else if (12 <=? hour) && (hour <? 18) then "afternoon"
  else if (18 <=? hour) && (hour <? 24) then "evening"
  else "night".

(** [String.prototype.split(',')]: the empty string splits into one empty
    piece. *)
Fixpoint split (s : string) : list string :=
  match s with
  | EmptyString => [EmptyString]
  | String c rest =>
      if (String c EmptyString =? ",")%string then EmptyString :: split rest
      else match split rest with
           | x :: xs => String c x :: xs
           | [] => [String c EmptyString]
           end
  end.

(** [windows.includes(currentWindow)] of [predictUsage], on the stored
    typical_window. *)
Definition includes (l : list string) (x : string) : bool :=
  existsb (String.eqb x) l.

End Detector.

(** ** x402.js: X402PaymentHandler (license status) *)

Module X402.

(** The three shapes of the object [hasValidLicense] returns:
    [{valid: false, tier: 'free'}], [{valid: true, tier, expires,
    days_remaining}] and [{valid: false, tier: 'expired', expired: true}]. *)
Inductive License :=
| NoLicense
| Valid (tier : string) (expires : Z) (days_remaining : Z)
| Expired.

(** [Math.ceil(ms / (1000 * 60 * 60 * 24))]; exact on the integers a
    difference of two timestamps can be. *)
Definition days_up (ms : Z) : Z := - ((- ms) / (1000 * 60 * 60 * 24)).

(** [hasValidLicense]: reads the tenant's quota row and creates none. *)
Definition hasValidLicense (now : Z) (agentWallet : string) (st : Store)
  : License :=
  match Storage.find_quota agentWallet (agent_limit_quotas st) with
  | None => NoLicense
  | Some quota =>
      match (Quota.tier quota =? "free")%string, Quota.paid_until quota with
      | true, _ | _, None => NoLicense
      | false, Some expiry =>
          if now <? expiry
          then Valid (Quota.tier quota) expiry (days_up (expiry - now))
          else Expired
      end
  end.

End X402.

(** ** Vocabulary of the statements *)

(** A limit column is set when it holds a ceiling: a number other than 0.
    NULL stands for no ceiling, and so does 0, which the tracker never
    stores ([createWindow_limits_normalised]). *)
Definition limit_set (lim : option Z) : Prop :=
  exists l, lim = Some l /\ l <> 0.

(** The binary64 value nearest to an integer, and the expression
    [(current / limit) * 100] evaluated in binary64 arithmetic. *)
Definition binary64 (n : Z) : spec_float := binary_normalize 53 1024 n 0 false.

Definition percent_of (current limit : Z) : spec_float :=
  SFmul 53 1024 (SFdiv 53 1024 (binary64 current) (binary64 limit))
        (binary64 100).

(** The built-in providers of the default table. *)
Definition builtin_provider (provider : string) : Prop :=
  provider = "anthropic" \/ provider = "openai" \/ provider = "google".

(** No rate_limit_configs row mentions the provider. *)
Definition no_stored_config (provider : string) (st : Store) : Prop :=
  forall c, In c (rate_limit_configs st) -> Config.provider c <> provider.

Definition anthropic_free : Limits :=
  mkLimits (Some 50) None (Some 1000) (Some 40000) (Some 300000).

(** The ceilings of the built-in anthropic free-tier entry, by horizon:
    50 requests and 40000 tokens per minute, none per hour, 1000 requests
    and 300000 tokens per day. *)
Definition anthropic_free_requests (t : WindowType) : option Z :=
  match t with
  | per_minute => Some 50 | per_hour => None | per_day => Some 1000
  end.

Definition anthropic_free_tokens (t : WindowType) : option Z :=
  match t with
  | per_minute => Some 40000 | per_hour => None | per_day => Some 300000
  end.

(** The window carries the anthropic free-tier ceilings of its horizon. *)
Definition anthropic_free_window (w : Window.row) : Prop :=
  Window.limit_requests w = anthropic_free_requests (Window.window_type w) /\
  Window.limit_tokens w = anthropic_free_tokens (Window.window_type w).

(** No limit configuration mentions the provider, and every window of the
    provider with a rowid from [n] on carries the anthropic free-tier
    ceilings. *)
Definition anthropic_free_since (n : nat) (provider : string) (st : Store)
  : Prop :=
  no_stored_config provider st /\
  forall w, In w (rate_limit_windows st) -> Window.provider w = provider ->
            (n <= Window.id w)%nat -> anthropic_free_window w.

(** The state of a provider that has only ever been resolved to the
    anthropic free-tier entry: no limit configuration mentions it, and every
    window opened for it carries those ceilings. *)
Definition under_anthropic_free (provider : string) (st : Store) : Prop :=
  anthropic_free_since 0 provider st.

(** No usage_patterns row carries the identifier yet. *)
Definition fresh_pattern_id (patternId : string) (st : Store) : Prop :=
  forall r, In r (usage_patterns st) -> Pattern.pattern_id r <> patternId.

(** What the tracker and the quota accessors leave alone: every table but
    rate_limit_windows and agent_limit_quotas, and every tenant's effective
    quota (a quota row is only ever added with the defaults a missing row
    stands for). *)
Definition tracker_frame (st st' : Store) : Prop :=
  rate_limit_configs st' = rate_limit_configs st /\
  request_queue st' = request_queue st /\
  rate_limit_events st' = rate_limit_events st /\
  usage_patterns st' = usage_patterns st /\
  (forall now agentWallet,
     fst (Storage.checkQuotaAvailable now agentWallet st') =
     fst (Storage.checkQuotaAvailable now agentWallet st)).

(** No request_queue row carries the identifier yet. *)
Definition fresh_queue_id (queueId : string) (st : Store) : Prop :=
  forall e, In e (request_queue st) -> QueueEntry.queue_id e <> queueId.

(** [n] is the number of rows of [l] that satisfy [P]. *)
Inductive counted {A : Type} (P : A -> Prop) : list A -> nat -> Prop :=
| counted_nil : counted P [] 0
| counted_in x l n : P x -> counted P l n -> counted P (x :: l) (S n)
| counted_out x l n : ~ P x -> counted P l n -> counted P (x :: l) n.

(** A pending entry of the tenant. *)
Definition pending_entry_of (agentWallet : string) (e : QueueEntry.row)
  : Prop :=
  QueueEntry.agent_wallet e = agentWallet /\ QueueEntry.status e = pending.

(** [a] comes strictly before [b] in the order of the queue: it has a
    higher priority, or the same priority and was queued earlier. *)
Definition sorts_before (a b : QueueEntry.row) : Prop :=
  QueueEntry.priority b < QueueEntry.priority a \/
  (QueueEntry.priority a = QueueEntry.priority b /\
   QueueEntry.queued_at a < QueueEntry.queued_at b).

(** An entry that a dequeue for [agentWallet] may select: pending, with
    retries left, and of that tenant when one is given (no tenant, or the
    empty string, selects among all tenants). *)
Definition dequeue_candidate (agentWallet : option string)
           (e : QueueEntry.row) : Prop :=
  QueueEntry.status e = pending /\
  QueueEntry.retry_count e < QueueEntry.max_retries e /\
  (forall a, agentWallet = Some a -> a <> "" -> QueueEntry.agent_wallet e = a).

(** What the queue operations leave alone: every table but request_queue. *)
Definition queue_frame (st st' : Store) : Prop :=
  rate_limit_configs st' = rate_limit_configs st /\
  rate_limit_windows st' = rate_limit_windows st /\
  next_window_id st' = next_window_id st /\
  agent_limit_quotas st' = agent_limit_quotas st /\
  rate_limit_events st' = rate_limit_events st /\
  usage_patterns st' = usage_patterns st.

(** The row belongs to the accounting key (tenant, provider, model, horizon). *)
Definition matches_key (agentWallet provider : string) (model : option string)
           (t : WindowType) (w : Window.row) : Prop :=
  Window.agent_wallet w = agentWallet /\ Window.provider w = provider /\
  Window.model w = model /\ Window.window_type w = t.

Definition same_key (w1 w2 : Window.row) : Prop :=
  matches_key (Window.agent_wallet w1) (Window.provider w1) (Window.model w1)
              (Window.window_type w1) w2.

(** A well-formed window table: rowids are unique and below the
    AUTOINCREMENT counter, and a key has at most one active row. *)
Definition windows_wf (st : Store) : Prop :=
  NoDup (map Window.id (rate_limit_windows st)) /\
  (forall w, In w (rate_limit_windows st) ->
             (Window.id w < next_window_id st)%nat) /\
  (forall w1 w2,
     In w1 (rate_limit_windows st) -> In w2 (rate_limit_windows st) ->
     Window.is_active w1 = true -> Window.is_active w2 = true ->
     same_key w1 w2 -> w1 = w2).

Definition counts (w : Window.row) : Z * Z :=
  (Window.request_count w, Window.token_count w).

(** The counts an operation that rotates stale windows finds for a key at
    [now]: those of the key's active window when it has not ended, zero when
    it has ended or when there is none. *)
Definition live_counts (now : Z) (agentWallet provider : string)
           (model : option string) (t : WindowType) (st : Store) : Z * Z :=
  match Tracker.select_current agentWallet provider model t st with
  | Some w => if Window.window_end w <? now then (0, 0) else counts w
  | None => (0, 0)
  end.

(** The counts of the key's active window, ended or not; zero when there is
    none. *)
Definition active_counts (agentWallet provider : string)
           (model : option string) (t : WindowType) (st : Store) : Z * Z :=
  match Tracker.select_current agentWallet provider model t st with
  | Some w => counts w
  | None => (0, 0)
  end.

(** The window an admission check or an increment settles on, and the store it
    leaves: the common prefix of [wouldExceedLimit] and [incrementWindow]. *)
Definition settle (now : Z) (agentWallet provider : string)
           (model : option string) (t : WindowType) (st : Store)
  : Window.row * Store :=
  let '(window, st1) :=
    Tracker.getCurrentWindow now agentWallet provider model t st in
  if Window.window_end window <? now then
    let '(_, st2) := Tracker.rotateWindow now window st1 in
    Tracker.getCurrentWindow now agentWallet provider model t st2
  else (window, st1).

(** An UPDATE that keeps a row's id, key and bounds, and does not activate. *)
Definition keeps_identity (f : Window.row -> Window.row) : Prop :=
  forall w,
    Window.id (f w) = Window.id w /\
    Window.agent_wallet (f w) = Window.agent_wallet w /\
    Window.provider (f w) = Window.provider w /\
    Window.model (f w) = Window.model w /\
    Window.window_type (f w) = Window.window_type w /\
    Window.window_start (f w) = Window.window_start w /\
    Window.window_end (f w) = Window.window_end w /\
    (Window.is_active (f w) = true -> Window.is_active w = true).

(** Two versions of a row that differ at most in token_count and
    last_updated. *)
Definition same_but_tokens (w w' : Window.row) : Prop :=
  Window.id w' = Window.id w /\
  Window.agent_wallet w' = Window.agent_wallet w /\
  Window.provider w' = Window.provider w /\
  Window.model w' = Window.model w /\
  Window.window_type w' = Window.window_type w /\
  Window.window_start w' = Window.window_start w /\
  Window.window_end w' = Window.window_end w /\
  Window.request_count w' = Window.request_count w /\
  Window.limit_requests w' = Window.limit_requests w /\
  Window.limit_tokens w' = Window.limit_tokens w /\
  Window.is_active w' = Window.is_active w.

(** The window table of [st'] is that of [st], row by row, up to token_count
    and last_updated, followed by rows created since (with zero requests). *)
Definition tokens_only (st st' : Store) : Prop :=
  (next_window_id st <= next_window_id st')%nat /\
  exists kept created,
    rate_limit_windows st' = (kept ++ created)%list /\
    Forall2 same_but_tokens (rate_limit_windows st) kept /\
    Forall (fun w => (next_window_id st <= Window.id w)%nat /\
                     Window.request_count w = 0) created.

(** A window table in step with the clock reading [now]: every row starts
    before it ends, and a row that is no longer active has ended. *)
Definition timeline (now : Z) (st : Store) : Prop :=
  forall w, In w (rate_limit_windows st) ->
            Window.window_start w < Window.window_end w /\
            (Window.is_active w = false -> Window.window_end w < now).

(** The invariant of the window table at clock reading [now]. *)
Definition windows_ok (now : Z) (st : Store) : Prop :=
  windows_wf st /\ timeline now st.

(** [l'] is [l] with some rows that are not active taken out. *)
Inductive pruned : list Window.row -> list Window.row -> Prop :=
| pruned_nil : pruned [] []
| pruned_keep w l l' : pruned l l' -> pruned (w :: l) (w :: l')
| pruned_drop w l l' :
    Window.is_active w = false -> pruned l l' -> pruned (w :: l) l'.

(** [st'] is [st] with some inactive windows deleted and nothing else
    changed; the AUTOINCREMENT counter is the same. *)
Definition pruned_store (st st' : Store) : Prop :=
  rate_limit_configs st' = rate_limit_configs st /\
  pruned (rate_limit_windows st) (rate_limit_windows st') /\
  next_window_id st' = next_window_id st /\
  agent_limit_quotas st' = agent_limit_quotas st /\
  request_queue st' = request_queue st /\
  rate_limit_events st' = rate_limit_events st /\
  usage_patterns st' = usage_patterns st.

(** [l'] is [l] with some rows that are not pending taken out. *)
Inductive settled_dropped : list QueueEntry.row -> list QueueEntry.row -> Prop :=
| settled_nil : settled_dropped [] []
| settled_keep e l l' : settled_dropped l l' -> settled_dropped (e :: l) (e :: l')
| settled_drop e l l' :
    QueueEntry.status e <> pending ->
    settled_dropped l l' -> settled_dropped (e :: l) l'.

(** Horizon [t] is within its request ceilings at [now]: every key's
    current window that has not ended counts no more requests than its
    (positive) request limit. *)
Definition within_ceiling (now : Z) (t : WindowType) (st : Store) : Prop :=
  forall agentWallet provider model w,
    Tracker.select_current agentWallet provider model t st = Some w ->
    now <= Window.window_end w ->
    forall l, Window.limit_requests w = Some l -> 0 < l ->
              Window.request_count w <= l.

(** The window has room for one more request under its request limit. *)
Definition has_room (w : Window.row) : Prop :=
  forall l, Window.limit_requests w = Some l -> 0 < l ->
            Window.request_count w < l.

(** Number of queue entries marked completed. *)
Definition completed_count (st : Store) : nat :=
  List.length
    (filter (fun e => Status_eqb (QueueEntry.status e) completed)
            (request_queue st)).

(** What a dequeue at [now], in a process of zone [tz], does to a row that
    it does not hand out: nothing, or, for a pending row whose age (with
    queued_at read back in [tz]) is past the maximum queue age, the expiry. *)
Definition expired_or_same (tz : Js.zone) (now : Z) (e e' : QueueEntry.row)
  : Prop :=
  e' = e \/
  (QueueEntry.status e = pending /\
   Queue.maxQueueAge < now - tz (QueueEntry.queued_at e) /\
   e' = Queue.completed_row now false (Some Queue.expired_message) e).

(** What a post-call at [now] may have done to a queue row [e], leaving
    [e']: nothing; or, for a pending row, the expiry (past the maximum queue
    age), the completion, or the return to pending after the attempt (both
    within the age bound and with retries left). *)
Definition drained_entry (tz : Js.zone) (now : Z) (e e' : QueueEntry.row)
  : Prop :=
  expired_or_same tz now e e' \/
  (QueueEntry.status e = pending /\
   now - tz (QueueEntry.queued_at e) <= Queue.maxQueueAge /\
   QueueEntry.retry_count e < QueueEntry.max_retries e /\
   (e' = Queue.completed_row now true None (Queue.processing_row now e) \/
    e' = Queue.pending_row (Queue.processing_row now e))).

(** A dequeue that returns [o], row by row. *)
Definition dequeued_row (tz : Js.zone) (now : Z) (o : option QueueEntry.row)
           (e e' : QueueEntry.row) : Prop :=
  (o = Some e /\ e' = Queue.processing_row now e) \/
  ((forall item, o = Some item ->
                 QueueEntry.queue_id e <> QueueEntry.queue_id item) /\
   expired_or_same tz now e e').

(** The horizon, count and limit that a refusal of the pre-call reports. *)
Definition reported (o : Manager.Outcome) : option (WindowType * Z * Z) :=
  match o with
  | Manager.Thrown (Manager.QueueIsFull _ _ t c l)
  | Manager.Thrown (Manager.RequestQueued _ t c l)
  | Manager.Thrown (Manager.RateLimitExceeded t c l) => Some (t, c, l)
  | _ => None
  end.

(** The rows of horizon [t], in rowid order. *)
Definition of_type (t : WindowType) (st : Store) : list Window.row :=
  filter (fun w => WindowType_eqb (Window.window_type w) t)
         (rate_limit_windows st).

(** [UPDATE ... SET ... WHERE id = wid], on a list of rows: the row with that
    id is replaced by its image under [f], every other row is as it was. *)
Definition at_id (wid : nat) (f : Window.row -> Window.row)
           (ws : list Window.row) : list Window.row :=
  map (fun w => if Nat.eqb (Window.id w) wid then f w else w) ws.

(** An active window of the key that starts at [now], with the given
    counts. *)
Definition opened (now : Z) (agentWallet provider : string)
           (model : option string) (t : WindowType) (requests tokens : Z)
           (c : Window.row) : Prop :=
  matches_key agentWallet provider model t c /\
  Window.is_active c = true /\
  Window.window_start c = now /\
  Window.window_end c = now + Tracker.windowDurations t /\
  Window.request_count c = requests /\
  Window.token_count c = tokens.

(** What settling horizon [t] of a key at [now] does to the rows of that
    horizon: [rows'] are the rows it leaves and [w] is the window it settles
    on. A live current window is kept; an ended one is deactivated and a
    window is opened; a window is opened when the key has none. *)
Definition settled_rows (now : Z) (agentWallet provider : string)
           (model : option string) (t : WindowType) (st : Store)
           (rows' : list Window.row) (w : Window.row) : Prop :=
  match Tracker.select_current agentWallet provider model t st with
  | Some w0 =>
      if Window.window_end w0 <? now
      then rows' = (at_id (Window.id w0) Tracker.deactivate (of_type t st)
                      ++ [w])%list /\
           opened now agentWallet provider model t 0 0 w /\
           (next_window_id st <= Window.id w)%nat
      else rows' = of_type t st /\ w = w0
  | None =>
      rows' = (of_type t st ++ [w])%list /\
      opened now agentWallet provider model t 0 0 w /\
      (next_window_id st <= Window.id w)%nat
  end.

(** * Properties *)

(** ** WindowTracker: the would-exceed decision *)

Lemma limit_reached_true lim count :
  Tracker.limit_reached lim count = Js.Bool true <->
  exists l, lim = Some l /\ l <> 0 /\ l <= count.
Proof.
  unfold Tracker.limit_reached, Js.and.
  destruct lim as [l|]; cbn.
  - destruct (Z.eqb_spec l 0) as [->|Hl]; cbn.
    + split; [discriminate|]. intros (l & Hs & Hne & _). inversion Hs; subst; lia.
    + destruct (Z.leb_spec l count) as [Hle|Hgt].
      * split; [|reflexivity]. intros _. now exists l.
      * split; [discriminate|].
        intros (l' & Hs & _ & Hle). inversion Hs; subst. lia.
  - split; [discriminate|]. intros (l & Hs & _). discriminate.
Qed.

Lemma limit_reached_truthy lim count :
  Js.truthy (Tracker.limit_reached lim count) = true <->
  Tracker.limit_reached lim count = Js.Bool true.
Proof.
  unfold Tracker.limit_reached, Js.and.
  destruct lim as [l|]; cbn.
  - destruct (Z.eqb_spec l 0) as [->|Hl]; cbn.
    + split; discriminate.
    + destruct (l <=? count); cbn; split; congruence.
  - split; discriminate.
Qed.

(** The source's truthiness test on a limit column succeeds exactly when
    the limit is set. *)
Lemma limit_set_iff lim :
  Js.truthy (Js.of_column lim) = true <-> limit_set lim.
Proof.
  unfold limit_set. destruct lim as [l|]; cbn.
  - destruct (Z.eqb_spec l 0) as [->|Hl]; cbn.
    + split; [discriminate|]. intros (l & Hs & Hne). inversion Hs; subst; lia.
    + split; [|reflexivity]. intros _. now exists l.
  - split; [discriminate|]. intros (l & Hs & _). discriminate.
Qed.

(** C1. For every window record, [checkWindowLimitDetailed] returns
    [exceeded = true] exactly when the request limit is set and
    request_count >= limit_requests, or the token limit is set and
    token_count >= limit_tokens (and [exceeded] is truthy in exactly the same
    cases); [current] is the window's request_count, [limit] is its
    limit_requests (0 when unset), and [percentUsed] is current/limit*100, as
    binary64 arithmetic evaluates it, when limit > 0 and 0 otherwise. *)
Theorem checkWindowLimitDetailed_decision (w : Window.row) :
  let r := Tracker.checkWindowLimitDetailed w in
  (Tracker.exceeded r = Js.Bool true <->
     (limit_set (Window.limit_requests w) /\
      exists l, Window.limit_requests w = Some l /\ l <= Window.request_count w)
     \/
     (limit_set (Window.limit_tokens w) /\
      exists l, Window.limit_tokens w = Some l /\ l <= Window.token_count w))
  /\ (Js.truthy (Tracker.exceeded r) = true <-> Tracker.exceeded r = Js.Bool true)
  /\ Tracker.current r = Window.request_count w
  /\ Tracker.limit r =
       match Window.limit_requests w with Some l => l | None => 0 end
  /\ Tracker.percentUsed r =
       if 0 <? Tracker.limit r
       then percent_of (Window.request_count w) (Tracker.limit r)
       else S754_zero false.
Proof.
  cbn zeta.
  assert (Hset : forall lim count,
    (limit_set lim /\ exists l, lim = Some l /\ l <= count) <->
    Tracker.limit_reached lim count = Js.Bool true).
  { intros lim count. rewrite limit_reached_true. unfold limit_set. split.
    - intros [(l & Hs & Hne) (l' & Hs' & Hle)].
      rewrite Hs in Hs'. inversion Hs'; subst. now exists l'.
    - intros (l & Hs & Hne & Hle). split; now exists l. }
  unfold Tracker.checkWindowLimitDetailed; cbn [Tracker.exceeded Tracker.current
    Tracker.limit Tracker.percentUsed].
  rewrite !Hset.
  set (a := Tracker.limit_reached (Window.limit_requests w) (Window.request_count w)).
  set (b := Tracker.limit_reached (Window.limit_tokens w) (Window.token_count w)).
  assert (Ha := limit_reached_truthy (Window.limit_requests w) (Window.request_count w)).
  assert (Hb := limit_reached_truthy (Window.limit_tokens w) (Window.token_count w)).
  fold a in Ha. fold b in Hb.
  repeat split.
  - unfold Js.or. destruct (Js.truthy a) eqn:Ht.
    + intros H. now left.
    + intros H. now right.
  - unfold Js.or. intros [H|H].
    + rewrite H. reflexivity.
    + destruct (Js.truthy a) eqn:Ht; [now apply Ha | exact H].
  - unfold Js.or. destruct (Js.truthy a) eqn:Ht; [intros _; now apply Ha | apply Hb].
  - intros H. rewrite H. reflexivity.
  - unfold Js.or_default. destruct (Window.limit_requests w) as [l|]; [|reflexivity].
    destruct (Z.eqb_spec l 0); congruence.
Qed.

(** The quotient is rounded as binary64 arithmetic rounds it: 7 requests of
    25 are reported as 28.000000000000004 (7881299347898369 * 2^-48) and not
    as 28, and 1 of 3 as 33.33333333333333 (4691249611844266 * 2^-47); a
    full window is at exactly 100. *)
Lemma percentUsed_examples :
  let w c l :=
    Window.mk 1 "T1" "anthropic" (Some "m") per_minute 0 60000 c 0
              (Some l) None true 0 in
  Tracker.percentUsed (Tracker.checkWindowLimitDetailed (w 7 25))
    = S754_finite false 7881299347898369 (-48) /\
  binary64 28 = S754_finite false 7881299347898368 (-48) /\
  Tracker.percentUsed (Tracker.checkWindowLimitDetailed (w 1 3))
    = S754_finite false 4691249611844266 (-47) /\
  Tracker.percentUsed (Tracker.checkWindowLimitDetailed (w 50 50))
    = binary64 100.
Proof. vm_compute. repeat split. Qed.

(** Every window row the tracker creates has its limits normalised by
    [limits[field] || null]: a limit is set exactly when the column is not
    NULL. *)
Lemma createWindow_limits_normalised now agentWallet provider model t st :
  let w := fst (Tracker.createWindow now agentWallet provider model t st) in
  (limit_set (Window.limit_requests w) <-> Window.limit_requests w <> None) /\
  (limit_set (Window.limit_tokens w) <-> Window.limit_tokens w <> None).
Proof.
  cbn zeta. unfold Tracker.createWindow.
  destruct (Tracker.getLimits now agentWallet provider model st) as [l st1].
  cbn [fst Window.limit_requests Window.limit_tokens].
  assert (H : forall c, limit_set (Js.or_null c) <-> Js.or_null c <> None).
  { intros c. unfold limit_set, Js.or_null.
    destruct c as [n|]; [destruct (Z.eqb_spec n 0)|].
    - split; [intros (l0 & Hs & _); discriminate | congruence].
    - split; [congruence | intros _; now exists n].
    - split; [intros (l0 & Hs & _); discriminate | congruence]. }
  split; apply H.
Qed.

(** ** Store: the quota check *)

Lemma checkQuotaAvailable_available now agentWallet st :
  Storage.available (fst (Storage.checkQuotaAvailable now agentWallet st)) = true.
Proof.
  unfold Storage.checkQuotaAvailable.
  destruct (Storage.getQuota agentWallet st) as [quota st1]. reflexivity.
Qed.

(** C10. [checkQuotaAvailable] returns [available = true] for every tenant
    and store, so [beforeProvider] never takes its "Quota exceeded" branch:
    its outcome is a return (the request goes through), or one of the throws
    of the later steps
    (queued, blocked, queue full, or an error propagated from enqueue). *)
Theorem beforeProvider_never_quota_exceeded
        now queueId requestId provider model agentId requestData st :
  (forall agentWallet s,
     Storage.available (fst (Storage.checkQuotaAvailable now agentWallet s)) = true)
  /\
  let outcome :=
    fst (fst (Manager.beforeProvider now queueId requestId provider model
                                     agentId requestData st)) in
  outcome <> Manager.Thrown Manager.QuotaExceeded /\
  (outcome = Manager.Returned \/
   (exists qid t c l, outcome = Manager.Thrown (Manager.RequestQueued qid t c l)) \/
   (exists t c l, outcome = Manager.Thrown (Manager.RateLimitExceeded t c l)) \/
   (exists n m t c l, outcome = Manager.Thrown (Manager.QueueIsFull n m t c l)) \/
   (exists e, outcome = Manager.Thrown (Manager.EnqueueFailed e))).
Proof.
  split; [intros; apply checkQuotaAvailable_available|].
  cbn zeta. unfold Manager.beforeProvider.
  pose proof (checkQuotaAvailable_available now
                (Js.str_or (Manager.agentWallet requestData) agentId) st) as Hav.
  destruct (Storage.checkQuotaAvailable now _ st) as [quota st1].
  cbn [fst] in Hav. rewrite Hav. cbn [negb].
  destruct (Manager.firstExceeded now _ provider model Manager.windows st1)
    as [[[t c]|] st2].
  - destruct (Storage.tier quota), (Storage.can_queue quota);
      cbn [fst];
      try (split; [discriminate|]; right; right; left; eauto).
    destruct (Storage.max_queue_size quota <=? _).
    + cbn [fst]. split; [discriminate|]. do 3 right. left. eauto 6.
    + destruct (Queue.enqueue now queueId _ provider model _ st2) as [[qid|e] st3];
        cbn [fst]; (split; [discriminate|]).
      * right; left; eauto.
      * do 4 right. eauto.
  - cbn [fst]. split; [discriminate|]. now left.
Qed.

(** ** WindowTracker: limit resolution for providers outside the table *)

Lemma defaults_unknown provider tier :
  ~ builtin_provider provider -> Tracker.defaults provider tier = None.
Proof.
  unfold builtin_provider, Tracker.defaults. intros H.
  destruct (String.eqb_spec provider "anthropic"); [tauto|].
  destruct (String.eqb_spec provider "openai"); [tauto|].
  destruct (String.eqb_spec provider "google"); [tauto|].
  reflexivity.
Qed.

Lemma find_none_by_provider provider (f : Config.row -> bool) cs :
  (forall c, In c cs -> Config.provider c <> provider) ->
  (forall c, f c = true -> Config.provider c = provider) ->
  find f cs = None.
Proof.
  intros Hno Hf. induction cs as [|c cs IH]; [reflexivity|]. cbn.
  destruct (f c) eqn:Hc.
  - exfalso. apply (Hno c); [now left | now apply Hf].
  - apply IH. intros c' Hin. apply Hno. now right.
Qed.

Lemma getQuota_configs agentWallet st :
  rate_limit_configs (snd (Storage.getQuota agentWallet st)) = rate_limit_configs st.
Proof.
  unfold Storage.getQuota.
  destruct (Storage.find_quota agentWallet (agent_limit_quotas st)); reflexivity.
Qed.

Lemma checkQuotaAvailable_configs now agentWallet st :
  rate_limit_configs (snd (Storage.checkQuotaAvailable now agentWallet st)) =
  rate_limit_configs st.
Proof.
  unfold Storage.checkQuotaAvailable.
  pose proof (getQuota_configs agentWallet st) as H.
  destruct (Storage.getQuota agentWallet st) as [quota st1]. exact H.
Qed.

Lemma getLimits_unknown_provider now agentWallet provider model st :
  ~ builtin_provider provider ->
  no_stored_config provider st ->
  fst (Tracker.getLimits now agentWallet provider model st) = anthropic_free.
Proof.
  intros Hunk Hno. unfold Tracker.getLimits.
  pose proof (checkQuotaAvailable_configs now agentWallet st) as Hcs.
  destruct (Storage.checkQuotaAvailable now agentWallet st) as [quota st1].
  cbn [snd] in Hcs.
  assert (Hm : forall m,
    Tracker.model_config provider m (Tier_name (Storage.tier quota))
                         (rate_limit_configs st1) = None).
  { intros m. unfold Tracker.model_config. rewrite Hcs.
    apply (find_none_by_provider provider); [exact Hno|].
    intros c Hc. apply andb_true_iff in Hc. destruct Hc as [Hc _].
    apply andb_true_iff in Hc. destruct Hc as [Hc _].
    now apply String.eqb_eq. }
  assert (Hp :
    Tracker.provider_config provider (Tier_name (Storage.tier quota))
                            (rate_limit_configs st1) = None).
  { unfold Tracker.provider_config. rewrite Hcs.
    apply (find_none_by_provider provider); [exact Hno|].
    intros c Hc. apply andb_true_iff in Hc. destruct Hc as [Hc _].
    apply andb_true_iff in Hc. destruct Hc as [Hc _].
    now apply String.eqb_eq. }
  destruct (Js.str_or_null model) as [m|]; [rewrite Hm|]; rewrite Hp;
    cbn [fst]; unfold Tracker.getDefaultLimits;
    rewrite (defaults_unknown _ _ Hunk); reflexivity.
Qed.

(** C9, counterexample. A pre-call for the unknown provider "mistral", with
    no stored configuration, is not refused: it returns (the request is
    admitted) after an admission check against a per-minute window opened
    with the substitute ceiling of 50 requests. *)
Lemma unknown_provider_is_admitted :
  let '(outcome, _, st) :=
    Manager.beforeProvider 0 "q1" "r1" "mistral" (Some "m") "T1"
                           (Manager.mkRequest None None None) empty_store in
  ~ builtin_provider "mistral" /\
  no_stored_config "mistral" empty_store /\
  outcome = Manager.Returned /\
  map (fun w => (Window.window_type w, Window.limit_requests w,
                 Window.request_count w)) (rate_limit_windows st) =
  [(per_minute, Some 50, 1); (per_hour, None, 1); (per_day, Some 1000, 1)].
Proof.
  vm_compute. repeat split.
  - intros [H|[H|H]]; discriminate.
  - intros c [].
Qed.

(** ** PatternDetector: persistence of detected patterns *)

Lemma existsb_fresh_pattern_id patternId st :
  fresh_pattern_id patternId st ->
  existsb (Detector.has_pattern_id patternId) (usage_patterns st) = false.
Proof.
  unfold fresh_pattern_id. induction (usage_patterns st) as [|r rs IH]; intros H.
  - reflexivity.
  - cbn. rewrite IH by (intros r' Hin; apply H; now right).
    unfold Detector.has_pattern_id.
    destruct (String.eqb_spec (Pattern.pattern_id r) patternId) as [E|_].
    + exfalso. apply (H r); [now left | exact E].
    + reflexivity.
Qed.

(** C8 (as the code has it). [storePattern] persists a detected pattern by a
    plain INSERT under the identifier it has just drawn: when that identifier
    is not in the table yet, exactly one row is appended (observation_count
    1), every existing row is left as it was, and the number of rows stored
    for the tenant and pattern type grows by one. A pattern whose confidence
    reaches the threshold is stored this way by the analysis run. *)
Theorem storePattern_inserts_new_row
        now patternId agentWallet (pattern : Detector.Detected) st
        (Hfresh : fresh_pattern_id patternId st) :
  let st' := Detector.storePattern now patternId agentWallet pattern st in
  (exists r,
     usage_patterns st' = (usage_patterns st ++ [r])%list /\
     Pattern.pattern_id r = patternId /\
     Pattern.agent_wallet r = Some agentWallet /\
     Pattern.pattern_type r = Detector.pattern_type pattern /\
     Pattern.observation_count r = 1) /\
  List.length (Detector.rows_of agentWallet (Detector.pattern_type pattern) st') =
  S (List.length (Detector.rows_of agentWallet (Detector.pattern_type pattern) st)) /\
  (Qle_bool Detector.minPatternConfidence (Detector.confidence pattern) = true ->
   Detector.storeIfConfident now patternId agentWallet pattern st = st').
Proof.
  cbn zeta. unfold Detector.storeIfConfident, Detector.storePattern.
  rewrite (existsb_fresh_pattern_id _ _ Hfresh).
  split; [|split].
  - eexists. cbn. repeat split.
  - unfold Detector.rows_of. cbn. rewrite filter_app, length_app. cbn.
    rewrite !String.eqb_refl. cbn. lia.
  - intros ->. reflexivity.
Qed.

Lemma storePattern_inserts_new_row_witness :
  List.length
    (Detector.rows_of "T2" "burst"
       (Detector.storePattern 1000 "b3" "T2"
          (Detector.mkDetected "burst" "Bursty" None None None None (Some 50) (9 # 10))
          (Detector.storePattern 0 "a3" "T2"
             (Detector.mkDetected "burst" "Bursty" None None None None (Some 50) (9 # 10))
             empty_store))) = 2%nat.
Proof.
  set (p := Detector.mkDetected "burst" "Bursty" None None None None (Some 50) (9 # 10)).
  set (st1 := Detector.storePattern 0 "a3" "T2" p empty_store).
  assert (Hfresh : fresh_pattern_id "b3" st1).
  { intros r Hin. vm_compute in Hin. destruct Hin as [<-|[]]. discriminate. }
  destruct (storePattern_inserts_new_row 1000 "b3" "T2" p st1 Hfresh) as (_ & H & _).
  exact H.
Defined.

(** C8, counterexample. Two analysis runs for the same tenant that detect
    the same burst pattern leave two rows for that tenant and pattern type,
    under different identifiers; the row of the first run is not refreshed
    (its observation_count is still 1 and its detected_at is the first run's
    instant). *)
Lemma reanalysis_adds_rows :
  let hourly :=
    Detector.mkDetected "time_of_day" "Peak usage during hours: 9, 10"
                        (Some ["morning"]) (Some 1) (Some 2) (Some 3) None (8 # 10) in
  let weekly :=
    Detector.mkDetected "day_of_week" "Uniform usage across week"
                        None None None None None (3 # 10) in
  let burst :=
    Detector.mkDetected "burst" "Bursty traffic pattern" None None None None
                        (Some 50) (9 # 10) in
  let st1 :=
    Detector.analyzeUsage_store 0 "a1" "a2" "a3" "T2" hourly weekly burst
                                empty_store in
  let st2 :=
    Detector.analyzeUsage_store 1000 "b1" "b2" "b3" "T2" hourly weekly burst st1 in
  map (fun r => (Pattern.pattern_id r, Pattern.observation_count r,
                 Pattern.detected_at r))
      (Detector.rows_of "T2" "burst" st1) = [("a3", 1, 0)] /\
  map (fun r => (Pattern.pattern_id r, Pattern.observation_count r,
                 Pattern.detected_at r))
      (Detector.rows_of "T2" "burst" st2) = [("a3", 1, 0); ("b3", 1, 1000)] /\
  List.length (usage_patterns st1) = 2%nat /\
  List.length (usage_patterns st2) = 4%nat.
Proof. vm_compute. repeat split. Qed.

(** ** Frame of the tracker operations *)

Lemma tracker_frame_refl st : tracker_frame st st.
Proof. repeat split. Qed.

Lemma tracker_frame_trans st1 st2 st3 :
  tracker_frame st1 st2 -> tracker_frame st2 st3 -> tracker_frame st1 st3.
Proof.
  unfold tracker_frame. intros (a & b & c & d & e) (a' & b' & c' & d' & e').
  repeat (split; [congruence|]). intros now agentWallet. now rewrite e', e.
Qed.

Lemma find_snoc {A} (f : A -> bool) l x :
  find f (l ++ [x]) =
  match find f l with
  | Some y => Some y
  | None => if f x then Some x else None
  end.
Proof.
  induction l as [|a l IH]; cbn; [reflexivity|].
  destruct (f a); [reflexivity | exact IH].
Qed.

(** The effective quota depends on the agent_limit_quotas table only. *)
Lemma checkQuotaAvailable_quotas now agentWallet st st' :
  agent_limit_quotas st' = agent_limit_quotas st ->
  fst (Storage.checkQuotaAvailable now agentWallet st') =
  fst (Storage.checkQuotaAvailable now agentWallet st).
Proof.
  intros H. unfold Storage.checkQuotaAvailable, Storage.getQuota. rewrite H.
  destruct (Storage.find_quota agentWallet (agent_limit_quotas st)); reflexivity.
Qed.

Lemma getQuota_frame agentWallet st :
  tracker_frame st (snd (Storage.getQuota agentWallet st)).
Proof.
  unfold Storage.getQuota.
  destruct (Storage.find_quota agentWallet (agent_limit_quotas st)) eqn:Hf;
    [apply tracker_frame_refl|].
  repeat (split; [reflexivity|]). intros now aw. cbn [snd].
  unfold Storage.checkQuotaAvailable, Storage.getQuota, Storage.find_quota.
  cbn [agent_limit_quotas set_quotas]. rewrite find_snoc.
  fold (Storage.find_quota aw (agent_limit_quotas st)).
  destruct (Storage.find_quota aw (agent_limit_quotas st)); [reflexivity|].
  cbn [Storage.default_quota Quota.agent_wallet].
  destruct (String.eqb_spec agentWallet aw) as [->|_]; reflexivity.
Qed.

Lemma checkQuotaAvailable_frame now agentWallet st :
  tracker_frame st (snd (Storage.checkQuotaAvailable now agentWallet st)).
Proof.
  unfold Storage.checkQuotaAvailable.
  pose proof (getQuota_frame agentWallet st) as H.
  destruct (Storage.getQuota agentWallet st) as [quota st1]. exact H.
Qed.

Lemma getLimits_frame now agentWallet provider model st :
  tracker_frame st (snd (Tracker.getLimits now agentWallet provider model st)).
Proof.
  unfold Tracker.getLimits.
  pose proof (checkQuotaAvailable_frame now agentWallet st) as H.
  destruct (Storage.checkQuotaAvailable now agentWallet st) as [quota st1].
  repeat match goal with |- context [match ?x with _ => _ end] => destruct x end;
    exact H.
Qed.

Lemma set_windows_frame ws n st : tracker_frame st (set_windows ws n st).
Proof.
  repeat (split; [reflexivity|]). intros now agentWallet.
  now apply checkQuotaAvailable_quotas.
Qed.

Lemma createWindow_frame now agentWallet provider model t st :
  tracker_frame st (snd (Tracker.createWindow now agentWallet provider model t st)).
Proof.
  unfold Tracker.createWindow.
  pose proof (getLimits_frame now agentWallet provider model st) as H.
  destruct (Tracker.getLimits now agentWallet provider model st) as [l st1].
  cbn [snd] in *.
  eapply tracker_frame_trans; [exact H | apply set_windows_frame].
Qed.

Lemma getCurrentWindow_frame now agentWallet provider model t st :
  tracker_frame st
    (snd (Tracker.getCurrentWindow now agentWallet provider model t st)).
Proof.
  unfold Tracker.getCurrentWindow.
  destruct (Tracker.select_current agentWallet provider model t st).
  - apply tracker_frame_refl.
  - apply createWindow_frame.
Qed.

Lemma update_where_id_frame wid f st :
  tracker_frame st (Tracker.update_where_id wid f st).
Proof. apply set_windows_frame. Qed.

Lemma rotateWindow_frame now oldWindow st :
  tracker_frame st (snd (Tracker.rotateWindow now oldWindow st)).
Proof.
  unfold Tracker.rotateWindow.
  eapply tracker_frame_trans; [apply update_where_id_frame|].
  apply createWindow_frame.
Qed.

(** The state in which an admission check or an increment finds its window:
    after [getCurrentWindow], and after the rotation when one is due. *)
Lemma wouldExceedLimit_frame now agentWallet provider model t st :
  tracker_frame st
    (snd (Tracker.wouldExceedLimit now agentWallet provider model t st)).
Proof.
  unfold Tracker.wouldExceedLimit.
  pose proof (getCurrentWindow_frame now agentWallet provider model t st) as H1.
  destruct (Tracker.getCurrentWindow now agentWallet provider model t st)
    as [w st1].
  destruct (Window.window_end w <? now); [|exact H1].
  pose proof (rotateWindow_frame now w st1) as H2.
  destruct (Tracker.rotateWindow now w st1) as [w2 st2].
  pose proof (getCurrentWindow_frame now agentWallet provider model t st2) as H3.
  destruct (Tracker.getCurrentWindow now agentWallet provider model t st2)
    as [w3 st3].
  cbn [snd] in *. eauto using tracker_frame_trans.
Qed.

Lemma incrementWindow_frame now agentWallet provider model t tokens st :
  tracker_frame st
    (Tracker.incrementWindow now agentWallet provider model t tokens st).
Proof.
  unfold Tracker.incrementWindow, Tracker.updateWindowCounts.
  pose proof (getCurrentWindow_frame now agentWallet provider model t st) as H1.
  destruct (Tracker.getCurrentWindow now agentWallet provider model t st)
    as [w st1].
  destruct (Window.window_end w <? now).
  - pose proof (rotateWindow_frame now w st1) as H2.
    destruct (Tracker.rotateWindow now w st1) as [w2 st2].
    pose proof (getCurrentWindow_frame now agentWallet provider model t st2) as H3.
    destruct (Tracker.getCurrentWindow now agentWallet provider model t st2)
      as [w3 st3].
    cbn [snd] in *.
    eauto using tracker_frame_trans, update_where_id_frame.
  - cbn [snd] in *. eauto using tracker_frame_trans, update_where_id_frame.
Qed.

Lemma updateTokenCount_frame now agentWallet provider model t tokens st :
  tracker_frame st
    (Tracker.updateTokenCount now agentWallet provider model t tokens st).
Proof.
  unfold Tracker.updateTokenCount.
  pose proof (getCurrentWindow_frame now agentWallet provider model t st) as H1.
  destruct (Tracker.getCurrentWindow now agentWallet provider model t st)
    as [w st1].
  cbn [snd] in *. eauto using tracker_frame_trans, update_where_id_frame.
Qed.

Lemma firstExceeded_frame now agentWallet provider model ts st :
  tracker_frame st
    (snd (Manager.firstExceeded now agentWallet provider model ts st)).
Proof.
  revert st. induction ts as [|t ts IH]; intros st; cbn.
  - apply tracker_frame_refl.
  - pose proof (wouldExceedLimit_frame now agentWallet provider model t st) as H.
    destruct (Tracker.wouldExceedLimit now agentWallet provider model t st)
      as [c st1].
    destruct (Js.truthy (Tracker.exceeded c)); [exact H|].
    eapply tracker_frame_trans; [exact H | apply IH].
Qed.

Lemma incrementAll_frame now agentWallet provider model ts st :
  tracker_frame st (Manager.incrementAll now agentWallet provider model ts st).
Proof.
  revert st. induction ts as [|t ts IH]; intros st; cbn.
  - apply tracker_frame_refl.
  - eapply tracker_frame_trans; [apply incrementWindow_frame | apply IH].
Qed.

Lemma updateTokensAll_frame now agentWallet provider model tokens ts st :
  tracker_frame st
    (Manager.updateTokensAll now agentWallet provider model tokens ts st).
Proof.
  revert st. induction ts as [|t ts IH]; intros st; cbn.
  - apply tracker_frame_refl.
  - eapply tracker_frame_trans; [apply updateTokenCount_frame | apply IH].
Qed.

(** ** WindowTracker: stale windows that escape rotation *)

(** C2, at failing inputs. The store holds one active per-minute window
    [0, 60000) for (T1, anthropic, m), full at 50 of 50 requests.
    - At now = 60000 = window_end the test [now > window_end] is false: the
      admission check answers from the stale window (exceeded, current 50)
      and the increment lands on it (51 requests); no rotation happens.
    - A token addition at now = 120000 is applied to the stale window, which
      stays active; no fresh window is opened.
    - An admission check at the same instant 120000 does rotate: the old row
      is deactivated and the decision is taken on a fresh window with zero
      counts. *)
Theorem stale_window_escapes_rotation :
  let w := Window.mk 1 "T1" "anthropic" (Some "m") per_minute 0 60000 50 0
                     (Some 50) (Some 40000) true 0 in
  let st := set_windows [w] 2 empty_store in
  let view (x : Window.row) :=
    (Window.id x, Window.is_active x, Window.window_start x,
     Window.request_count x, Window.token_count x) in
  let atEnd := Tracker.wouldExceedLimit 60000 "T1" "anthropic" (Some "m") per_minute st in
  let later := Tracker.wouldExceedLimit 120000 "T1" "anthropic" (Some "m") per_minute st in
  (Tracker.exceeded (fst atEnd) = Js.Bool true /\
   Tracker.current (fst atEnd) = 50 /\
   map view (rate_limit_windows (snd atEnd)) = [(1%nat, true, 0, 50, 0)]) /\
  map view (rate_limit_windows
              (Tracker.incrementWindow 60000 "T1" "anthropic" (Some "m")
                                       per_minute 0 st))
    = [(1%nat, true, 0, 51, 0)] /\
  map view (rate_limit_windows
              (Tracker.updateTokenCount 120000 "T1" "anthropic" (Some "m")
                                        per_minute 700 st))
    = [(1%nat, true, 0, 50, 700)] /\
  (Tracker.exceeded (fst later) = Js.Bool false /\
   Tracker.current (fst later) = 0 /\
   map view (rate_limit_windows (snd later))
     = [(1%nat, false, 0, 50, 0); (2%nat, true, 120000, 0, 0)]).
Proof. vm_compute. repeat split. Qed.

(** ** Manager: events recorded by the pre-call *)

Lemma enqueue_events now queueId agentWallet provider model priority st :
  rate_limit_events
    (snd (Queue.enqueue now queueId agentWallet provider model priority st)) =
  rate_limit_events st.
Proof.
  unfold Queue.enqueue.
  pose proof (checkQuotaAvailable_frame now agentWallet st) as (_ & _ & H & _).
  destruct (Storage.checkQuotaAvailable now agentWallet st) as [quota st1].
  cbn [snd] in H.
  repeat match goal with |- context [if ?x then _ else _] => destruct x end;
    cbn; exact H.
Qed.

(** What each outcome of [beforeProvider] leaves in rate_limit_events: one
    appended event of the matching kind for a return, a queued request and a
    blocked request; nothing for the queue-full throw and for an error
    propagated from enqueue. *)
Lemma beforeProvider_events
      now queueId requestId provider model agentId requestData st :
  let r := Manager.beforeProvider now queueId requestId provider model agentId
                                  requestData st in
  let appended kind :=
    exists e, rate_limit_events (snd r) = (rate_limit_events st ++ [e])%list /\
              Event.event_type e = kind in
  match fst (fst r) with
  | Manager.Returned => appended EventType.allowed
  | Manager.Thrown (Manager.RequestQueued _ _ _ _) => appended EventType.queued
  | Manager.Thrown (Manager.RateLimitExceeded _ _ _) => appended EventType.blocked
  | Manager.Thrown (Manager.QueueIsFull _ _ _ _ _)
  | Manager.Thrown (Manager.EnqueueFailed _)
  | Manager.Thrown Manager.QuotaExceeded =>
      rate_limit_events (snd r) = rate_limit_events st
  end.
Proof.
  cbn zeta. unfold Manager.beforeProvider.
  set (agentWallet := Js.str_or (Manager.agentWallet requestData) agentId).
  pose proof (checkQuotaAvailable_frame now agentWallet st) as (_ & _ & H1 & _).
  destruct (Storage.checkQuotaAvailable now agentWallet st) as [quota st1].
  cbn [snd] in H1.
  destruct (negb (Storage.available quota)); [exact H1|].
  pose proof (firstExceeded_frame now agentWallet provider model
                Manager.windows st1) as (_ & _ & H2 & _).
  destruct (Manager.firstExceeded now agentWallet provider model
              Manager.windows st1) as [[[t c]|] st2]; cbn [snd] in H2.
  - assert (Hblocked :
      exists e,
        rate_limit_events
          (Storage.recordEvent now
             (Manager.limitEvent EventType.blocked agentWallet provider model
                                 requestId t c false) st2) =
        (rate_limit_events st ++ [e])%list /\
        Event.event_type e = EventType.blocked).
    { eexists. cbn. rewrite H2, H1. split; reflexivity. }
    destruct (Storage.tier quota), (Storage.can_queue quota); cbn [fst snd];
      try exact Hblocked.
    destruct (Storage.max_queue_size quota <=? _); cbn [fst snd];
      [congruence|].
    pose proof (enqueue_events now queueId agentWallet provider model
                  (Some (Js.or_default (Manager.priority requestData) 5)) st2) as H3.
    destruct (Queue.enqueue now queueId agentWallet provider model _ st2)
      as [[qid|e] st3]; cbn [fst snd] in *.
    + eexists. cbn. rewrite H3, H2, H1. split; reflexivity.
    + congruence.
  - cbn [fst snd].
    pose proof (incrementAll_frame now agentWallet provider model Manager.windows
      (Storage.recordEvent now
         (Storage.mkEventData agentWallet provider model EventType.allowed
                              None None None None (Some requestId) false) st2))
      as (_ & _ & H3 & _).
    eexists. rewrite H3. cbn. rewrite H2, H1. split; reflexivity.
Qed.

(** C3, at a failing input. Tenant T2 is pro with queueing enabled and
    max_queue_size 1; its per-minute window is full (1000 of 1000) and its
    queue already holds one pending entry. The pre-call is refused with the
    queue-full throw, the request is not enqueued, and rate_limit_events is
    left exactly as it was: no blocked event is recorded. A free tenant
    refused at the same window does get its blocked event. *)
Theorem queue_full_refusal_records_no_event :
  let quota := Quota.mk "T2" "pro" (-1) true 1 true true true (Some 100000000) in
  let w := Window.mk 1 "T2" "anthropic" (Some "m") per_minute 0 60000 1000 0
                     (Some 1000) (Some 80000) true 0 in
  let e := QueueEntry.mk "q0" "T2" "anthropic" (Some "m") 50 5 0 3 pending
                         None None in
  let st := set_queue [e] (set_windows [w] 2 (set_quotas [quota] empty_store)) in
  let r := Manager.beforeProvider 100 "q1" "r1" "anthropic" (Some "m") "T2"
                                  (Manager.mkRequest None None None) st in
  let stFree := set_windows [w] 2 empty_store in
  let rFree := Manager.beforeProvider 100 "q1" "r1" "anthropic" (Some "m") "T2"
                                      (Manager.mkRequest None None None) stFree in
  fst (fst r) = Manager.Thrown (Manager.QueueIsFull 1 1 per_minute 1000 1000) /\
  rate_limit_events (snd r) = rate_limit_events st /\
  rate_limit_events st = [] /\
  request_queue (snd r) = [e] /\
  fst (fst rFree) = Manager.Thrown (Manager.RateLimitExceeded per_minute 1000 1000) /\
  map Event.event_type (rate_limit_events (snd rFree)) = [EventType.blocked].
Proof. vm_compute. repeat split. Qed.

(** ** Manager: the drain step of the post-call *)

(** C4, at a failing input. Tenants A and B are both pro with queueing
    enabled. A has one pending entry (priority 5), B has one pending entry
    (priority 9). A is admitted at 900 and its post-call runs at 1000, in a
    process whose local time is UTC.
    [processQueue] is entered for A (whose pending count is 1, so the loop
    runs once), but [dequeue] is called without a tenant: the entry taken,
    completed and counted is B's, against B's windows, while A's own entry
    stays pending. *)
Theorem drain_takes_other_tenants_entry :
  let quotaA := Quota.mk "A" "pro" (-1) true 100 true true true (Some 1000000000) in
  let quotaB := Quota.mk "B" "pro" (-1) true 100 true true true (Some 1000000000) in
  let qa := QueueEntry.mk "qa" "A" "anthropic" (Some "m") 0 5 0 3 pending None None in
  let qb := QueueEntry.mk "qb" "B" "openai" (Some "g") 10 9 0 3 pending None None in
  let st0 := set_queue [qa; qb] (set_quotas [quotaA; quotaB] empty_store) in
  let '(outcome, request, st1) :=
    Manager.beforeProvider 900 "q1" "r1" "anthropic" (Some "m") "A"
                           (Manager.mkRequest None None None) st0 in
  let st2 :=
    Manager.afterProvider Js.utc 1000 "anthropic" (Some "m") "A" request
                          (Manager.mkResponse None (Some 10)) st1 in
  outcome = Manager.Returned /\
  Queue.getQueueSize "A" st1 = 1 /\
  fst (Queue.dequeue Js.utc 1000 (Some "A") st1) = Some qa /\
  fst (Queue.dequeue Js.utc 1000 None st1) = Some qb /\
  map (fun e => (QueueEntry.queue_id e, QueueEntry.agent_wallet e,
                 QueueEntry.status e, QueueEntry.retry_count e))
      (request_queue st2)
    = [("qa", "A", pending, 0); ("qb", "B", completed, 0)] /\
  map (fun w => (Window.agent_wallet w, Window.provider w, Window.window_type w,
                 Window.request_count w, Window.token_count w))
      (rate_limit_windows st2)
    = [("A", "anthropic", per_minute, 1, 10);
       ("A", "anthropic", per_hour, 1, 10);
       ("A", "anthropic", per_day, 1, 10);
       ("B", "openai", per_minute, 1, 0);
       ("B", "openai", per_hour, 1, 0);
       ("B", "openai", per_day, 1, 0)].
Proof. vm_compute. repeat split. Qed.

(** ** RequestQueue: admission to the queue *)

Lemma existsb_fresh_queue_id queueId st :
  fresh_queue_id queueId st ->
  existsb (Queue.has_queue_id queueId) (request_queue st) = false.
Proof.
  unfold fresh_queue_id. induction (request_queue st) as [|e es IH]; intros H.
  - reflexivity.
  - cbn. rewrite IH by (intros e' Hin; apply H; now right).
    unfold Queue.has_queue_id.
    destruct (String.eqb_spec (QueueEntry.queue_id e) queueId) as [E|_].
    + exfalso. apply (H e); [now left | exact E].
    + reflexivity.
Qed.

Lemma getQueueSize_frame agentWallet st st' :
  request_queue st' = request_queue st ->
  Queue.getQueueSize agentWallet st' = Queue.getQueueSize agentWallet st.
Proof. unfold Queue.getQueueSize. now intros ->. Qed.

(** The effective quota never grants queueing to the free tier. *)
Lemma free_tier_cannot_queue now agentWallet st :
  let quota := fst (Storage.checkQuotaAvailable now agentWallet st) in
  Storage.tier quota = free ->
  Storage.can_queue quota = false /\ Storage.max_queue_size quota = 0.
Proof.
  cbn zeta. unfold Storage.checkQuotaAvailable.
  destruct (Storage.getQuota agentWallet st) as [q st1]. cbn.
  destruct (Storage.isPro now q); [discriminate|]. now split.
Qed.

Lemma counted_filter {A} (P : A -> Prop) (f : A -> bool) l :
  (forall x, f x = true <-> P x) ->
  counted P l (List.length (filter f l)).
Proof.
  intros Hf. induction l as [|x l IH]; cbn; [constructor|].
  destruct (f x) eqn:Hx.
  - cbn. apply counted_in; [now apply Hf | exact IH].
  - apply counted_out; [|exact IH]. intros HP. apply Hf in HP. congruence.
Qed.

Lemma counted_unique {A} (P : A -> Prop) l n m :
  counted P l n -> counted P l m -> n = m.
Proof.
  intros Hn. revert m. induction Hn; intros m Hm; inversion Hm; subst;
    try reflexivity; try contradiction.
  - f_equal. now apply IHHn.
  - now apply IHHn.
Qed.

Lemma counted_app {A} (P : A -> Prop) l1 l2 n1 n2 :
  counted P l1 n1 -> counted P l2 n2 -> counted P (l1 ++ l2) (n1 + n2).
Proof.
  intros H1 H2. induction H1; cbn; [exact H2| |].
  - now apply counted_in.
  - now apply counted_out.
Qed.

Lemma is_pending_of_entry agentWallet e :
  Queue.is_pending_of agentWallet e = true <-> pending_entry_of agentWallet e.
Proof.
  unfold Queue.is_pending_of, pending_entry_of.
  rewrite andb_true_iff, String.eqb_eq.
  destruct (QueueEntry.status e); cbn; split; intros [H1 H2];
    (split; [exact H1|]); congruence.
Qed.

(** [getQueueSize] is the number of the tenant's pending entries. *)
Lemma getQueueSize_counted agentWallet st size :
  counted (pending_entry_of agentWallet) (request_queue st) size ->
  Queue.getQueueSize agentWallet st = Z.of_nat size.
Proof.
  intros H. unfold Queue.getQueueSize. f_equal.
  eapply counted_unique; [|exact H].
  apply counted_filter. apply is_pending_of_entry.
Qed.

(** C5. [size] being the number of the tenant's pending entries, [enqueue]
    throws QueueDisabled exactly when the tenant's effective quota does not
    grant queueing (in particular for every free-tier tenant); for a tenant
    that may queue it throws QueueFull (reporting [size] and max_queue_size)
    exactly when [size] >= max_queue_size; otherwise it appends exactly one
    new pending entry for the tenant and changes no other row. A failed
    enqueue leaves the queue as it was, and after a completed enqueue the
    number of the tenant's pending entries is [size + 1] and does not exceed
    max_queue_size. *)
Theorem enqueue_outcomes
        now queueId agentWallet provider model priority st size
        (Hfresh : fresh_queue_id queueId st)
        (Hsize : counted (pending_entry_of agentWallet) (request_queue st) size) :
  let quota := fst (Storage.checkQuotaAvailable now agentWallet st) in
  let r := Queue.enqueue now queueId agentWallet provider model priority st in
  (fst r = Queue.Throw Queue.QueueDisabled <-> Storage.can_queue quota = false) /\
  (Storage.tier quota = free -> fst r = Queue.Throw Queue.QueueDisabled) /\
  ((exists n m, fst r = Queue.Throw (Queue.QueueFull n m)) <->
   Storage.can_queue quota = true /\
   Storage.max_queue_size quota <= Z.of_nat size) /\
  (forall n m, fst r = Queue.Throw (Queue.QueueFull n m) ->
               n = Z.of_nat size /\ m = Storage.max_queue_size quota) /\
  ((exists qid, fst r = Queue.Ok qid) <->
   Storage.can_queue quota = true /\
   Z.of_nat size < Storage.max_queue_size quota) /\
  (forall e, fst r = Queue.Throw e -> request_queue (snd r) = request_queue st) /\
  (forall qid, fst r = Queue.Ok qid ->
     qid = queueId /\
     (exists e,
        request_queue (snd r) = (request_queue st ++ [e])%list /\
        QueueEntry.queue_id e = queueId /\
        QueueEntry.agent_wallet e = agentWallet /\
        QueueEntry.status e = pending /\
        QueueEntry.retry_count e = 0) /\
     counted (pending_entry_of agentWallet) (request_queue (snd r)) (S size) /\
     Z.of_nat (S size) <= Storage.max_queue_size quota).
Proof.
  cbn zeta. unfold Queue.enqueue.
  pose proof (free_tier_cannot_queue now agentWallet st) as Hfree.
  pose proof (checkQuotaAvailable_frame now agentWallet st) as (_ & Hq & _ & _).
  pose proof (getQueueSize_counted agentWallet st size Hsize) as Hcount.
  destruct (Storage.checkQuotaAvailable now agentWallet st) as [quota st1].
  cbn [fst snd] in *.
  rewrite (getQueueSize_frame agentWallet st st1 Hq), Hcount.
  assert (Hex : existsb (Queue.has_queue_id queueId) (request_queue st1) = false).
  { rewrite Hq. now apply existsb_fresh_queue_id. }
  rewrite Hex.
  destruct (Storage.can_queue quota) eqn:Hcan; cbn [negb].
  - destruct (Z.leb_spec (Storage.max_queue_size quota) (Z.of_nat size))
      as [Hfull|Hroom]; cbn [fst snd].
    + split; [split; discriminate|].
      split; [intros Ht; destruct (Hfree Ht); congruence|].
      split; [split; [now split | eauto]|].
      split; [intros n m Hnm; injection Hnm as <- <-; now split|].
      split; [split; [intros [qid Hqid]; discriminate | intros [_ Hlt]; lia]|].
      split; [intros e _; exact Hq | intros qid Hqid; discriminate].
    + split; [split; discriminate|].
      split; [intros Ht; destruct (Hfree Ht); congruence|].
      split; [split; [intros (n & m & H); discriminate | intros [_ Hle]; lia]|].
      split; [intros n m Hnm; discriminate|].
      split; [split; [now split | eauto]|].
      split; [intros e He; discriminate|].
      intros qid Hqid. inversion Hqid; subst qid.
      split; [reflexivity|].
      split; [|split; [|lia]].
      * eexists. cbn. rewrite Hq. repeat split.
      * cbn [request_queue set_queue]. rewrite Hq.
        replace (S size) with (size + 1)%nat by lia.
        apply counted_app; [exact Hsize|].
        apply counted_in; [now split | constructor].
  - cbn [fst snd].
    split; [now split|].
    split; [reflexivity|].
    split; [split; [intros (n & m & H); discriminate | intros [H _]; discriminate]|].
    split; [intros n m Hnm; discriminate|].
    split; [split; [intros [qid Hqid]; discriminate | intros [H _]; discriminate]|].
    split; [intros e _; exact Hq | intros qid Hqid; discriminate].
Qed.

Lemma enqueue_outcomes_witness :
  let quota := Quota.mk "T2" "pro" (-1) true 1 true true true (Some 100000000) in
  let st := set_quotas [quota] empty_store in
  let r := Queue.enqueue 100 "q1" "T2" "anthropic" (Some "m") None st in
  fresh_queue_id "q1" st /\
  counted (pending_entry_of "T2") (request_queue st) 0 /\
  fst r = Queue.Ok "q1" /\
  counted (pending_entry_of "T2") (request_queue (snd r)) 1 /\
  ~ fresh_queue_id "q1" (snd r) /\
  (exists n m,
     fst (Queue.enqueue 200 "q2" "T2" "anthropic" (Some "m") None (snd r)) =
     Queue.Throw (Queue.QueueFull n m)) /\
  fst (Queue.enqueue 200 "q2" "T1" "anthropic" (Some "m") None (snd r)) =
  Queue.Throw Queue.QueueDisabled.
Proof.
  cbn zeta.
  set (st := set_quotas [Quota.mk "T2" "pro" (-1) true 1 true true true
                                  (Some 100000000)] empty_store).
  assert (H1 : fresh_queue_id "q1" st) by (intros e []).
  assert (C0 : counted (pending_entry_of "T2") (request_queue st) 0)
    by constructor.
  set (r := Queue.enqueue 100 "q1" "T2" "anthropic" (Some "m") None st).
  assert (H2 : fresh_queue_id "q2" (snd r)).
  { intros e Hin. vm_compute in Hin. destruct Hin as [<-|[]]. discriminate. }
  pose proof (enqueue_outcomes 100 "q1" "T2" "anthropic" (Some "m") None st 0
                H1 C0) as (_ & _ & _ & _ & Hok & _ & Hins).
  cbn zeta in Hok, Hins. fold r in Hok, Hins.
  assert (Hr : fst r = Queue.Ok "q1") by reflexivity.
  destruct (Hins "q1" Hr) as (_ & _ & C1 & _).
  assert (C1' : counted (pending_entry_of "T1") (request_queue (snd r)) 0).
  { vm_compute. apply counted_out; [|constructor].
    intros [Hw _]. discriminate. }
  pose proof (enqueue_outcomes 200 "q2" "T2" "anthropic" (Some "m") None (snd r) 1
                H2 C1) as (_ & _ & Hfull & _).
  pose proof (enqueue_outcomes 200 "q2" "T1" "anthropic" (Some "m") None (snd r) 0
                H2 C1') as (_ & Hdis & _).
  cbn zeta in *.
  split; [exact H1|]. split; [exact C0|].
  split; [exact Hr|]. split; [exact C1|].
  split.
  { intros Hf.
    apply (Hf (QueueEntry.mk "q1" "T2" "anthropic" (Some "m") 0 5 0 3
                             pending None None)).
    - vm_compute. now left.
    - reflexivity. }
  split.
  - apply Hfull. vm_compute. split; [reflexivity | discriminate].
  - apply Hdis. reflexivity.
Defined.

(** ** RequestQueue: expiry on dequeue *)

(** The body of [dequeue], as one equation. *)
Lemma dequeue_unfold tz now agentWallet st :
  Queue.dequeue tz now agentWallet st =
  match Queue.candidate agentWallet st with
  | None => (None, st)
  | Some item =>
      if Queue.maxQueueAge <? now - tz (QueueEntry.queued_at item)
      then Queue.dequeue tz now agentWallet
             (Queue.complete now (QueueEntry.queue_id item) false
                             (Some Queue.expired_message) st)
      else (Some item,
            Queue.update_where_queue_id (QueueEntry.queue_id item)
                                        (Queue.processing_row now) st)
  end.
Proof.
  funelim (Queue.dequeue tz now agentWallet st).
  - now rewrite e.
  - now rewrite e, e0.
  - now rewrite e, e0.
Qed.

Lemma first_in_order_In l x : Queue.first_in_order l = Some x -> In x l.
Proof.
  revert x. induction l as [|a l IH]; cbn; intros x Hx; [discriminate|].
  destruct (Queue.first_in_order l) as [b|].
  - destruct (Queue.precedes b a); inversion Hx; subst; auto.
  - inversion Hx; subst; auto.
Qed.

Lemma candidate_In agentWallet st item :
  Queue.candidate agentWallet st = Some item ->
  In item (request_queue st) /\ Queue.eligible agentWallet item = true.
Proof.
  unfold Queue.candidate. intros H. apply first_in_order_In in H.
  now apply filter_In in H.
Qed.

Lemma queue_frame_refl st : queue_frame st st.
Proof. repeat split. Qed.

Lemma queue_frame_trans st1 st2 st3 :
  queue_frame st1 st2 -> queue_frame st2 st3 -> queue_frame st1 st3.
Proof.
  unfold queue_frame. intros (a & b & c & d & e & f) (a' & b' & c' & d' & e' & f').
  repeat split; congruence.
Qed.

Lemma update_where_queue_id_frame queueId f st :
  queue_frame st (Queue.update_where_queue_id queueId f st).
Proof. repeat split. Qed.

Lemma dequeue_frame tz now agentWallet st :
  queue_frame st (snd (Queue.dequeue tz now agentWallet st)).
Proof.
  funelim (Queue.dequeue tz now agentWallet st).
  - apply queue_frame_refl.
  - eapply queue_frame_trans; [|eassumption].
    apply update_where_queue_id_frame.
  - apply update_where_queue_id_frame.
Qed.

(** An entry handed out by [dequeue] is within the age bound, and was a
    candidate of the queue as some number of expirations left it. *)
Lemma dequeue_returns_fresh tz now agentWallet st item st' :
  Queue.dequeue tz now agentWallet st = (Some item, st') ->
  now - tz (QueueEntry.queued_at item) <= Queue.maxQueueAge /\
  Queue.eligible agentWallet item = true.
Proof.
  funelim (Queue.dequeue tz now agentWallet st); intros Hd.
  - discriminate.
  - eauto.
  - inversion Hd; subst. split.
    + apply Z.ltb_ge. assumption.
    + eapply candidate_In. eassumption.
Qed.

(** The expiry step. When the age that [dequeue] computes for the entry it
    selected ([now] minus queued_at read back in the zone [tz]) is above the
    maximum queue age (30 minutes), [dequeue] completes the entry as a
    failure with the expiry reason (status failed, error "Request expired in
    queue", retry_count + 1) and goes on to dequeue from the queue so
    updated; no window, quota or event is touched on the way. An entry handed
    out by [dequeue] has a computed age within the maximum queue age. *)
Lemma dequeue_expiry_step tz now agentWallet st :
  Queue.maxQueueAge = 30 * 60 * 1000 /\
  (forall item,
     Queue.candidate agentWallet st = Some item ->
     Queue.maxQueueAge < now - tz (QueueEntry.queued_at item) ->
     let st1 := Queue.complete now (QueueEntry.queue_id item) false
                               (Some Queue.expired_message) st in
     let item' := Queue.completed_row now false (Some Queue.expired_message) item in
     Queue.dequeue tz now agentWallet st = Queue.dequeue tz now agentWallet st1 /\
     In item' (request_queue st1) /\
     QueueEntry.status item' = failed /\
     QueueEntry.error item' = Some "Request expired in queue" /\
     QueueEntry.retry_count item' = QueueEntry.retry_count item + 1 /\
     (forall e, In e (request_queue st1) ->
                QueueEntry.queue_id e = QueueEntry.queue_id item ->
                QueueEntry.status e = failed /\
                QueueEntry.error e = Some "Request expired in queue") /\
     queue_frame st st1 /\
     fst (Queue.dequeue tz now agentWallet st) <> Some item) /\
  (forall item st',
     Queue.dequeue tz now agentWallet st = (Some item, st') ->
     now - tz (QueueEntry.queued_at item) <= Queue.maxQueueAge) /\
  queue_frame st (snd (Queue.dequeue tz now agentWallet st)).
Proof.
  split; [reflexivity|]. split; [|split].
  - intros item Hc Hold. cbn zeta.
    assert (Hstep :
      Queue.dequeue tz now agentWallet st =
      Queue.dequeue tz now agentWallet
        (Queue.complete now (QueueEntry.queue_id item) false
                        (Some Queue.expired_message) st)).
    { rewrite (dequeue_unfold tz now agentWallet st), Hc.
      apply Z.ltb_lt in Hold. now rewrite Hold. }
    split; [exact Hstep|].
    destruct (candidate_In _ _ _ Hc) as [Hin _].
    split.
    { unfold Queue.complete, Queue.update_where_queue_id. cbn.
      apply in_map_iff. exists item. split; [|exact Hin].
      unfold Queue.has_queue_id. now rewrite String.eqb_refl. }
    split; [reflexivity|]. split; [reflexivity|]. split; [reflexivity|].
    split.
    { unfold Queue.complete, Queue.update_where_queue_id. cbn.
      intros e He Hid. apply in_map_iff in He. destruct He as (e0 & He0 & _).
      unfold Queue.has_queue_id in He0.
      destruct (String.eqb_spec (QueueEntry.queue_id e0) (QueueEntry.queue_id item)).
      - subst e. now split.
      - subst e. contradiction. }
    split; [apply update_where_queue_id_frame|].
    intros Hret.
    destruct (Queue.dequeue tz now agentWallet st) as [o st'] eqn:Hd.
    cbn in Hret. subst o.
    apply dequeue_returns_fresh in Hd. lia.
  - intros item st' Hd. now apply dequeue_returns_fresh in Hd.
  - apply dequeue_frame.
Qed.

(** The stored second is at most 999 ms before the instant of the
    statement that stored it. *)
Lemma CURRENT_TIMESTAMP_bounds now :
  CURRENT_TIMESTAMP now <= now < CURRENT_TIMESTAMP now + 1000.
Proof.
  unfold CURRENT_TIMESTAMP.
  pose proof (Z.mul_div_le now 1000 ltac:(lia)).
  pose proof (Z.mul_succ_div_gt now 1000 ltac:(lia)). lia.
Qed.

(** In a process whose local time is UTC the computed age of an entry
    enqueued at [queued] is its true age, raised by the fraction of a second
    that CURRENT_TIMESTAMP dropped: an entry older than the maximum queue
    age is never handed out there. *)
Lemma dequeue_expires_in_utc now queued agentWallet st item st' :
  Queue.dequeue Js.utc now agentWallet st = (Some item, st') ->
  QueueEntry.queued_at item = CURRENT_TIMESTAMP queued ->
  now - queued <= Queue.maxQueueAge.
Proof.
  intros Hd Hq. apply dequeue_returns_fresh in Hd. destruct Hd as [Hage _].
  unfold Js.utc in Hage. rewrite Hq in Hage.
  pose proof (CURRENT_TIMESTAMP_bounds queued). lia.
Qed.

(** C6, at a failing input. The process runs five hours behind UTC. Tenant
    A is pro with queueing enabled; a request of A is enqueued at instant 0
    and SQLite stores queued_at as the text '1970-01-01 00:00:00'. Ninety
    minutes later the entry is three times the maximum queue age old. [new
    Date] reads the stored text as 00:00:00 local time, which is 05:00:00
    UTC, so the age that [dequeue] computes is negative: the entry is not
    expired but handed out, marked processing, and the post-call of a request
    of A at that instant completes it and counts it in A's windows. In a
    process running in UTC the same dequeue expires the entry. In a process
    one hour ahead of UTC an entry that is one minute old is expired. *)
Theorem old_entry_is_handed_out_behind_utc :
  let behind := Js.ahead_of_utc (- (5 * 60 * 60 * 1000)) in
  let ahead := Js.ahead_of_utc (60 * 60 * 1000) in
  let quotaA := Quota.mk "A" "pro" (-1) true 100 true true true
                         (Some 1000000000) in
  let st := snd (Queue.enqueue 0 "q1" "A" "anthropic" (Some "m") None
                               (set_quotas [quotaA] empty_store)) in
  let now := 90 * 60 * 1000 in
  let view (e : QueueEntry.row) :=
    (QueueEntry.queue_id e, QueueEntry.queued_at e, QueueEntry.status e,
     QueueEntry.error e, QueueEntry.retry_count e) in
  let request :=
    Manager.mkRequest None None
      (Some (Manager.mkDecision "r1" "A" "anthropic" (Some "m") now true)) in
  let post :=
    Manager.afterProvider behind now "anthropic" (Some "m") "A" request
                          (Manager.mkResponse None (Some 10)) st in
  map view (request_queue st) = [("q1", 0, pending, None, 0)] /\
  Queue.maxQueueAge < now - 0 /\
  option_map view (fst (Queue.dequeue behind now None st))
    = Some ("q1", 0, pending, None, 0) /\
  map view (request_queue (snd (Queue.dequeue behind now None st)))
    = [("q1", 0, processing, None, 0)] /\
  map view (request_queue post) = [("q1", 0, completed, None, 0)] /\
  map (fun w => (Window.window_type w, Window.request_count w))
      (rate_limit_windows post)
    = [(per_minute, 1); (per_hour, 1); (per_day, 1)] /\
  fst (Queue.dequeue Js.utc now None st) = None /\
  map view (request_queue (snd (Queue.dequeue Js.utc now None st)))
    = [("q1", 0, failed, Some "Request expired in queue", 1)] /\
  fst (Queue.dequeue ahead 60000 None st) = None /\
  map view (request_queue (snd (Queue.dequeue ahead 60000 None st)))
    = [("q1", 0, failed, Some "Request expired in queue", 1)].
Proof. vm_compute. repeat split. Qed.

(** ** Window table: selection of the current window *)

Lemma model_matches_spec col param :
  model_matches col param = true <-> col = param.
Proof.
  destruct col as [a|], param as [b|]; cbn; try (split; congruence).
  rewrite String.eqb_eq. split; congruence.
Qed.

Lemma WindowType_eqb_spec a b : WindowType_eqb a b = true <-> a = b.
Proof. destruct a, b; cbn; split; congruence. Qed.

Lemma is_current_for_spec agentWallet provider model t w :
  Tracker.is_current_for agentWallet provider model t w = true <->
  matches_key agentWallet provider model t w /\ Window.is_active w = true.
Proof.
  unfold Tracker.is_current_for, matches_key.
  rewrite !andb_true_iff, !String.eqb_eq, model_matches_spec, WindowType_eqb_spec.
  tauto.
Qed.

Lemma is_current_for_other_type agentWallet provider model t w :
  Window.window_type w <> t ->
  Tracker.is_current_for agentWallet provider model t w = false.
Proof.
  intros Hne. destruct (Tracker.is_current_for _ _ _ _ w) eqn:H; [|reflexivity].
  apply is_current_for_spec in H. destruct H as [(_ & _ & _ & Ht) _]. contradiction.
Qed.

Lemma latest_In l w : Tracker.latest l = Some w -> In w l.
Proof.
  revert w. induction l as [|a l IH]; cbn; intros w H; [discriminate|].
  destruct (Tracker.latest l) as [b|].
  - destruct (Window.window_start a <? Window.window_start b);
      inversion H; subst; auto.
  - inversion H; subst; auto.
Qed.

Lemma latest_None l : Tracker.latest l = None -> l = [].
Proof.
  destruct l as [|a l]; cbn; [reflexivity|].
  destruct (Tracker.latest l) as [b|]; [|discriminate].
  destruct (Window.window_start a <? Window.window_start b); discriminate.
Qed.

Lemma latest_all_eq l w :
  l <> [] -> (forall x, In x l -> x = w) -> Tracker.latest l = Some w.
Proof.
  induction l as [|a l IH]; intros Hne Hall; [contradiction|]. cbn.
  assert (a = w) by (apply Hall; now left). subst a.
  destruct l as [|b l].
  - reflexivity.
  - rewrite IH; [|discriminate | intros x Hx; apply Hall; now right].
    destruct (Window.window_start w <? Window.window_start w); reflexivity.
Qed.

Lemma select_current_Some agentWallet provider model t st w :
  Tracker.select_current agentWallet provider model t st = Some w ->
  In w (rate_limit_windows st) /\
  matches_key agentWallet provider model t w /\ Window.is_active w = true.
Proof.
  unfold Tracker.select_current. intros H. apply latest_In in H.
  apply filter_In in H. destruct H as [Hin Hc].
  apply is_current_for_spec in Hc. tauto.
Qed.

Lemma select_current_None agentWallet provider model t st :
  Tracker.select_current agentWallet provider model t st = None ->
  forall w, In w (rate_limit_windows st) ->
            Tracker.is_current_for agentWallet provider model t w = false.
Proof.
  unfold Tracker.select_current. intros H w Hin. apply latest_None in H.
  destruct (Tracker.is_current_for agentWallet provider model t w) eqn:Hc;
    [|reflexivity].
  assert (Hf : In w (filter (Tracker.is_current_for agentWallet provider model t)
                            (rate_limit_windows st)))
    by (apply filter_In; now split).
  rewrite H in Hf. destruct Hf.
Qed.

(** In a well-formed table the active row of a key is the one selected. *)
Lemma select_current_unique agentWallet provider model t st w :
  windows_wf st ->
  In w (rate_limit_windows st) ->
  matches_key agentWallet provider model t w -> Window.is_active w = true ->
  Tracker.select_current agentWallet provider model t st = Some w.
Proof.
  intros (_ & _ & Hone) Hin Hk Ha. unfold Tracker.select_current.
  apply latest_all_eq.
  - intros Hnil.
    assert (Hf : In w (filter (Tracker.is_current_for agentWallet provider model t)
                              (rate_limit_windows st))).
    { apply filter_In. split; [exact Hin|]. now apply is_current_for_spec. }
    rewrite Hnil in Hf. destruct Hf.
  - intros x Hx. apply filter_In in Hx. destruct Hx as [Hxin Hxc].
    apply is_current_for_spec in Hxc. destruct Hxc as [Hxk Hxa].
    symmetry. apply Hone; try assumption.
    unfold same_key. destruct Hk as (-> & -> & -> & ->). exact Hxk.
Qed.

Lemma filter_map_same {A} (p : A -> bool) (g : A -> A) l :
  (forall x, In x l -> p (g x) = p x /\ (p x = true -> g x = x)) ->
  filter p (map g l) = filter p l.
Proof.
  induction l as [|a l IH]; intros H; [reflexivity|]. cbn.
  destruct (H a (or_introl eq_refl)) as [Hp Hg]. rewrite Hp.
  rewrite IH by (intros x Hx; apply H; now right).
  destruct (p a) eqn:Hpa; [rewrite Hg by reflexivity|]; reflexivity.
Qed.

Lemma unique_id_row l (x y : Window.row) :
  NoDup (map Window.id l) -> In x l -> In y l ->
  Window.id x = Window.id y -> x = y.
Proof.
  induction l as [|a l IH]; cbn; intros Hnd Hx Hy Hid; [contradiction|].
  inversion Hnd as [|? ? Hnotin Hnd']; subst.
  destruct Hx as [->|Hx], Hy as [->|Hy]; auto.
  - exfalso. apply Hnotin. rewrite Hid. now apply in_map.
  - exfalso. apply Hnotin. rewrite <- Hid. now apply in_map.
Qed.

(** ** Window table: what each statement does to it *)

Lemma getQuota_windows agentWallet st :
  rate_limit_windows (snd (Storage.getQuota agentWallet st)) = rate_limit_windows st /\
  next_window_id (snd (Storage.getQuota agentWallet st)) = next_window_id st.
Proof.
  unfold Storage.getQuota.
  destruct (Storage.find_quota agentWallet (agent_limit_quotas st)); now split.
Qed.

Lemma checkQuotaAvailable_windows now agentWallet st :
  rate_limit_windows (snd (Storage.checkQuotaAvailable now agentWallet st)) =
  rate_limit_windows st /\
  next_window_id (snd (Storage.checkQuotaAvailable now agentWallet st)) =
  next_window_id st.
Proof.
  unfold Storage.checkQuotaAvailable.
  pose proof (getQuota_windows agentWallet st) as H.
  destruct (Storage.getQuota agentWallet st) as [quota st1]. exact H.
Qed.

Lemma getLimits_windows now agentWallet provider model st :
  rate_limit_windows (snd (Tracker.getLimits now agentWallet provider model st)) =
  rate_limit_windows st /\
  next_window_id (snd (Tracker.getLimits now agentWallet provider model st)) =
  next_window_id st.
Proof.
  unfold Tracker.getLimits.
  pose proof (checkQuotaAvailable_windows now agentWallet st) as H.
  destruct (Storage.checkQuotaAvailable now agentWallet st) as [quota st1].
  repeat match goal with |- context [match ?x with _ => _ end] => destruct x end;
    exact H.
Qed.

Lemma windows_wf_same st st' :
  rate_limit_windows st' = rate_limit_windows st ->
  next_window_id st' = next_window_id st ->
  windows_wf st -> windows_wf st'.
Proof. unfold windows_wf. intros -> ->. tauto. Qed.

Lemma select_current_same agentWallet provider model t st st' :
  rate_limit_windows st' = rate_limit_windows st ->
  Tracker.select_current agentWallet provider model t st' =
  Tracker.select_current agentWallet provider model t st.
Proof. unfold Tracker.select_current. now intros ->. Qed.

(** The row [createWindow] inserts. *)
Lemma createWindow_rows now agentWallet provider model t st :
  let w := fst (Tracker.createWindow now agentWallet provider model t st) in
  let st' := snd (Tracker.createWindow now agentWallet provider model t st) in
  rate_limit_windows st' = (rate_limit_windows st ++ [w])%list /\
  next_window_id st' = S (next_window_id st) /\
  Window.id w = next_window_id st /\
  matches_key agentWallet provider model t w /\
  Window.is_active w = true /\
  Window.window_start w = now /\
  Window.window_end w = now + Tracker.windowDurations t /\
  counts w = (0, 0).
Proof.
  cbn zeta. unfold Tracker.createWindow.
  pose proof (getLimits_windows now agentWallet provider model st) as [Hw Hn].
  destruct (Tracker.getLimits now agentWallet provider model st) as [l st1].
  cbn [fst snd] in *. cbn. rewrite Hw, Hn. repeat split.
Qed.

Lemma windowDurations_pos t : 0 < Tracker.windowDurations t.
Proof. destruct t; reflexivity. Qed.

(** ** Window table: well-formedness is kept *)

Lemma keeps_identity_deactivate : keeps_identity Tracker.deactivate.
Proof. intros w. cbn. repeat split. discriminate. Qed.

Lemma keeps_identity_bump now tokens :
  keeps_identity (Tracker.bump_counts now tokens).
Proof. intros w. cbn. repeat split. trivial. Qed.

Lemma keeps_identity_add_tokens now tokens :
  keeps_identity (Tracker.add_tokens now tokens).
Proof. intros w. cbn. repeat split. trivial. Qed.

Lemma keeps_identity_where_id wid f :
  keeps_identity f ->
  keeps_identity (fun w => if Nat.eqb (Window.id w) wid then f w else w).
Proof.
  intros Hf w. destruct (Nat.eqb (Window.id w) wid); [apply Hf|].
  repeat split. trivial.
Qed.

Lemma keeps_identity_matches f agentWallet provider model t w :
  keeps_identity f ->
  matches_key agentWallet provider model t (f w) <->
  matches_key agentWallet provider model t w.
Proof.
  intros Hf. destruct (Hf w) as (_ & H1 & H2 & H3 & H4 & _).
  unfold matches_key. rewrite H1, H2, H3, H4. tauto.
Qed.

Lemma update_where_id_wf wid f st :
  keeps_identity f -> windows_wf st ->
  windows_wf (Tracker.update_where_id wid f st).
Proof.
  intros Hf (Hnd & Hlt & Hone).
  pose proof (keeps_identity_where_id wid f Hf) as Hg.
  unfold Tracker.update_where_id, windows_wf. cbn.
  set (g := fun w => if Nat.eqb (Window.id w) wid then f w else w) in *.
  split; [|split].
  - rewrite map_map.
    rewrite (map_ext (fun x => Window.id (g x)) Window.id); [exact Hnd|].
    intros x. apply Hg.
  - intros w' Hin. apply in_map_iff in Hin. destruct Hin as (w & <- & Hin).
    destruct (Hg w) as (-> & _). now apply Hlt.
  - intros w1' w2' H1 H2 Ha1 Ha2 Hk.
    apply in_map_iff in H1. destruct H1 as (w1 & <- & H1).
    apply in_map_iff in H2. destruct H2 as (w2 & <- & H2).
    f_equal. apply Hone; try assumption.
    + now apply (Hg w1).
    + now apply (Hg w2).
    + unfold same_key in *.
      apply (proj1 (keeps_identity_matches g _ _ _ _ w2 Hg)) in Hk.
      destruct (Hg w1) as (_ & E1 & E2 & E3 & E4 & _).
      now rewrite E1, E2, E3, E4 in Hk.
Qed.

Lemma NoDup_snoc (l : list nat) (n : nat) :
  NoDup l -> ~ In n l -> NoDup (l ++ [n]).
Proof.
  induction l as [|a l IH]; cbn; intros Hnd Hn.
  - constructor; [intros []|constructor].
  - inversion Hnd as [|? ? Ha Hnd']; subst. constructor.
    + rewrite in_app_iff. cbn. intros [H|[H|[]]]; [contradiction|].
      apply Hn. now left.
    + apply IH; [exact Hnd'|]. intros H. apply Hn. now right.
Qed.

Lemma createWindow_wf now agentWallet provider model t st :
  windows_wf st ->
  Tracker.select_current agentWallet provider model t st = None ->
  windows_wf (snd (Tracker.createWindow now agentWallet provider model t st)).
Proof.
  intros (Hnd & Hlt & Hone) Hsel.
  pose proof (createWindow_rows now agentWallet provider model t st) as H.
  cbn zeta in H. destruct H as (Hrows & Hnext & Hid & Hk & Ha & _).
  set (w := fst (Tracker.createWindow now agentWallet provider model t st)) in *.
  set (st' := snd (Tracker.createWindow now agentWallet provider model t st)) in *.
  pose proof (select_current_None _ _ _ _ _ Hsel) as Hnone.
  assert (Hclash : forall x, In x (rate_limit_windows st) ->
                             Window.is_active x = true ->
                             matches_key agentWallet provider model t x -> False).
  { intros x Hx Hax Hkx. specialize (Hnone x Hx).
    assert (Tracker.is_current_for agentWallet provider model t x = true)
      by (apply is_current_for_spec; now split).
    congruence. }
  unfold windows_wf. rewrite Hrows, Hnext. split; [|split].
  - rewrite map_app. cbn. apply NoDup_snoc; [exact Hnd|].
    intros Hin. apply in_map_iff in Hin. destruct Hin as (x & Hx & Hin).
    specialize (Hlt x Hin). lia.
  - intros x Hx. apply in_app_iff in Hx. destruct Hx as [Hx|[<-|[]]].
    + specialize (Hlt x Hx). lia.
    + lia.
  - intros w1 w2 H1 H2 Ha1 Ha2 Hs.
    apply in_app_iff in H1. apply in_app_iff in H2.
    destruct H1 as [H1|[<-|[]]], H2 as [H2|[<-|[]]].
    + now apply Hone.
    + exfalso. apply (Hclash w1 H1 Ha1).
      unfold same_key in Hs. destruct Hs as (E1 & E2 & E3 & E4).
      destruct Hk as (K1 & K2 & K3 & K4). unfold matches_key. repeat split; congruence.
    + exfalso. apply (Hclash w2 H2 Ha2).
      unfold same_key in Hs. destruct Hs as (E1 & E2 & E3 & E4).
      destruct Hk as (K1 & K2 & K3 & K4). unfold matches_key. repeat split; congruence.
    + reflexivity.
Qed.

(** ** Window table: other horizons are not disturbed *)

Lemma createWindow_other_type now agentWallet provider model t st aw' p' m' t' :
  t' <> t ->
  Tracker.select_current aw' p' m' t'
    (snd (Tracker.createWindow now agentWallet provider model t st)) =
  Tracker.select_current aw' p' m' t' st.
Proof.
  intros Hne.
  pose proof (createWindow_rows now agentWallet provider model t st) as H.
  cbn zeta in H. destruct H as (Hrows & _ & _ & (_ & _ & _ & Ht) & _).
  unfold Tracker.select_current. rewrite Hrows, filter_app. cbn.
  rewrite is_current_for_other_type by congruence.
  now rewrite app_nil_r.
Qed.

Lemma update_where_id_other_type f st w aw' p' m' t' :
  keeps_identity f -> windows_wf st ->
  In w (rate_limit_windows st) -> Window.window_type w <> t' ->
  Tracker.select_current aw' p' m' t' (Tracker.update_where_id (Window.id w) f st) =
  Tracker.select_current aw' p' m' t' st.
Proof.
  intros Hf (Hnd & _ & _) Hin Hne.
  unfold Tracker.select_current, Tracker.update_where_id. cbn.
  rewrite filter_map_same; [reflexivity|].
  intros x Hx. destruct (Nat.eqb_spec (Window.id x) (Window.id w)) as [E|E].
  - assert (x = w) by (eapply unique_id_row; eauto). subst x.
    rewrite !is_current_for_other_type; [split; [reflexivity|discriminate] | exact Hne |].
    destruct (Hf w) as (_ & _ & _ & _ & -> & _). exact Hne.
  - split; [reflexivity|trivial].
Qed.

(** After an UPDATE by id that keeps the row active, the key's current
    window is the updated row. *)
Lemma update_where_id_selected f st agentWallet provider model t w :
  keeps_identity f -> windows_wf st ->
  In w (rate_limit_windows st) ->
  matches_key agentWallet provider model t w ->
  Window.is_active (f w) = true ->
  Tracker.select_current agentWallet provider model t
    (Tracker.update_where_id (Window.id w) f st) = Some (f w).
Proof.
  intros Hf Hwf Hin Hk Ha.
  apply select_current_unique.
  - now apply update_where_id_wf.
  - unfold Tracker.update_where_id. cbn. apply in_map_iff. exists w.
    rewrite Nat.eqb_refl. now split.
  - now apply keeps_identity_matches.
  - exact Ha.
Qed.

(** ** WindowTracker: the window an operation settles on *)

Lemma wouldExceedLimit_settle now agentWallet provider model t st :
  Tracker.wouldExceedLimit now agentWallet provider model t st =
  (Tracker.checkWindowLimitDetailed
     (fst (settle now agentWallet provider model t st)),
   snd (settle now agentWallet provider model t st)).
Proof.
  unfold Tracker.wouldExceedLimit, settle.
  destruct (Tracker.getCurrentWindow now agentWallet provider model t st)
    as [w st1].
  destruct (Window.window_end w <? now); [|reflexivity].
  destruct (Tracker.rotateWindow now w st1) as [w2 st2].
  destruct (Tracker.getCurrentWindow now agentWallet provider model t st2)
    as [w3 st3].
  reflexivity.
Qed.

Lemma incrementWindow_settle now agentWallet provider model t tokens st :
  Tracker.incrementWindow now agentWallet provider model t tokens st =
  Tracker.update_where_id
    (Window.id (fst (settle now agentWallet provider model t st)))
    (Tracker.bump_counts now tokens)
    (snd (settle now agentWallet provider model t st)).
Proof.
  unfold Tracker.incrementWindow, Tracker.updateWindowCounts, settle.
  destruct (Tracker.getCurrentWindow now agentWallet provider model t st)
    as [w st1].
  destruct (Window.window_end w <? now); [|reflexivity].
  destruct (Tracker.rotateWindow now w st1) as [w2 st2].
  destruct (Tracker.getCurrentWindow now agentWallet provider model t st2)
    as [w3 st3].
  reflexivity.
Qed.

Lemma settle_spec now agentWallet provider model t st :
  windows_wf st ->
  let w := fst (settle now agentWallet provider model t st) in
  let s := snd (settle now agentWallet provider model t st) in
  windows_wf s /\
  In w (rate_limit_windows s) /\
  matches_key agentWallet provider model t w /\
  Window.is_active w = true /\
  now <= Window.window_end w /\
  counts w = live_counts now agentWallet provider model t st /\
  (forall aw' p' m' t',
     t' <> t ->
     Tracker.select_current aw' p' m' t' s =
     Tracker.select_current aw' p' m' t' st).
Proof.
  intros Hwf. cbn zeta. unfold settle, Tracker.getCurrentWindow, live_counts.
  pose proof (windowDurations_pos t) as Hdur.
  destruct (Tracker.select_current agentWallet provider model t st) as [w0|] eqn:Hsel.
  - destruct (select_current_Some _ _ _ _ _ _ Hsel) as (Hin0 & Hk0 & Ha0).
    destruct (Window.window_end w0 <? now) eqn:Hstale.
    + unfold Tracker.rotateWindow.
      pose proof Hk0 as (K1 & K2 & K3 & K4). rewrite K1, K2, K3, K4.
      set (st1 := Tracker.update_where_id (Window.id w0) Tracker.deactivate st).
      assert (Hwf1 : windows_wf st1)
        by (apply update_where_id_wf; [apply keeps_identity_deactivate | exact Hwf]).
      assert (Hsel1 : Tracker.select_current agentWallet provider model t st1 = None).
      { destruct (Tracker.select_current agentWallet provider model t st1)
          as [x|] eqn:Hx; [exfalso|reflexivity].
        apply select_current_Some in Hx. destruct Hx as (Hinx & Hkx & Hax).
        unfold st1, Tracker.update_where_id in Hinx. cbn in Hinx.
        apply in_map_iff in Hinx. destruct Hinx as (x0 & Hx0 & Hinx0).
        destruct (Nat.eqb_spec (Window.id x0) (Window.id w0)) as [E|E]; subst x.
        - cbn in Hax. discriminate.
        - destruct Hwf as (_ & _ & Hone).
          assert (w0 = x0).
          { apply Hone; try assumption. unfold same_key.
            rewrite K1, K2, K3, K4. exact Hkx. }
          subst x0. contradiction. }
      pose proof (createWindow_rows now agentWallet provider model t st1) as Hrows.
      pose proof (createWindow_wf now agentWallet provider model t st1 Hwf1 Hsel1)
        as Hwf2.
      pose proof (createWindow_other_type now agentWallet provider model t st1)
        as Hother.
      destruct (Tracker.createWindow now agentWallet provider model t st1)
        as [nw st2].
      cbn [fst snd] in *.
      destruct Hrows as (Hrows & _ & _ & Hk & Ha & _ & Hend & Hc).
      assert (Hsel2 : Tracker.select_current agentWallet provider model t st2
                      = Some nw).
      { apply select_current_unique; try assumption.
        rewrite Hrows. apply in_app_iff. right. now left. }
      rewrite Hsel2. cbn [fst snd].
      split; [exact Hwf2|]. split.
      { rewrite Hrows. apply in_app_iff. right. now left. }
      split; [exact Hk|]. split; [exact Ha|]. split; [lia|].
      split; [exact Hc|].
      intros aw' p' m' t' Hne. rewrite Hother by exact Hne.
      apply update_where_id_other_type; try assumption.
      * apply keeps_identity_deactivate.
      * congruence.
    + cbn [fst snd]. apply Z.ltb_ge in Hstale.
      split; [exact Hwf|]. split; [exact Hin0|]. split; [exact Hk0|].
      split; [exact Ha0|]. split; [exact Hstale|]. split; reflexivity.
  - pose proof (createWindow_rows now agentWallet provider model t st) as Hrows.
    pose proof (createWindow_wf now agentWallet provider model t st Hwf Hsel)
      as Hwf1.
    pose proof (createWindow_other_type now agentWallet provider model t st)
      as Hother.
    destruct (Tracker.createWindow now agentWallet provider model t st)
      as [nw st1].
    cbn [fst snd] in *.
    destruct Hrows as (Hrows & _ & _ & Hk & Ha & _ & Hend & Hc).
    assert (Hfresh : (Window.window_end nw <? now) = false)
      by (apply Z.ltb_ge; lia).
    rewrite Hfresh. cbn [fst snd].
    split; [exact Hwf1|]. split.
    { rewrite Hrows. apply in_app_iff. right. now left. }
    split; [exact Hk|]. split; [exact Ha|]. split; [lia|].
    split; [exact Hc|].
    intros aw' p' m' t' Hne. now apply Hother.
Qed.

(** ** WindowTracker: effect of a check and of an increment on the counts *)

Lemma live_counts_selected now agentWallet provider model t st w :
  Tracker.select_current agentWallet provider model t st = Some w ->
  now <= Window.window_end w ->
  live_counts now agentWallet provider model t st = counts w.
Proof.
  intros Hsel Hend. unfold live_counts. rewrite Hsel.
  apply Z.ltb_ge in Hend. now rewrite Hend.
Qed.

Lemma live_counts_same now agentWallet provider model t st st' :
  Tracker.select_current agentWallet provider model t st' =
  Tracker.select_current agentWallet provider model t st ->
  live_counts now agentWallet provider model t st' =
  live_counts now agentWallet provider model t st.
Proof. unfold live_counts. now intros ->. Qed.

Lemma WindowType_eq_dec (a b : WindowType) : {a = b} + {a <> b}.
Proof. decide equality. Qed.

(** An admission check leaves the live counts of every horizon as they were. *)
Lemma wouldExceedLimit_counts now agentWallet provider model t st :
  windows_wf st ->
  let s := snd (Tracker.wouldExceedLimit now agentWallet provider model t st) in
  windows_wf s /\
  forall t', live_counts now agentWallet provider model t' s =
             live_counts now agentWallet provider model t' st.
Proof.
  intros Hwf. cbn zeta. rewrite wouldExceedLimit_settle. cbn [snd].
  destruct (settle_spec now agentWallet provider model t st Hwf)
    as (Hwf' & Hin & Hk & Ha & Hend & Hc & Hother).
  split; [exact Hwf'|]. intros t'.
  destruct (WindowType_eq_dec t' t) as [->|Hne].
  - rewrite <- Hc. apply live_counts_selected; [|exact Hend].
    now apply select_current_unique.
  - apply live_counts_same. now apply Hother.
Qed.

(** An increment settles on the key's live window and raises its
    request_count by one and its token_count by [tokens]; the current
    windows of the other horizons are not touched. *)
Lemma incrementWindow_counts now agentWallet provider model t tokens st :
  windows_wf st ->
  let s := Tracker.incrementWindow now agentWallet provider model t tokens st in
  let before := live_counts now agentWallet provider model t st in
  windows_wf s /\
  (exists w',
     Tracker.select_current agentWallet provider model t s = Some w' /\
     now <= Window.window_end w' /\
     counts w' = (fst before + 1, snd before + tokens)) /\
  (forall aw' p' m' t',
     t' <> t ->
     Tracker.select_current aw' p' m' t' s =
     Tracker.select_current aw' p' m' t' st).
Proof.
  intros Hwf. cbn zeta. rewrite incrementWindow_settle.
  destruct (settle_spec now agentWallet provider model t st Hwf)
    as (Hwf' & Hin & Hk & Ha & Hend & Hc & Hother).
  set (w := fst (settle now agentWallet provider model t st)) in *.
  set (s := snd (settle now agentWallet provider model t st)) in *.
  pose proof (keeps_identity_bump now tokens) as Hf.
  split; [now apply update_where_id_wf|]. split.
  - exists (Tracker.bump_counts now tokens w). split; [|split].
    + apply update_where_id_selected; assumption.
    + exact Hend.
    + rewrite <- Hc. reflexivity.
  - intros aw' p' m' t' Hne.
    rewrite update_where_id_other_type; try assumption.
    + now apply Hother.
    + destruct Hk as (_ & _ & _ & ->). congruence.
Qed.

Lemma firstExceeded_counts now agentWallet provider model ts st :
  windows_wf st ->
  let s := snd (Manager.firstExceeded now agentWallet provider model ts st) in
  windows_wf s /\
  forall t', live_counts now agentWallet provider model t' s =
             live_counts now agentWallet provider model t' st.
Proof.
  revert st. induction ts as [|t ts IH]; intros st Hwf; cbn.
  - now split.
  - destruct (wouldExceedLimit_counts now agentWallet provider model t st Hwf)
      as [Hwf1 H1].
    destruct (Tracker.wouldExceedLimit now agentWallet provider model t st)
      as [c st1].
    cbn [snd] in *.
    destruct (Js.truthy (Tracker.exceeded c)); [now split|].
    destruct (IH st1 Hwf1) as [Hwf2 H2].
    split; [exact Hwf2|]. intros t'. now rewrite H2, H1.
Qed.

Lemma incrementAll_counts now agentWallet provider model ts :
  NoDup ts ->
  forall st,
    windows_wf st ->
    let s := Manager.incrementAll now agentWallet provider model ts st in
    windows_wf s /\
    (forall t', ~ In t' ts ->
       Tracker.select_current agentWallet provider model t' s =
       Tracker.select_current agentWallet provider model t' st) /\
    (forall t', In t' ts ->
       exists w',
         Tracker.select_current agentWallet provider model t' s = Some w' /\
         now <= Window.window_end w' /\
         counts w' =
           (fst (live_counts now agentWallet provider model t' st) + 1,
            snd (live_counts now agentWallet provider model t' st))).
Proof.
  induction ts as [|t ts IH]; intros Hnd st Hwf; cbn zeta; cbn [Manager.incrementAll].
  - split; [exact Hwf|]. split; [reflexivity|]. intros t' [].
  - inversion Hnd as [|? ? Hnotin Hnd']; subst.
    destruct (incrementWindow_counts now agentWallet provider model t 0 st Hwf)
      as (Hwf1 & (w1 & Hsel1 & Hend1 & Hc1) & Hother1).
    set (st1 := Tracker.incrementWindow now agentWallet provider model t 0 st) in *.
    destruct (IH Hnd' st1 Hwf1) as (Hwf2 & Hout & Hin).
    split; [exact Hwf2|]. split.
    + intros t' Hn. rewrite Hout by (intros H; apply Hn; now right).
      apply Hother1. intros ->. apply Hn. now left.
    + intros t' [<-|Ht'].
      * exists w1. rewrite Hout by exact Hnotin.
        split; [exact Hsel1|]. split; [exact Hend1|].
        rewrite Hc1. f_equal. lia.
      * destruct (Hin t' Ht') as (w' & Hsel & Hend & Hc).
        exists w'. split; [exact Hsel|]. split; [exact Hend|].
        rewrite Hc.
        rewrite (live_counts_same now agentWallet provider model t' st st1);
          [reflexivity|].
        apply Hother1. intros ->. contradiction.
Qed.

(** ** WindowTracker: effect of a token addition *)

Lemma same_but_tokens_refl w : same_but_tokens w w.
Proof. repeat split. Qed.

Lemma same_but_tokens_trans w1 w2 w3 :
  same_but_tokens w1 w2 -> same_but_tokens w2 w3 -> same_but_tokens w1 w3.
Proof.
  unfold same_but_tokens.
  intros (a1 & a2 & a3 & a4 & a5 & a6 & a7 & a8 & a9 & a10 & a11)
         (b1 & b2 & b3 & b4 & b5 & b6 & b7 & b8 & b9 & b10 & b11).
  repeat split; congruence.
Qed.

Lemma same_but_tokens_add_tokens now tokens wid w :
  same_but_tokens w
    (if Nat.eqb (Window.id w) wid then Tracker.add_tokens now tokens w else w).
Proof. destruct (Nat.eqb (Window.id w) wid); repeat split. Qed.

Lemma Forall2_map_same {A} (R : A -> A -> Prop) (g : A -> A) l :
  (forall x, R x (g x)) -> Forall2 R l (map g l).
Proof. intros H. induction l; cbn; constructor; auto. Qed.

Lemma Forall2_trans_rel {A} (R : A -> A -> Prop) l1 l2 l3 :
  (forall x y z, R x y -> R y z -> R x z) ->
  Forall2 R l1 l2 -> Forall2 R l2 l3 -> Forall2 R l1 l3.
Proof.
  intros Ht H12. revert l3. induction H12; intros l3 H23; inversion H23; subst;
    constructor; eauto.
Qed.

Lemma Forall2_Forall_transfer {A} (R : A -> A -> Prop) (P Q : A -> Prop) l l' :
  (forall x y, R x y -> P x -> Q y) ->
  Forall2 R l l' -> Forall P l -> Forall Q l'.
Proof.
  intros H H2. induction H2; intros HP; inversion HP; subst; constructor; eauto.
Qed.

Lemma tokens_only_refl st : tokens_only st st.
Proof.
  split; [lia|]. exists (rate_limit_windows st), []. rewrite app_nil_r.
  split; [reflexivity|]. split; [|constructor].
  rewrite <- (map_id (rate_limit_windows st)) at 2.
  apply Forall2_map_same. apply same_but_tokens_refl.
Qed.

Lemma tokens_only_trans st1 st2 st3 :
  tokens_only st1 st2 -> tokens_only st2 st3 -> tokens_only st1 st3.
Proof.
  intros (Hn1 & k1 & c1 & Hr1 & Hk1 & Hc1) (Hn2 & k2 & c2 & Hr2 & Hk2 & Hc2).
  split; [lia|].
  rewrite Hr1 in Hk2. apply Forall2_app_inv_l in Hk2.
  destruct Hk2 as (k2a & k2b & Hka & Hkb & ->).
  exists k2a, (k2b ++ c2)%list. split; [now rewrite Hr2, app_assoc|]. split.
  - eapply Forall2_trans_rel; eauto using same_but_tokens_trans.
  - apply Forall_app. split.
    + eapply Forall2_Forall_transfer; [|exact Hkb|exact Hc1].
      intros x y (E1 & _ & _ & _ & _ & _ & _ & E8 & _) [Hx1 Hx2].
      split; congruence.
    + eapply Forall_impl; [|exact Hc2]. intros x [Hx1 Hx2]. split; [lia|exact Hx2].
Qed.

(** A token addition picks the key's active window (opening one when there is
    none), adds the tokens to it and nothing else: every row keeps all its
    fields but token_count and last_updated, and the current windows of the
    other horizons are not touched. *)
Lemma updateTokenCount_counts now agentWallet provider model t tokens st :
  windows_wf st ->
  let s := Tracker.updateTokenCount now agentWallet provider model t tokens st in
  let before := active_counts agentWallet provider model t st in
  windows_wf s /\
  tokens_only st s /\
  (exists w',
     Tracker.select_current agentWallet provider model t s = Some w' /\
     counts w' = (fst before, snd before + tokens)) /\
  (forall aw' p' m' t',
     t' <> t ->
     Tracker.select_current aw' p' m' t' s =
     Tracker.select_current aw' p' m' t' st).
Proof.
  intros Hwf. cbn zeta.
  unfold Tracker.updateTokenCount, Tracker.getCurrentWindow, active_counts.
  pose proof (keeps_identity_add_tokens now tokens) as Hf.
  destruct (Tracker.select_current agentWallet provider model t st) as [w0|] eqn:Hsel.
  - destruct (select_current_Some _ _ _ _ _ _ Hsel) as (Hin0 & Hk0 & Ha0).
    split; [now apply update_where_id_wf|]. split; [|split].
    + split; [cbn; lia|].
      eexists _, []. rewrite app_nil_r. split; [reflexivity|]. split; [|constructor].
      apply Forall2_map_same. intros x. apply same_but_tokens_add_tokens.
    + exists (Tracker.add_tokens now tokens w0). split; [|reflexivity].
      apply update_where_id_selected; assumption.
    + intros aw' p' m' t' Hne. apply update_where_id_other_type; try assumption.
      destruct Hk0 as (_ & _ & _ & ->). congruence.
  - pose proof (createWindow_rows now agentWallet provider model t st) as Hrows.
    pose proof (createWindow_wf now agentWallet provider model t st Hwf Hsel)
      as Hwf1.
    pose proof (createWindow_other_type now agentWallet provider model t st)
      as Hother.
    destruct (Tracker.createWindow now agentWallet provider model t st)
      as [nw st1].
    cbn [fst snd] in *.
    destruct Hrows as (Hrows & Hnext & Hid & Hk & Ha & _ & _ & Hc).
    assert (Hin : In nw (rate_limit_windows st1))
      by (rewrite Hrows; apply in_app_iff; right; now left).
    split; [now apply update_where_id_wf|]. split; [|split].
    + split; [cbn; lia|].
      unfold Tracker.update_where_id. cbn. rewrite Hrows, map_app. cbn.
      eexists _, _. split; [reflexivity|]. split.
      * apply Forall2_map_same. intros x. apply same_but_tokens_add_tokens.
      * constructor; [|constructor].
        rewrite Nat.eqb_refl. cbn. split; [lia|].
        unfold counts in Hc. congruence.
    + exists (Tracker.add_tokens now tokens nw). split.
      * apply update_where_id_selected; assumption.
      * unfold counts in *. injection Hc as E1 E2. cbn. now rewrite E1, E2.
    + intros aw' p' m' t' Hne.
      rewrite update_where_id_other_type; try assumption.
      * now apply Hother.
      * destruct Hk as (_ & _ & _ & ->). congruence.
Qed.

Lemma active_counts_same agentWallet provider model t st st' :
  Tracker.select_current agentWallet provider model t st' =
  Tracker.select_current agentWallet provider model t st ->
  active_counts agentWallet provider model t st' =
  active_counts agentWallet provider model t st.
Proof. unfold active_counts. now intros ->. Qed.

Lemma updateTokensAll_counts now agentWallet provider model tokens ts :
  NoDup ts ->
  forall st,
    windows_wf st ->
    let s := Manager.updateTokensAll now agentWallet provider model tokens ts st in
    windows_wf s /\
    tokens_only st s /\
    (forall t', ~ In t' ts ->
       Tracker.select_current agentWallet provider model t' s =
       Tracker.select_current agentWallet provider model t' st) /\
    (forall t', In t' ts ->
       exists w',
         Tracker.select_current agentWallet provider model t' s = Some w' /\
         counts w' =
           (fst (active_counts agentWallet provider model t' st),
            snd (active_counts agentWallet provider model t' st) + tokens)).
Proof.
  induction ts as [|t ts IH]; intros Hnd st Hwf; cbn zeta;
    cbn [Manager.updateTokensAll].
  - split; [exact Hwf|]. split; [apply tokens_only_refl|].
    split; [reflexivity|]. intros t' [].
  - inversion Hnd as [|? ? Hnotin Hnd']; subst.
    destruct (updateTokenCount_counts now agentWallet provider model t tokens st Hwf)
      as (Hwf1 & Hfr1 & (w1 & Hsel1 & Hc1) & Hother1).
    set (st1 := Tracker.updateTokenCount now agentWallet provider model t tokens st)
      in *.
    destruct (IH Hnd' st1 Hwf1) as (Hwf2 & Hfr2 & Hout & Hin).
    split; [exact Hwf2|]. split; [eapply tokens_only_trans; eassumption|]. split.
    + intros t' Hn. rewrite Hout by (intros H; apply Hn; now right).
      apply Hother1. intros ->. apply Hn. now left.
    + intros t' [<-|Ht'].
      * exists w1. rewrite Hout by exact Hnotin. now split.
      * destruct (Hin t' Ht') as (w' & Hsel & Hc).
        exists w'. split; [exact Hsel|]. rewrite Hc.
        rewrite (active_counts_same agentWallet provider model t' st st1);
          [reflexivity|].
        apply Hother1. intros ->. contradiction.
Qed.

(** ** Manager: bound and re-queue step of the drain *)

(** [processQueue] runs the drain body at most five times, and the re-queue
    statement sets the status back to pending without touching retry_count. *)
Lemma processQueue_bounded tz now agentWallet st :
  (exists n, (n <= 5)%nat /\
             Manager.processQueue tz now agentWallet st = Manager.drain tz n now st) /\
  (forall e, QueueEntry.status (Queue.pending_row e) = pending /\
             QueueEntry.retry_count (Queue.pending_row e) =
             QueueEntry.retry_count e /\
             QueueEntry.queue_id (Queue.pending_row e) = QueueEntry.queue_id e).
Proof.
  split; [|intros e; repeat split].
  unfold Manager.processQueue.
  destruct (Queue.getQueueSize agentWallet st =? 0).
  - exists 0%nat. split; [lia | reflexivity].
  - exists (Z.to_nat (Z.min 5 (Queue.getQueueSize agentWallet st))).
    split; [lia | reflexivity].
Qed.

(** ** The window table stays in step with the clock *)

Lemma windows_wf_empty : windows_wf empty_store.
Proof. split; [constructor|]. split; [intros w []|intros w1 w2 []]. Qed.

Lemma windows_wf_queue_frame st st' :
  queue_frame st st' -> windows_wf st -> windows_wf st'.
Proof.
  intros (_ & Hw & Hn & _). now apply windows_wf_same.
Qed.

Lemma enqueue_windows now queueId agentWallet provider model priority st :
  rate_limit_windows
    (snd (Queue.enqueue now queueId agentWallet provider model priority st)) =
  rate_limit_windows st /\
  next_window_id
    (snd (Queue.enqueue now queueId agentWallet provider model priority st)) =
  next_window_id st.
Proof.
  unfold Queue.enqueue.
  pose proof (checkQuotaAvailable_windows now agentWallet st) as H.
  destruct (Storage.checkQuotaAvailable now agentWallet st) as [quota st1].
  cbn [snd] in H.
  repeat match goal with |- context [if ?x then _ else _] => destruct x end;
    cbn; exact H.
Qed.

Lemma timeline_mono now now' st :
  now <= now' -> timeline now st -> timeline now' st.
Proof.
  intros Hle H w Hin. destruct (H w Hin) as [H1 H2].
  split; [exact H1|]. intros Hi. specialize (H2 Hi). lia.
Qed.

Lemma timeline_same now st st' :
  rate_limit_windows st' = rate_limit_windows st ->
  timeline now st -> timeline now st'.
Proof. unfold timeline. now intros ->. Qed.

Lemma timeline_queue_frame now st st' :
  queue_frame st st' -> timeline now st -> timeline now st'.
Proof. intros (_ & Hw & _). now apply timeline_same. Qed.

Lemma createWindow_timeline now agentWallet provider model t st :
  timeline now st ->
  timeline now (snd (Tracker.createWindow now agentWallet provider model t st)).
Proof.
  intros H.
  pose proof (createWindow_rows now agentWallet provider model t st) as Hrows.
  cbn zeta in Hrows. destruct Hrows as (Hrows & _ & _ & _ & Ha & Hs & He & _).
  pose proof (windowDurations_pos t) as Hdur.
  intros w Hin. rewrite Hrows in Hin. apply in_app_iff in Hin.
  destruct Hin as [Hin|[<-|[]]]; [now apply H|].
  split; [lia | congruence].
Qed.

Lemma update_where_id_timeline now wid f st :
  (forall w, Window.window_start (f w) = Window.window_start w /\
             Window.window_end (f w) = Window.window_end w /\
             Window.is_active (f w) = Window.is_active w) ->
  timeline now st -> timeline now (Tracker.update_where_id wid f st).
Proof.
  intros Hf H w' Hin. unfold Tracker.update_where_id in Hin. cbn in Hin.
  apply in_map_iff in Hin. destruct Hin as (w & <- & Hin).
  destruct (Nat.eqb (Window.id w) wid); [|now apply H].
  destruct (Hf w) as (-> & -> & ->). now apply H.
Qed.

Lemma deactivate_timeline now w0 st :
  windows_wf st -> In w0 (rate_limit_windows st) ->
  Window.window_end w0 < now ->
  timeline now st ->
  timeline now (Tracker.update_where_id (Window.id w0) Tracker.deactivate st).
Proof.
  intros (Hnd & _ & _) Hin0 Hstale H w' Hin.
  unfold Tracker.update_where_id in Hin. cbn in Hin.
  apply in_map_iff in Hin. destruct Hin as (w & <- & Hin).
  destruct (Nat.eqb_spec (Window.id w) (Window.id w0)) as [E|E]; [|now apply H].
  assert (w = w0) by (eapply unique_id_row; eauto). subst w.
  cbn. split; [now apply H | intros _; exact Hstale].
Qed.

(** Where [createWindow] is reached (no active row for the key), no row of
    the key starts at [now]: the INSERT cannot collide on window_start. *)
Lemma create_site_no_clash now agentWallet provider model t st :
  timeline now st ->
  Tracker.select_current agentWallet provider model t st = None ->
  forall w, In w (rate_limit_windows st) ->
            matches_key agentWallet provider model t w ->
            Window.window_start w < now.
Proof.
  intros H Hsel w Hin Hk. destruct (H w Hin) as [Hse Hended].
  pose proof (select_current_None _ _ _ _ _ Hsel w Hin) as Hnot.
  destruct (Window.is_active w) eqn:Ha.
  - assert (Tracker.is_current_for agentWallet provider model t w = true)
      by (apply is_current_for_spec; now split).
    congruence.
  - specialize (Hended eq_refl). lia.
Qed.

(** Deactivating the key's current window leaves the key without active row. *)
Lemma deactivate_clears_key agentWallet provider model t st w0 :
  windows_wf st ->
  Tracker.select_current agentWallet provider model t st = Some w0 ->
  Tracker.select_current agentWallet provider model t
    (Tracker.update_where_id (Window.id w0) Tracker.deactivate st) = None.
Proof.
  intros (_ & _ & Hone) Hsel.
  destruct (select_current_Some _ _ _ _ _ _ Hsel) as (Hin0 & Hk0 & Ha0).
  destruct (Tracker.select_current agentWallet provider model t
              (Tracker.update_where_id (Window.id w0) Tracker.deactivate st))
    as [x|] eqn:Hx; [exfalso|reflexivity].
  apply select_current_Some in Hx. destruct Hx as (Hinx & Hkx & Hax).
  unfold Tracker.update_where_id in Hinx. cbn in Hinx.
  apply in_map_iff in Hinx. destruct Hinx as (x0 & Hx0 & Hinx0).
  destruct (Nat.eqb_spec (Window.id x0) (Window.id w0)) as [E|E]; subst x.
  - cbn in Hax. discriminate.
  - assert (w0 = x0).
    { apply Hone; try assumption. unfold same_key.
      destruct Hk0 as (-> & -> & -> & ->). exact Hkx. }
    subst x0. contradiction.
Qed.

(** Where [rotateWindow] reaches [createWindow] (the key's stale window has
    just been deactivated), no row of the key starts at [now] either. *)
Lemma rotate_site_no_clash now agentWallet provider model t st w0 :
  windows_wf st -> timeline now st ->
  Tracker.select_current agentWallet provider model t st = Some w0 ->
  Window.window_end w0 < now ->
  forall w,
    In w (rate_limit_windows
            (Tracker.update_where_id (Window.id w0) Tracker.deactivate st)) ->
    matches_key agentWallet provider model t w ->
    Window.window_start w < now.
Proof.
  intros Hwf Htl Hsel Hstale.
  destruct (select_current_Some _ _ _ _ _ _ Hsel) as (Hin0 & _ & _).
  apply create_site_no_clash.
  - now apply deactivate_timeline.
  - now apply deactivate_clears_key.
Qed.

(** Strictly past the end of the key's active window, an admission check or
    an increment does rotate: the stale row is deactivated and the operation
    settles on a fresh active window [now, now + duration) with zero counts. *)
Lemma settle_rotates now agentWallet provider model t st w0 :
  windows_wf st ->
  Tracker.select_current agentWallet provider model t st = Some w0 ->
  Window.window_end w0 < now ->
  let w := fst (settle now agentWallet provider model t st) in
  let s := snd (settle now agentWallet provider model t st) in
  In (Tracker.deactivate w0) (rate_limit_windows s) /\
  Tracker.select_current agentWallet provider model t s = Some w /\
  Window.is_active w = true /\
  Window.window_start w = now /\
  Window.window_end w = now + Tracker.windowDurations t /\
  counts w = (0, 0).
Proof.
  intros Hwf Hsel Hstale. cbn zeta. unfold settle, Tracker.getCurrentWindow.
  rewrite Hsel. apply Z.ltb_lt in Hstale. rewrite Hstale.
  destruct (select_current_Some _ _ _ _ _ _ Hsel) as (Hin0 & Hk0 & Ha0).
  unfold Tracker.rotateWindow.
  destruct Hk0 as (K1 & K2 & K3 & K4). rewrite K1, K2, K3, K4.
  set (st1 := Tracker.update_where_id (Window.id w0) Tracker.deactivate st).
  assert (Hwf1 : windows_wf st1)
    by (apply update_where_id_wf; [apply keeps_identity_deactivate | exact Hwf]).
  pose proof (deactivate_clears_key _ _ _ _ _ _ Hwf Hsel) as Hsel1.
  fold st1 in Hsel1.
  assert (Hin1 : In (Tracker.deactivate w0) (rate_limit_windows st1)).
  { unfold st1, Tracker.update_where_id. cbn. apply in_map_iff. exists w0.
    rewrite Nat.eqb_refl. now split. }
  pose proof (createWindow_rows now agentWallet provider model t st1) as Hrows.
  pose proof (createWindow_wf now agentWallet provider model t st1 Hwf1 Hsel1)
    as Hwf2.
  destruct (Tracker.createWindow now agentWallet provider model t st1)
    as [nw st2].
  cbn [fst snd] in *.
  destruct Hrows as (Hrows & _ & _ & Hk & Ha & Hs & He & Hc).
  assert (Hsel2 : Tracker.select_current agentWallet provider model t st2
                  = Some nw).
  { apply select_current_unique; try assumption.
    rewrite Hrows. apply in_app_iff. right. now left. }
  rewrite Hsel2. cbn [fst snd].
  split; [rewrite Hrows; apply in_app_iff; now left|].
  repeat (split; [assumption|]). exact Hc.
Qed.

Lemma settle_timeline now agentWallet provider model t st :
  windows_wf st -> timeline now st ->
  timeline now (snd (settle now agentWallet provider model t st)).
Proof.
  intros Hwf Htl. unfold settle, Tracker.getCurrentWindow.
  destruct (Tracker.select_current agentWallet provider model t st) as [w0|] eqn:Hsel.
  - destruct (select_current_Some _ _ _ _ _ _ Hsel) as (Hin0 & Hk0 & Ha0).
    destruct (Window.window_end w0 <? now) eqn:Hstale; [|exact Htl].
    apply Z.ltb_lt in Hstale. unfold Tracker.rotateWindow.
    set (st1 := Tracker.update_where_id (Window.id w0) Tracker.deactivate st).
    assert (Htl1 : timeline now st1) by (now apply deactivate_timeline).
    pose proof (createWindow_timeline now (Window.agent_wallet w0)
                  (Window.provider w0) (Window.model w0) (Window.window_type w0)
                  st1 Htl1) as Htl2.
    destruct (Tracker.createWindow now (Window.agent_wallet w0)
                (Window.provider w0) (Window.model w0) (Window.window_type w0) st1)
      as [nw st2].
    cbn [snd] in Htl2.
    destruct (Tracker.select_current agentWallet provider model t st2);
      [exact Htl2 | now apply createWindow_timeline].
  - pose proof (createWindow_timeline now agentWallet provider model t st Htl)
      as Htl1.
    pose proof (createWindow_rows now agentWallet provider model t st) as R.
    cbn zeta in R.
    destruct (Tracker.createWindow now agentWallet provider model t st)
      as [nw st1].
    cbn [fst snd] in *. destruct R as (_ & _ & _ & _ & _ & _ & Hend & _).
    pose proof (windowDurations_pos t) as Hdur.
    assert (Hfresh : (Window.window_end nw <? now) = false)
      by (apply Z.ltb_ge; lia).
    rewrite Hfresh. exact Htl1.
Qed.

Lemma bump_counts_keeps_bounds now tokens w :
  Window.window_start (Tracker.bump_counts now tokens w) = Window.window_start w /\
  Window.window_end (Tracker.bump_counts now tokens w) = Window.window_end w /\
  Window.is_active (Tracker.bump_counts now tokens w) = Window.is_active w.
Proof. repeat split. Qed.

Lemma add_tokens_keeps_bounds now tokens w :
  Window.window_start (Tracker.add_tokens now tokens w) = Window.window_start w /\
  Window.window_end (Tracker.add_tokens now tokens w) = Window.window_end w /\
  Window.is_active (Tracker.add_tokens now tokens w) = Window.is_active w.
Proof. repeat split. Qed.

Lemma wouldExceedLimit_ok now agentWallet provider model t st :
  windows_ok now st ->
  windows_ok now
    (snd (Tracker.wouldExceedLimit now agentWallet provider model t st)).
Proof.
  intros [Hwf Htl]. split.
  - now apply wouldExceedLimit_counts.
  - rewrite wouldExceedLimit_settle. cbn [snd]. now apply settle_timeline.
Qed.

Lemma incrementWindow_ok now agentWallet provider model t tokens st :
  windows_ok now st ->
  windows_ok now
    (Tracker.incrementWindow now agentWallet provider model t tokens st).
Proof.
  intros [Hwf Htl]. split.
  - now apply incrementWindow_counts.
  - rewrite incrementWindow_settle. apply update_where_id_timeline.
    + apply bump_counts_keeps_bounds.
    + now apply settle_timeline.
Qed.

Lemma updateTokenCount_ok now agentWallet provider model t tokens st :
  windows_ok now st ->
  windows_ok now
    (Tracker.updateTokenCount now agentWallet provider model t tokens st).
Proof.
  intros [Hwf Htl]. split.
  - now apply updateTokenCount_counts.
  - unfold Tracker.updateTokenCount, Tracker.getCurrentWindow.
    destruct (Tracker.select_current agentWallet provider model t st).
    + apply update_where_id_timeline;
        [apply add_tokens_keeps_bounds | exact Htl].
    + pose proof (createWindow_timeline now agentWallet provider model t st Htl)
        as Htl1.
      destruct (Tracker.createWindow now agentWallet provider model t st)
        as [nw st1].
      apply update_where_id_timeline;
        [apply add_tokens_keeps_bounds | exact Htl1].
Qed.

Lemma firstExceeded_ok now agentWallet provider model ts st :
  windows_ok now st ->
  windows_ok now (snd (Manager.firstExceeded now agentWallet provider model ts st)).
Proof.
  revert st. induction ts as [|t ts IH]; intros st Hok; cbn; [exact Hok|].
  pose proof (wouldExceedLimit_ok now agentWallet provider model t st Hok) as H1.
  destruct (Tracker.wouldExceedLimit now agentWallet provider model t st)
    as [c st1].
  destruct (Js.truthy (Tracker.exceeded c)); [exact H1 | now apply IH].
Qed.

Lemma incrementAll_ok now agentWallet provider model ts st :
  windows_ok now st ->
  windows_ok now (Manager.incrementAll now agentWallet provider model ts st).
Proof.
  revert st. induction ts as [|t ts IH]; intros st Hok; cbn; [exact Hok|].
  apply IH. now apply incrementWindow_ok.
Qed.

Lemma updateTokensAll_ok now agentWallet provider model tokens ts st :
  windows_ok now st ->
  windows_ok now
    (Manager.updateTokensAll now agentWallet provider model tokens ts st).
Proof.
  revert st. induction ts as [|t ts IH]; intros st Hok; cbn; [exact Hok|].
  apply IH. now apply updateTokenCount_ok.
Qed.

Lemma windows_ok_same now st st' :
  rate_limit_windows st' = rate_limit_windows st ->
  next_window_id st' = next_window_id st ->
  windows_ok now st -> windows_ok now st'.
Proof.
  intros Hw Hn [Hwf Htl]. split.
  - eapply windows_wf_same; eauto.
  - eapply timeline_same; eauto.
Qed.

Lemma windows_ok_queue_frame now st st' :
  queue_frame st st' -> windows_ok now st -> windows_ok now st'.
Proof. intros (_ & Hw & Hn & _). now apply windows_ok_same. Qed.

Lemma windows_ok_mono now now' st :
  now <= now' -> windows_ok now st -> windows_ok now' st.
Proof. intros Hle [Hwf Htl]. split; [exact Hwf | eapply timeline_mono; eauto]. Qed.

Lemma windows_ok_empty now : windows_ok now empty_store.
Proof. split; [apply windows_wf_empty | intros w []]. Qed.

(** The pre-call keeps the window invariant, whatever its outcome. *)
Lemma beforeProvider_ok
      now queueId requestId provider model agentId requestData st :
  windows_ok now st ->
  windows_ok now (snd (Manager.beforeProvider now queueId requestId provider
                                              model agentId requestData st)).
Proof.
  intros Hok. unfold Manager.beforeProvider.
  set (agentWallet := Js.str_or (Manager.agentWallet requestData) agentId).
  destruct (checkQuotaAvailable_windows now agentWallet st) as [Hw1 Hn1].
  destruct (Storage.checkQuotaAvailable now agentWallet st) as [quota st1].
  cbn [snd] in *.
  assert (Hok1 : windows_ok now st1) by (eapply windows_ok_same; eauto).
  destruct (negb (Storage.available quota)); [exact Hok1|].
  pose proof (firstExceeded_ok now agentWallet provider model Manager.windows
                st1 Hok1) as Hok2.
  destruct (Manager.firstExceeded now agentWallet provider model
              Manager.windows st1) as [[[t c]|] st2]; cbn [snd] in *.
  - destruct (Storage.tier quota), (Storage.can_queue quota); cbn [snd];
      try exact Hok2.
    destruct (Storage.max_queue_size quota <=? _); [exact Hok2|].
    destruct (enqueue_windows now queueId agentWallet provider model
                (Some (Js.or_default (Manager.priority requestData) 5)) st2)
      as [Hw3 Hn3].
    destruct (Queue.enqueue now queueId agentWallet provider model _ st2)
      as [[qid|e] st3]; cbn [snd] in *;
      eapply windows_ok_same; eauto.
  - cbn [snd]. apply incrementAll_ok. exact Hok2.
Qed.

Lemma drain_ok tz n now st : windows_ok now st -> windows_ok now (Manager.drain tz n now st).
Proof.
  revert st. induction n as [|n IH]; intros st Hok; cbn [Manager.drain];
    [exact Hok|].
  pose proof (dequeue_frame tz now None st) as Hfr.
  destruct (Queue.dequeue tz now None st) as [[item|] st1]; cbn [snd] in Hfr.
  - assert (Hok1 : windows_ok now st1) by (eapply windows_ok_queue_frame; eauto).
    pose proof (wouldExceedLimit_ok now (QueueEntry.agent_wallet item)
                  (QueueEntry.provider item) (QueueEntry.model item) per_minute
                  st1 Hok1) as Hok2.
    destruct (Tracker.wouldExceedLimit now (QueueEntry.agent_wallet item)
                (QueueEntry.provider item) (QueueEntry.model item) per_minute st1)
      as [c st2].
    cbn [snd] in Hok2.
    destruct (negb (Js.truthy (Tracker.exceeded c))).
    + apply IH. apply incrementAll_ok.
      eapply windows_ok_queue_frame; [|exact Hok2].
      apply update_where_queue_id_frame.
    + eapply windows_ok_queue_frame; [|exact Hok2].
      apply update_where_queue_id_frame.
  - eapply windows_ok_queue_frame; eauto.
Qed.

(** The post-call keeps the window invariant. *)
Lemma afterProvider_ok tz now provider model agentId request response st :
  windows_ok now st ->
  windows_ok now
    (Manager.afterProvider tz now provider model agentId request response st).
Proof.
  intros Hok. unfold Manager.afterProvider.
  set (agentWallet := Js.str_or (Manager.agentWallet request) agentId).
  destruct (negb (Manager.decision_allowed request)); [exact Hok|].
  pose proof (updateTokensAll_ok now agentWallet provider model
                (Manager.tokensUsed response) Manager.windows st Hok) as Hok1.
  set (st1 := Manager.updateTokensAll now agentWallet provider model
                (Manager.tokensUsed response) Manager.windows st) in *.
  destruct (checkQuotaAvailable_windows now agentWallet st1) as [Hw2 Hn2].
  destruct (Storage.checkQuotaAvailable now agentWallet st1) as [quota st2].
  cbn [snd] in *.
  assert (Hok2 : windows_ok now st2) by (eapply windows_ok_same; eauto).
  destruct (Storage.tier quota), (Storage.can_queue quota); try exact Hok2.
  unfold Manager.processQueue.
  destruct (Queue.getQueueSize agentWallet st2 =? 0); [exact Hok2|].
  now apply drain_ok.
Qed.

(** ** Manager: accounting of an admitted request *)

Lemma recordEvent_windows now e st :
  rate_limit_windows (Storage.recordEvent now e st) = rate_limit_windows st /\
  next_window_id (Storage.recordEvent now e st) = next_window_id st.
Proof. now split. Qed.

Lemma NoDup_windows : NoDup Manager.windows.
Proof.
  unfold Manager.windows.
  repeat constructor; cbn; intros H;
    repeat (destruct H as [H|H]; try discriminate); exact H.
Qed.

Lemma In_windows t : In t Manager.windows.
Proof. destruct t; cbn; auto. Qed.

(** The shape of an admitting pre-call: quota lookup, three admission checks
    that all pass, the allowed event, three increments with zero tokens. *)
Lemma beforeProvider_returned
      now queueId requestId provider model agentId requestData st :
  let agentWallet := Js.str_or (Manager.agentWallet requestData) agentId in
  let r := Manager.beforeProvider now queueId requestId provider model agentId
                                  requestData st in
  fst (fst r) = Manager.Returned ->
  exists st1 st2,
    st1 = snd (Storage.checkQuotaAvailable now agentWallet st) /\
    Manager.firstExceeded now agentWallet provider model Manager.windows st1
      = (None, st2) /\
    snd r =
      Manager.incrementAll now agentWallet provider model Manager.windows
        (Storage.recordEvent now
           (Storage.mkEventData agentWallet provider model EventType.allowed
                                None None None None (Some requestId) false) st2) /\
    snd (fst r) =
      Manager.mkRequest (Manager.agentWallet requestData)
                        (Manager.priority requestData)
                        (Some (Manager.mkDecision requestId agentWallet provider
                                                  model now true)).
Proof.
  cbn zeta. unfold Manager.beforeProvider.
  set (agentWallet := Js.str_or (Manager.agentWallet requestData) agentId).
  destruct (Storage.checkQuotaAvailable now agentWallet st) as [quota st1].
  destruct (negb (Storage.available quota)); [discriminate|].
  destruct (Manager.firstExceeded now agentWallet provider model
              Manager.windows st1) as [[[t c]|] st2] eqn:Hfirst.
  - destruct (Storage.tier quota), (Storage.can_queue quota);
      try discriminate.
    destruct (Storage.max_queue_size quota <=? _); [discriminate|].
    destruct (Queue.enqueue now queueId agentWallet provider model _ st2)
      as [[qid|e] st3]; discriminate.
  - intros _. exists st1, st2. cbn [fst snd].
    split; [reflexivity|]. split; [exact Hfirst|]. split; reflexivity.
Qed.

(** The counts of an admitted request. Over a window table that satisfies
    [windows_ok], for every admitted request: the pre-call leaves, for each
    horizon, a current window whose request_count is the live count found at
    the pre-call plus one and whose token_count is the live token count; the
    token accounting of the subsequent post-call leaves each horizon's
    current window with the same request_count and with token_count raised by
    the tokens used, and no row of the table changes in any field other than
    token_count and last_updated; when the tenant's effective quota does not
    grant queueing, or the tenant has no pending entry, that is all the
    post-call does to the window table. *)
Lemma admitted_request_counts tz
        now now' queueId requestId provider model agentId requestData response st
        (Hok : windows_ok now st)
        (Hclock : now <= now')
        (Hadmitted :
           fst (fst (Manager.beforeProvider now queueId requestId provider model
                                            agentId requestData st))
           = Manager.Returned) :
  let agentWallet := Js.str_or (Manager.agentWallet requestData) agentId in
  let pre := Manager.beforeProvider now queueId requestId provider model agentId
                                    requestData st in
  let request' := snd (fst pre) in
  let st1 := snd pre in
  let st2 := Manager.updateTokensAll now' agentWallet provider model
                                     (Manager.tokensUsed response)
                                     Manager.windows st1 in
  (windows_ok now st1 /\ Manager.decision_allowed request' = true) /\
  (forall t,
     exists w,
       Tracker.select_current agentWallet provider model t st1 = Some w /\
       Window.request_count w =
         fst (live_counts now agentWallet provider model t st) + 1 /\
       Window.token_count w =
         snd (live_counts now agentWallet provider model t st)) /\
  (tokens_only st1 st2 /\
   windows_ok now' st2 /\
   forall t,
     exists w w',
       Tracker.select_current agentWallet provider model t st1 = Some w /\
       Tracker.select_current agentWallet provider model t st2 = Some w' /\
       Window.request_count w' = Window.request_count w /\
       Window.token_count w' = Window.token_count w + Manager.tokensUsed response) /\
  (Storage.can_queue (fst (Storage.checkQuotaAvailable now' agentWallet st1))
     = false \/ Queue.getQueueSize agentWallet st1 = 0 ->
   rate_limit_windows
     (Manager.afterProvider tz now' provider model agentId request' response st1)
   = rate_limit_windows st2).
Proof.
  cbn zeta. pose proof (proj1 Hok) as Hwf.
  pose proof (beforeProvider_ok now queueId requestId provider model agentId
                requestData st Hok) as Hok1.
  set (agentWallet := Js.str_or (Manager.agentWallet requestData) agentId).
  destruct (beforeProvider_returned now queueId requestId provider model agentId
              requestData st Hadmitted) as (sa & sb & Hsa & Hfirst & Hst1 & Hreq).
  fold agentWallet in Hsa, Hfirst, Hst1, Hreq.
  set (pre := Manager.beforeProvider now queueId requestId provider model agentId
                                     requestData st) in *.
  (* the chain of stores of the pre-call *)
  destruct (checkQuotaAvailable_windows now agentWallet st) as [Hwa Hna].
  rewrite <- Hsa in Hwa, Hna.
  assert (Hwfa : windows_wf sa) by (eapply windows_wf_same; eauto).
  destruct (firstExceeded_counts now agentWallet provider model Manager.windows
              sa Hwfa) as [Hwfb Hlive].
  rewrite Hfirst in Hwfb, Hlive. cbn [snd] in Hwfb, Hlive.
  set (ev := Storage.mkEventData agentWallet provider model EventType.allowed
                                 None None None None (Some requestId) false) in *.
  assert (Hwfc : windows_wf (Storage.recordEvent now ev sb))
    by (eapply windows_wf_same; [| |exact Hwfb]; reflexivity).
  destruct (incrementAll_counts now agentWallet provider model Manager.windows
              NoDup_windows _ Hwfc) as (Hwf1 & _ & Hinc).
  rewrite <- Hst1 in Hwf1, Hinc.
  assert (Hl : forall t,
    live_counts now agentWallet provider model t (Storage.recordEvent now ev sb) =
    live_counts now agentWallet provider model t st).
  { intros t. rewrite (live_counts_same now agentWallet provider model t sb)
      by reflexivity.
    rewrite Hlive. apply live_counts_same. now apply select_current_same. }
  assert (Hpre : forall t,
    exists w,
      Tracker.select_current agentWallet provider model t (snd pre) = Some w /\
      Window.request_count w =
        fst (live_counts now agentWallet provider model t st) + 1 /\
      Window.token_count w =
        snd (live_counts now agentWallet provider model t st)).
  { intros t. destruct (Hinc t (In_windows t)) as (w & Hsel & _ & Hc).
    exists w. split; [exact Hsel|]. rewrite Hl in Hc. unfold counts in Hc.
    injection Hc as E1 E2. now split. }
  destruct (updateTokensAll_counts now' agentWallet provider model
              (Manager.tokensUsed response) Manager.windows NoDup_windows
              (snd pre) Hwf1) as (_ & Hfr & _ & Htok).
  split; [split; [exact Hok1 | now rewrite Hreq]|].
  split; [exact Hpre|]. split; [split; [exact Hfr|split]|].
  - apply updateTokensAll_ok. eapply windows_ok_mono; eauto.
  - intros t. destruct (Hpre t) as (w & Hsel & _).
    destruct (Htok t (In_windows t)) as (w' & Hsel' & Hc).
    exists w, w'. split; [exact Hsel|]. split; [exact Hsel'|].
    unfold active_counts in Hc. rewrite Hsel in Hc. unfold counts in Hc.
    cbn [fst snd] in Hc. injection Hc as E1 E2. now split.
  - intros Hnodrain. unfold Manager.afterProvider. rewrite Hreq.
    cbn [Manager.agentWallet Manager.decision_allowed Manager.rate_limit_decision
         Manager.allowed negb].
    fold agentWallet.
    set (st2 := Manager.updateTokensAll now' agentWallet provider model
                  (Manager.tokensUsed response) Manager.windows (snd pre)) in *.
    pose proof (updateTokensAll_frame now' agentWallet provider model
                  (Manager.tokensUsed response) Manager.windows (snd pre))
      as (_ & Hq & _ & _ & Hquota).
    fold st2 in Hq, Hquota.
    pose proof (checkQuotaAvailable_windows now' agentWallet st2) as [Hw3 _].
    pose proof (checkQuotaAvailable_frame now' agentWallet st2) as (_ & Hq3 & _).
    specialize (Hquota now' agentWallet).
    destruct (Storage.checkQuotaAvailable now' agentWallet st2) as [quota st3].
    cbn [fst snd] in *.
    destruct (Storage.tier quota); [exact Hw3|].
    destruct (Storage.can_queue quota) eqn:Hcan; [|exact Hw3].
    destruct Hnodrain as [Hno|Hempty]; [congruence|].
    unfold Manager.processQueue.
    rewrite (getQueueSize_frame agentWallet (snd pre) st3) by congruence.
    rewrite Hempty. cbn. exact Hw3.
Qed.

(** C7, counterexample. Tenant A is pro with queueing enabled and has one
    pending entry for (A, anthropic, m). Its next request is admitted at 900:
    the three windows stand at one request and no tokens. The post-call of
    that request at 1000 (in a process whose local time is UTC) adds the 10
    tokens used and then drains the queue: the pending entry is completed and
    the same three windows go from one request to two. The post-call has not
    left the request counts unchanged. *)
Lemma postcall_drain_raises_request_count :
  let quotaA := Quota.mk "A" "pro" (-1) true 100 true true true (Some 1000000000) in
  let qa := QueueEntry.mk "qa" "A" "anthropic" (Some "m") 0 5 0 3 pending None None in
  let st0 := set_queue [qa] (set_quotas [quotaA] empty_store) in
  let view (w : Window.row) :=
    (Window.window_type w, Window.is_active w, Window.request_count w,
     Window.token_count w) in
  let '(outcome, request, st1) :=
    Manager.beforeProvider 900 "q1" "r1" "anthropic" (Some "m") "A"
                           (Manager.mkRequest None None None) st0 in
  let st2 :=
    Manager.afterProvider Js.utc 1000 "anthropic" (Some "m") "A" request
                          (Manager.mkResponse None (Some 10)) st1 in
  windows_ok 900 st0 /\
  outcome = Manager.Returned /\
  map view (rate_limit_windows st1)
    = [(per_minute, true, 1, 0); (per_hour, true, 1, 0); (per_day, true, 1, 0)] /\
  map view (rate_limit_windows st2)
    = [(per_minute, true, 2, 10); (per_hour, true, 2, 10); (per_day, true, 2, 10)] /\
  map QueueEntry.status (request_queue st2) = [completed].
Proof.
  vm_compute. split; [|repeat split].
  split; [|intros w []].
  split; [constructor|]. split; [intros w []|intros w1 w2 []].
Qed.

(** * Further properties of the code *)

(** ** WindowTracker: admission never runs a window past its limit *)

Lemma settle_live now agentWallet provider model t st w :
  Tracker.select_current agentWallet provider model t st = Some w ->
  now <= Window.window_end w ->
  settle now agentWallet provider model t st = (w, st).
Proof.
  intros Hsel Hlive. unfold settle, Tracker.getCurrentWindow. rewrite Hsel.
  destruct (Z.ltb_spec (Window.window_end w) now); [lia|reflexivity].
Qed.

Lemma settle_selected now agentWallet provider model t st :
  windows_wf st ->
  let w := fst (settle now agentWallet provider model t st) in
  let s := snd (settle now agentWallet provider model t st) in
  Tracker.select_current agentWallet provider model t s = Some w /\
  now <= Window.window_end w.
Proof.
  intros Hwf.
  destruct (settle_spec now agentWallet provider model t st Hwf)
    as (Hwf' & Hin & Hk & Ha & Hlive & _).
  cbn zeta. split; [|exact Hlive].
  now apply select_current_unique.
Qed.

Lemma firstExceeded_other now agentWallet provider model ts :
  forall st,
    windows_wf st ->
    forall aw' p' m' t',
      ~ In t' ts ->
      Tracker.select_current aw' p' m' t'
        (snd (Manager.firstExceeded now agentWallet provider model ts st)) =
      Tracker.select_current aw' p' m' t' st.
Proof.
  induction ts as [|t rest IH]; intros st Hwf aw' p' m' t' Hnot; [reflexivity|].
  cbn [Manager.firstExceeded].
  rewrite wouldExceedLimit_settle.
  destruct (settle_spec now agentWallet provider model t st Hwf)
    as (Hwf' & _ & _ & _ & _ & _ & Hother).
  assert (Hne : t' <> t) by (intros ->; apply Hnot; now left).
  destruct (Js.truthy _); cbn [snd].
  - now apply Hother.
  - rewrite IH; [now apply Hother | exact Hwf' | ].
    intros Hin. apply Hnot. now right.
Qed.

(** When the loop over the horizons finds no exceeded limit, every horizon it
    visited is left with a current window that has not ended and on which the
    check is negative. *)
Lemma firstExceeded_none now agentWallet provider model ts :
  NoDup ts ->
  forall st s,
    windows_wf st ->
    Manager.firstExceeded now agentWallet provider model ts st = (None, s) ->
    forall t, In t ts ->
      exists w,
        Tracker.select_current agentWallet provider model t s = Some w /\
        now <= Window.window_end w /\
        Js.truthy (Tracker.exceeded (Tracker.checkWindowLimitDetailed w)) = false.
Proof.
  induction 1 as [|t rest Hnotin Hnd IH]; intros st s Hwf Hrun t' Hin;
    [destruct Hin|].
  cbn [Manager.firstExceeded] in Hrun.
  rewrite wouldExceedLimit_settle in Hrun.
  pose proof (settle_selected now agentWallet provider model t st Hwf) as Hsel.
  destruct (settle_spec now agentWallet provider model t st Hwf) as (Hwf' & _).
  cbn zeta in Hsel. destruct Hsel as [Hsel Hlive].
  set (w := fst (settle now agentWallet provider model t st)) in *.
  set (st1 := snd (settle now agentWallet provider model t st)) in *.
  destruct (Js.truthy (Tracker.exceeded (Tracker.checkWindowLimitDetailed w)))
    eqn:Hex; [discriminate|].
  destruct Hin as [<-|Hin].
  - exists w. split; [|split; assumption].
    replace s with
      (snd (Manager.firstExceeded now agentWallet provider model rest st1))
      by (now rewrite Hrun).
    rewrite firstExceeded_other; assumption.
  - eapply IH; eassumption.
Qed.

Lemma incrementWindow_selected now agentWallet provider model t tokens st w :
  windows_wf st ->
  Tracker.select_current agentWallet provider model t st = Some w ->
  now <= Window.window_end w ->
  Tracker.select_current agentWallet provider model t
    (Tracker.incrementWindow now agentWallet provider model t tokens st) =
  Some (Tracker.bump_counts now tokens w).
Proof.
  intros Hwf Hsel Hlive.
  rewrite incrementWindow_settle.
  rewrite (settle_live now _ _ _ _ _ _ Hsel Hlive). cbn [fst snd].
  destruct (select_current_Some _ _ _ _ _ _ Hsel) as (Hin & Hk & Ha).
  apply update_where_id_selected; try assumption.
  apply keeps_identity_bump.
Qed.

Lemma incrementAll_selected now agentWallet provider model ts :
  NoDup ts ->
  forall st,
    windows_wf st ->
    forall t w,
      In t ts ->
      Tracker.select_current agentWallet provider model t st = Some w ->
      now <= Window.window_end w ->
      Tracker.select_current agentWallet provider model t
        (Manager.incrementAll now agentWallet provider model ts st) =
      Some (Tracker.bump_counts now 0 w).
Proof.
  induction 1 as [|t rest Hnotin Hnd IH]; intros st Hwf t' w Hin Hsel Hlive;
    [destruct Hin|].
  cbn [Manager.incrementAll].
  destruct (incrementWindow_counts now agentWallet provider model t 0 st Hwf)
    as (Hwf1 & _ & Hother).
  destruct Hin as [<-|Hin].
  - destruct (incrementAll_counts now agentWallet provider model rest Hnd _ Hwf1)
      as (_ & Hkeep & _).
    rewrite Hkeep by exact Hnotin.
    now apply incrementWindow_selected.
  - apply IH; try assumption.
    rewrite Hother; [exact Hsel|].
    intros ->. contradiction.
Qed.

(** X1. The boolean check [checkWindowLimit] and the detailed check agree:
    [checkWindowLimit] answers true exactly when the [exceeded] field of
    [checkWindowLimitDetailed] is truthy. *)
Theorem checkWindowLimit_agrees_with_detailed (w : Window.row) :
  Tracker.checkWindowLimit w =
  Js.truthy (Tracker.exceeded (Tracker.checkWindowLimitDetailed w)).
Proof.
  unfold Tracker.checkWindowLimit, Tracker.checkWindowLimitDetailed.
  cbn [Tracker.exceeded]. unfold Js.or.
  destruct (Js.truthy (Tracker.limit_reached (Window.limit_requests w)
                                             (Window.request_count w))) eqn:Hr.
  - now rewrite Hr.
  - now destruct (Js.truthy (Tracker.limit_reached (Window.limit_tokens w)
                                                   (Window.token_count w))).
Qed.

(** X2. No over-admission. Over a well-formed window table, when the pre-call
    admits a request, every horizon of the request's key is left with a
    current window that has not ended and that stands within its limits: its
    request_count, which includes the admitted request, is at most the request
    limit when one is set, and its token_count is below the token limit when
    one is set. *)
Theorem admitted_request_within_limits
        now queueId requestId provider model agentId requestData st
        (Hwf : windows_wf st)
        (Hadmitted :
           fst (fst (Manager.beforeProvider now queueId requestId provider model
                                            agentId requestData st))
           = Manager.Returned) :
  let agentWallet := Js.str_or (Manager.agentWallet requestData) agentId in
  let st' := snd (Manager.beforeProvider now queueId requestId provider model
                                         agentId requestData st) in
  forall t,
    exists w,
      Tracker.select_current agentWallet provider model t st' = Some w /\
      now <= Window.window_end w /\
      (forall l, Window.limit_requests w = Some l -> l <> 0 ->
                 Window.request_count w <= l) /\
      (forall l, Window.limit_tokens w = Some l -> l <> 0 ->
                 Window.token_count w < l).
Proof.
  cbn zeta. intros t.
  destruct (beforeProvider_returned now queueId requestId provider model agentId
              requestData st Hadmitted) as (sa & sb & Hsa & Hfirst & Hst' & _).
  set (agentWallet := Js.str_or (Manager.agentWallet requestData) agentId) in *.
  destruct (checkQuotaAvailable_windows now agentWallet st) as [Hw Hn].
  rewrite <- Hsa in Hw, Hn.
  assert (Hwfa : windows_wf sa) by (eapply windows_wf_same; eauto).
  destruct (firstExceeded_counts now agentWallet provider model Manager.windows
              sa Hwfa) as [Hwfb _].
  rewrite Hfirst in Hwfb. cbn [snd] in Hwfb.
  destruct (firstExceeded_none now agentWallet provider model Manager.windows
              NoDup_windows sa sb Hwfa Hfirst t (In_windows t))
    as (w & Hsel & Hlive & Hok).
  set (ev := Storage.mkEventData agentWallet provider model EventType.allowed
                                 None None None None (Some requestId) false) in *.
  assert (Hwfc : windows_wf (Storage.recordEvent now ev sb))
    by (eapply windows_wf_same; [| |exact Hwfb]; reflexivity).
  exists (Tracker.bump_counts now 0 w).
  rewrite Hst'.
  split.
  { apply incrementAll_selected; try assumption.
    - apply NoDup_windows.
    - apply In_windows. }
  split; [exact Hlive|].
  unfold Tracker.checkWindowLimitDetailed in Hok. cbn [Tracker.exceeded] in Hok.
  unfold Js.or in Hok.
  destruct (Js.truthy (Tracker.limit_reached (Window.limit_requests w)
                                             (Window.request_count w))) eqn:Hr;
    [rewrite Hr in Hok; discriminate|].
  cbn [Tracker.bump_counts Window.limit_requests Window.limit_tokens
       Window.request_count Window.token_count].
  split; intros l Hl Hne.
  - destruct (Z.le_gt_cases l (Window.request_count w)) as [Hle|Hgt]; [|lia].
    exfalso.
    assert (Tracker.limit_reached (Window.limit_requests w)
                                  (Window.request_count w) = Js.Bool true)
      by (apply limit_reached_true; eauto).
    apply limit_reached_truthy in H. congruence.
  - destruct (Z.le_gt_cases l (Window.token_count w)) as [Hle|Hgt]; [|lia].
    exfalso.
    assert (Tracker.limit_reached (Window.limit_tokens w)
                                  (Window.token_count w) = Js.Bool true)
      by (apply limit_reached_true; eauto).
    apply limit_reached_truthy in H. congruence.
Qed.

Lemma admitted_request_within_limits_witness :
  let pre := Manager.beforeProvider 0 "q1" "r1" "anthropic" (Some "m") "T1"
                                    (Manager.mkRequest None None None)
                                    empty_store in
  windows_wf empty_store /\
  fst (fst pre) = Manager.Returned /\
  exists w,
    Tracker.select_current "T1" "anthropic" (Some "m") per_minute (snd pre)
      = Some w /\
    0 <= Window.window_end w /\
    (forall l, Window.limit_requests w = Some l -> l <> 0 ->
               Window.request_count w <= l) /\
    (forall l, Window.limit_tokens w = Some l -> l <> 0 ->
               Window.token_count w < l).
Proof.
  cbn zeta.
  split; [apply windows_wf_empty|]. split; [reflexivity|].
  exact (admitted_request_within_limits 0 "q1" "r1" "anthropic" (Some "m") "T1"
           (Manager.mkRequest None None None) empty_store windows_wf_empty
           eq_refl per_minute).
Defined.

Lemma windows_wf_singleton (w : Window.row) :
  windows_wf (set_windows [w] (S (Window.id w)) empty_store).
Proof.
  split; [|split]; cbn.
  - constructor; [intros []|constructor].
  - intros x [<-|[]]. lia.
  - intros w1 w2 [<-|[]] [<-|[]] _ _ _. reflexivity.
Qed.

(** X3. A refused request is not counted. Over a well-formed window table,
    when the pre-call throws (blocked, queued, queue full or an enqueue
    failure), the counts an operation at the same instant finds for the
    request's key are, on every horizon, those found before the pre-call:
    neither request_count nor token_count has been charged. *)
Theorem refused_request_is_not_counted
        now queueId requestId provider model agentId requestData st e
        (Hwf : windows_wf st)
        (Hrefused :
           fst (fst (Manager.beforeProvider now queueId requestId provider model
                                            agentId requestData st))
           = Manager.Thrown e) :
  let agentWallet := Js.str_or (Manager.agentWallet requestData) agentId in
  let st' := snd (Manager.beforeProvider now queueId requestId provider model
                                         agentId requestData st) in
  forall t,
    live_counts now agentWallet provider model t st' =
    live_counts now agentWallet provider model t st.
Proof.
  cbn zeta. intros t. revert Hrefused. unfold Manager.beforeProvider.
  set (agentWallet := Js.str_or (Manager.agentWallet requestData) agentId).
  destruct (checkQuotaAvailable_windows now agentWallet st) as [Hw1 Hn1].
  destruct (Storage.checkQuotaAvailable now agentWallet st) as [quota st1].
  cbn [snd] in *.
  assert (Hwf1 : windows_wf st1) by (eapply windows_wf_same; eauto).
  assert (H1 : live_counts now agentWallet provider model t st1 =
               live_counts now agentWallet provider model t st)
    by (apply live_counts_same, select_current_same; exact Hw1).
  destruct (negb (Storage.available quota)); [intros _; exact H1|].
  destruct (firstExceeded_counts now agentWallet provider model Manager.windows
              st1 Hwf1) as [_ Hsame].
  specialize (Hsame t).
  destruct (Manager.firstExceeded now agentWallet provider model
              Manager.windows st1) as [[[wt c]|] st2]; cbn [snd] in *.
  - assert (H2 : live_counts now agentWallet provider model t st2 =
                 live_counts now agentWallet provider model t st)
      by congruence.
    destruct (Storage.tier quota), (Storage.can_queue quota); cbn [fst snd];
      intros _; try exact H2.
    destruct (Storage.max_queue_size quota <=? _); [exact H2|].
    destruct (enqueue_windows now queueId agentWallet provider model
                (Some (Js.or_default (Manager.priority requestData) 5)) st2)
      as [Hw3 _].
    destruct (Queue.enqueue now queueId agentWallet provider model _ st2)
      as [[qid|err] st3]; cbn [snd] in *; rewrite <- H2;
      apply live_counts_same, select_current_same; exact Hw3.
  - cbn [fst]. discriminate.
Qed.

Lemma refused_request_is_not_counted_witness :
  let full :=
    Window.mk 1 "T1" "anthropic" (Some "m") per_minute 0 60000 50 0
              (Some 50) (Some 40000) true 0 in
  let st := set_windows [full] 2 empty_store in
  let pre := Manager.beforeProvider 1000 "q1" "r1" "anthropic" (Some "m") "T1"
                                    (Manager.mkRequest None None None) st in
  windows_wf st /\
  fst (fst pre) = Manager.Thrown (Manager.RateLimitExceeded per_minute 50 50) /\
  live_counts 1000 "T1" "anthropic" (Some "m") per_minute (snd pre) =
  live_counts 1000 "T1" "anthropic" (Some "m") per_minute st.
Proof.
  cbn zeta.
  split; [exact (windows_wf_singleton
                   (Window.mk 1 "T1" "anthropic" (Some "m") per_minute 0 60000
                              50 0 (Some 50) (Some 40000) true 0))|].
  split; [reflexivity|].
  exact (refused_request_is_not_counted 1000 "q1" "r1" "anthropic" (Some "m")
           "T1" (Manager.mkRequest None None None) _ _
           (windows_wf_singleton
              (Window.mk 1 "T1" "anthropic" (Some "m") per_minute 0 60000
                         50 0 (Some 50) (Some 40000) true 0))
           eq_refl per_minute).
Defined.

(** ** WindowTracker: rotation *)

(** X4. Rotation by the admission check and by the increment. Over a
    well-formed window table whose key has the active window [w0]:
    - when [w0] has not ended ([now <= window_end]), the check is made on [w0]
      and changes nothing in the store, and the increment charges [w0];
    - when [w0] ended strictly before [now], both operations leave [w0] in the
      table deactivated with its counts as they were, and work on a fresh
      active window that starts at [now], lasts the horizon's duration and
      starts from zero: the check reports on it, the increment leaves it with
      one request and the tokens passed. *)
Theorem check_and_increment_rotate_ended_window
        now agentWallet provider model t tokens st w0
        (Hwf : windows_wf st)
        (Hsel : Tracker.select_current agentWallet provider model t st = Some w0) :
  let checked := Tracker.wouldExceedLimit now agentWallet provider model t st in
  let s := Tracker.incrementWindow now agentWallet provider model t tokens st in
  (now <= Window.window_end w0 ->
     checked = (Tracker.checkWindowLimitDetailed w0, st) /\
     Tracker.select_current agentWallet provider model t s =
       Some (Tracker.bump_counts now tokens w0)) /\
  (Window.window_end w0 < now ->
     (In (Tracker.deactivate w0) (rate_limit_windows (snd checked)) /\
      exists w,
        Tracker.select_current agentWallet provider model t (snd checked)
          = Some w /\
        Window.window_start w = now /\
        Window.window_end w = now + Tracker.windowDurations t /\
        counts w = (0, 0) /\
        fst checked = Tracker.checkWindowLimitDetailed w) /\
     (In (Tracker.deactivate w0) (rate_limit_windows s) /\
      exists w,
        Tracker.select_current agentWallet provider model t s = Some w /\
        Window.window_start w = now /\
        Window.window_end w = now + Tracker.windowDurations t /\
        counts w = (1, tokens))).
Proof.
  cbn zeta. split.
  - intros Hlive. split.
    + rewrite wouldExceedLimit_settle.
      now rewrite (settle_live now _ _ _ _ _ _ Hsel Hlive).
    + now apply incrementWindow_selected.
  - intros Hended.
    destruct (settle_rotates now agentWallet provider model t st w0 Hwf Hsel
                Hended) as (Hold & Hnew & Hact & Hstart & Hend & Hzero).
    destruct (settle_spec now agentWallet provider model t st Hwf)
      as (Hwf' & Hin & Hk & _).
    set (w := fst (settle now agentWallet provider model t st)) in *.
    set (s := snd (settle now agentWallet provider model t st)) in *.
    split.
    + rewrite wouldExceedLimit_settle. cbn [fst snd]. fold w s.
      split; [exact Hold|]. exists w. repeat (split; [assumption|]).
      reflexivity.
    + rewrite incrementWindow_settle. fold w s. split.
      * unfold Tracker.update_where_id. cbn.
        apply in_map_iff. exists (Tracker.deactivate w0). split; [|exact Hold].
        destruct (Nat.eqb_spec (Window.id (Tracker.deactivate w0)) (Window.id w))
          as [E|E]; [exfalso|reflexivity].
        destruct Hwf' as (Hnd & _).
        assert (Tracker.deactivate w0 = w)
          by (eapply unique_id_row; eauto).
        subst w. rewrite <- H in Hact. cbn in Hact. discriminate.
      * exists (Tracker.bump_counts now tokens w).
        split.
        { apply update_where_id_selected; try assumption.
          apply keeps_identity_bump. }
        cbn. split; [exact Hstart|]. split; [exact Hend|].
        unfold counts in *. cbn. injection Hzero as Hr Ht.
        rewrite Hr, Ht. reflexivity.
Qed.

Lemma check_and_increment_rotate_ended_window_witness :
  let w0 :=
    Window.mk 1 "T1" "anthropic" (Some "m") per_minute 0 60000 50 7
              (Some 50) (Some 40000) true 0 in
  let st := set_windows [w0] 2 empty_store in
  windows_wf st /\
  Tracker.select_current "T1" "anthropic" (Some "m") per_minute st = Some w0 /\
  60000 < 60001 /\
  exists w,
    Tracker.select_current "T1" "anthropic" (Some "m") per_minute
      (Tracker.incrementWindow 60001 "T1" "anthropic" (Some "m") per_minute 3 st)
      = Some w /\
    Window.window_start w = 60001 /\
    Window.window_end w = 60001 + Tracker.windowDurations per_minute /\
    counts w = (1, 3).
Proof.
  cbn zeta.
  split; [exact (windows_wf_singleton
                   (Window.mk 1 "T1" "anthropic" (Some "m") per_minute 0 60000
                              50 7 (Some 50) (Some 40000) true 0))|].
  split; [reflexivity|]. split; [lia|].
  refine (proj2 (proj2 (proj2
    (check_and_increment_rotate_ended_window 60001 "T1" "anthropic" (Some "m")
       per_minute 3 _ _
       (windows_wf_singleton
          (Window.mk 1 "T1" "anthropic" (Some "m") per_minute 0 60000
                     50 7 (Some 50) (Some 40000) true 0))
       eq_refl) _))).
  cbn. lia.
Defined.

(** ** WindowTracker: the maintenance task *)

Lemma pruned_refl l : pruned l l.
Proof. induction l; constructor; assumption. Qed.

Lemma pruned_filter (keep : Window.row -> bool) l :
  (forall w, In w l -> keep w = false -> Window.is_active w = false) ->
  pruned l (filter keep l).
Proof.
  induction l as [|w l IH]; intros Hkeep; cbn; [constructor|].
  destruct (keep w) eqn:Hw.
  - constructor. apply IH. intros x Hx. apply Hkeep. now right.
  - apply pruned_drop.
    + apply Hkeep; [now left | exact Hw].
    + apply IH. intros x Hx. apply Hkeep. now right.
Qed.

Lemma pruned_In l l' w : pruned l l' -> In w l' -> In w l.
Proof.
  induction 1 as [|x l l' Hp IH|x l l' Hx Hp IH]; intros Hin.
  - exact Hin.
  - destruct Hin as [->|Hin]; [now left | right; auto].
  - right. auto.
Qed.

Lemma pruned_active (p : Window.row -> bool) l l' :
  (forall w, p w = true -> Window.is_active w = true) ->
  pruned l l' -> filter p l' = filter p l.
Proof.
  intros Hp. induction 1 as [|x l l' Hpr IH|x l l' Hx Hpr IH]; cbn.
  - reflexivity.
  - now rewrite IH.
  - destruct (p x) eqn:Hpx; [|exact IH].
    apply Hp in Hpx. congruence.
Qed.

Lemma pruned_map (g : Window.row -> Window.row) l l' :
  (forall w, Window.is_active w = false -> Window.is_active (g w) = false) ->
  pruned l l' -> pruned (map g l) (map g l').
Proof.
  intros Hg. induction 1 as [|x l l' Hpr IH|x l l' Hx Hpr IH]; cbn.
  - constructor.
  - now constructor.
  - apply pruned_drop; auto.
Qed.

Lemma pruned_app l l' r : pruned l l' -> pruned (l ++ r) (l' ++ r).
Proof.
  induction 1 as [|x l l' Hpr IH|x l l' Hx Hpr IH]; cbn.
  - apply pruned_refl.
  - now constructor.
  - now apply pruned_drop.
Qed.

Lemma pruned_trans l1 l2 l3 : pruned l1 l2 -> pruned l2 l3 -> pruned l1 l3.
Proof.
  intros H. revert l3.
  induction H as [|x l l' Hpr IH|x l l' Hx Hpr IH]; intros l3 H23.
  - exact H23.
  - inversion H23; subst.
    + constructor. auto.
    + apply pruned_drop; auto.
  - apply pruned_drop; auto.
Qed.

Lemma pruned_NoDup_ids l l' :
  pruned l l' -> NoDup (map Window.id l) -> NoDup (map Window.id l').
Proof.
  induction 1 as [|x l l' Hpr IH|x l l' Hx Hpr IH]; cbn; intros Hnd.
  - exact Hnd.
  - inversion Hnd as [|? ? Hnot Hnd']; subst. constructor; [|auto].
    intros Hin. apply Hnot. apply in_map_iff in Hin.
    destruct Hin as (y & Hy & Hiny). apply in_map_iff. exists y.
    split; [exact Hy|]. eapply pruned_In; eauto.
  - inversion Hnd; subst. auto.
Qed.

Lemma pruned_store_refl st : pruned_store st st.
Proof. repeat split. apply pruned_refl. Qed.

Lemma pruned_store_trans st1 st2 st3 :
  pruned_store st1 st2 -> pruned_store st2 st3 -> pruned_store st1 st3.
Proof.
  intros (A1 & A2 & A3 & A4 & A5 & A6 & A7) (B1 & B2 & B3 & B4 & B5 & B6 & B7).
  repeat split; try congruence.
  eapply pruned_trans; eauto.
Qed.

Lemma pruned_store_wf st st' :
  pruned_store st st' -> windows_wf st -> windows_wf st'.
Proof.
  intros (_ & Hpr & Hn & _) (Hnd & Hlt & Hone).
  split; [|split].
  - eapply pruned_NoDup_ids; eauto.
  - intros w Hin. rewrite Hn. apply Hlt. eapply pruned_In; eauto.
  - intros w1 w2 H1 H2. apply Hone; eapply pruned_In; eauto.
Qed.

Lemma pruned_store_timeline now st st' :
  pruned_store st st' -> timeline now st -> timeline now st'.
Proof.
  intros (_ & Hpr & _) Htl w Hin. apply Htl. eapply pruned_In; eauto.
Qed.

Lemma pruned_store_select agentWallet provider model t st st' :
  pruned_store st st' ->
  Tracker.select_current agentWallet provider model t st' =
  Tracker.select_current agentWallet provider model t st.
Proof.
  intros (_ & Hpr & _). unfold Tracker.select_current.
  rewrite (pruned_active _ _ _ (fun w H => proj2 (proj1
             (is_current_for_spec agentWallet provider model t w) H)) Hpr).
  reflexivity.
Qed.

Lemma cleanupExpiredWindows_pruned now st :
  pruned_store st (snd (Tracker.cleanupExpiredWindows now st)).
Proof.
  unfold Tracker.cleanupExpiredWindows, pruned_store. cbn.
  repeat split.
  apply pruned_filter. intros w _ Hw. unfold Tracker.survives_cleanup in Hw.
  destruct (Window.is_active w); [discriminate | reflexivity].
Qed.

(** The operations of the tracker and of the pre-call cannot tell a store
    from a pruned copy of it: they answer alike and leave stores that are
    again a store and a pruned copy. *)
Lemma pruned_checkQuotaAvailable now agentWallet st st' :
  pruned_store st st' ->
  fst (Storage.checkQuotaAvailable now agentWallet st') =
  fst (Storage.checkQuotaAvailable now agentWallet st) /\
  pruned_store (snd (Storage.checkQuotaAvailable now agentWallet st))
               (snd (Storage.checkQuotaAvailable now agentWallet st')).
Proof.
  intros (Hc & Hw & Hn & Hq & Hr & He & Hp).
  unfold Storage.checkQuotaAvailable, Storage.getQuota. rewrite Hq.
  destruct (Storage.find_quota agentWallet (agent_limit_quotas st)); cbn.
  - split; [reflexivity|]. repeat split; assumption.
  - split; [reflexivity|]. repeat split; assumption.
Qed.

Lemma pruned_getLimits now agentWallet provider model st st' :
  pruned_store st st' ->
  fst (Tracker.getLimits now agentWallet provider model st') =
  fst (Tracker.getLimits now agentWallet provider model st) /\
  pruned_store (snd (Tracker.getLimits now agentWallet provider model st))
               (snd (Tracker.getLimits now agentWallet provider model st')).
Proof.
  intros Hp. unfold Tracker.getLimits.
  destruct (pruned_checkQuotaAvailable now agentWallet st st' Hp) as [Hq Hp1].
  destruct (Storage.checkQuotaAvailable now agentWallet st) as [q s1].
  destruct (Storage.checkQuotaAvailable now agentWallet st') as [q' s1'].
  cbn [fst snd] in *. subst q'.
  pose proof Hp1 as (Hc & _). rewrite Hc.
  destruct (match Js.str_or_null model with
            | Some m => Tracker.model_config provider m
                          (Tier_name (Storage.tier q)) (rate_limit_configs s1)
            | None => None
            end) as [c|].
  - now split.
  - destruct (Tracker.provider_config provider (Tier_name (Storage.tier q))
                (rate_limit_configs s1)); now split.
Qed.

Lemma pruned_createWindow now agentWallet provider model t st st' :
  pruned_store st st' ->
  fst (Tracker.createWindow now agentWallet provider model t st') =
  fst (Tracker.createWindow now agentWallet provider model t st) /\
  pruned_store (snd (Tracker.createWindow now agentWallet provider model t st))
               (snd (Tracker.createWindow now agentWallet provider model t st')).
Proof.
  intros Hp. unfold Tracker.createWindow.
  destruct (pruned_getLimits now agentWallet provider model st st' Hp) as [Hl Hp1].
  destruct (Tracker.getLimits now agentWallet provider model st) as [l s1].
  destruct (Tracker.getLimits now agentWallet provider model st') as [l' s1'].
  cbn [fst snd] in *. subst l'.
  destruct Hp1 as (Hc & Hw & Hn & Hq & Hr & He & Hpt).
  rewrite Hn. split; [reflexivity|].
  repeat split; cbn; try assumption.
  now apply pruned_app.
Qed.

Lemma pruned_getCurrentWindow now agentWallet provider model t st st' :
  pruned_store st st' ->
  fst (Tracker.getCurrentWindow now agentWallet provider model t st') =
  fst (Tracker.getCurrentWindow now agentWallet provider model t st) /\
  pruned_store
    (snd (Tracker.getCurrentWindow now agentWallet provider model t st))
    (snd (Tracker.getCurrentWindow now agentWallet provider model t st')).
Proof.
  intros Hp. unfold Tracker.getCurrentWindow.
  rewrite (pruned_store_select agentWallet provider model t st st' Hp).
  destruct (Tracker.select_current agentWallet provider model t st).
  - now split.
  - now apply pruned_createWindow.
Qed.

Lemma pruned_update_where_id wid f st st' :
  keeps_identity f ->
  pruned_store st st' ->
  pruned_store (Tracker.update_where_id wid f st)
               (Tracker.update_where_id wid f st').
Proof.
  intros Hf (Hc & Hw & Hn & Hq & Hr & He & Hpt).
  unfold Tracker.update_where_id. repeat split; cbn; try assumption.
  apply pruned_map; [|exact Hw].
  intros w Hw0. destruct (Nat.eqb (Window.id w) wid); [|exact Hw0].
  destruct (Hf w) as (_ & _ & _ & _ & _ & _ & _ & Hact).
  destruct (Window.is_active (f w)); [|reflexivity].
  rewrite Hact in Hw0 by reflexivity. discriminate.
Qed.

Lemma pruned_rotateWindow now w st st' :
  pruned_store st st' ->
  fst (Tracker.rotateWindow now w st') = fst (Tracker.rotateWindow now w st) /\
  pruned_store (snd (Tracker.rotateWindow now w st))
               (snd (Tracker.rotateWindow now w st')).
Proof.
  intros Hp. unfold Tracker.rotateWindow.
  apply pruned_createWindow, pruned_update_where_id; [|exact Hp].
  apply keeps_identity_deactivate.
Qed.

Lemma pruned_settle now agentWallet provider model t st st' :
  pruned_store st st' ->
  fst (settle now agentWallet provider model t st') =
  fst (settle now agentWallet provider model t st) /\
  pruned_store (snd (settle now agentWallet provider model t st))
               (snd (settle now agentWallet provider model t st')).
Proof.
  intros Hp. unfold settle.
  destruct (pruned_getCurrentWindow now agentWallet provider model t st st' Hp)
    as [Hw Hp1].
  destruct (Tracker.getCurrentWindow now agentWallet provider model t st)
    as [w s1].
  destruct (Tracker.getCurrentWindow now agentWallet provider model t st')
    as [w' s1'].
  cbn [fst snd] in *. subst w'.
  destruct (Window.window_end w <? now); [|now split].
  destruct (pruned_rotateWindow now w s1 s1' Hp1) as [_ Hp2].
  destruct (Tracker.rotateWindow now w s1) as [x s2].
  destruct (Tracker.rotateWindow now w s1') as [x' s2'].
  cbn [snd] in Hp2.
  now apply pruned_getCurrentWindow.
Qed.

Lemma pruned_wouldExceedLimit now agentWallet provider model t st st' :
  pruned_store st st' ->
  fst (Tracker.wouldExceedLimit now agentWallet provider model t st') =
  fst (Tracker.wouldExceedLimit now agentWallet provider model t st) /\
  pruned_store
    (snd (Tracker.wouldExceedLimit now agentWallet provider model t st))
    (snd (Tracker.wouldExceedLimit now agentWallet provider model t st')).
Proof.
  intros Hp. rewrite !wouldExceedLimit_settle. cbn [fst snd].
  destruct (pruned_settle now agentWallet provider model t st st' Hp) as [-> H].
  now split.
Qed.

Lemma pruned_incrementWindow now agentWallet provider model t tokens st st' :
  pruned_store st st' ->
  pruned_store
    (Tracker.incrementWindow now agentWallet provider model t tokens st)
    (Tracker.incrementWindow now agentWallet provider model t tokens st').
Proof.
  intros Hp. rewrite !incrementWindow_settle.
  destruct (pruned_settle now agentWallet provider model t st st' Hp) as [-> H].
  apply pruned_update_where_id; [apply keeps_identity_bump | exact H].
Qed.

Lemma pruned_updateTokenCount now agentWallet provider model t tokens st st' :
  pruned_store st st' ->
  pruned_store
    (Tracker.updateTokenCount now agentWallet provider model t tokens st)
    (Tracker.updateTokenCount now agentWallet provider model t tokens st').
Proof.
  intros Hp. unfold Tracker.updateTokenCount.
  destruct (pruned_getCurrentWindow now agentWallet provider model t st st' Hp)
    as [Hw Hp1].
  destruct (Tracker.getCurrentWindow now agentWallet provider model t st)
    as [w s1].
  destruct (Tracker.getCurrentWindow now agentWallet provider model t st')
    as [w' s1'].
  cbn [fst snd] in *. subst w'.
  apply pruned_update_where_id; [apply keeps_identity_add_tokens | exact Hp1].
Qed.

Lemma pruned_firstExceeded now agentWallet provider model ts :
  forall st st',
    pruned_store st st' ->
    fst (Manager.firstExceeded now agentWallet provider model ts st') =
    fst (Manager.firstExceeded now agentWallet provider model ts st) /\
    pruned_store
      (snd (Manager.firstExceeded now agentWallet provider model ts st))
      (snd (Manager.firstExceeded now agentWallet provider model ts st')).
Proof.
  induction ts as [|t rest IH]; intros st st' Hp; cbn [Manager.firstExceeded].
  - now split.
  - destruct (pruned_wouldExceedLimit now agentWallet provider model t st st' Hp)
      as [Hc Hp1].
    destruct (Tracker.wouldExceedLimit now agentWallet provider model t st)
      as [c s1].
    destruct (Tracker.wouldExceedLimit now agentWallet provider model t st')
      as [c' s1'].
    cbn [fst snd] in *. subst c'.
    destruct (Js.truthy (Tracker.exceeded c)); [now split|].
    now apply IH.
Qed.

Lemma pruned_incrementAll now agentWallet provider model ts :
  forall st st',
    pruned_store st st' ->
    pruned_store (Manager.incrementAll now agentWallet provider model ts st)
                 (Manager.incrementAll now agentWallet provider model ts st').
Proof.
  induction ts as [|t rest IH]; intros st st' Hp; cbn [Manager.incrementAll].
  - exact Hp.
  - now apply IH, pruned_incrementWindow.
Qed.

Lemma pruned_updateTokensAll now agentWallet provider model tokens ts :
  forall st st',
    pruned_store st st' ->
    pruned_store
      (Manager.updateTokensAll now agentWallet provider model tokens ts st)
      (Manager.updateTokensAll now agentWallet provider model tokens ts st').
Proof.
  induction ts as [|t rest IH]; intros st st' Hp; cbn [Manager.updateTokensAll].
  - exact Hp.
  - now apply IH, pruned_updateTokenCount.
Qed.

Lemma pruned_recordEvent now e st st' :
  pruned_store st st' ->
  pruned_store (Storage.recordEvent now e st) (Storage.recordEvent now e st').
Proof.
  intros (Hc & Hw & Hn & Hq & Hr & He & Hpt).
  unfold Storage.recordEvent. repeat split; cbn; try assumption.
  now rewrite He.
Qed.

Lemma pruned_getQueueSize agentWallet st st' :
  pruned_store st st' ->
  Queue.getQueueSize agentWallet st' = Queue.getQueueSize agentWallet st.
Proof.
  intros (_ & _ & _ & _ & Hr & _). unfold Queue.getQueueSize. now rewrite Hr.
Qed.

Lemma pruned_set_queue q st st' :
  pruned_store st st' -> pruned_store (set_queue q st) (set_queue q st').
Proof.
  intros (Hc & Hw & Hn & Hq & Hr & He & Hpt). repeat split; assumption.
Qed.

Lemma pruned_enqueue now queueId agentWallet provider model priority st st' :
  pruned_store st st' ->
  fst (Queue.enqueue now queueId agentWallet provider model priority st') =
  fst (Queue.enqueue now queueId agentWallet provider model priority st) /\
  pruned_store
    (snd (Queue.enqueue now queueId agentWallet provider model priority st))
    (snd (Queue.enqueue now queueId agentWallet provider model priority st')).
Proof.
  intros Hp. unfold Queue.enqueue.
  destruct (pruned_checkQuotaAvailable now agentWallet st st' Hp) as [Hq Hp1].
  destruct (Storage.checkQuotaAvailable now agentWallet st) as [q s1].
  destruct (Storage.checkQuotaAvailable now agentWallet st') as [q' s1'].
  cbn [fst snd] in *. subst q'.
  destruct (negb (Storage.can_queue q)); [now split|].
  rewrite (pruned_getQueueSize agentWallet s1 s1' Hp1).
  destruct (Storage.max_queue_size q <=? Queue.getQueueSize agentWallet s1);
    [now split|].
  pose proof Hp1 as (_ & _ & _ & _ & Hr & _). rewrite Hr.
  destruct (existsb (Queue.has_queue_id queueId) (request_queue s1));
    [now split|].
  split; [reflexivity|]. now apply pruned_set_queue.
Qed.

Lemma pruned_update_where_queue_id queueId f st st' :
  pruned_store st st' ->
  pruned_store (Queue.update_where_queue_id queueId f st)
               (Queue.update_where_queue_id queueId f st').
Proof.
  intros Hp. unfold Queue.update_where_queue_id.
  pose proof Hp as (_ & _ & _ & _ & Hr & _). rewrite Hr.
  now apply pruned_set_queue.
Qed.

Lemma pruned_dequeue tz now agentWallet st :
  forall st',
    pruned_store st st' ->
    fst (Queue.dequeue tz now agentWallet st') =
    fst (Queue.dequeue tz now agentWallet st) /\
    pruned_store (snd (Queue.dequeue tz now agentWallet st))
                 (snd (Queue.dequeue tz now agentWallet st')).
Proof.
  funelim (Queue.dequeue tz now agentWallet st); intros st' Hp;
    rewrite (dequeue_unfold tz now agentWallet st');
    pose proof Hp as (_ & _ & _ & _ & Hr & _);
    unfold Queue.candidate in *; rewrite Hr.
  - rewrite e. now split.
  - rewrite e, e0. apply H. unfold Queue.complete.
    now apply pruned_update_where_queue_id.
  - rewrite e, e0. cbn [fst snd]. split; [reflexivity|].
    now apply pruned_update_where_queue_id.
Qed.

Lemma pruned_drain tz n now :
  forall st st',
    pruned_store st st' ->
    pruned_store (Manager.drain tz n now st) (Manager.drain tz n now st').
Proof.
  induction n as [|k IH]; intros st st' Hp; cbn [Manager.drain]; [exact Hp|].
  destruct (pruned_dequeue tz now None st st' Hp) as [Hi Hp1].
  destruct (Queue.dequeue tz now None st) as [[item|] s1];
    destruct (Queue.dequeue tz now None st') as [[item'|] s1'];
    cbn [fst snd] in *; try discriminate; [|exact Hp1].
  injection Hi as ->.
  destruct (pruned_wouldExceedLimit now (QueueEntry.agent_wallet item)
              (QueueEntry.provider item) (QueueEntry.model item) per_minute
              s1 s1' Hp1) as [Hc Hp2].
  destruct (Tracker.wouldExceedLimit now (QueueEntry.agent_wallet item)
              (QueueEntry.provider item) (QueueEntry.model item) per_minute s1)
    as [c s2].
  destruct (Tracker.wouldExceedLimit now (QueueEntry.agent_wallet item)
              (QueueEntry.provider item) (QueueEntry.model item) per_minute s1')
    as [c' s2'].
  cbn [fst snd] in *. subst c'.
  destruct (negb (Js.truthy (Tracker.exceeded c))).
  - apply IH, pruned_incrementAll. unfold Queue.complete.
    now apply pruned_update_where_queue_id.
  - now apply pruned_update_where_queue_id.
Qed.

Lemma pruned_beforeProvider
      now queueId requestId provider model agentId requestData st st' :
  pruned_store st st' ->
  fst (Manager.beforeProvider now queueId requestId provider model agentId
                              requestData st') =
  fst (Manager.beforeProvider now queueId requestId provider model agentId
                              requestData st) /\
  pruned_store
    (snd (Manager.beforeProvider now queueId requestId provider model agentId
                                 requestData st))
    (snd (Manager.beforeProvider now queueId requestId provider model agentId
                                 requestData st')).
Proof.
  intros Hp. unfold Manager.beforeProvider.
  set (agentWallet := Js.str_or (Manager.agentWallet requestData) agentId).
  destruct (pruned_checkQuotaAvailable now agentWallet st st' Hp) as [Hq Hp1].
  destruct (Storage.checkQuotaAvailable now agentWallet st) as [q s1].
  destruct (Storage.checkQuotaAvailable now agentWallet st') as [q' s1'].
  cbn [fst snd] in *. subst q'.
  destruct (negb (Storage.available q)); [now split|].
  destruct (pruned_firstExceeded now agentWallet provider model Manager.windows
              s1 s1' Hp1) as [Hf Hp2].
  destruct (Manager.firstExceeded now agentWallet provider model Manager.windows
              s1) as [r s2].
  destruct (Manager.firstExceeded now agentWallet provider model Manager.windows
              s1') as [r' s2'].
  cbn [fst snd] in *. subst r'.
  destruct r as [[t c]|].
  - destruct (Storage.tier q), (Storage.can_queue q); cbn [fst snd];
      try (split; [reflexivity | now apply pruned_recordEvent]).
    rewrite (pruned_getQueueSize agentWallet s2 s2' Hp2).
    destruct (Storage.max_queue_size q <=? Queue.getQueueSize agentWallet s2);
      [now split|].
    destruct (pruned_enqueue now queueId agentWallet provider model
                (Some (Js.or_default (Manager.priority requestData) 5))
                s2 s2' Hp2) as [He Hp3].
    destruct (Queue.enqueue now queueId agentWallet provider model _ s2)
      as [r3 s3].
    destruct (Queue.enqueue now queueId agentWallet provider model _ s2')
      as [r3' s3'].
    cbn [fst snd] in *. subst r3'.
    destruct r3 as [qid|err]; cbn [fst snd].
    + split; [reflexivity | now apply pruned_recordEvent].
    + now split.
  - cbn [fst snd]. split; [reflexivity|].
    now apply pruned_incrementAll, pruned_recordEvent.
Qed.

Lemma pruned_afterProvider tz
      now provider model agentId request response st st' :
  pruned_store st st' ->
  pruned_store
    (Manager.afterProvider tz now provider model agentId request response st)
    (Manager.afterProvider tz now provider model agentId request response st').
Proof.
  intros Hp. unfold Manager.afterProvider.
  set (agentWallet := Js.str_or (Manager.agentWallet request) agentId).
  destruct (negb (Manager.decision_allowed request)); [exact Hp|].
  pose proof (pruned_updateTokensAll now agentWallet provider model
                (Manager.tokensUsed response) Manager.windows st st' Hp) as Hp1.
  set (s1 := Manager.updateTokensAll now agentWallet provider model
               (Manager.tokensUsed response) Manager.windows st) in *.
  set (s1' := Manager.updateTokensAll now agentWallet provider model
                (Manager.tokensUsed response) Manager.windows st') in *.
  destruct (pruned_checkQuotaAvailable now agentWallet s1 s1' Hp1) as [Hq Hp2].
  destruct (Storage.checkQuotaAvailable now agentWallet s1) as [q s2].
  destruct (Storage.checkQuotaAvailable now agentWallet s1') as [q' s2'].
  cbn [fst snd] in *. subst q'.
  destruct (Storage.tier q), (Storage.can_queue q); try exact Hp2.
  unfold Manager.processQueue.
  rewrite (pruned_getQueueSize agentWallet s2 s2' Hp2).
  destruct (Queue.getQueueSize agentWallet s2 =? 0); [exact Hp2|].
  now apply pruned_drain.
Qed.

(** X5. What the maintenance task deletes. [cleanupExpiredWindows] removes
    exactly the rows that are inactive and ended more than seven days before
    [now], and returns how many they were; every other row stays as it was, the
    AUTOINCREMENT counter is not rewound, and no other table changes. In
    particular every key keeps its active window, ended or not. *)
Theorem cleanupExpiredWindows_removes_only_old_inactive_rows now st :
  let deleted := fst (Tracker.cleanupExpiredWindows now st) in
  let st' := snd (Tracker.cleanupExpiredWindows now st) in
  (forall w,
     In w (rate_limit_windows st') <->
     In w (rate_limit_windows st) /\
     (Window.is_active w = true \/
      now - 7 * 24 * 60 * 60 * 1000 <= Window.window_end w)) /\
  (List.length (rate_limit_windows st) =
   deleted + List.length (rate_limit_windows st'))%nat /\
  (forall agentWallet provider model t,
     Tracker.select_current agentWallet provider model t st' =
     Tracker.select_current agentWallet provider model t st) /\
  pruned_store st st'.
Proof.
  cbn zeta. split; [|split; [|split]].
  - intros w. unfold Tracker.cleanupExpiredWindows. cbn.
    rewrite filter_In. unfold Tracker.survives_cleanup.
    split; intros [Hin Hk]; (split; [exact Hin|]).
    + destruct (Window.is_active w); [now left|]. right.
      cbn [negb andb] in Hk. apply negb_true_iff, Z.ltb_ge in Hk. lia.
    + destruct Hk as [->|Hk]; [reflexivity|].
      destruct (Window.is_active w); [reflexivity|].
      cbn [negb andb]. apply negb_true_iff, Z.ltb_ge. lia.
  - unfold Tracker.cleanupExpiredWindows. cbn.
    pose proof (filter_length_le (Tracker.survives_cleanup now)
                  (rate_limit_windows st)). lia.
  - intros. apply pruned_store_select, cleanupExpiredWindows_pruned.
  - apply cleanupExpiredWindows_pruned.
Qed.

(** X6. The maintenance task is invisible to the hooks. After
    [cleanupExpiredWindows], run at any time, a pre-call has the outcome and
    leaves the request object it would have had without the cleanup, and the
    stores the pre-call and the post-call leave differ from those they would
    have left only by inactive windows that are missing: deleting old windows
    never changes an admission decision, a count or the queue. *)
Theorem cleanupExpiredWindows_does_not_change_the_hooks tz
        cleanupTime now queueId requestId provider model agentId requestData
        response st :
  let cleaned := snd (Tracker.cleanupExpiredWindows cleanupTime st) in
  let pre := Manager.beforeProvider now queueId requestId provider model agentId
                                    requestData st in
  let pre' := Manager.beforeProvider now queueId requestId provider model
                                     agentId requestData cleaned in
  fst pre' = fst pre /\
  pruned_store (snd pre) (snd pre') /\
  pruned_store
    (Manager.afterProvider tz now provider model agentId requestData response st)
    (Manager.afterProvider tz now provider model agentId requestData response
                           cleaned).
Proof.
  cbn zeta.
  pose proof (cleanupExpiredWindows_pruned cleanupTime st) as Hp.
  destruct (pruned_beforeProvider now queueId requestId provider model agentId
              requestData st _ Hp) as [H1 H2].
  split; [exact H1|]. split; [exact H2|].
  now apply pruned_afterProvider.
Qed.

(** X7. The window invariant is kept. From a store whose window table
    satisfies [windows_ok] at some clock reading (unique row ids below the
    AUTOINCREMENT counter, at most one active window per key, every window
    starts before it ends, every deactivated window has ended), a pre-call, a
    post-call and the maintenance task run at that or any later clock reading
    all leave a store that satisfies it again. *)
Theorem hooks_keep_the_window_invariant tz now now' st
        (Hok : windows_ok now st) (Hclock : now <= now') :
  (forall queueId requestId provider model agentId requestData,
     windows_ok now'
       (snd (Manager.beforeProvider now' queueId requestId provider model
                                    agentId requestData st))) /\
  (forall provider model agentId request response,
     windows_ok now'
       (Manager.afterProvider tz now' provider model agentId request response st)) /\
  windows_ok now' (snd (Tracker.cleanupExpiredWindows now' st)).
Proof.
  assert (Hok' : windows_ok now' st) by (eapply windows_ok_mono; eauto).
  split; [|split].
  - intros. now apply beforeProvider_ok.
  - intros. now apply afterProvider_ok.
  - destruct Hok' as [Hwf Htl].
    pose proof (cleanupExpiredWindows_pruned now' st) as Hp.
    split.
    + eapply pruned_store_wf; eauto.
    + eapply pruned_store_timeline; eauto.
Qed.

Lemma hooks_keep_the_window_invariant_witness :
  windows_ok 0 empty_store /\ 0 <= 1000 /\
  windows_ok 1000
    (snd (Manager.beforeProvider 1000 "q1" "r1" "anthropic" (Some "m") "T1"
                                 (Manager.mkRequest None None None)
                                 empty_store)).
Proof.
  split; [apply windows_ok_empty|]. split; [lia|].
  apply (proj1 (hooks_keep_the_window_invariant Js.utc 0 1000 empty_store
                  (windows_ok_empty 0) ltac:(lia))).
Defined.

(** ** RequestQueue: the order in which entries are handed out *)

Lemma precedes_irrefl a : Queue.precedes a a = false.
Proof.
  unfold Queue.precedes.
  rewrite !Z.ltb_irrefl, Z.eqb_refl. reflexivity.
Qed.

Lemma precedes_spec a b :
  Queue.precedes a b = true <->
  QueueEntry.priority b < QueueEntry.priority a \/
  (QueueEntry.priority a = QueueEntry.priority b /\
   QueueEntry.queued_at a < QueueEntry.queued_at b).
Proof.
  unfold Queue.precedes.
  rewrite orb_true_iff, andb_true_iff, !Z.ltb_lt, Z.eqb_eq. reflexivity.
Qed.

Lemma precedes_false a b :
  Queue.precedes a b = false <->
  QueueEntry.priority a < QueueEntry.priority b \/
  (QueueEntry.priority a = QueueEntry.priority b /\
   QueueEntry.queued_at b <= QueueEntry.queued_at a).
Proof.
  destruct (Queue.precedes a b) eqn:H.
  - apply precedes_spec in H. split; [discriminate|]. lia.
  - split; [intros _|reflexivity].
    assert (Hn : ~ (QueueEntry.priority b < QueueEntry.priority a \/
                    (QueueEntry.priority a = QueueEntry.priority b /\
                     QueueEntry.queued_at a < QueueEntry.queued_at b))).
    { intros Hp. apply precedes_spec in Hp. congruence. }
    lia.
Qed.

(** The row [first_in_order] picks is preceded by no row of the list. *)
Lemma first_in_order_best l b :
  Queue.first_in_order l = Some b ->
  forall e, In e l -> Queue.precedes e b = false.
Proof.
  revert b. induction l as [|a l IH]; cbn; intros b Hb e Hin; [destruct Hin|].
  destruct (Queue.first_in_order l) as [c|] eqn:Hc.
  - specialize (IH c eq_refl).
    destruct (Queue.precedes c a) eqn:Hca; inversion Hb; subst b.
    + destruct Hin as [<-|Hin]; [|now apply IH].
      apply precedes_spec in Hca. apply precedes_false. lia.
    + destruct Hin as [<-|Hin]; [apply precedes_irrefl|].
      specialize (IH e Hin). apply precedes_false in IH, Hca.
      apply precedes_false. lia.
  - inversion Hb; subst b.
    destruct l as [|x l']; [|cbn in Hc; destruct (Queue.first_in_order l');
                              [destruct (Queue.precedes r x)|]; discriminate].
    destruct Hin as [<-|[]]. apply precedes_irrefl.
Qed.

Lemma first_in_order_None l : Queue.first_in_order l = None -> l = [].
Proof.
  destruct l as [|a l]; [reflexivity|]. cbn.
  destruct (Queue.first_in_order l) as [b|]; [|discriminate].
  destruct (Queue.precedes b a); discriminate.
Qed.

Lemma eligible_pending agentWallet e :
  Queue.eligible agentWallet e = true -> QueueEntry.status e = pending.
Proof.
  unfold Queue.eligible. intros H.
  apply andb_true_iff in H. destruct H as [H _].
  apply andb_true_iff in H. destruct H as [H _].
  destruct (QueueEntry.status e); cbn in H; congruence.
Qed.

Lemma has_queue_id_spec queueId e :
  Queue.has_queue_id queueId e = true <-> QueueEntry.queue_id e = queueId.
Proof. unfold Queue.has_queue_id. apply String.eqb_eq. Qed.

Lemma unique_queue_id_row l (x y : QueueEntry.row) :
  NoDup (map QueueEntry.queue_id l) -> In x l -> In y l ->
  QueueEntry.queue_id x = QueueEntry.queue_id y -> x = y.
Proof.
  induction l as [|a l IH]; cbn; intros Hnd Hx Hy Heq; [destruct Hx|].
  inversion Hnd as [|? ? Hnot Hnd']; subst.
  destruct Hx as [<-|Hx], Hy as [<-|Hy]; auto.
  - exfalso. apply Hnot. rewrite Heq. now apply in_map.
  - exfalso. apply Hnot. rewrite <- Heq. now apply in_map.
Qed.

Lemma update_where_queue_id_ids queueId f st :
  (forall e, QueueEntry.queue_id (f e) = QueueEntry.queue_id e) ->
  map QueueEntry.queue_id
      (request_queue (Queue.update_where_queue_id queueId f st)) =
  map QueueEntry.queue_id (request_queue st).
Proof.
  intros Hf. unfold Queue.update_where_queue_id. cbn.
  rewrite map_map. apply map_ext. intros e.
  destruct (Queue.has_queue_id queueId e); [apply Hf | reflexivity].
Qed.

Lemma complete_ids now queueId success error st :
  map QueueEntry.queue_id
      (request_queue (Queue.complete now queueId success error st)) =
  map QueueEntry.queue_id (request_queue st).
Proof. apply update_where_queue_id_ids. reflexivity. Qed.

(** A row of another identifier is not touched by an UPDATE ... WHERE
    queue_id = ?. *)
Lemma update_where_queue_id_other queueId f st e :
  In e (request_queue st) -> QueueEntry.queue_id e <> queueId ->
  In e (request_queue (Queue.update_where_queue_id queueId f st)).
Proof.
  intros Hin Hne. unfold Queue.update_where_queue_id. cbn.
  apply in_map_iff. exists e. split; [|exact Hin].
  destruct (Queue.has_queue_id queueId e) eqn:H; [|reflexivity].
  apply has_queue_id_spec in H. contradiction.
Qed.

Lemma update_where_queue_id_In queueId f st e :
  In e (request_queue (Queue.update_where_queue_id queueId f st)) ->
  exists x, In x (request_queue st) /\
            ((QueueEntry.queue_id x = queueId /\ e = f x) \/
             (QueueEntry.queue_id x <> queueId /\ e = x)).
Proof.
  unfold Queue.update_where_queue_id. cbn. intros Hin.
  apply in_map_iff in Hin. destruct Hin as (x & Hx & Hin).
  exists x. split; [exact Hin|].
  destruct (Queue.has_queue_id queueId x) eqn:H.
  - left. apply has_queue_id_spec in H. now split.
  - right. split; [|now symmetry].
    intros Heq. apply has_queue_id_spec in Heq. congruence.
Qed.

Lemma dequeue_result tz now agentWallet st :
  NoDup (map QueueEntry.queue_id (request_queue st)) ->
  forall r st',
    Queue.dequeue tz now agentWallet st = (r, st') ->
    match r with
    | Some item =>
        In item (request_queue st) /\
        Queue.eligible agentWallet item = true /\
        now - tz (QueueEntry.queued_at item) <= Queue.maxQueueAge /\
        (forall e,
           In e (request_queue st) ->
           Queue.eligible agentWallet e = true ->
           now - tz (QueueEntry.queued_at e) <= Queue.maxQueueAge ->
           Queue.precedes e item = false) /\
        In (Queue.processing_row now item) (request_queue st')
    | None =>
        forall e,
          In e (request_queue st) ->
          Queue.eligible agentWallet e = true ->
          Queue.maxQueueAge < now - tz (QueueEntry.queued_at e)
    end.
Proof.
  funelim (Queue.dequeue tz now agentWallet st); intros Hids r st' Hrun.
  - inversion Hrun; subst r st'. intros x Hin Hel. exfalso.
    pose proof e as Hnone.
    unfold Queue.candidate in Hnone. apply first_in_order_None in Hnone.
    assert (Hx : In x (filter (Queue.eligible agentWallet) (request_queue st)))
      by (apply filter_In; now split).
    rewrite Hnone in Hx. destruct Hx.
  - destruct (candidate_In _ _ _ e) as [Hin0 Hel0].
    pose proof e0 as Hage. apply Z.ltb_lt in Hage.
    assert (Hkeep : forall x,
              In x (request_queue st) ->
              Queue.eligible agentWallet x = true ->
              now - tz (QueueEntry.queued_at x) <= Queue.maxQueueAge ->
              In x (request_queue
                      (Queue.complete now (QueueEntry.queue_id item) false
                                      (Some Queue.expired_message) st))).
    { intros x Hin Hel Hfresh. apply update_where_queue_id_other; [exact Hin|].
      intros Heq.
      assert (x = item) by (eapply unique_queue_id_row; eauto).
      subst x. lia. }
    assert (Hids1 : NoDup (map QueueEntry.queue_id
                             (request_queue
                                (Queue.complete now (QueueEntry.queue_id item)
                                   false (Some Queue.expired_message) st))))
      by (now rewrite complete_ids).
    specialize (H Hids1 r st' Hrun).
    destruct r as [got|].
    + destruct H as (Hin & Hel & Hfresh & Hbest & Hst').
      split; [|split; [exact Hel|split; [exact Hfresh|split; [|exact Hst']]]].
      * apply update_where_queue_id_In in Hin.
        destruct Hin as (x & Hx & [[Hid ->]|[Hid ->]]); [exfalso|exact Hx].
        apply eligible_pending in Hel. cbn in Hel. discriminate.
      * intros x Hinx Helx Hfx. apply Hbest; auto.
    + intros x Hin Hel.
      destruct (Z.le_gt_cases (now - tz (QueueEntry.queued_at x)) Queue.maxQueueAge)
        as [Hfresh|Hold]; [|lia].
      specialize (H x (Hkeep x Hin Hel Hfresh) Hel). lia.
  - inversion Hrun; subst r st'.
    destruct (candidate_In _ _ _ e) as [Hin0 Hel0].
    pose proof e0 as Hage. apply Z.ltb_ge in Hage.
    split; [exact Hin0|]. split; [exact Hel0|]. split; [exact Hage|]. split.
    + intros x Hin Hel _. pose proof e as Hbest.
      unfold Queue.candidate in Hbest.
      eapply first_in_order_best; [exact Hbest|].
      apply filter_In. now split.
    + unfold Queue.update_where_queue_id. cbn.
      apply in_map_iff. exists item. split; [|exact Hin0].
      unfold Queue.has_queue_id. now rewrite String.eqb_refl.
Qed.

Lemma eligible_candidate agentWallet e :
  Queue.eligible agentWallet e = true <-> dequeue_candidate agentWallet e.
Proof.
  unfold Queue.eligible, dequeue_candidate, Js.str_or_null.
  rewrite !andb_true_iff, Z.ltb_lt.
  assert (Hs : Status_eqb (QueueEntry.status e) pending = true <->
               QueueEntry.status e = pending)
    by (destruct (QueueEntry.status e); cbn; split; congruence).
  rewrite Hs.
  destruct agentWallet as [a|].
  - destruct (String.eqb_spec a "") as [->|Hne].
    + split; [intros ((H1 & H2) & _) | intros (H1 & H2 & _)].
      * split; [exact H1|]. split; [exact H2|].
        intros a Ha Hne. injection Ha as <-. contradiction.
      * now repeat split.
    + rewrite String.eqb_eq.
      split; [intros ((H1 & H2) & H3) | intros (H1 & H2 & H3)].
      * split; [exact H1|]. split; [exact H2|].
        intros a' Ha' _. injection Ha' as <-. exact H3.
      * split; [now split|]. now apply (H3 a).
  - split; [intros ((H1 & H2) & _) | intros (H1 & H2 & _)].
    + split; [exact H1|]. split; [exact H2|]. intros a Ha. discriminate.
    + now repeat split.
Qed.

(** X8. Which entry a dequeue hands out. The age of an entry at a dequeue
    is the one the dequeue computes: [now] minus the stored queued_at, read
    back in the zone [tz] of the process. Over a queue whose rows carry
    distinct queue identifiers, when [dequeue] returns an entry, it is a row of
    the queue as it stood, it was pending with retries left (and of the tenant
    asked for, if any), its age is within the maximum queue age, and no other
    such entry comes before it in the order priority descending, queued_at
    ascending; the store holds that row marked processing. When [dequeue]
    returns nothing, every pending entry with retries left (of that tenant)
    had an age above the maximum queue age. *)
Theorem dequeue_hands_out_the_first_fresh_entry tz now agentWallet st
        (Hids : NoDup (map QueueEntry.queue_id (request_queue st))) :
  match Queue.dequeue tz now agentWallet st with
  | (Some item, st') =>
      In item (request_queue st) /\
      dequeue_candidate agentWallet item /\
      now - tz (QueueEntry.queued_at item) <= Queue.maxQueueAge /\
      (forall e,
         In e (request_queue st) ->
         dequeue_candidate agentWallet e ->
         now - tz (QueueEntry.queued_at e) <= Queue.maxQueueAge ->
         QueueEntry.priority e < QueueEntry.priority item \/
         (QueueEntry.priority e = QueueEntry.priority item /\
          QueueEntry.queued_at item <= QueueEntry.queued_at e)) /\
      In (Queue.processing_row now item) (request_queue st')
  | (None, st') =>
      forall e,
        In e (request_queue st) ->
        dequeue_candidate agentWallet e ->
        Queue.maxQueueAge < now - tz (QueueEntry.queued_at e)
  end.
Proof.
  pose proof (dequeue_result tz now agentWallet st Hids) as H.
  destruct (Queue.dequeue tz now agentWallet st) as [[item|] st'].
  - destruct (H _ _ eq_refl) as (H1 & H2 & H3 & H4 & H5).
    split; [exact H1|]. split; [now apply eligible_candidate|].
    split; [exact H3|]. split; [|exact H5].
    intros e Hin Hel Hfresh. apply precedes_false.
    apply H4; [exact Hin | now apply eligible_candidate | exact Hfresh].
  - intros e Hin Hel. apply (H _ _ eq_refl); [exact Hin|].
    now apply eligible_candidate.
Qed.

Lemma dequeue_hands_out_the_first_fresh_entry_witness :
  let a := QueueEntry.mk "qa" "A" "anthropic" (Some "m") 0 5 0 3 pending
                         None None in
  let b := QueueEntry.mk "qb" "A" "anthropic" (Some "m") 10000 9 0 3 pending
                         None None in
  let st := set_queue [a; b] empty_store in
  NoDup (map QueueEntry.queue_id (request_queue st)) /\
  fst (Queue.dequeue Js.utc 20000 None st) = Some b /\
  20000 - Js.utc (QueueEntry.queued_at b) <= Queue.maxQueueAge /\
  In (Queue.processing_row 20000 b)
     (request_queue (snd (Queue.dequeue Js.utc 20000 None st))).
Proof.
  intros a b st.
  assert (Hids : NoDup (map QueueEntry.queue_id (request_queue st))).
  { cbn. constructor; [|constructor; [intros []|constructor]].
    intros [H|[]]. discriminate. }
  split; [exact Hids|].
  pose proof (dequeue_hands_out_the_first_fresh_entry Js.utc 20000 None st Hids)
    as H.
  assert (Hrun : Queue.dequeue Js.utc 20000 None st
                 = (Some b, snd (Queue.dequeue Js.utc 20000 None st)))
    by reflexivity.
  rewrite Hrun in H. destruct H as (_ & _ & H3 & _ & H5).
  split; [reflexivity|]. split; [exact H3 | exact H5].
Defined.

Lemma dequeue_not_overtaken tz now agentWallet st e :
  NoDup (map QueueEntry.queue_id (request_queue st)) ->
  In e (request_queue st) ->
  Queue.eligible agentWallet e = true ->
  now - tz (QueueEntry.queued_at e) <= Queue.maxQueueAge ->
  exists item st',
    Queue.dequeue tz now agentWallet st = (Some item, st') /\
    Queue.precedes e item = false.
Proof.
  intros Hids Hin Hel Hfresh.
  pose proof (dequeue_result tz now agentWallet st Hids) as H.
  destruct (Queue.dequeue tz now agentWallet st) as [[item|] st'].
  - exists item, st'. split; [reflexivity|].
    destruct (H _ _ eq_refl) as (_ & _ & _ & Hbest & _). now apply Hbest.
  - specialize (H _ _ eq_refl e Hin Hel). lia.
Qed.

(** ** RequestQueue: cancel, updatePriority, retry *)

Lemma is_pending_id_spec queueId e :
  Queue.is_pending_id queueId e = true <->
  QueueEntry.queue_id e = queueId /\ QueueEntry.status e = pending.
Proof.
  unfold Queue.is_pending_id. rewrite andb_true_iff, has_queue_id_spec.
  destruct (QueueEntry.status e); cbn; intuition congruence.
Qed.

Lemma is_pending_id_false queueId e :
  Queue.is_pending_id queueId e = false <->
  QueueEntry.queue_id e <> queueId \/ QueueEntry.status e <> pending.
Proof.
  destruct (Queue.is_pending_id queueId e) eqn:H.
  - apply is_pending_id_spec in H. split; [discriminate|]. tauto.
  - split; [intros _|reflexivity].
    destruct (String.eqb_spec (QueueEntry.queue_id e) queueId) as [E|E];
      [|now left].
    right. intros Hs.
    assert (Queue.is_pending_id queueId e = true)
      by (apply is_pending_id_spec; now split).
    congruence.
Qed.

Lemma is_pending_of_spec agentWallet e :
  Queue.is_pending_of agentWallet e = true <->
  QueueEntry.agent_wallet e = agentWallet /\ QueueEntry.status e = pending.
Proof.
  unfold Queue.is_pending_of. rewrite andb_true_iff, String.eqb_eq.
  destruct (QueueEntry.status e); cbn; intuition congruence.
Qed.

(** What an UPDATE ... WHERE queue_id = ? AND status = 'pending' does. *)
Lemma update_pending_spec queueId f st :
  let r := Queue.update_pending queueId f st in
  (fst r = true <->
     exists e, In e (request_queue st) /\
               QueueEntry.queue_id e = queueId /\
               QueueEntry.status e = pending) /\
  (fst r = false -> request_queue (snd r) = request_queue st) /\
  (forall e, In e (request_queue st) ->
             QueueEntry.queue_id e = queueId ->
             QueueEntry.status e = pending ->
             In (f e) (request_queue (snd r))) /\
  (forall e, In e (request_queue st) ->
             QueueEntry.queue_id e <> queueId \/
             QueueEntry.status e <> pending ->
             In e (request_queue (snd r))) /\
  (forall x, In x (request_queue (snd r)) ->
             exists e, In e (request_queue st) /\
                       ((Queue.is_pending_id queueId e = true /\ x = f e) \/
                        (Queue.is_pending_id queueId e = false /\ x = e))) /\
  List.length (request_queue (snd r)) = List.length (request_queue st) /\
  queue_frame st (snd r).
Proof.
  cbn zeta. unfold Queue.update_pending. cbn [fst snd].
  split; [|split; [|split; [|split; [|split; [|split]]]]].
  - rewrite existsb_exists. split; intros (e & Hin & H); exists e.
    + apply is_pending_id_spec in H. tauto.
    + split; [exact Hin|]. now apply is_pending_id_spec.
  - intros Hnone. cbn.
    rewrite <- (map_id (request_queue st)) at 2. apply map_ext_in.
    intros e Hin. destruct (Queue.is_pending_id queueId e) eqn:He; [|reflexivity].
    exfalso.
    assert (existsb (Queue.is_pending_id queueId) (request_queue st) = true)
      by (apply existsb_exists; eauto).
    congruence.
  - intros e Hin Hid Hs. cbn. apply in_map_iff. exists e. split; [|exact Hin].
    assert (Queue.is_pending_id queueId e = true) as ->
      by (apply is_pending_id_spec; now split).
    reflexivity.
  - intros e Hin Hne. cbn. apply in_map_iff. exists e. split; [|exact Hin].
    apply is_pending_id_false in Hne. now rewrite Hne.
  - intros x Hx. cbn in Hx. apply in_map_iff in Hx.
    destruct Hx as (e & He & Hin). exists e. split; [exact Hin|].
    destruct (Queue.is_pending_id queueId e); [left|right]; now split.
  - cbn. apply length_map.
  - repeat split.
Qed.

Lemma dequeue_never_returns_unpending tz now agentWallet st queueId :
  (forall e, In e (request_queue st) ->
             QueueEntry.queue_id e = queueId ->
             QueueEntry.status e <> pending) ->
  forall item st',
    Queue.dequeue tz now agentWallet st = (Some item, st') ->
    QueueEntry.queue_id item <> queueId.
Proof.
  funelim (Queue.dequeue tz now agentWallet st); intros Hnp got st' Hrun.
  - discriminate.
  - eapply H; [|exact Hrun].
    intros x Hx Hid.
    apply update_where_queue_id_In in Hx.
    destruct Hx as (y & Hy & [[_ ->]|[_ ->]]).
    + cbn. discriminate.
    + now apply Hnp.
  - inversion Hrun; subst got st'.
    destruct (candidate_In _ _ _ e) as [Hin Hel].
    intros Hid. apply (Hnp item Hin Hid). eapply eligible_pending; eauto.
Qed.

(** X9. Cancelling. [cancel] answers true exactly when the queue holds a
    pending row with the identifier. Such a row becomes failed with the error
    'Cancelled by user' (priority, retry_count and timestamps as they were);
    every row that is not pending, or has another identifier, stays as it
    was, and no other table changes. Afterwards no row with the identifier is
    pending, and no dequeue, at any time and for any tenant, hands the
    identifier out. *)
Theorem cancel_withdraws_the_pending_entry tz queueId st :
  let cancelled := fst (Queue.cancel queueId st) in
  let st' := snd (Queue.cancel queueId st) in
  (cancelled = true <->
     exists e, In e (request_queue st) /\
               QueueEntry.queue_id e = queueId /\
               QueueEntry.status e = pending) /\
  (cancelled = false -> request_queue st' = request_queue st) /\
  (forall e, In e (request_queue st) ->
             QueueEntry.queue_id e = queueId ->
             QueueEntry.status e = pending ->
             In (Queue.cancelled_row e) (request_queue st') /\
             QueueEntry.status (Queue.cancelled_row e) = failed /\
             QueueEntry.error (Queue.cancelled_row e)
               = Some "Cancelled by user"%string /\
             QueueEntry.retry_count (Queue.cancelled_row e)
               = QueueEntry.retry_count e) /\
  (forall e, In e (request_queue st) ->
             QueueEntry.queue_id e <> queueId \/
             QueueEntry.status e <> pending ->
             In e (request_queue st')) /\
  (forall e, In e (request_queue st') ->
             QueueEntry.queue_id e = queueId ->
             QueueEntry.status e <> pending) /\
  (forall now agentWallet item st'',
     Queue.dequeue tz now agentWallet st' = (Some item, st'') ->
     QueueEntry.queue_id item <> queueId) /\
  queue_frame st st'.
Proof.
  cbn zeta. unfold Queue.cancel.
  destruct (update_pending_spec queueId Queue.cancelled_row st)
    as (Hiff & Hnone & Hhit & Hmiss & Hinv & _ & Hframe).
  assert (Hgone : forall e,
            In e (request_queue
                    (snd (Queue.update_pending queueId Queue.cancelled_row st))) ->
            QueueEntry.queue_id e = queueId ->
            QueueEntry.status e <> pending).
  { intros x Hx Hid. apply Hinv in Hx.
    destruct Hx as (e & Hin & [[Hp ->]|[Hp ->]]).
    - cbn. discriminate.
    - apply is_pending_id_false in Hp. tauto. }
  split; [exact Hiff|]. split; [exact Hnone|]. split.
  { intros e Hin Hid Hs. split; [now apply Hhit|]. now cbn. }
  split; [exact Hmiss|]. split; [exact Hgone|]. split; [|exact Hframe].
  intros now agentWallet item st''.
  now apply dequeue_never_returns_unpending.
Qed.

Lemma filter_length_ext {A} (p q : A -> bool) (l : list A) :
  (forall x, In x l -> p x = q x) ->
  List.length (filter p l) = List.length (filter q l).
Proof.
  induction l as [|a l IH]; cbn; intros H; [reflexivity|].
  rewrite (H a) by now left.
  destruct (q a); cbn; rewrite IH; auto.
Qed.

Lemma filter_map_length {A} (p : A -> bool) (g : A -> A) (l : list A) :
  List.length (filter p (map g l)) =
  List.length (filter (fun x => p (g x)) l).
Proof.
  induction l as [|a l IH]; cbn; [reflexivity|].
  destruct (p (g a)); cbn; now rewrite IH.
Qed.

(** The pending rows of a tenant once the pending row [e] has been taken out
    of the pending state by an UPDATE on its identifier. *)
Lemma update_pending_size f st e agentWallet :
  (forall x, QueueEntry.status (f x) <> pending) ->
  NoDup (map QueueEntry.queue_id (request_queue st)) ->
  In e (request_queue st) ->
  QueueEntry.status e = pending ->
  Queue.getQueueSize agentWallet
    (snd (Queue.update_pending (QueueEntry.queue_id e) f st)) =
  Queue.getQueueSize agentWallet st -
  (if (QueueEntry.agent_wallet e =? agentWallet)%string then 1 else 0).
Proof.
  intros Hf Hids Hin Hs.
  unfold Queue.getQueueSize, Queue.update_pending. cbn [snd request_queue set_queue].
  rewrite filter_map_length.
  set (q := QueueEntry.queue_id e) in *.
  induction (request_queue st) as [|a l IH]; [destruct Hin|].
  cbn [map] in Hids. inversion Hids as [|? ? Hnot Hnd]; subst.
  destruct Hin as [->|Hin].
  - cbn [filter].
    assert (Hp : Queue.is_pending_id q e = true)
      by (apply is_pending_id_spec; now split).
    rewrite Hp.
    assert (Hfe : Queue.is_pending_of agentWallet (f e) = false).
    { destruct (Queue.is_pending_of agentWallet (f e)) eqn:H; [|reflexivity].
      apply is_pending_of_spec in H. destruct H as [_ H].
      now apply Hf in H. }
    rewrite Hfe.
    assert (Hrest :
      List.length
        (filter (fun x => Queue.is_pending_of agentWallet
                            (if Queue.is_pending_id q x then f x else x)) l) =
      List.length (filter (Queue.is_pending_of agentWallet) l)).
    { apply filter_length_ext. intros x Hx.
      destruct (Queue.is_pending_id q x) eqn:Hq; [exfalso|reflexivity].
      apply is_pending_id_spec in Hq. destruct Hq as [Hq _].
      apply Hnot. fold q. rewrite <- Hq. now apply in_map. }
    rewrite Hrest.
    unfold Queue.is_pending_of at 2. rewrite Hs. cbn [Status_eqb].
    rewrite andb_true_r.
    destruct (QueueEntry.agent_wallet e =? agentWallet)%string; cbn [List.length];
      lia.
  - cbn [filter].
    assert (Hq : Queue.is_pending_id q a = false).
    { apply is_pending_id_false. left. intros Heq. apply Hnot.
      rewrite Heq. unfold q. now apply in_map. }
    rewrite Hq. specialize (IH Hnd Hin).
    destruct (Queue.is_pending_of agentWallet a); cbn [List.length]; lia.
Qed.

(** X10. Cancelling frees a queue slot. Over a queue whose rows carry
    distinct identifiers, cancelling a pending entry lowers the pending count
    of its tenant by one and leaves the pending count of every other tenant as
    it was. *)
Theorem cancel_frees_a_queue_slot st e agentWallet
        (Hids : NoDup (map QueueEntry.queue_id (request_queue st)))
        (Hin : In e (request_queue st))
        (Hpending : QueueEntry.status e = pending) :
  let st' := snd (Queue.cancel (QueueEntry.queue_id e) st) in
  fst (Queue.cancel (QueueEntry.queue_id e) st) = true /\
  Queue.getQueueSize agentWallet st' =
    Queue.getQueueSize agentWallet st -
    (if (QueueEntry.agent_wallet e =? agentWallet)%string then 1 else 0).
Proof.
  cbn zeta. unfold Queue.cancel. split.
  - apply (proj1 (update_pending_spec (QueueEntry.queue_id e)
                    Queue.cancelled_row st)).
    exists e. now repeat split.
  - apply update_pending_size; try assumption.
    intros x. cbn. discriminate.
Qed.

Lemma cancel_frees_a_queue_slot_witness :
  let a := QueueEntry.mk "qa" "A" "anthropic" (Some "m") 0 5 0 3 pending
                         None None in
  let b := QueueEntry.mk "qb" "A" "anthropic" (Some "m") 10 9 0 3 pending
                         None None in
  let st := set_queue [a; b] empty_store in
  NoDup (map QueueEntry.queue_id (request_queue st)) /\
  In a (request_queue st) /\
  QueueEntry.status a = pending /\
  fst (Queue.cancel "qa" st) = true /\
  Queue.getQueueSize "A" (snd (Queue.cancel "qa" st)) =
    Queue.getQueueSize "A" st - 1.
Proof.
  intros a b st.
  assert (Hids : NoDup (map QueueEntry.queue_id (request_queue st))).
  { cbn. constructor; [|constructor; [intros []|constructor]].
    intros [H|[]]. discriminate. }
  assert (Hin : In a (request_queue st)) by (now left).
  split; [exact Hids|]. split; [exact Hin|]. split; [reflexivity|].
  exact (cancel_frees_a_queue_slot st a "A" Hids Hin eq_refl).
Defined.

Lemma update_pending_keeps_sizes queueId f st agentWallet :
  (forall x, QueueEntry.agent_wallet (f x) = QueueEntry.agent_wallet x /\
             QueueEntry.status (f x) = QueueEntry.status x) ->
  Queue.getQueueSize agentWallet (snd (Queue.update_pending queueId f st)) =
  Queue.getQueueSize agentWallet st.
Proof.
  intros Hf. unfold Queue.getQueueSize, Queue.update_pending.
  cbn [snd request_queue set_queue].
  rewrite filter_map_length. f_equal. apply filter_length_ext.
  intros x _. destruct (Queue.is_pending_id queueId x); [|reflexivity].
  unfold Queue.is_pending_of. destruct (Hf x) as [-> ->]. reflexivity.
Qed.

Lemma update_pending_ids queueId f st :
  (forall e, QueueEntry.queue_id (f e) = QueueEntry.queue_id e) ->
  map QueueEntry.queue_id
      (request_queue (snd (Queue.update_pending queueId f st))) =
  map QueueEntry.queue_id (request_queue st).
Proof.
  intros Hf. unfold Queue.update_pending. cbn.
  rewrite map_map. apply map_ext. intros e.
  destruct (Queue.is_pending_id queueId e); [apply Hf | reflexivity].
Qed.

Lemma updatePriority_range_ok queueId newPriority st :
  1 <= newPriority <= 10 ->
  Queue.updatePriority queueId newPriority st =
  Queue.update_pending queueId (Queue.reprioritised_row newPriority) st.
Proof.
  intros Hrange. unfold Queue.updatePriority.
  destruct (Z.ltb_spec newPriority 1); [lia|].
  destruct (Z.ltb_spec 10 newPriority); [lia|]. reflexivity.
Qed.

(** X11. Changing a priority. [updatePriority] refuses a priority outside
    1..10: it answers false and changes nothing. For a priority within the
    range it answers true exactly when the queue holds a pending row with the
    identifier; that row takes the new priority and is otherwise as it was;
    rows that are not pending (processing, completed, failed) or have another
    identifier are not touched, and every tenant's pending count is
    unchanged. *)
Theorem updatePriority_changes_only_a_pending_entry queueId newPriority st :
  let updated := fst (Queue.updatePriority queueId newPriority st) in
  let st' := snd (Queue.updatePriority queueId newPriority st) in
  (newPriority < 1 \/ 10 < newPriority ->
     Queue.updatePriority queueId newPriority st = (false, st)) /\
  (1 <= newPriority <= 10 ->
     (updated = true <->
        exists e, In e (request_queue st) /\
                  QueueEntry.queue_id e = queueId /\
                  QueueEntry.status e = pending) /\
     (forall e, In e (request_queue st) ->
                QueueEntry.queue_id e = queueId ->
                QueueEntry.status e = pending ->
                In (Queue.reprioritised_row newPriority e) (request_queue st')) /\
     (forall e, In e (request_queue st) ->
                QueueEntry.queue_id e <> queueId \/
                QueueEntry.status e <> pending ->
                In e (request_queue st'))) /\
  (updated = false -> request_queue st' = request_queue st) /\
  (forall agentWallet,
     Queue.getQueueSize agentWallet st' = Queue.getQueueSize agentWallet st) /\
  queue_frame st st'.
Proof.
  cbn zeta. unfold Queue.updatePriority.
  destruct (update_pending_spec queueId (Queue.reprioritised_row newPriority) st)
    as (Hiff & Hnone & Hhit & Hmiss & _ & _ & Hframe).
  destruct ((newPriority <? 1) || (10 <? newPriority)) eqn:Hrange.
  - apply orb_true_iff in Hrange. rewrite !Z.ltb_lt in Hrange.
    split; [reflexivity|]. split; [lia|]. split; [reflexivity|].
    split; [reflexivity|]. apply queue_frame_refl.
  - apply orb_false_iff in Hrange. rewrite !Z.ltb_ge in Hrange.
    split; [lia|]. split.
    { intros _. split; [exact Hiff|]. split; [exact Hhit | exact Hmiss]. }
    split; [exact Hnone|]. split; [|exact Hframe].
    intros agentWallet. apply update_pending_keeps_sizes.
    intros x. now cbn.
Qed.

(** X12. A re-prioritised entry is served by priority. Over a queue whose
    rows carry distinct identifiers, once [updatePriority] has given a pending
    entry with retries left the priority [newPriority], a dequeue that finds
    that entry within the maximum queue age hands out an entry, and never
    one of a lower priority than [newPriority]. The age the dequeue finds is
    [now] minus the stored queued_at, read back in the zone [tz] of the
    process. *)
Theorem reprioritised_entry_is_not_overtaken tz now newPriority st e
        (Hids : NoDup (map QueueEntry.queue_id (request_queue st)))
        (Hin : In e (request_queue st))
        (Hpending : QueueEntry.status e = pending)
        (Hretries : QueueEntry.retry_count e < QueueEntry.max_retries e)
        (Hrange : 1 <= newPriority <= 10)
        (Hfresh : now - tz (QueueEntry.queued_at e) <= Queue.maxQueueAge) :
  let st' := snd (Queue.updatePriority (QueueEntry.queue_id e) newPriority st) in
  exists item st'',
    Queue.dequeue tz now None st' = (Some item, st'') /\
    newPriority <= QueueEntry.priority item.
Proof.
  cbn zeta.
  rewrite (updatePriority_range_ok (QueueEntry.queue_id e) newPriority st Hrange).
  set (st' := snd (Queue.update_pending (QueueEntry.queue_id e)
                     (Queue.reprioritised_row newPriority) st)).
  assert (Hids' : NoDup (map QueueEntry.queue_id (request_queue st')))
    by (unfold st'; rewrite update_pending_ids; [exact Hids | reflexivity]).
  assert (Hin' : In (Queue.reprioritised_row newPriority e) (request_queue st')).
  { destruct (update_pending_spec (QueueEntry.queue_id e)
                (Queue.reprioritised_row newPriority) st)
      as (_ & _ & Hhit & _).
    now apply Hhit. }
  assert (Hel : Queue.eligible None (Queue.reprioritised_row newPriority e) = true).
  { unfold Queue.eligible. cbn. rewrite Hpending. cbn.
    apply andb_true_iff. split; [|reflexivity]. now apply Z.ltb_lt. }
  destruct (dequeue_not_overtaken tz now None st' _ Hids' Hin' Hel Hfresh)
    as (item & st'' & Hrun & Hbest).
  exists item, st''. split; [exact Hrun|].
  apply precedes_false in Hbest. cbn in Hbest. lia.
Qed.

Lemma reprioritised_entry_is_not_overtaken_witness :
  let a := QueueEntry.mk "qa" "A" "anthropic" (Some "m") 0 5 0 3 pending
                         None None in
  let b := QueueEntry.mk "qb" "A" "anthropic" (Some "m") 10000 9 0 3 pending
                         None None in
  let st := set_queue [a; b] empty_store in
  NoDup (map QueueEntry.queue_id (request_queue st)) /\
  In a (request_queue st) /\
  QueueEntry.status a = pending /\
  QueueEntry.retry_count a < QueueEntry.max_retries a /\
  1 <= 10 <= 10 /\
  20000 - Js.utc (QueueEntry.queued_at a) <= Queue.maxQueueAge /\
  exists item st'',
    Queue.dequeue Js.utc 20000 None (snd (Queue.updatePriority "qa" 10 st))
      = (Some item, st'') /\
    10 <= QueueEntry.priority item.
Proof.
  intros a b st.
  assert (Hids : NoDup (map QueueEntry.queue_id (request_queue st))).
  { cbn. constructor; [|constructor; [intros []|constructor]].
    intros [H|[]]. discriminate. }
  assert (Hin : In a (request_queue st)) by (now left).
  assert (Hretries : QueueEntry.retry_count a < QueueEntry.max_retries a)
    by (cbn; lia).
  assert (Hrange : 1 <= 10 <= 10) by lia.
  assert (Hfresh : 20000 - Js.utc (QueueEntry.queued_at a) <= Queue.maxQueueAge)
    by (cbn; unfold Queue.maxQueueAge; lia).
  split; [exact Hids|]. split; [exact Hin|]. split; [reflexivity|].
  split; [exact Hretries|]. split; [exact Hrange|]. split; [exact Hfresh|].
  exact (reprioritised_entry_is_not_overtaken Js.utc 20000 10 st a Hids Hin eq_refl
           Hretries Hrange Hfresh).
Defined.

(** ** RequestQueue: retry *)

Lemma find_unique_queue_id l e :
  NoDup (map QueueEntry.queue_id l) -> In e l ->
  find (Queue.has_queue_id (QueueEntry.queue_id e)) l = Some e.
Proof.
  intros Hids Hin.
  destruct (find (Queue.has_queue_id (QueueEntry.queue_id e)) l) as [x|] eqn:Hf.
  - apply find_some in Hf. destruct Hf as [Hx Hid].
    apply has_queue_id_spec in Hid.
    f_equal. eapply unique_queue_id_row; eauto.
  - exfalso. apply (find_none _ _ Hf) in Hin.
    unfold Queue.has_queue_id in Hin. now rewrite String.eqb_refl in Hin.
Qed.

(** X13. Retrying. [retry] answers false and changes nothing when no row
    has the identifier, and when the row has used up its retries
    (retry_count >= max_retries). Otherwise, over a queue whose rows carry
    distinct identifiers, it answers true and puts the row back to pending
    with its error cleared, whatever its status was (failed, but also
    cancelled, processing or completed), without counting an attempt: the
    retry_count is as it was, so the row is eligible for the next dequeue.
    Rows with other identifiers and the other tables are not touched. *)
Theorem retry_requeues_an_entry_of_any_status queueId st :
  let retried := fst (Queue.retry queueId st) in
  let st' := snd (Queue.retry queueId st) in
  ((forall e, In e (request_queue st) -> QueueEntry.queue_id e <> queueId) ->
   Queue.retry queueId st = (false, st)) /\
  (NoDup (map QueueEntry.queue_id (request_queue st)) ->
   forall e,
     In e (request_queue st) -> QueueEntry.queue_id e = queueId ->
     (QueueEntry.max_retries e <= QueueEntry.retry_count e ->
      Queue.retry queueId st = (false, st)) /\
     (QueueEntry.retry_count e < QueueEntry.max_retries e ->
      retried = true /\
      In (Queue.retried_row e) (request_queue st') /\
      QueueEntry.status (Queue.retried_row e) = pending /\
      QueueEntry.error (Queue.retried_row e) = None /\
      QueueEntry.retry_count (Queue.retried_row e) = QueueEntry.retry_count e /\
      Queue.eligible None (Queue.retried_row e) = true)) /\
  (forall e, In e (request_queue st) -> QueueEntry.queue_id e <> queueId ->
             In e (request_queue st')) /\
  queue_frame st st'.
Proof.
  cbn zeta. split; [|split; [|split]].
  - intros Hnone. unfold Queue.retry.
    destruct (find (Queue.has_queue_id queueId) (request_queue st)) as [x|] eqn:Hf;
      [exfalso|reflexivity].
    apply find_some in Hf. destruct Hf as [Hx Hid].
    apply has_queue_id_spec in Hid. now apply (Hnone x).
  - intros Hids e Hin <-. unfold Queue.retry.
    rewrite (find_unique_queue_id _ e Hids Hin).
    split; intros Hr.
    + destruct (Z.leb_spec (QueueEntry.max_retries e) (QueueEntry.retry_count e));
        [reflexivity | lia].
    + destruct (Z.leb_spec (QueueEntry.max_retries e) (QueueEntry.retry_count e));
        [lia|]. cbn [fst snd].
      split; [reflexivity|]. split.
      { unfold Queue.update_where_queue_id. cbn.
        apply in_map_iff. exists e. split; [|exact Hin].
        unfold Queue.has_queue_id. now rewrite String.eqb_refl. }
      split; [reflexivity|]. split; [reflexivity|]. split; [reflexivity|].
      unfold Queue.eligible. cbn.
      apply andb_true_iff. split; [|reflexivity]. now apply Z.ltb_lt.
  - intros e Hin Hne. unfold Queue.retry.
    destruct (find (Queue.has_queue_id queueId) (request_queue st)) as [x|];
      [|exact Hin].
    destruct (QueueEntry.max_retries x <=? QueueEntry.retry_count x);
      [exact Hin|].
    cbn [snd]. now apply update_where_queue_id_other.
  - unfold Queue.retry.
    destruct (find (Queue.has_queue_id queueId) (request_queue st)) as [x|];
      [|apply queue_frame_refl].
    destruct (QueueEntry.max_retries x <=? QueueEntry.retry_count x);
      [apply queue_frame_refl|].
    apply update_where_queue_id_frame.
Qed.

(** ** RequestQueue: position in the queue *)

Lemma filter_and_length_lt {A} (p q : A -> bool) (l : list A) x :
  In x l -> p x = true -> q x = false ->
  (List.length (filter (fun y => p y && q y) l) < List.length (filter p l))%nat.
Proof.
  induction l as [|a l IH]; cbn; intros Hin Hp Hq; [destruct Hin|].
  assert (Hle : (List.length (filter (fun y => p y && q y) l) <=
                 List.length (filter p l))%nat).
  { clear. induction l as [|b l IH]; cbn; [lia|].
    destruct (p b); cbn; [|exact IH].
    destruct (q b); cbn; lia. }
  destruct Hin as [->|Hin].
  - rewrite Hp, Hq. cbn. lia.
  - specialize (IH Hin Hp Hq).
    destruct (p a); cbn; [|exact IH].
    destruct (q a); cbn; lia.
Qed.

Lemma filter_nil_iff {A} (p : A -> bool) (l : list A) :
  filter p l = [] <-> forall x, In x l -> p x = false.
Proof.
  induction l as [|a l IH]; cbn.
  - split; [intros _ x [] | reflexivity].
  - destruct (p a) eqn:Hp.
    + split; [discriminate|]. intros H. specialize (H a (or_introl eq_refl)).
      congruence.
    + rewrite IH. split.
      * intros H x [<-|Hx]; auto.
      * intros H x Hx. apply H. now right.
Qed.

(** A pending row has a position, that of the first pending row with its
    identifier, within the bounds of its tenant's pending count. *)
Lemma getQueuePosition_position queueId st e :
  In e (request_queue st) ->
  QueueEntry.queue_id e = queueId -> QueueEntry.status e = pending ->
  exists position item,
    Queue.getQueuePosition queueId st = Some position /\
    In item (request_queue st) /\
    QueueEntry.queue_id item = queueId /\
    1 <= position <= Queue.getQueueSize (QueueEntry.agent_wallet item) st.
Proof.
  intros Hin Hid Hs. unfold Queue.getQueuePosition.
  destruct (find (Queue.is_pending_id queueId) (request_queue st)) as [item|]
    eqn:Hf.
  - apply find_some in Hf. destruct Hf as [Hitem Hp].
    apply is_pending_id_spec in Hp. destruct Hp as [Hidi Hsi].
    eexists. exists item. split; [reflexivity|].
    split; [exact Hitem|]. split; [exact Hidi|].
    unfold Queue.getQueueSize.
    assert (Hlt :
      (List.length
         (filter (fun x => Queue.is_pending_of (QueueEntry.agent_wallet item) x
                           && Queue.precedes x item) (request_queue st)) <
       List.length
         (filter (Queue.is_pending_of (QueueEntry.agent_wallet item))
                 (request_queue st)))%nat).
    { apply filter_and_length_lt with (x := item).
      - exact Hitem.
      - apply is_pending_of_spec. now split.
      - apply precedes_irrefl. }
    lia.
  - exfalso. apply (find_none _ _ Hf) in Hin.
    assert (Queue.is_pending_id queueId e = true)
      by (apply is_pending_id_spec; now split).
    congruence.
Qed.

(** X14. Queue position. [getQueuePosition] answers null exactly when no
    pending row has the identifier. Otherwise the position is that of the
    first such row among its tenant's pending entries: it is one plus the
    number of the tenant's pending entries that sort strictly before it
    (higher priority, or the same priority and queued earlier). Hence it lies
    between 1 and the number of the tenant's pending entries, and it is 1
    exactly when none of them sorts before it. *)
Theorem getQueuePosition_is_a_rank_among_pending queueId st :
  (Queue.getQueuePosition queueId st = None <->
     forall e, In e (request_queue st) ->
               QueueEntry.queue_id e = queueId ->
               QueueEntry.status e <> pending) /\
  (forall position,
     Queue.getQueuePosition queueId st = Some position ->
     exists item ahead size,
       In item (request_queue st) /\
       QueueEntry.queue_id item = queueId /\
       QueueEntry.status item = pending /\
       counted (fun e => pending_entry_of (QueueEntry.agent_wallet item) e /\
                         sorts_before e item)
               (request_queue st) ahead /\
       counted (pending_entry_of (QueueEntry.agent_wallet item))
               (request_queue st) size /\
       position = Z.of_nat ahead + 1 /\
       1 <= position <= Z.of_nat size /\
       (position = 1 <->
          forall e, In e (request_queue st) ->
                    pending_entry_of (QueueEntry.agent_wallet item) e ->
                    ~ sorts_before e item)).
Proof.
  unfold Queue.getQueuePosition.
  destruct (find (Queue.is_pending_id queueId) (request_queue st)) as [item|]
    eqn:Hf.
  - apply find_some in Hf. destruct Hf as [Hin Hp].
    apply is_pending_id_spec in Hp. destruct Hp as [Hid Hs].
    split.
    + split; [discriminate|]. intros H. exfalso. now apply (H item).
    + intros position Hpos. inversion Hpos as [Hpos']. clear Hpos.
      set (f := fun e => Queue.is_pending_of (QueueEntry.agent_wallet item) e
                         && Queue.precedes e item).
      set (ahead := filter f (request_queue st)).
      exists item, (List.length ahead),
        (List.length (filter (Queue.is_pending_of (QueueEntry.agent_wallet item))
                             (request_queue st))).
      split; [exact Hin|]. split; [exact Hid|]. split; [exact Hs|].
      assert (Hf : forall e,
        f e = true <->
        pending_entry_of (QueueEntry.agent_wallet item) e /\ sorts_before e item).
      { intros e. unfold f. rewrite andb_true_iff, is_pending_of_entry.
        unfold sorts_before. now rewrite precedes_spec. }
      split; [apply counted_filter; exact Hf|].
      split; [apply counted_filter; apply is_pending_of_entry|].
      split; [reflexivity|].
      split.
      * assert (Hlt : (List.length ahead <
                       List.length
                         (filter (Queue.is_pending_of (QueueEntry.agent_wallet item))
                                 (request_queue st)))%nat).
        { apply filter_and_length_lt with (x := item).
          - exact Hin.
          - apply is_pending_of_spec. now split.
          - apply precedes_irrefl. }
        lia.
      * assert (Hnil : List.length ahead = 0%nat <-> ahead = [])
          by (destruct ahead; cbn; split; intros; try reflexivity; discriminate).
        split.
        -- intros H1 e He Hpe Hsb.
           assert (Ha : ahead = []) by (apply Hnil; lia).
           pose proof (proj1 (filter_nil_iff _ _) Ha e He) as Hfalse.
           assert (f e = true) by (apply Hf; now split).
           congruence.
        -- intros Hbest.
           assert (Ha : ahead = []).
           { apply filter_nil_iff. intros e He.
             destruct (f e) eqn:Hfe; [|reflexivity].
             apply Hf in Hfe. destruct Hfe as [Hpe Hsb].
             exfalso. now apply (Hbest e). }
           rewrite Ha. reflexivity.
  - split; [|discriminate].
    split; [|reflexivity]. intros _ e Hin Hid Hs.
    apply (find_none _ _ Hf) in Hin.
    assert (Queue.is_pending_id queueId e = true)
      by (apply is_pending_id_spec; now split).
    congruence.
Qed.

(** ** RequestQueue: from enqueue to dequeue *)

Lemma NoDup_snoc_string (l : list string) (s : string) :
  NoDup l -> ~ In s l -> NoDup (l ++ [s]).
Proof.
  induction l as [|a l IH]; cbn; intros Hnd Hn.
  - constructor; [intros []|constructor].
  - inversion Hnd as [|? ? Ha Hnd']; subst. constructor.
    + rewrite in_app_iff. cbn. intros [H|[H|[]]]; [contradiction|].
      apply Hn. now left.
    + apply IH; [exact Hnd'|]. intros H. apply Hn. now right.
Qed.

Lemma existsb_has_queue_id_false queueId l :
  existsb (Queue.has_queue_id queueId) l = false ->
  ~ In queueId (map QueueEntry.queue_id l).
Proof.
  intros Hex Hin. apply in_map_iff in Hin. destruct Hin as (e & Hid & Hin).
  assert (existsb (Queue.has_queue_id queueId) l = true).
  { apply existsb_exists. exists e. split; [exact Hin|].
    now apply has_queue_id_spec. }
  congruence.
Qed.

(** What a completed [enqueue] did. *)
Lemma enqueue_ok now queueId agentWallet provider model priority st qid st1 :
  Queue.enqueue now queueId agentWallet provider model priority st
    = (Queue.Ok qid, st1) ->
  let e := QueueEntry.mk queueId agentWallet provider model
             (CURRENT_TIMESTAMP now)
             (match priority with Some p => p | None => Queue.defaultPriority end)
             0 Queue.defaultMaxRetries pending None None in
  qid = queueId /\
  request_queue st1 = (request_queue st ++ [e])%list /\
  ~ In queueId (map QueueEntry.queue_id (request_queue st)).
Proof.
  unfold Queue.enqueue.
  pose proof (checkQuotaAvailable_frame now agentWallet st) as (_ & Hq & _ & _).
  destruct (Storage.checkQuotaAvailable now agentWallet st) as [quota s1].
  cbn [snd] in Hq.
  destruct (negb (Storage.can_queue quota)); [discriminate|].
  destruct (Storage.max_queue_size quota <=? Queue.getQueueSize agentWallet s1);
    [discriminate|].
  destruct (existsb (Queue.has_queue_id queueId) (request_queue s1)) eqn:Hex;
    [discriminate|].
  intros Hrun. inversion Hrun; subst qid st1. cbn.
  rewrite Hq in *. split; [reflexivity|]. split; [reflexivity|].
  now apply existsb_has_queue_id_false.
Qed.

(** X15. From enqueue to dequeue. Over a queue whose rows carry distinct
    identifiers, after a completed [enqueue] at [now] the identifiers are
    still distinct, the new entry has a queue position within the number of
    the tenant's pending entries, and a dequeue at
    [now'] that finds the new entry within the maximum queue age hands out an
    entry whose priority is at least the one the request was enqueued with
    (5 when none was given): the new entry is not passed over in favour of a
    lower priority, nor dropped. The age the dequeue finds is [now'] minus
    the whole second stored at the enqueue, read back in the zone [tz] of the
    process. *)
Theorem enqueued_entry_is_served_by_priority tz
        now now' queueId agentWallet provider model priority st qid st1
        (Hids : NoDup (map QueueEntry.queue_id (request_queue st)))
        (Henqueued :
           Queue.enqueue now queueId agentWallet provider model priority st
           = (Queue.Ok qid, st1))
        (Hage : now' - tz (CURRENT_TIMESTAMP now) <= Queue.maxQueueAge) :
  NoDup (map QueueEntry.queue_id (request_queue st1)) /\
  (exists position size,
     Queue.getQueuePosition qid st1 = Some position /\
     counted (pending_entry_of agentWallet) (request_queue st1) size /\
     1 <= position <= Z.of_nat size) /\
  exists item st2,
    Queue.dequeue tz now' None st1 = (Some item, st2) /\
    match priority with Some p => p | None => 5 end <= QueueEntry.priority item.
Proof.
  destruct (enqueue_ok _ _ _ _ _ _ _ _ _ Henqueued) as (-> & Hq & Hnew).
  set (e := QueueEntry.mk queueId agentWallet provider model
              (CURRENT_TIMESTAMP now)
              (match priority with Some p => p | None => Queue.defaultPriority end)
              0 Queue.defaultMaxRetries pending None None) in *.
  assert (Hids1 : NoDup (map QueueEntry.queue_id (request_queue st1))).
  { rewrite Hq, map_app. cbn. now apply NoDup_snoc_string. }
  assert (Hin : In e (request_queue st1)).
  { rewrite Hq. apply in_app_iff. right. now left. }
  split; [exact Hids1|]. split.
  - destruct (getQueuePosition_position queueId st1 e Hin eq_refl eq_refl)
      as (position & item & Hpos & Hitem & Hid & Hbound).
    exists position,
      (List.length (filter (Queue.is_pending_of agentWallet) (request_queue st1))).
    split; [exact Hpos|].
    split; [apply counted_filter; apply is_pending_of_entry|].
    assert (item = e) by (eapply unique_queue_id_row; eauto).
    subst item. exact Hbound.
  - assert (Hel : Queue.eligible None e = true) by reflexivity.
    destruct (dequeue_not_overtaken tz now' None st1 e Hids1 Hin Hel Hage)
      as (item & st2 & Hrun & Hbest).
    exists item, st2. split; [exact Hrun|].
    apply precedes_false in Hbest. unfold e in Hbest. cbn in Hbest.
    unfold Queue.defaultPriority in Hbest. lia.
Qed.

Lemma enqueued_entry_is_served_by_priority_witness :
  let quotaA := Quota.mk "A" "pro" (-1) true 100 true true true
                         (Some 1000000000) in
  let a := QueueEntry.mk "qa" "A" "anthropic" (Some "m") 0 5 0 3 pending
                         None None in
  let st := set_queue [a] (set_quotas [quotaA] empty_store) in
  let st1 := snd (Queue.enqueue 1500 "q1" "A" "anthropic" (Some "m") (Some 7) st) in
  NoDup (map QueueEntry.queue_id (request_queue st)) /\
  Queue.enqueue 1500 "q1" "A" "anthropic" (Some "m") (Some 7) st
    = (Queue.Ok "q1", st1) /\
  1801000 - Js.utc (CURRENT_TIMESTAMP 1500) <= Queue.maxQueueAge /\
  exists item st2,
    Queue.dequeue Js.utc 1801000 None st1 = (Some item, st2) /\
    7 <= QueueEntry.priority item.
Proof.
  intros quotaA a st st1.
  assert (Hids : NoDup (map QueueEntry.queue_id (request_queue st))).
  { cbn. constructor; [intros []|constructor]. }
  assert (Henq : Queue.enqueue 1500 "q1" "A" "anthropic" (Some "m") (Some 7) st
                 = (Queue.Ok "q1", st1)) by reflexivity.
  assert (Hage : 1801000 - Js.utc (CURRENT_TIMESTAMP 1500) <= Queue.maxQueueAge)
    by (vm_compute; discriminate).
  split; [exact Hids|]. split; [exact Henq|]. split; [exact Hage|].
  exact (proj2 (proj2 (enqueued_entry_is_served_by_priority Js.utc 1500 1801000 "q1" "A"
                         "anthropic" (Some "m") (Some 7) st "q1" st1 Hids Henq
                         Hage))).
Defined.

(** ** RequestQueue: the maintenance task *)

Lemma settled_dropped_refl l : settled_dropped l l.
Proof. induction l; constructor; assumption. Qed.

Lemma settled_dropped_filter (keep : QueueEntry.row -> bool) l :
  (forall e, keep e = false -> QueueEntry.status e <> pending) ->
  settled_dropped l (filter keep l).
Proof.
  intros Hkeep. induction l as [|e l IH]; cbn; [constructor|].
  destruct (keep e) eqn:He.
  - now constructor.
  - apply settled_drop; auto.
Qed.

Lemma settled_dropped_In l l' e : settled_dropped l l' -> In e l' -> In e l.
Proof.
  induction 1 as [|x l l' Hp IH|x l l' Hx Hp IH]; intros Hin.
  - exact Hin.
  - destruct Hin as [->|Hin]; [now left | right; auto].
  - right. auto.
Qed.

Lemma settled_dropped_pending (p : QueueEntry.row -> bool) l l' :
  (forall e, p e = true -> QueueEntry.status e = pending) ->
  settled_dropped l l' -> filter p l' = filter p l.
Proof.
  intros Hp. induction 1 as [|x l l' Hpr IH|x l l' Hx Hpr IH]; cbn.
  - reflexivity.
  - now rewrite IH.
  - destruct (p x) eqn:Hpx; [|exact IH].
    apply Hp in Hpx. contradiction.
Qed.

Lemma settled_dropped_find (p : QueueEntry.row -> bool) l l' :
  (forall e, p e = true -> QueueEntry.status e = pending) ->
  settled_dropped l l' -> find p l' = find p l.
Proof.
  intros Hp. induction 1 as [|x l l' Hpr IH|x l l' Hx Hpr IH]; cbn.
  - reflexivity.
  - now rewrite IH.
  - destruct (p x) eqn:Hpx; [|exact IH].
    apply Hp in Hpx. contradiction.
Qed.

Lemma settled_dropped_map (g : QueueEntry.row -> QueueEntry.row) l l' :
  (forall e, QueueEntry.status e <> pending ->
             QueueEntry.status (g e) <> pending) ->
  settled_dropped l l' -> settled_dropped (map g l) (map g l').
Proof.
  intros Hg. induction 1 as [|x l l' Hpr IH|x l l' Hx Hpr IH]; cbn.
  - constructor.
  - now constructor.
  - apply settled_drop; auto.
Qed.

Lemma settled_dropped_update queueId f st st' :
  (forall e, QueueEntry.status (f e) <> pending) ->
  settled_dropped (request_queue st) (request_queue st') ->
  settled_dropped
    (request_queue (Queue.update_where_queue_id queueId f st))
    (request_queue (Queue.update_where_queue_id queueId f st')).
Proof.
  intros Hf H. unfold Queue.update_where_queue_id. cbn.
  apply settled_dropped_map; [|exact H].
  intros e He. destruct (Queue.has_queue_id queueId e); [apply Hf | exact He].
Qed.

Lemma settled_dropped_dequeue tz now agentWallet st :
  forall st',
    settled_dropped (request_queue st) (request_queue st') ->
    fst (Queue.dequeue tz now agentWallet st') =
    fst (Queue.dequeue tz now agentWallet st) /\
    settled_dropped (request_queue (snd (Queue.dequeue tz now agentWallet st)))
                    (request_queue (snd (Queue.dequeue tz now agentWallet st'))).
Proof.
  funelim (Queue.dequeue tz now agentWallet st); intros st' Hd;
    rewrite (dequeue_unfold tz now agentWallet st');
    unfold Queue.candidate in *;
    rewrite (settled_dropped_pending _ _ _ (eligible_pending agentWallet) Hd).
  - rewrite e. now split.
  - rewrite e, e0. apply H. unfold Queue.complete.
    apply settled_dropped_update; [|exact Hd]. intros x. cbn. discriminate.
  - rewrite e, e0. cbn [fst snd]. split; [reflexivity|].
    apply settled_dropped_update; [|exact Hd]. intros x. cbn. discriminate.
Qed.

Lemma clearOldRequests_dropped now maxAgeDays st :
  settled_dropped (request_queue st)
                  (request_queue (snd (Queue.clearOldRequests now maxAgeDays st))).
Proof.
  unfold Queue.clearOldRequests.
  destruct (maxAgeDays <? 0); cbn; [apply settled_dropped_refl|].
  apply settled_dropped_filter. intros e He.
  unfold Queue.survives_clearing in He.
  destruct (QueueEntry.status e); cbn in He; discriminate.
Qed.

(** X16. The queue's maintenance task. [clearOldRequests] only removes rows:
    every row it leaves was there, unchanged; it never removes a pending or a
    processing row, nor a row queued within the last [maxAgeDays] days (to the
    second); it returns the number of rows removed and touches no other
    table. Nothing the queue serves depends on the rows removed: every
    tenant's pending count, every queue position and the entry any later
    dequeue hands out are what they would have been without it. *)
Theorem clearOldRequests_removes_only_old_settled_rows tz now maxAgeDays st :
  let deleted := fst (Queue.clearOldRequests now maxAgeDays st) in
  let st' := snd (Queue.clearOldRequests now maxAgeDays st) in
  (forall e, In e (request_queue st') -> In e (request_queue st)) /\
  (forall e, In e (request_queue st) ->
             QueueEntry.status e = pending \/
             QueueEntry.status e = processing \/
             now / 1000 - maxAgeDays * 86400 <= QueueEntry.queued_at e / 1000 ->
             In e (request_queue st')) /\
  (List.length (request_queue st) =
   deleted + List.length (request_queue st'))%nat /\
  (forall agentWallet,
     Queue.getQueueSize agentWallet st' = Queue.getQueueSize agentWallet st) /\
  (forall queueId,
     Queue.getQueuePosition queueId st' = Queue.getQueuePosition queueId st) /\
  (forall now' agentWallet,
     fst (Queue.dequeue tz now' agentWallet st') =
     fst (Queue.dequeue tz now' agentWallet st)) /\
  queue_frame st st'.
Proof.
  cbn zeta.
  pose proof (clearOldRequests_dropped now maxAgeDays st) as Hd.
  split; [|split; [|split; [|split; [|split; [|split]]]]].
  - intros e. now apply settled_dropped_In.
  - intros e Hin Hkeep. unfold Queue.clearOldRequests.
    destruct (maxAgeDays <? 0); cbn; [exact Hin|].
    apply filter_In. split; [exact Hin|].
    unfold Queue.survives_clearing.
    destruct Hkeep as [->|[->|Hyoung]]; [reflexivity | reflexivity |].
    apply Z.ltb_ge in Hyoung. rewrite Hyoung. now rewrite andb_false_r.
  - unfold Queue.clearOldRequests.
    destruct (maxAgeDays <? 0); cbn; [reflexivity|].
    pose proof (filter_length_le (Queue.survives_clearing now maxAgeDays)
                  (request_queue st)). lia.
  - intros agentWallet. unfold Queue.getQueueSize.
    rewrite (settled_dropped_pending _ _ _
               (fun e H => proj2 (proj1 (is_pending_of_spec agentWallet e) H)) Hd).
    reflexivity.
  - intros queueId. unfold Queue.getQueuePosition.
    rewrite (settled_dropped_find _ _ _
               (fun e H => proj2 (proj1 (is_pending_id_spec queueId e) H)) Hd).
    destruct (find (Queue.is_pending_id queueId) (request_queue st)) as [item|];
      [|reflexivity].
    assert (Hp : forall e,
              Queue.is_pending_of (QueueEntry.agent_wallet item) e
              && Queue.precedes e item = true ->
              QueueEntry.status e = pending).
    { intros e He. apply andb_true_iff in He. destruct He as [He _].
      now apply is_pending_of_spec in He. }
    rewrite (settled_dropped_pending _ _ _ Hp Hd). reflexivity.
  - intros now' agentWallet.
    now apply settled_dropped_dequeue.
  - unfold Queue.clearOldRequests.
    destruct (maxAgeDays <? 0); [apply queue_frame_refl | repeat split].
Qed.

(** ** LimitStorage: stored limit configurations *)

(** The limits [getLimits] answers with, as a function of the configuration
    table and of the tenant's effective tier. *)
Lemma getLimits_lookup now agentWallet provider model st :
  fst (Tracker.getLimits now agentWallet provider model st) =
  let tier := Storage.tier (fst (Storage.checkQuotaAvailable now agentWallet st)) in
  match match Js.str_or_null model with
        | Some m => Tracker.model_config provider m (Tier_name tier)
                                         (rate_limit_configs st)
        | None => None
        end with
  | Some c => Config.limits c
  | None =>
      match Tracker.provider_config provider (Tier_name tier)
                                    (rate_limit_configs st) with
      | Some c => Config.limits c
      | None => Tracker.getDefaultLimits provider tier
      end
  end.
Proof.
  unfold Tracker.getLimits.
  pose proof (checkQuotaAvailable_frame now agentWallet st) as (Hc & _).
  destruct (Storage.checkQuotaAvailable now agentWallet st) as [q s1].
  cbn [fst snd] in *. rewrite Hc.
  destruct (match Js.str_or_null model with
            | Some m => Tracker.model_config provider m
                          (Tier_name (Storage.tier q)) (rate_limit_configs st)
            | None => None
            end) as [c|]; [reflexivity|].
  destruct (Tracker.provider_config provider (Tier_name (Storage.tier q))
              (rate_limit_configs st)); reflexivity.
Qed.

Lemma upsertLimitConfig_quota configData now agentWallet st :
  fst (Storage.checkQuotaAvailable now agentWallet
         (Storage.upsertLimitConfig configData st)) =
  fst (Storage.checkQuotaAvailable now agentWallet st).
Proof.
  apply checkQuotaAvailable_quotas. unfold Storage.upsertLimitConfig.
  destruct (existsb _ _); reflexivity.
Qed.

Lemma upsertLimitConfig_windows configData st :
  rate_limit_windows (Storage.upsertLimitConfig configData st) =
  rate_limit_windows st /\
  next_window_id (Storage.upsertLimitConfig configData st) = next_window_id st.
Proof.
  unfold Storage.upsertLimitConfig. destruct (existsb _ _); now split.
Qed.

Lemma find_map_update {A} (p : A -> bool) (g : A -> A) (l : list A) :
  (forall x, p (g x) = p x) ->
  find p (map (fun x => if p x then g x else x) l) =
  match find p l with Some x => Some (g x) | None => None end.
Proof.
  intros Hg. induction l as [|a l IH]; cbn; [reflexivity|].
  destruct (p a) eqn:Hp.
  - now rewrite Hg, Hp.
  - now rewrite Hp.
Qed.

Lemma find_map_other {A} (p q : A -> bool) (g : A -> A) (l : list A) :
  (forall x, q x = true -> p (g x) = false /\ p x = false) ->
  find p (map (fun x => if q x then g x else x) l) = find p l.
Proof.
  intros Hg. induction l as [|a l IH]; cbn; [reflexivity|].
  destruct (q a) eqn:Hq.
  - destruct (Hg a Hq) as [-> ->]. exact IH.
  - destruct (p a); [reflexivity | exact IH].
Qed.

Lemma find_existsb_false {A} (p : A -> bool) (l : list A) :
  existsb p l = false -> find p l = None.
Proof.
  induction l as [|a l IH]; cbn; [reflexivity|].
  destruct (p a); cbn; [discriminate | exact IH].
Qed.

Lemma find_existsb_true {A} (p : A -> bool) (l : list A) :
  existsb p l = true -> exists x, find p l = Some x /\ p x = true.
Proof.
  induction l as [|a l IH]; cbn; [discriminate|].
  destruct (p a) eqn:Hp; cbn; [eauto | exact IH].
Qed.

(** The lookup of a model's configuration right after an upsert for that
    model. *)
Lemma upsertLimitConfig_model_config provider m limits tier st :
  m <> ""%string ->
  exists c,
    Tracker.model_config provider m (Js.str_or tier "free")
      (rate_limit_configs
         (Storage.upsertLimitConfig
            (Storage.mkConfigData provider (Some m) limits tier) st)) = Some c /\
    Config.limits c = Storage.limits_or_null limits.
Proof.
  intros Hm. unfold Storage.upsertLimitConfig. cbn [Storage.config_provider
    Storage.config_model Storage.config_limits Storage.config_tier].
  assert (Hnull : Js.str_or_null (Some m) = Some m).
  { cbn. destruct (String.eqb_spec m ""); [contradiction | reflexivity]. }
  rewrite Hnull.
  set (T := Js.str_or tier "free").
  unfold Tracker.model_config.
  change (fun c : Config.row =>
            (Config.provider c =? provider)%string &&
            match Config.model c with
            | Some m0 => (m0 =? m)%string
            | None => false
            end && (Config.tier c =? T)%string)
    with (Storage.conflicts provider (Some m) T).
  destruct (existsb (Storage.conflicts provider (Some m) T) (rate_limit_configs st))
    eqn:Hex; cbn [rate_limit_configs Storage.set_configs].
  - rewrite find_map_update by reflexivity.
    destruct (find_existsb_true _ _ Hex) as (x & -> & _).
    eexists. split; reflexivity.
  - rewrite find_snoc, (find_existsb_false _ _ Hex).
    unfold Storage.conflicts at 1. cbn. rewrite !String.eqb_refl. cbn.
    eexists. split; reflexivity.
Qed.

Lemma conflicts_without_model provider tier c :
  Storage.conflicts provider None tier c = false.
Proof.
  unfold Storage.conflicts.
  destruct (Config.model c); now rewrite andb_false_r.
Qed.

Lemma existsb_false_all {A} (p : A -> bool) (l : list A) :
  (forall x, p x = false) -> existsb p l = false.
Proof.
  intros H. induction l as [|a l IH]; cbn; [reflexivity|].
  now rewrite H, IH.
Qed.

(** A row with a model is never the provider-wide configuration. *)
Lemma upsertLimitConfig_provider_config provider m limits tier st provider' tier' :
  m <> ""%string ->
  Tracker.provider_config provider' tier'
    (rate_limit_configs
       (Storage.upsertLimitConfig
          (Storage.mkConfigData provider (Some m) limits tier) st)) =
  Tracker.provider_config provider' tier' (rate_limit_configs st).
Proof.
  intros Hm. unfold Storage.upsertLimitConfig. cbn [Storage.config_provider
    Storage.config_model Storage.config_limits Storage.config_tier].
  unfold Tracker.provider_config.
  assert (Hnull : Js.str_or_null (Some m) = Some m).
  { cbn. destruct (String.eqb_spec m ""); [contradiction | reflexivity]. }
  rewrite Hnull.
  destruct (existsb _ (rate_limit_configs st));
    cbn [rate_limit_configs Storage.set_configs].
  - apply find_map_other. intros x Hx. unfold Storage.conflicts in Hx.
    cbn [Config.provider Config.model Config.tier].
    destruct (Config.model x); [|now rewrite andb_false_r in Hx].
    split; now rewrite andb_false_r.
  - rewrite find_snoc. cbn. rewrite andb_false_r.
    now destruct (find _ (rate_limit_configs st)).
Qed.

Lemma upsertLimitConfig_other_model_config
      provider m limits tier st provider' m' tier' :
  m <> ""%string ->
  provider' <> provider \/ m' <> m \/ tier' <> Js.str_or tier "free" ->
  Tracker.model_config provider' m' tier'
    (rate_limit_configs
       (Storage.upsertLimitConfig
          (Storage.mkConfigData provider (Some m) limits tier) st)) =
  Tracker.model_config provider' m' tier' (rate_limit_configs st).
Proof.
  intros Hm Hother. unfold Storage.upsertLimitConfig.
  cbn [Storage.config_provider Storage.config_model Storage.config_limits
       Storage.config_tier].
  assert (Hnull : Js.str_or_null (Some m) = Some m).
  { cbn. destruct (String.eqb_spec m ""); [contradiction | reflexivity]. }
  rewrite Hnull.
  set (T := Js.str_or tier "free") in *.
  unfold Tracker.model_config.
  assert (Hmiss : forall x,
            Storage.conflicts provider (Some m) T x = true ->
            (Config.provider x =? provider')%string &&
            match Config.model x with
            | Some m0 => (m0 =? m')%string
            | None => false
            end && (Config.tier x =? tier')%string = false).
  { intros x Hx. unfold Storage.conflicts in Hx.
    apply andb_true_iff in Hx. destruct Hx as [Hx Ht].
    apply andb_true_iff in Hx. destruct Hx as [Hp Hmx].
    apply String.eqb_eq in Hp, Ht.
    destruct (Config.model x) as [m0|]; [|discriminate].
    apply String.eqb_eq in Hmx. subst m0. rewrite Hp, Ht.
    destruct (String.eqb_spec provider provider') as [Ep|Ep]; [|reflexivity].
    destruct (String.eqb_spec m m') as [Em|Em]; [|reflexivity].
    destruct (String.eqb_spec T tier') as [Et|Et]; [|reflexivity].
    exfalso. destruct Hother as [H|[H|H]]; congruence. }
  destruct (existsb _ (rate_limit_configs st));
    cbn [rate_limit_configs Storage.set_configs].
  - apply find_map_other. intros x Hx.
    split; [|now apply Hmiss].
    cbn [Config.provider Config.model Config.tier]. now apply Hmiss.
  - rewrite find_snoc.
    assert (Hnew : Storage.conflicts provider (Some m) T
                     (Config.mk provider (Some m) T
                                (Storage.limits_or_null limits)) = true).
    { unfold Storage.conflicts. cbn. now rewrite !String.eqb_refl. }
    rewrite (Hmiss _ Hnew).
    now destruct (find _ (rate_limit_configs st)).
Qed.

(** X17. A model's limit configuration. After [upsertLimitConfig] for a
    provider, a model and a tier (free when none is given), [getLimits]
    answers every tenant of that tier asking for that provider and model with
    the ceilings just given (a ceiling of 0 counting as none), whether a row
    for the key existed or not: the configuration is per tier, not per tenant.
    Every other lookup (another provider, model or tier) answers as before,
    and no window, quota, queue entry, event or pattern changes. *)
Theorem model_limit_config_applies_to_the_whole_tier
        provider m limits tier st (Hm : m <> ""%string) :
  let st' := Storage.upsertLimitConfig
               (Storage.mkConfigData provider (Some m) limits tier) st in
  (forall now agentWallet,
     Tier_name (Storage.tier (fst (Storage.checkQuotaAvailable now agentWallet st)))
       = Js.str_or tier "free" ->
     fst (Tracker.getLimits now agentWallet provider (Some m) st') =
     Storage.limits_or_null limits) /\
  (forall now agentWallet provider' model',
     provider' <> provider \/ Js.str_or_null model' <> Some m \/
     Tier_name (Storage.tier (fst (Storage.checkQuotaAvailable now agentWallet st)))
       <> Js.str_or tier "free" ->
     fst (Tracker.getLimits now agentWallet provider' model' st') =
     fst (Tracker.getLimits now agentWallet provider' model' st)) /\
  rate_limit_windows st' = rate_limit_windows st /\
  agent_limit_quotas st' = agent_limit_quotas st /\
  request_queue st' = request_queue st /\
  rate_limit_events st' = rate_limit_events st /\
  usage_patterns st' = usage_patterns st.
Proof.
  cbn zeta. split; [|split].
  - intros now agentWallet Htier.
    rewrite getLimits_lookup. cbn zeta.
    rewrite upsertLimitConfig_quota, Htier.
    assert (Hnull : Js.str_or_null (Some m) = Some m).
    { cbn. destruct (String.eqb_spec m ""); [contradiction | reflexivity]. }
    rewrite Hnull.
    destruct (upsertLimitConfig_model_config provider m limits tier st Hm)
      as (c & -> & Hc). exact Hc.
  - intros now agentWallet provider' model' Hother.
    rewrite !getLimits_lookup. cbn zeta.
    rewrite upsertLimitConfig_quota.
    rewrite upsertLimitConfig_provider_config by exact Hm.
    destruct (Js.str_or_null model') as [m'|] eqn:Hm'; [|reflexivity].
    rewrite upsertLimitConfig_other_model_config; [reflexivity | exact Hm |].
    destruct Hother as [H|[H|H]]; [now left | right; left | right; now right].
    congruence.
  - unfold Storage.upsertLimitConfig. destruct (existsb _ _); now repeat split.
Qed.

Lemma model_limit_config_applies_to_the_whole_tier_witness :
  let limits := mkLimits (Some 10) None (Some 0) (Some 5000) None in
  let st' := Storage.upsertLimitConfig
               (Storage.mkConfigData "anthropic" (Some "claude") limits None)
               empty_store in
  "claude"%string <> ""%string /\
  fst (Tracker.getLimits 0 "T1" "anthropic" (Some "claude") st') =
  mkLimits (Some 10) None None (Some 5000) None.
Proof.
  cbn zeta.
  assert (Hm : "claude"%string <> ""%string) by discriminate.
  split; [exact Hm|].
  exact (proj1 (model_limit_config_applies_to_the_whole_tier "anthropic"
                  "claude" (mkLimits (Some 10) None (Some 0) (Some 5000) None)
                  None empty_store Hm) 0 "T1" eq_refl).
Defined.

Lemma find_snoc_keep {A} (f : A -> bool) l x :
  (find f l = None -> f x = false) -> find f (l ++ [x]) = find f l.
Proof.
  intros H. rewrite find_snoc.
  destruct (find f l); [reflexivity|]. now rewrite H.
Qed.

(** X18. A provider-wide configuration is only ever added. When
    [upsertLimitConfig] is given no model, the ON CONFLICT clause never
    applies (NULL models do not collide on the UNIQUE index): the call appends
    a row, whatever the table holds. If a provider-wide row for the provider
    and tier was already stored, [getLimits] keeps answering every lookup as
    before, the new ceilings being shadowed by the older row; if none was, the
    new ceilings answer the lookups of that tier for that provider that no
    model-specific row answers. *)
Theorem provider_wide_limit_config_is_appended_never_replaced
        provider model limits tier st
        (Hwide : Js.str_or_null model = None) :
  let tierName := Js.str_or tier "free" in
  let st' := Storage.upsertLimitConfig
               (Storage.mkConfigData provider model limits tier) st in
  rate_limit_configs st' =
    (rate_limit_configs st ++
       [Config.mk provider None tierName (Storage.limits_or_null limits)])%list /\
  (Tracker.provider_config provider tierName (rate_limit_configs st) <> None ->
   forall now agentWallet provider' model',
     fst (Tracker.getLimits now agentWallet provider' model' st') =
     fst (Tracker.getLimits now agentWallet provider' model' st)) /\
  (Tracker.provider_config provider tierName (rate_limit_configs st) = None ->
   forall now agentWallet model',
     Tier_name (Storage.tier (fst (Storage.checkQuotaAvailable now agentWallet st)))
       = tierName ->
     match Js.str_or_null model' with
     | Some m' =>
         Tracker.model_config provider m' tierName (rate_limit_configs st) = None
     | None => True
     end ->
     fst (Tracker.getLimits now agentWallet provider model' st') =
     Storage.limits_or_null limits).
Proof.
  cbn zeta.
  set (T := Js.str_or tier "free").
  set (new := Config.mk provider None T (Storage.limits_or_null limits)).
  assert (Hcs : rate_limit_configs
                  (Storage.upsertLimitConfig
                     (Storage.mkConfigData provider model limits tier) st) =
                (rate_limit_configs st ++ [new])%list).
  { unfold Storage.upsertLimitConfig.
    cbn [Storage.config_provider Storage.config_model Storage.config_limits
         Storage.config_tier].
    rewrite Hwide.
    now rewrite (existsb_false_all _ _ (conflicts_without_model provider T)). }
  assert (Hmodel : forall p' m' t',
            Tracker.model_config p' m' t' (rate_limit_configs st ++ [new]) =
            Tracker.model_config p' m' t' (rate_limit_configs st)).
  { intros. unfold Tracker.model_config. rewrite find_snoc.
    unfold new at 1. cbn. rewrite andb_false_r.
    now destruct (find _ (rate_limit_configs st)). }
  split; [exact Hcs|]. split.
  - intros Hold now agentWallet provider' model'.
    rewrite !getLimits_lookup. cbn zeta.
    rewrite upsertLimitConfig_quota, Hcs.
    set (t' := Tier_name _).
    assert (Hprov : Tracker.provider_config provider' t'
                      (rate_limit_configs st ++ [new]) =
                    Tracker.provider_config provider' t' (rate_limit_configs st)).
    { unfold Tracker.provider_config in *. apply find_snoc_keep.
      intros Hf. unfold new. cbn.
      destruct (String.eqb_spec provider provider') as [<-|Ep]; [|reflexivity].
      destruct (String.eqb_spec T t') as [Et|Et]; [|reflexivity].
      exfalso. apply Hold. rewrite Et. exact Hf. }
    rewrite Hprov.
    destruct (Js.str_or_null model'); [|reflexivity].
    now rewrite Hmodel.
  - intros Hnone now agentWallet model' Htier Hnomodel.
    rewrite getLimits_lookup. cbn zeta.
    rewrite upsertLimitConfig_quota, Hcs, Htier.
    assert (Hprov : Tracker.provider_config provider T
                      (rate_limit_configs st ++ [new]) = Some new).
    { unfold Tracker.provider_config in *. rewrite find_snoc, Hnone.
      unfold new at 1. cbn. now rewrite !String.eqb_refl. }
    rewrite Hprov.
    destruct (Js.str_or_null model') as [m'|]; [|reflexivity].
    now rewrite Hmodel, Hnomodel.
Qed.

Lemma provider_wide_limit_config_is_appended_never_replaced_witness :
  let first := Storage.mkConfigData "anthropic" None
                 (mkLimits (Some 4000) None None (Some 400000) None)
                 (Some "pro"%string) in
  let second := Storage.mkConfigData "anthropic" None
                  (mkLimits (Some 9000) None None None None)
                  (Some "pro"%string) in
  let st := Storage.upsertLimitConfig first empty_store in
  let st' := Storage.upsertLimitConfig second st in
  Js.str_or_null None = None /\
  Tracker.provider_config "anthropic" "pro" (rate_limit_configs st) <> None /\
  List.length (rate_limit_configs st') = 2%nat /\
  forall now agentWallet provider' model',
    fst (Tracker.getLimits now agentWallet provider' model' st') =
    fst (Tracker.getLimits now agentWallet provider' model' st).
Proof.
  cbn zeta.
  assert (Hold :
    Tracker.provider_config "anthropic" "pro"
      (rate_limit_configs
         (Storage.upsertLimitConfig
            (Storage.mkConfigData "anthropic" None
               (mkLimits (Some 4000) None None (Some 400000) None)
               (Some "pro"%string)) empty_store)) <> None)
    by (cbn; discriminate).
  split; [reflexivity|]. split; [exact Hold|]. split; [reflexivity|].
  exact (proj1 (proj2
           (provider_wide_limit_config_is_appended_never_replaced "anthropic"
              None (mkLimits (Some 9000) None None None None)
              (Some "pro"%string) _ eq_refl)) Hold).
Defined.

(** ** WindowTracker: where a window's ceilings come from *)

Lemma getLimits_tracker_frame now agentWallet provider model st st' :
  tracker_frame st st' ->
  fst (Tracker.getLimits now agentWallet provider model st') =
  fst (Tracker.getLimits now agentWallet provider model st).
Proof.
  intros (Hc & _ & _ & _ & Hq).
  rewrite !getLimits_lookup. cbn zeta. now rewrite Hc, Hq.
Qed.

Lemma createWindow_limits now agentWallet provider model t st :
  let w := fst (Tracker.createWindow now agentWallet provider model t st) in
  let limits := fst (Tracker.getLimits now agentWallet provider model st) in
  Window.limit_requests w = Tracker.getLimitForWindowType limits t Tracker.requests /\
  Window.limit_tokens w = Tracker.getLimitForWindowType limits t Tracker.tokens.
Proof.
  cbn zeta. unfold Tracker.createWindow.
  destruct (Tracker.getLimits now agentWallet provider model st) as [l s1].
  now split.
Qed.

(** The window an operation settles on when the key has no live window is the
    one [createWindow] makes, after the ended window was deactivated. *)
Lemma settle_fresh now agentWallet provider model t st :
  windows_wf st ->
  Tracker.select_current agentWallet provider model t st = None \/
  (exists w0, Tracker.select_current agentWallet provider model t st = Some w0 /\
              Window.window_end w0 < now) ->
  exists st0,
    (st0 = st \/
     exists w0, Tracker.select_current agentWallet provider model t st = Some w0 /\
                st0 = Tracker.update_where_id (Window.id w0) Tracker.deactivate st) /\
    tracker_frame st st0 /\
    settle now agentWallet provider model t st =
    Tracker.createWindow now agentWallet provider model t st0.
Proof.
  intros Hwf [Hnone|(w0 & Hsel & Hended)].
  - exists st. split; [now left|]. split; [apply tracker_frame_refl|].
    unfold settle, Tracker.getCurrentWindow. rewrite Hnone.
    pose proof (createWindow_rows now agentWallet provider model t st) as Hrows.
    destruct (Tracker.createWindow now agentWallet provider model t st)
      as [nw st1]. cbn [fst snd] in Hrows.
    destruct Hrows as (_ & _ & _ & _ & _ & _ & Hend & _).
    pose proof (windowDurations_pos t).
    destruct (Z.ltb_spec (Window.window_end nw) now); [lia | reflexivity].
  - exists (Tracker.update_where_id (Window.id w0) Tracker.deactivate st).
    split; [right; now exists w0|].
    split; [apply update_where_id_frame|].
    unfold settle, Tracker.getCurrentWindow. rewrite Hsel.
    apply Z.ltb_lt in Hended. rewrite Hended.
    destruct (select_current_Some _ _ _ _ _ _ Hsel) as (Hin0 & Hk0 & Ha0).
    unfold Tracker.rotateWindow.
    destruct Hk0 as (K1 & K2 & K3 & K4). rewrite K1, K2, K3, K4.
    set (st1 := Tracker.update_where_id (Window.id w0) Tracker.deactivate st).
    assert (Hwf1 : windows_wf st1)
      by (apply update_where_id_wf; [apply keeps_identity_deactivate | exact Hwf]).
    pose proof (deactivate_clears_key _ _ _ _ _ _ Hwf Hsel) as Hsel1.
    fold st1 in Hsel1.
    pose proof (createWindow_rows now agentWallet provider model t st1) as Hrows.
    pose proof (createWindow_wf now agentWallet provider model t st1 Hwf1 Hsel1)
      as Hwf2.
    destruct (Tracker.createWindow now agentWallet provider model t st1)
      as [nw st2].
    cbn [fst snd] in *.
    destruct Hrows as (Hrows & _ & _ & Hk & Ha & _).
    assert (Hsel2 : Tracker.select_current agentWallet provider model t st2
                    = Some nw).
    { apply select_current_unique; try assumption.
      rewrite Hrows. apply in_app_iff. right. now left. }
    now rewrite Hsel2.
Qed.

(** X19. When a change of limits takes effect. A window carries the
    ceilings it was created with. After [upsertLimitConfig], over a
    well-formed window table, the admission check of a key whose current
    window has not ended still reports on that window, against the ceilings
    it already had, and changes nothing; once the key's window has ended, or
    when the key has none, the check reports on a fresh window whose ceilings
    are the ones [getLimits] answers with after the change. *)
Theorem limit_change_applies_from_the_next_window
        configData now agentWallet provider model t st
        (Hwf : windows_wf st) :
  let st' := Storage.upsertLimitConfig configData st in
  let checked := Tracker.wouldExceedLimit now agentWallet provider model t st' in
  let limits := fst (Tracker.getLimits now agentWallet provider model st') in
  (forall w,
     Tracker.select_current agentWallet provider model t st = Some w ->
     now <= Window.window_end w ->
     checked = (Tracker.checkWindowLimitDetailed w, st')) /\
  (Tracker.select_current agentWallet provider model t st = None \/
   (exists w, Tracker.select_current agentWallet provider model t st = Some w /\
              Window.window_end w < now) ->
   exists w',
     Tracker.select_current agentWallet provider model t (snd checked) = Some w' /\
     fst checked = Tracker.checkWindowLimitDetailed w' /\
     Window.limit_requests w' =
       Tracker.getLimitForWindowType limits t Tracker.requests /\
     Window.limit_tokens w' =
       Tracker.getLimitForWindowType limits t Tracker.tokens).
Proof.
  cbn zeta.
  destruct (upsertLimitConfig_windows configData st) as [Hw Hn].
  set (st' := Storage.upsertLimitConfig configData st) in *.
  assert (Hwf' : windows_wf st') by (eapply windows_wf_same; eauto).
  assert (Hsel' : Tracker.select_current agentWallet provider model t st' =
                  Tracker.select_current agentWallet provider model t st)
    by (now apply select_current_same).
  rewrite wouldExceedLimit_settle. cbn [fst snd]. split.
  - intros w Hsel Hlive. rewrite <- Hsel' in Hsel.
    now rewrite (settle_live now _ _ _ _ _ _ Hsel Hlive).
  - intros Hfresh. rewrite <- Hsel' in Hfresh.
    destruct (settle_selected now agentWallet provider model t st' Hwf')
      as [Hsel _].
    destruct (settle_fresh now agentWallet provider model t st' Hwf' Hfresh)
      as (st0 & _ & Hframe & Heq).
    exists (fst (settle now agentWallet provider model t st')).
    split; [exact Hsel|]. split; [reflexivity|].
    rewrite Heq.
    rewrite <- (getLimits_tracker_frame now agentWallet provider model st' st0
                  Hframe).
    apply createWindow_limits.
Qed.

Lemma limit_change_applies_from_the_next_window_witness :
  let w0 :=
    Window.mk 1 "T1" "anthropic" (Some "m") per_minute 0 60000 50 7
              (Some 50) (Some 40000) true 0 in
  let st := set_windows [w0] 2 empty_store in
  let configData :=
    Storage.mkConfigData "anthropic" (Some "m")
                         (mkLimits (Some 10) None None None None) None in
  let st' := Storage.upsertLimitConfig configData st in
  windows_wf st /\
  Tracker.wouldExceedLimit 1000 "T1" "anthropic" (Some "m") per_minute st' =
  (Tracker.checkWindowLimitDetailed w0, st').
Proof.
  cbn zeta.
  split; [exact (windows_wf_singleton
                   (Window.mk 1 "T1" "anthropic" (Some "m") per_minute 0 60000
                              50 7 (Some 50) (Some 40000) true 0))|].
  refine (proj1 (limit_change_applies_from_the_next_window
                   (Storage.mkConfigData "anthropic" (Some "m")
                      (mkLimits (Some 10) None None None None) None)
                   1000 "T1" "anthropic" (Some "m") per_minute _
                   (windows_wf_singleton
                      (Window.mk 1 "T1" "anthropic" (Some "m") per_minute 0
                                 60000 50 7 (Some 50) (Some 40000) true 0)))
                _ eq_refl _).
  cbn. lia.
Defined.

(** ** LimitStorage and X402PaymentHandler: tiers and licences *)

Lemma find_quota_updated agentWallet g qs :
  (forall q, Quota.agent_wallet (g q) = Quota.agent_wallet q) ->
  Storage.find_quota agentWallet
    (map (fun q => if (Quota.agent_wallet q =? agentWallet)%string
                   then g q else q) qs) =
  match Storage.find_quota agentWallet qs with
  | Some q => Some (g q)
  | None => None
  end.
Proof.
  intros Hg. unfold Storage.find_quota.
  apply (find_map_update
           (fun q => (Quota.agent_wallet q =? agentWallet)%string) g qs).
  intros q. now rewrite Hg.
Qed.

Lemma find_quota_other agentWallet other g qs :
  other <> agentWallet ->
  (forall q, Quota.agent_wallet (g q) = Quota.agent_wallet q) ->
  Storage.find_quota other
    (map (fun q => if (Quota.agent_wallet q =? agentWallet)%string
                   then g q else q) qs) =
  Storage.find_quota other qs.
Proof.
  intros Hne Hg. unfold Storage.find_quota.
  apply find_map_other. intros q Hq. apply String.eqb_eq in Hq.
  rewrite Hg, Hq.
  destruct (String.eqb_spec agentWallet other); [congruence | now split].
Qed.

(** X20. The licence the status reports and the tier the limiter honours.
    For every store and tenant, the limiter treats the tenant as pro exactly
    when [hasValidLicense] reports a valid licence of tier 'pro'; the licence
    then expires strictly after [now] and [days_remaining] is the number of
    days left rounded up (at least 1). A tenant without a quota row, with
    tier 'free' or without a paid_until has no licence; a tenant whose
    paid_until is not in the future has an expired one; in both cases the
    limiter treats the tenant as free and grants no queueing. *)
Theorem valid_pro_licence_is_what_the_limiter_honours now agentWallet st :
  let quota := fst (Storage.checkQuotaAvailable now agentWallet st) in
  let licence := X402.hasValidLicense now agentWallet st in
  (Storage.tier quota = pro <->
     exists expires days, licence = X402.Valid "pro" expires days) /\
  (forall tier expires days,
     licence = X402.Valid tier expires days ->
     now < expires /\ 1 <= days /\
     (days - 1) * 86400000 < expires - now <= days * 86400000) /\
  (licence = X402.NoLicense \/ licence = X402.Expired ->
     Storage.tier quota = free /\ Storage.can_queue quota = false /\
     Storage.max_queue_size quota = 0).
Proof.
  cbn zeta. unfold X402.hasValidLicense, Storage.checkQuotaAvailable,
    Storage.getQuota.
  destruct (Storage.find_quota agentWallet (agent_limit_quotas st)) as [q|];
    cbn [fst].
  - unfold Storage.isPro.
    destruct (String.eqb_spec (Quota.tier q) "free") as [Hfree|Hfree].
    + rewrite Hfree. cbn [String.eqb Ascii.eqb Bool.eqb andb].
      split; [|split].
      * split; [discriminate|]. intros (e & d & H).
        destruct (Quota.paid_until q); discriminate.
      * intros tier e d H. destruct (Quota.paid_until q); discriminate.
      * intros _. now repeat split.
    + destruct (Quota.paid_until q) as [expiry|].
      * destruct (Z.ltb_spec now expiry) as [Hlt|Hge].
        -- split; [|split].
           ++ destruct (String.eqb_spec (Quota.tier q) "pro") as [Hpro|Hpro];
                cbn [andb].
              ** split; [intros _|reflexivity]. rewrite Hpro. eauto.
              ** split; [discriminate|]. intros (e & d & H).
                 inversion H; subst. contradiction.
           ++ intros tier e d H. inversion H; subst. clear H.
              unfold X402.days_up.
              pose proof (Z.div_mod (- (e - now)) 86400000 ltac:(lia)) as Hdm.
              pose proof (Z.mod_pos_bound (- (e - now)) 86400000 ltac:(lia)).
              change (1000 * 60 * 60 * 24) with 86400000. lia.
           ++ intros [H|H]; discriminate.
        -- rewrite andb_false_r. split; [|split].
           ++ split; [discriminate|]. intros (e & d & H). discriminate.
           ++ intros tier e d H. discriminate.
           ++ intros _. now repeat split.
      * rewrite andb_false_r. split; [|split].
        -- split; [discriminate|]. intros (e & d & H). discriminate.
        -- intros tier e d H. discriminate.
        -- intros _. now repeat split.
  - cbn. split; [|split].
    + split; [discriminate|]. intros (e & d & H). discriminate.
    + intros tier e d H. discriminate.
    + intros _. now repeat split.
Qed.

(** X21. Changing a tenant's tier. [updateAgentTier] only updates: for a
    tenant without a quota row it changes nothing, and the tenant stays free.
    For a tenant with a row, tier 'pro' with a paid_until makes the limiter
    grant the pro features (queueing with 100 slots, learning, custom limits,
    priority queuing) at every instant before paid_until and none of them
    from paid_until on; any other tier grants none at any time. The effective
    quota of every other tenant is as it was, and no other table changes. *)
Theorem updateAgentTier_grants_pro_until_paid_until
        agentWallet tier paidUntil st :
  let st' := Storage.updateAgentTier agentWallet tier paidUntil st in
  let no_features now :=
    let quota := fst (Storage.checkQuotaAvailable now agentWallet st') in
    Storage.tier quota = free /\ Storage.can_queue quota = false /\
    Storage.max_queue_size quota = 0 /\ Storage.auto_learning quota = false /\
    Storage.custom_limits quota = false /\
    Storage.priority_queuing quota = false in
  (Storage.find_quota agentWallet (agent_limit_quotas st) = None ->
   st' = st /\ forall now, no_features now) /\
  (Storage.find_quota agentWallet (agent_limit_quotas st) <> None ->
   forall now,
     (tier = "pro"%string ->
      forall expiry, paidUntil = Some expiry ->
        (now < expiry ->
         fst (Storage.checkQuotaAvailable now agentWallet st') =
         Storage.mkQuotaInfo true pro true 100 true true true (-1)
                             (Some expiry)) /\
        (expiry <= now -> no_features now)) /\
     (tier <> "pro"%string \/ paidUntil = None -> no_features now)) /\
  (forall other now,
     other <> agentWallet ->
     fst (Storage.checkQuotaAvailable now other st') =
     fst (Storage.checkQuotaAvailable now other st)) /\
  rate_limit_configs st' = rate_limit_configs st /\
  rate_limit_windows st' = rate_limit_windows st /\
  request_queue st' = request_queue st /\
  rate_limit_events st' = rate_limit_events st /\
  usage_patterns st' = usage_patterns st.
Proof.
  cbn zeta.
  set (g := fun q : Quota.row =>
              Quota.mk (Quota.agent_wallet q) tier
                       (if (tier =? "pro")%string then -1 else 100)
                       (tier =? "pro")%string
                       (if (tier =? "pro")%string then 100 else 0)
                       (tier =? "pro")%string (tier =? "pro")%string
                       (tier =? "pro")%string paidUntil).
  assert (Hdef : Storage.updateAgentTier agentWallet tier paidUntil st =
                 set_quotas
                   (map (fun q => if (Quota.agent_wallet q =? agentWallet)%string
                                  then g q else q) (agent_limit_quotas st)) st)
    by reflexivity.
  rewrite Hdef. clear Hdef.
  assert (Hfind : Storage.find_quota agentWallet
                    (map (fun q => if (Quota.agent_wallet q =? agentWallet)%string
                                   then g q else q) (agent_limit_quotas st)) =
                  match Storage.find_quota agentWallet (agent_limit_quotas st) with
                  | Some q => Some (g q)
                  | None => None
                  end)
    by (now apply (find_quota_updated agentWallet g)).
  split; [|split; [|split]].
  - intros Hnone. split.
    + assert (Hmap : map (fun q => if (Quota.agent_wallet q =? agentWallet)%string
                                   then g q else q) (agent_limit_quotas st) =
                     agent_limit_quotas st).
      { rewrite <- (map_id (agent_limit_quotas st)) at 2. apply map_ext_in.
        intros q Hq. destruct (Quota.agent_wallet q =? agentWallet)%string eqn:E;
          [exfalso | reflexivity].
        unfold Storage.find_quota in Hnone.
        apply (find_none _ _ Hnone) in Hq. cbn in Hq. congruence. }
      rewrite Hmap. now destruct st.
    + intros now. unfold Storage.checkQuotaAvailable, Storage.getQuota.
      cbn [agent_limit_quotas set_quotas].
      rewrite Hfind, Hnone. cbn. now repeat split.
  - intros Hsome now.
    destruct (Storage.find_quota agentWallet (agent_limit_quotas st)) as [q|]
      eqn:Hq; [clear Hsome | contradiction].
    unfold Storage.checkQuotaAvailable, Storage.getQuota.
    cbn [agent_limit_quotas set_quotas]. rewrite Hfind.
    cbn [fst]. unfold Storage.isPro. unfold g. cbn [Quota.tier Quota.paid_until
      Quota.can_queue Quota.max_queue_size Quota.auto_learning
      Quota.custom_limits Quota.priority_queuing Quota.requests_per_minute].
    split.
    + intros -> expiry ->. cbn [String.eqb Ascii.eqb Bool.eqb andb].
      split; intros Hcmp.
      * apply Z.ltb_lt in Hcmp. rewrite Hcmp. reflexivity.
      * apply Z.ltb_ge in Hcmp. rewrite Hcmp. cbn. now repeat split.
    + intros [Hne| ->].
      * destruct (String.eqb_spec tier "pro"); [contradiction|].
        cbn. now repeat split.
      * rewrite andb_false_r. cbn. now repeat split.
  - intros other now Hne. unfold Storage.checkQuotaAvailable, Storage.getQuota.
    cbn [agent_limit_quotas set_quotas].
    rewrite (find_quota_other agentWallet other g) by (auto; reflexivity).
    now destruct (Storage.find_quota other (agent_limit_quotas st)).
  - now repeat split.
Qed.

(** ** RateLimitManager: what the post-call does to the queue and the log *)

Lemma dequeue_ids tz now agentWallet st :
  map QueueEntry.queue_id (request_queue (snd (Queue.dequeue tz now agentWallet st))) =
  map QueueEntry.queue_id (request_queue st).
Proof.
  funelim (Queue.dequeue tz now agentWallet st).
  - reflexivity.
  - rewrite H. apply complete_ids.
  - cbn [snd]. apply update_where_queue_id_ids. reflexivity.
Qed.

(** A row found processing after a dequeue was processing before, unless it
    is the row just handed out. *)
Lemma dequeue_processing tz now agentWallet st :
  forall r,
    In r (request_queue (snd (Queue.dequeue tz now agentWallet st))) ->
    QueueEntry.status r = processing ->
    In r (request_queue st) \/
    exists item, fst (Queue.dequeue tz now agentWallet st) = Some item /\
                 QueueEntry.queue_id r = QueueEntry.queue_id item.
Proof.
  funelim (Queue.dequeue tz now agentWallet st); intros r Hin Hs.
  - now left.
  - destruct (H r Hin Hs) as [Hr|Hr]; [|now right].
    left. unfold Queue.complete in Hr.
    apply update_where_queue_id_In in Hr.
    destruct Hr as (x & Hx & [[_ ->]|[_ ->]]); [|exact Hx].
    cbn in Hs. discriminate.
  - cbn [fst snd] in *.
    apply update_where_queue_id_In in Hin.
    destruct Hin as (x & Hx & [[Hid ->]|[_ ->]]).
    + right. exists item. split; [reflexivity|]. cbn. exact Hid.
    + now left.
Qed.

Lemma incrementAll_queue now agentWallet provider model ts st :
  request_queue (Manager.incrementAll now agentWallet provider model ts st) =
  request_queue st /\
  rate_limit_events (Manager.incrementAll now agentWallet provider model ts st) =
  rate_limit_events st.
Proof.
  destruct (incrementAll_frame now agentWallet provider model ts st)
    as (_ & Hq & He & _). now split.
Qed.

Lemma wouldExceedLimit_queue now agentWallet provider model t st :
  request_queue
    (snd (Tracker.wouldExceedLimit now agentWallet provider model t st)) =
  request_queue st /\
  rate_limit_events
    (snd (Tracker.wouldExceedLimit now agentWallet provider model t st)) =
  rate_limit_events st.
Proof.
  destruct (wouldExceedLimit_frame now agentWallet provider model t st)
    as (_ & Hq & He & _). now split.
Qed.

Lemma drain_queue tz n now :
  forall st,
    map QueueEntry.queue_id (request_queue (Manager.drain tz n now st)) =
    map QueueEntry.queue_id (request_queue st) /\
    rate_limit_events (Manager.drain tz n now st) = rate_limit_events st /\
    (forall r, In r (request_queue (Manager.drain tz n now st)) ->
               QueueEntry.status r = processing ->
               In r (request_queue st)).
Proof.
  induction n as [|k IH]; intros st; cbn [Manager.drain].
  - now repeat split.
  - pose proof (dequeue_ids tz now None st) as Hids.
    pose proof (dequeue_frame tz now None st) as (_ & _ & _ & _ & Hev & _).
    pose proof (dequeue_processing tz now None st) as Hproc.
    destruct (Queue.dequeue tz now None st) as [[item|] s1]; cbn [fst snd] in *.
    2:{ split; [exact Hids|]. split; [exact Hev|].
        intros r Hin Hs. destruct (Hproc r Hin Hs) as [H|(x & H & _)];
          [exact H | discriminate]. }
    destruct (wouldExceedLimit_queue now (QueueEntry.agent_wallet item)
                (QueueEntry.provider item) (QueueEntry.model item) per_minute s1)
      as [Hq2 He2].
    destruct (Tracker.wouldExceedLimit now (QueueEntry.agent_wallet item)
                (QueueEntry.provider item) (QueueEntry.model item) per_minute s1)
      as [c s2]. cbn [snd] in *.
    assert (Hback : forall f r,
              (forall x, QueueEntry.status (f x) <> processing) ->
              In r (request_queue
                      (Queue.update_where_queue_id (QueueEntry.queue_id item) f s2)) ->
              QueueEntry.status r = processing ->
              In r (request_queue st)).
    { intros f r Hf Hin Hs.
      apply update_where_queue_id_In in Hin.
      destruct Hin as (x & Hx & [[_ ->]|[Hne ->]]); [now apply Hf in Hs|].
      rewrite Hq2 in Hx.
      destruct (Hproc x Hx Hs) as [H|(y & Hy & Hid)]; [exact H|].
      inversion Hy; subst y. contradiction. }
    destruct (negb (Js.truthy (Tracker.exceeded c))).
    + set (s3 := Queue.complete now (QueueEntry.queue_id item) true None s2).
      destruct (incrementAll_queue now (QueueEntry.agent_wallet item)
                  (QueueEntry.provider item) (QueueEntry.model item)
                  Manager.windows s3) as [Hq4 He4].
      set (s4 := Manager.incrementAll now (QueueEntry.agent_wallet item)
                   (QueueEntry.provider item) (QueueEntry.model item)
                   Manager.windows s3) in *.
      destruct (IH s4) as (Hi & He & Hp).
      split; [|split].
      * rewrite Hi, Hq4. unfold s3. rewrite complete_ids, Hq2. exact Hids.
      * rewrite He, He4. unfold s3. cbn. rewrite He2. exact Hev.
      * intros r Hin Hs. specialize (Hp r Hin Hs). rewrite Hq4 in Hp.
        apply (Hback (Queue.completed_row now true None) r); [|exact Hp|exact Hs].
        intros x. cbn. discriminate.
    + split; [|split].
      * rewrite update_where_queue_id_ids by reflexivity.
        rewrite Hq2. exact Hids.
      * cbn. rewrite He2. exact Hev.
      * intros r Hin Hs.
        apply (Hback Queue.pending_row r); [|exact Hin|exact Hs].
        intros x. cbn. discriminate.
Qed.

(** X22. What the post-call does to the queue and to the event log. The
    post-call, drain included, neither adds nor deletes a queue entry (the
    identifiers in the table are the same, in the same order), and it leaves
    no entry behind in the processing state: a row found processing afterwards
    was there, processing and unchanged, before. It records no event, so a
    request admitted from the queue gets no event of its own. *)
Theorem post_call_settles_every_entry_it_dequeues tz
        now provider model agentId request response st :
  let st' := Manager.afterProvider tz now provider model agentId request response
                                   st in
  map QueueEntry.queue_id (request_queue st') =
  map QueueEntry.queue_id (request_queue st) /\
  (forall r, In r (request_queue st') ->
             QueueEntry.status r = processing ->
             In r (request_queue st)) /\
  rate_limit_events st' = rate_limit_events st.
Proof.
  cbn zeta. unfold Manager.afterProvider.
  set (agentWallet := Js.str_or (Manager.agentWallet request) agentId).
  destruct (negb (Manager.decision_allowed request)); [now repeat split|].
  pose proof (updateTokensAll_frame now agentWallet provider model
                (Manager.tokensUsed response) Manager.windows st)
    as (_ & Hq1 & He1 & _).
  set (s1 := Manager.updateTokensAll now agentWallet provider model
               (Manager.tokensUsed response) Manager.windows st) in *.
  pose proof (checkQuotaAvailable_frame now agentWallet s1) as (_ & Hq2 & He2 & _).
  destruct (Storage.checkQuotaAvailable now agentWallet s1) as [quota s2].
  cbn [snd] in *.
  assert (Hsame : map QueueEntry.queue_id (request_queue s2) =
                  map QueueEntry.queue_id (request_queue st) /\
                  (forall r, In r (request_queue s2) ->
                             QueueEntry.status r = processing ->
                             In r (request_queue st)) /\
                  rate_limit_events s2 = rate_limit_events st).
  { rewrite Hq2, Hq1, He2, He1. now repeat split. }
  destruct (Storage.tier quota), (Storage.can_queue quota); try exact Hsame.
  unfold Manager.processQueue.
  destruct (Queue.getQueueSize agentWallet s2 =? 0); [exact Hsame|].
  destruct (drain_queue tz (Z.to_nat (Z.min 5 (Queue.getQueueSize agentWallet s2)))
              now s2) as (Hi & He & Hp).
  split; [|split].
  - rewrite Hi, Hq2, Hq1. reflexivity.
  - intros r Hin Hs. specialize (Hp r Hin Hs). now rewrite Hq2, Hq1 in Hp.
  - rewrite He, He2, He1. reflexivity.
Qed.

(** ** The request ceilings as an invariant of the hooks *)

Lemma is_current_for_not_key agentWallet provider model t w :
  ~ matches_key agentWallet provider model t w ->
  Tracker.is_current_for agentWallet provider model t w = false.
Proof.
  intros Hne. destruct (Tracker.is_current_for _ _ _ _ w) eqn:H; [|reflexivity].
  apply is_current_for_spec in H. tauto.
Qed.

Lemma createWindow_other_key now agentWallet provider model t st aw' p' m' t' :
  ~ (aw' = agentWallet /\ p' = provider /\ m' = model /\ t' = t) ->
  Tracker.select_current aw' p' m' t'
    (snd (Tracker.createWindow now agentWallet provider model t st)) =
  Tracker.select_current aw' p' m' t' st.
Proof.
  intros Hne.
  pose proof (createWindow_rows now agentWallet provider model t st) as H.
  cbn zeta in H. destruct H as (Hrows & _ & _ & (K1 & K2 & K3 & K4) & _).
  unfold Tracker.select_current. rewrite Hrows, filter_app. cbn.
  rewrite is_current_for_not_key.
  - now rewrite app_nil_r.
  - intros (H1 & H2 & H3 & H4). apply Hne. repeat split; congruence.
Qed.

Lemma update_where_id_other_key f st w aw' p' m' t' :
  keeps_identity f -> windows_wf st ->
  In w (rate_limit_windows st) -> ~ matches_key aw' p' m' t' w ->
  Tracker.select_current aw' p' m' t' (Tracker.update_where_id (Window.id w) f st) =
  Tracker.select_current aw' p' m' t' st.
Proof.
  intros Hf (Hnd & _ & _) Hin Hne.
  unfold Tracker.select_current, Tracker.update_where_id. cbn.
  rewrite filter_map_same; [reflexivity|].
  intros x Hx. destruct (Nat.eqb_spec (Window.id x) (Window.id w)) as [E|E].
  - assert (x = w) by (eapply unique_id_row; eauto). subst x.
    rewrite !is_current_for_not_key; [split; [reflexivity|discriminate] | exact Hne |].
    intros Hk. apply Hne. now apply (keeps_identity_matches f _ _ _ _ w Hf).
  - split; [reflexivity|trivial].
Qed.

Lemma settle_other_key now agentWallet provider model t st aw' p' m' t' :
  windows_wf st ->
  ~ (aw' = agentWallet /\ p' = provider /\ m' = model /\ t' = t) ->
  Tracker.select_current aw' p' m' t'
    (snd (settle now agentWallet provider model t st)) =
  Tracker.select_current aw' p' m' t' st.
Proof.
  intros Hwf Hne.
  destruct (Tracker.select_current agentWallet provider model t st) as [w0|]
    eqn:Hsel.
  - destruct (Z.le_gt_cases now (Window.window_end w0)) as [Hlive|Hended].
    + now rewrite (settle_live now _ _ _ _ _ _ Hsel Hlive).
    + destruct (settle_fresh now agentWallet provider model t st Hwf)
        as (st0 & Hst0 & _ & ->).
      { right. exists w0. split; [exact Hsel | lia]. }
      rewrite createWindow_other_key by exact Hne.
      destruct Hst0 as [->|(w1 & Hsel1 & ->)]; [reflexivity|].
      destruct (select_current_Some _ _ _ _ _ _ Hsel1) as (Hin & Hk & _).
      apply update_where_id_other_key; try assumption.
      * apply keeps_identity_deactivate.
      * intros (H1 & H2 & H3 & H4). destruct Hk as (K1 & K2 & K3 & K4).
        apply Hne. repeat split; congruence.
  - destruct (settle_fresh now agentWallet provider model t st Hwf)
      as (st0 & Hst0 & _ & ->); [now left|].
    rewrite createWindow_other_key by exact Hne.
    destruct Hst0 as [->|(w1 & Hsel1 & _)]; [reflexivity | congruence].
Qed.

Lemma key_eq_dec (aw' aw p' p : string) (m' m : option string) (t' t : WindowType) :
  {aw' = aw /\ p' = p /\ m' = m /\ t' = t} +
  {~ (aw' = aw /\ p' = p /\ m' = m /\ t' = t)}.
Proof.
  destruct (string_dec aw' aw); [|right; tauto].
  destruct (string_dec p' p); [|right; tauto].
  assert (Hm : {m' = m} + {m' <> m}) by (decide equality; apply string_dec).
  destruct Hm; [|right; tauto].
  destruct (WindowType_eq_dec t' t); [left; tauto | right; tauto].
Qed.

Lemma settle_ceiling now agentWallet provider model t st t' :
  windows_wf st ->
  within_ceiling now t' st ->
  within_ceiling now t' (snd (settle now agentWallet provider model t st)).
Proof.
  intros Hwf Hok aw' p' m' w Hsel Hlive l Hl Hpos.
  destruct (key_eq_dec aw' agentWallet p' provider m' model t' t)
    as [(-> & -> & -> & ->)|Hne].
  - destruct (Tracker.select_current agentWallet provider model t st) as [w0|]
      eqn:Hsel0.
    + destruct (Z.le_gt_cases now (Window.window_end w0)) as [Hlive0|Hended].
      * rewrite (settle_live now _ _ _ _ _ _ Hsel0 Hlive0) in Hsel.
        cbn [snd] in Hsel. eapply Hok; eauto.
      * destruct (settle_rotates now agentWallet provider model t st w0 Hwf
                    Hsel0 Hended) as (_ & Hnew & _ & _ & _ & Hzero).
        rewrite Hnew in Hsel. inversion Hsel; subst w.
        unfold counts in Hzero. injection Hzero as Hr _. lia.
    + destruct (settle_selected now agentWallet provider model t st Hwf)
        as [Hnew _].
      destruct (settle_spec now agentWallet provider model t st Hwf)
        as (_ & _ & _ & _ & _ & Hc & _).
      rewrite Hnew in Hsel. inversion Hsel; subst w.
      unfold live_counts in Hc. rewrite Hsel0 in Hc.
      unfold counts in Hc. injection Hc as Hr _. lia.
  - rewrite settle_other_key in Hsel by assumption.
    eapply Hok; eauto.
Qed.

Lemma not_exceeded_has_room w :
  Js.truthy (Tracker.exceeded (Tracker.checkWindowLimitDetailed w)) = false ->
  has_room w.
Proof.
  unfold Tracker.checkWindowLimitDetailed. cbn [Tracker.exceeded].
  unfold Js.or. intros Hok l Hl Hpos.
  destruct (Js.truthy (Tracker.limit_reached (Window.limit_requests w)
                                             (Window.request_count w))) eqn:Hr;
    [rewrite Hr in Hok; discriminate|].
  destruct (Z.le_gt_cases l (Window.request_count w)) as [Hle|Hgt]; [|lia].
  exfalso.
  assert (Tracker.limit_reached (Window.limit_requests w)
                                (Window.request_count w) = Js.Bool true)
    by (apply limit_reached_true; exists l; repeat split; [assumption|lia|assumption]).
  apply limit_reached_truthy in H. congruence.
Qed.

Lemma incrementWindow_ceiling now agentWallet provider model t tokens st t' :
  windows_wf st ->
  within_ceiling now t' st ->
  (t' = t -> has_room (fst (settle now agentWallet provider model t st))) ->
  within_ceiling now t'
    (Tracker.incrementWindow now agentWallet provider model t tokens st).
Proof.
  intros Hwf Hok Hroom aw' p' m' w Hsel Hlive l Hl Hpos.
  rewrite incrementWindow_settle in Hsel.
  destruct (settle_spec now agentWallet provider model t st Hwf)
    as (Hwf1 & Hin & Hk & Ha & _).
  pose proof (settle_ceiling now agentWallet provider model t st t' Hwf Hok)
    as Hok1.
  set (w0 := fst (settle now agentWallet provider model t st)) in *.
  set (s1 := snd (settle now agentWallet provider model t st)) in *.
  destruct (key_eq_dec aw' agentWallet p' provider m' model t' t)
    as [(-> & -> & -> & ->)|Hne].
  - rewrite (update_where_id_selected (Tracker.bump_counts now tokens) s1
               agentWallet provider model t w0) in Hsel;
      try assumption; [|apply keeps_identity_bump].
    inversion Hsel; subst w. cbn in *.
    specialize (Hroom eq_refl l Hl Hpos). lia.
  - rewrite update_where_id_other_key in Hsel; try assumption.
    + eapply Hok1; eauto.
    + apply keeps_identity_bump.
    + intros (H1 & H2 & H3 & H4). destruct Hk as (K1 & K2 & K3 & K4).
      apply Hne. repeat split; congruence.
Qed.

Lemma incrementAll_ceiling now agentWallet provider model ts t' :
  NoDup ts ->
  forall st,
    windows_wf st ->
    within_ceiling now t' st ->
    (In t' ts ->
     exists w, Tracker.select_current agentWallet provider model t' st = Some w /\
               now <= Window.window_end w /\ has_room w) ->
    within_ceiling now t'
      (Manager.incrementAll now agentWallet provider model ts st).
Proof.
  induction 1 as [|t rest Hnotin Hnd IH]; intros st Hwf Hok Hroom; [exact Hok|].
  cbn [Manager.incrementAll].
  destruct (incrementWindow_counts now agentWallet provider model t 0 st Hwf)
    as (Hwf1 & _ & Hother).
  apply IH; [exact Hwf1| |].
  - apply incrementWindow_ceiling; [exact Hwf | exact Hok |].
    intros ->. destruct (Hroom (or_introl eq_refl)) as (w & Hsel & Hlive & Hr).
    now rewrite (settle_live now _ _ _ _ _ _ Hsel Hlive).
  - intros Hin.
    assert (Hne : t' <> t) by (intros ->; contradiction).
    destruct (Hroom (or_intror Hin)) as (w & Hsel & Hlive & Hr).
    exists w. split; [|split; assumption].
    rewrite Hother; assumption.
Qed.

Lemma firstExceeded_ceiling now agentWallet provider model ts t' :
  forall st,
    windows_wf st ->
    within_ceiling now t' st ->
    within_ceiling now t'
      (snd (Manager.firstExceeded now agentWallet provider model ts st)).
Proof.
  induction ts as [|t rest IH]; intros st Hwf Hok; [exact Hok|].
  cbn [Manager.firstExceeded]. rewrite wouldExceedLimit_settle.
  destruct (settle_spec now agentWallet provider model t st Hwf) as (Hwf1 & _).
  pose proof (settle_ceiling now agentWallet provider model t st t' Hwf Hok)
    as Hok1.
  destruct (Js.truthy _); cbn [snd]; [exact Hok1|].
  now apply IH.
Qed.

Lemma within_ceiling_same now t st st' :
  rate_limit_windows st' = rate_limit_windows st ->
  within_ceiling now t st -> within_ceiling now t st'.
Proof.
  intros Hw Hok aw p m w Hsel. rewrite (select_current_same _ _ _ _ _ _ Hw) in Hsel.
  exact (Hok aw p m w Hsel).
Qed.

Lemma within_ceiling_mono now now' t st :
  now <= now' -> within_ceiling now t st -> within_ceiling now' t st.
Proof.
  intros Hle Hok aw p m w Hsel Hlive. apply (Hok aw p m w Hsel). lia.
Qed.

Lemma beforeProvider_ceiling
      now queueId requestId provider model agentId requestData st t :
  windows_wf st ->
  within_ceiling now t st ->
  within_ceiling now t
    (snd (Manager.beforeProvider now queueId requestId provider model agentId
                                 requestData st)).
Proof.
  intros Hwf Hok. unfold Manager.beforeProvider.
  set (agentWallet := Js.str_or (Manager.agentWallet requestData) agentId).
  destruct (checkQuotaAvailable_windows now agentWallet st) as [Hw1 Hn1].
  destruct (Storage.checkQuotaAvailable now agentWallet st) as [quota st1].
  cbn [snd] in *.
  assert (Hwf1 : windows_wf st1) by (eapply windows_wf_same; eauto).
  assert (Hok1 : within_ceiling now t st1) by (eapply within_ceiling_same; eauto).
  destruct (negb (Storage.available quota)); [exact Hok1|].
  pose proof (firstExceeded_ceiling now agentWallet provider model
                Manager.windows t st1 Hwf1 Hok1) as Hok2.
  destruct (firstExceeded_counts now agentWallet provider model Manager.windows
              st1 Hwf1) as [Hwf2 _].
  pose proof (firstExceeded_none now agentWallet provider model Manager.windows
                NoDup_windows st1) as Hnone.
  destruct (Manager.firstExceeded now agentWallet provider model
              Manager.windows st1) as [[[wt c]|] st2]; cbn [snd] in *.
  - destruct (Storage.tier quota), (Storage.can_queue quota); cbn [snd];
      try exact Hok2.
    destruct (Storage.max_queue_size quota <=? _); [exact Hok2|].
    destruct (enqueue_windows now queueId agentWallet provider model
                (Some (Js.or_default (Manager.priority requestData) 5)) st2)
      as [Hw3 _].
    destruct (Queue.enqueue now queueId agentWallet provider model _ st2)
      as [[qid|e] st3]; cbn [snd] in *;
      eapply within_ceiling_same; eauto.
  - cbn [snd].
    set (ev := Storage.mkEventData agentWallet provider model EventType.allowed
                                   None None None None (Some requestId) false).
    apply incrementAll_ceiling.
    + apply NoDup_windows.
    + eapply windows_wf_same; [| |exact Hwf2]; reflexivity.
    + eapply within_ceiling_same; [|exact Hok2]. reflexivity.
    + intros _.
      destruct (Hnone st2 Hwf1 eq_refl t (In_windows t)) as (w & Hsel & Hlive & Hex).
      exists w. split; [exact Hsel|]. split; [exact Hlive|].
      now apply not_exceeded_has_room.
Qed.

Lemma updateTokenCount_ceiling now agentWallet provider model t tokens st t' :
  windows_wf st ->
  within_ceiling now t' st ->
  within_ceiling now t'
    (Tracker.updateTokenCount now agentWallet provider model t tokens st).
Proof.
  intros Hwf Hok aw' p' m' w Hsel Hlive l Hl Hpos.
  unfold Tracker.updateTokenCount, Tracker.getCurrentWindow in Hsel.
  pose proof (keeps_identity_add_tokens now tokens) as Hf.
  destruct (Tracker.select_current agentWallet provider model t st) as [w0|]
    eqn:Hsel0.
  - destruct (select_current_Some _ _ _ _ _ _ Hsel0) as (Hin0 & Hk0 & Ha0).
    destruct (key_eq_dec aw' agentWallet p' provider m' model t' t)
      as [(-> & -> & -> & ->)|Hne].
    + rewrite (update_where_id_selected (Tracker.add_tokens now tokens) st
                 agentWallet provider model t w0) in Hsel by assumption.
      inversion Hsel; subst w. cbn in *.
      exact (Hok _ _ _ _ Hsel0 Hlive l Hl Hpos).
    + rewrite update_where_id_other_key in Hsel; try assumption.
      * exact (Hok _ _ _ _ Hsel Hlive l Hl Hpos).
      * intros (H1 & H2 & H3 & H4). destruct Hk0 as (K1 & K2 & K3 & K4).
        apply Hne. repeat split; congruence.
  - pose proof (createWindow_rows now agentWallet provider model t st) as Hrows.
    pose proof (createWindow_wf now agentWallet provider model t st Hwf Hsel0)
      as Hwf1.
    pose proof (createWindow_other_key now agentWallet provider model t st)
      as Hother.
    destruct (Tracker.createWindow now agentWallet provider model t st)
      as [nw st1].
    cbn [fst snd] in *.
    destruct Hrows as (Hrows & _ & _ & Hk & Ha & _ & _ & Hc).
    assert (Hin : In nw (rate_limit_windows st1))
      by (rewrite Hrows; apply in_app_iff; right; now left).
    destruct (key_eq_dec aw' agentWallet p' provider m' model t' t)
      as [(-> & -> & -> & ->)|Hne].
    + rewrite (update_where_id_selected (Tracker.add_tokens now tokens) st1
                 agentWallet provider model t nw) in Hsel by assumption.
      inversion Hsel; subst w. cbn in *.
      unfold counts in Hc. injection Hc as Hr _. lia.
    + rewrite update_where_id_other_key in Hsel; try assumption.
      * rewrite Hother in Hsel by exact Hne.
        exact (Hok _ _ _ _ Hsel Hlive l Hl Hpos).
      * intros (H1 & H2 & H3 & H4). destruct Hk as (K1 & K2 & K3 & K4).
        apply Hne. repeat split; congruence.
Qed.

Lemma updateTokensAll_ceiling now agentWallet provider model tokens ts t' :
  forall st,
    windows_wf st ->
    within_ceiling now t' st ->
    within_ceiling now t'
      (Manager.updateTokensAll now agentWallet provider model tokens ts st).
Proof.
  induction ts as [|t rest IH]; intros st Hwf Hok; [exact Hok|].
  cbn [Manager.updateTokensAll].
  destruct (updateTokenCount_counts now agentWallet provider model t tokens st Hwf)
    as (Hwf1 & _).
  apply IH; [exact Hwf1|].
  now apply updateTokenCount_ceiling.
Qed.

(** The drain checks the minute horizon only: that is the ceiling it keeps. *)
Lemma drain_ceiling tz n now :
  forall st,
    windows_wf st ->
    within_ceiling now per_minute st ->
    within_ceiling now per_minute (Manager.drain tz n now st).
Proof.
  induction n as [|k IH]; intros st Hwf Hok; cbn [Manager.drain]; [exact Hok|].
  pose proof (dequeue_frame tz now None st) as (_ & Hw1 & Hn1 & _).
  destruct (Queue.dequeue tz now None st) as [[item|] s1]; cbn [snd] in *.
  2:{ eapply within_ceiling_same; eauto. }
  assert (Hwf1 : windows_wf s1) by (eapply windows_wf_same; eauto).
  assert (Hok1 : within_ceiling now per_minute s1)
    by (eapply within_ceiling_same; eauto).
  set (aw := QueueEntry.agent_wallet item) in *.
  set (p := QueueEntry.provider item) in *.
  set (m := QueueEntry.model item) in *.
  rewrite wouldExceedLimit_settle.
  destruct (settle_spec now aw p m per_minute s1 Hwf1) as (Hwf2 & _).
  destruct (settle_selected now aw p m per_minute s1 Hwf1) as [Hsel Hlive].
  pose proof (settle_ceiling now aw p m per_minute s1 per_minute Hwf1 Hok1)
    as Hok2.
  set (w := fst (settle now aw p m per_minute s1)) in *.
  set (s2 := snd (settle now aw p m per_minute s1)) in *.
  destruct (Js.truthy (Tracker.exceeded (Tracker.checkWindowLimitDetailed w)))
    eqn:Hex; cbn [negb].
  - eapply within_ceiling_same; [|exact Hok2]. reflexivity.
  - set (s3 := Queue.complete now (QueueEntry.queue_id item) true None s2).
    assert (Hwf3 : windows_wf s3)
      by (eapply windows_wf_same; [| |exact Hwf2]; reflexivity).
    apply IH.
    + now apply incrementAll_counts; [apply NoDup_windows|].
    + apply incrementAll_ceiling.
      * apply NoDup_windows.
      * exact Hwf3.
      * eapply within_ceiling_same; [|exact Hok2]. reflexivity.
      * intros _. exists w. split; [exact Hsel|]. split; [exact Hlive|].
        now apply not_exceeded_has_room.
Qed.

Lemma afterProvider_ceiling tz now provider model agentId request response st :
  windows_wf st ->
  within_ceiling now per_minute st ->
  within_ceiling now per_minute
    (Manager.afterProvider tz now provider model agentId request response st).
Proof.
  intros Hwf Hok. unfold Manager.afterProvider.
  set (agentWallet := Js.str_or (Manager.agentWallet request) agentId).
  destruct (negb (Manager.decision_allowed request)); [exact Hok|].
  destruct (updateTokensAll_counts now agentWallet provider model
              (Manager.tokensUsed response) Manager.windows NoDup_windows st Hwf)
    as (Hwf1 & _).
  pose proof (updateTokensAll_ceiling now agentWallet provider model
                (Manager.tokensUsed response) Manager.windows per_minute st
                Hwf Hok) as Hok1.
  set (s1 := Manager.updateTokensAll now agentWallet provider model
               (Manager.tokensUsed response) Manager.windows st) in *.
  destruct (checkQuotaAvailable_windows now agentWallet s1) as [Hw2 Hn2].
  destruct (Storage.checkQuotaAvailable now agentWallet s1) as [quota s2].
  cbn [snd] in *.
  assert (Hwf2 : windows_wf s2) by (eapply windows_wf_same; eauto).
  assert (Hok2 : within_ceiling now per_minute s2)
    by (eapply within_ceiling_same; eauto).
  destruct (Storage.tier quota), (Storage.can_queue quota); try exact Hok2.
  unfold Manager.processQueue.
  destruct (Queue.getQueueSize agentWallet s2 =? 0); [exact Hok2|].
  now apply drain_ceiling.
Qed.

(** X23. The request ceilings are kept. Over a well-formed window table in
    which, on some horizon, every window that has not ended counts no more
    requests than its request limit, a pre-call made then or later leaves that
    horizon the same way, for every tenant, provider and model, whatever the
    outcome. The post-call, with its queue drain, keeps the per-minute
    ceilings: the drain checks only the minute horizon of an entry before it
    counts the entry on all three. *)
Theorem request_ceilings_are_kept tz now now' st
        (Hwf : windows_wf st) (Hclock : now <= now') :
  (forall t queueId requestId provider model agentId requestData,
     within_ceiling now t st ->
     within_ceiling now' t
       (snd (Manager.beforeProvider now' queueId requestId provider model
                                    agentId requestData st))) /\
  (forall provider model agentId request response,
     within_ceiling now per_minute st ->
     within_ceiling now' per_minute
       (Manager.afterProvider tz now' provider model agentId request response st)).
Proof.
  split.
  - intros. apply beforeProvider_ceiling; [exact Hwf|].
    eapply within_ceiling_mono; eauto.
  - intros. apply afterProvider_ceiling; [exact Hwf|].
    eapply within_ceiling_mono; eauto.
Qed.

Lemma request_ceilings_are_kept_witness :
  let w0 :=
    Window.mk 1 "T1" "anthropic" (Some "m") per_minute 0 60000 49 0
              (Some 50) (Some 40000) true 0 in
  let st := set_windows [w0] 2 empty_store in
  let request := Manager.mkRequest None None None in
  let pre := Manager.beforeProvider 1000 "q1" "r1" "anthropic" (Some "m") "T1"
                                    request st in
  windows_wf st /\ 0 <= 1000 /\
  within_ceiling 0 per_minute st /\
  fst (fst pre) = Manager.Returned /\
  map Window.request_count (of_type per_minute (snd pre)) = [50] /\
  within_ceiling 1000 per_minute (snd pre) /\
  within_ceiling 1000 per_minute
    (Manager.afterProvider Js.utc 1000 "anthropic" (Some "m") "T1"
                           (snd (fst pre)) (Manager.mkResponse None (Some 10))
                           st).
Proof.
  intros w0 st request pre.
  assert (Hwf : windows_wf st) by apply (windows_wf_singleton w0).
  assert (Hclock : 0 <= 1000) by lia.
  assert (Hceil : within_ceiling 0 per_minute st).
  { intros aw p m w Hsel _ l Hl _.
    apply select_current_Some in Hsel. destruct Hsel as ([<-|[]] & _).
    cbn in Hl. injection Hl as <-. cbn. lia. }
  destruct (request_ceilings_are_kept Js.utc 0 1000 st Hwf Hclock)
    as [Hpre Hpost].
  split; [exact Hwf|]. split; [exact Hclock|]. split; [exact Hceil|].
  split; [reflexivity|]. split; [reflexivity|]. split.
  - exact (Hpre per_minute "q1" "r1" "anthropic" (Some "m") "T1" request Hceil).
  - exact (Hpost "anthropic" (Some "m") "T1" (snd (fst pre))
                 (Manager.mkResponse None (Some 10)) Hceil).
Defined.

(** ** PatternDetector: peak windows, from detection to prediction *)

Lemma getCurrentTimeWindow_cases hour :
  0 <= hour < 24 ->
  (6 <= hour < 12 /\ Detector.getCurrentTimeWindow hour = "morning"%string) \/
  (12 <= hour < 18 /\ Detector.getCurrentTimeWindow hour = "afternoon"%string) \/
  (18 <= hour < 24 /\ Detector.getCurrentTimeWindow hour = "evening"%string) \/
  (0 <= hour < 6 /\ Detector.getCurrentTimeWindow hour = "night"%string).
Proof.
  intros Hh. unfold Detector.getCurrentTimeWindow.
  destruct (Z.leb_spec 6 hour), (Z.ltb_spec hour 12); cbn [andb];
    try (left; split; [lia | reflexivity]);
    destruct (Z.leb_spec 12 hour), (Z.ltb_spec hour 18); cbn [andb];
    try (right; left; split; [lia | reflexivity]);
    destruct (Z.leb_spec 18 hour), (Z.ltb_spec hour 24); cbn [andb];
    try (right; right; left; split; [lia | reflexivity]);
    try (right; right; right; split; [lia | reflexivity]); lia.
Qed.

Lemma existsb_range lo hi (l : list Z) :
  existsb (fun h => (lo <=? h) && (h <? hi)) l = true <->
  exists h, In h l /\ lo <= h < hi.
Proof.
  rewrite existsb_exists. split; intros (h & Hin & Hh); exists h;
    (split; [exact Hin|]).
  - apply andb_true_iff in Hh. rewrite Z.leb_le, Z.ltb_lt in Hh. exact Hh.
  - apply andb_true_iff. rewrite Z.leb_le, Z.ltb_lt. exact Hh.
Qed.

(** X24. Peak windows, from detection to prediction. For peak hours within
    0..23, [categorizeTimeWindows] lists a window label exactly when some peak
    hour falls in the window [getCurrentTimeWindow] gives that label to. When
    there is a peak hour, the text [storePattern] stores for the pattern is
    the comma-joined list (not the description), splitting it at the commas
    gives the list back, and so the test of [predictUsage] on the stored text
    succeeds for the current hour exactly when some peak hour lies in the
    current hour's window. *)
Theorem stored_peak_windows_match_the_current_window
        (peakHours : list Z) (pattern : Detector.Detected) (hour : Z)
        (Hpeaks : forall h, In h peakHours -> 0 <= h < 24)
        (Hhour : 0 <= hour < 24)
        (Hwindows : Detector.typical_windows pattern =
                    Some (Detector.categorizeTimeWindows peakHours)) :
  let windows := Detector.categorizeTimeWindows peakHours in
  (In (Detector.getCurrentTimeWindow hour) windows <->
     exists h, In h peakHours /\
               Detector.getCurrentTimeWindow h =
               Detector.getCurrentTimeWindow hour) /\
  (peakHours <> [] ->
   Detector.typical_window_of pattern = Detector.join windows /\
   Detector.split (Detector.typical_window_of pattern) = windows /\
   (Detector.includes (Detector.split (Detector.typical_window_of pattern))
                      (Detector.getCurrentTimeWindow hour) = true <->
    exists h, In h peakHours /\
              Detector.getCurrentTimeWindow h =
              Detector.getCurrentTimeWindow hour)).
Proof.
  cbn zeta.
  assert (Hlist :
    In (Detector.getCurrentTimeWindow hour)
       (Detector.categorizeTimeWindows peakHours) <->
    exists h, In h peakHours /\
              Detector.getCurrentTimeWindow h =
              Detector.getCurrentTimeWindow hour).
  { unfold Detector.categorizeTimeWindows.
    pose proof (existsb_range 6 12 peakHours) as Hm.
    pose proof (existsb_range 12 18 peakHours) as Ha.
    pose proof (existsb_range 18 24 peakHours) as He.
    pose proof (existsb_range 0 6 peakHours) as Hn.
    assert (Hwhich : forall h, In h peakHours ->
              Detector.getCurrentTimeWindow h =
              Detector.getCurrentTimeWindow hour ->
              (6 <= hour < 12 -> 6 <= h < 12) /\
              (12 <= hour < 18 -> 12 <= h < 18) /\
              (18 <= hour < 24 -> 18 <= h < 24) /\
              (0 <= hour < 6 -> 0 <= h < 6)).
    { intros h Hin Heq. specialize (Hpeaks h Hin).
      destruct (getCurrentTimeWindow_cases h Hpeaks)
        as [[H1 E1]|[[H1 E1]|[[H1 E1]|[H1 E1]]]];
        destruct (getCurrentTimeWindow_cases hour Hhour)
          as [[H2 E2]|[[H2 E2]|[[H2 E2]|[H2 E2]]]];
        rewrite E1, E2 in Heq; try discriminate; lia. }
    destruct (getCurrentTimeWindow_cases hour Hhour)
      as [[H2 E2]|[[H2 E2]|[[H2 E2]|[H2 E2]]]]; rewrite E2; split.
    - intros Hin.
      destruct (existsb (fun h => (6 <=? h) && (h <? 12)) peakHours) eqn:Hx.
      + destruct (proj1 Hm eq_refl) as (h & Hh & Hr). exists h.
        split; [exact Hh|].
        destruct (getCurrentTimeWindow_cases h (Hpeaks h Hh))
          as [[H1 E1]|[[H1 E1]|[[H1 E1]|[H1 E1]]]]; try lia. exact E1.
      + exfalso. rewrite !in_app_iff in Hin.
        destruct Hin as [[]|[Hin|[Hin|Hin]]];
          match type of Hin with
          | In _ (if ?b then _ else _) => destruct b
          end; cbn in Hin; intuition discriminate.
    - intros (h & Hh & Heq). rewrite <- E2 in Heq.
      destruct (Hwhich h Hh Heq) as (Hw & _).
      assert (Hx : existsb (fun h => (6 <=? h) && (h <? 12)) peakHours = true)
        by (apply Hm; exists h; split; [exact Hh | now apply Hw]).
      rewrite Hx. now left.
    - intros Hin.
      destruct (existsb (fun h => (12 <=? h) && (h <? 18)) peakHours) eqn:Hx.
      + destruct (proj1 Ha eq_refl) as (h & Hh & Hr). exists h.
        split; [exact Hh|].
        destruct (getCurrentTimeWindow_cases h (Hpeaks h Hh))
          as [[H1 E1]|[[H1 E1]|[[H1 E1]|[H1 E1]]]]; try lia. exact E1.
      + exfalso. rewrite !in_app_iff in Hin.
        destruct Hin as [Hin|[[]|[Hin|Hin]]];
          match type of Hin with
          | In _ (if ?b then _ else _) => destruct b
          end; cbn in Hin; intuition discriminate.
    - intros (h & Hh & Heq). rewrite <- E2 in Heq.
      destruct (Hwhich h Hh Heq) as (_ & Hw & _).
      assert (Hx : existsb (fun h => (12 <=? h) && (h <? 18)) peakHours = true)
        by (apply Ha; exists h; split; [exact Hh | now apply Hw]).
      rewrite Hx. rewrite !in_app_iff. right. left. now left.
    - intros Hin.
      destruct (existsb (fun h => (18 <=? h) && (h <? 24)) peakHours) eqn:Hx.
      + destruct (proj1 He eq_refl) as (h & Hh & Hr). exists h.
        split; [exact Hh|].
        destruct (getCurrentTimeWindow_cases h (Hpeaks h Hh))
          as [[H1 E1]|[[H1 E1]|[[H1 E1]|[H1 E1]]]]; try lia. exact E1.
      + exfalso. rewrite !in_app_iff in Hin.
        destruct Hin as [Hin|[Hin|[[]|Hin]]];
          match type of Hin with
          | In _ (if ?b then _ else _) => destruct b
          end; cbn in Hin; intuition discriminate.
    - intros (h & Hh & Heq). rewrite <- E2 in Heq.
      destruct (Hwhich h Hh Heq) as (_ & _ & Hw & _).
      assert (Hx : existsb (fun h => (18 <=? h) && (h <? 24)) peakHours = true)
        by (apply He; exists h; split; [exact Hh | now apply Hw]).
      rewrite Hx. rewrite !in_app_iff. right. right. left. now left.
    - intros Hin.
      destruct (existsb (fun h => (0 <=? h) && (h <? 6)) peakHours) eqn:Hx.
      + destruct (proj1 Hn eq_refl) as (h & Hh & Hr). exists h.
        split; [exact Hh|].
        destruct (getCurrentTimeWindow_cases h (Hpeaks h Hh))
          as [[H1 E1]|[[H1 E1]|[[H1 E1]|[H1 E1]]]]; try lia. exact E1.
      + exfalso. rewrite !in_app_iff in Hin.
        destruct Hin as [Hin|[Hin|[Hin|[]]]];
          match type of Hin with
          | In _ (if ?b then _ else _) => destruct b
          end; cbn in Hin; intuition discriminate.
    - intros (h & Hh & Heq). rewrite <- E2 in Heq.
      destruct (Hwhich h Hh Heq) as (_ & _ & _ & Hw).
      assert (Hx : existsb (fun h => (0 <=? h) && (h <? 6)) peakHours = true)
        by (apply Hn; exists h; split; [exact Hh | now apply Hw]).
      rewrite Hx. rewrite !in_app_iff. right. right. right. now left. }
  split; [exact Hlist|].
  intros Hnonempty.
  assert (Hsome : Detector.categorizeTimeWindows peakHours <> []).
  { destruct peakHours as [|h0 rest]; [contradiction|].
    assert (Hin0 : In h0 (h0 :: rest)) by now left.
    pose proof (Hpeaks h0 Hin0) as Hh0.
    intros Hnil.
    assert (Hin : In (Detector.getCurrentTimeWindow h0)
                     (Detector.categorizeTimeWindows (h0 :: rest))).
    { clear Hlist Hnil.
      unfold Detector.categorizeTimeWindows.
      destruct (getCurrentTimeWindow_cases h0 Hh0)
        as [[H1 E1]|[[H1 E1]|[[H1 E1]|[H1 E1]]]]; rewrite E1;
        rewrite !in_app_iff.
      - left.
        rewrite (proj2 (existsb_range 6 12 (h0 :: rest))) by eauto. now left.
      - right. left.
        rewrite (proj2 (existsb_range 12 18 (h0 :: rest))) by eauto. now left.
      - right. right. left.
        rewrite (proj2 (existsb_range 18 24 (h0 :: rest))) by eauto. now left.
      - right. right. right.
        rewrite (proj2 (existsb_range 0 6 (h0 :: rest))) by eauto. now left. }
    rewrite Hnil in Hin. destruct Hin. }
  assert (Hstored : Detector.typical_window_of pattern =
                    Detector.join (Detector.categorizeTimeWindows peakHours) /\
                    Detector.split
                      (Detector.join (Detector.categorizeTimeWindows peakHours)) =
                    Detector.categorizeTimeWindows peakHours).
  { unfold Detector.typical_window_of. rewrite Hwindows. cbn [option_map].
    revert Hsome. unfold Detector.categorizeTimeWindows.
    destruct (existsb (fun h => (6 <=? h) && (h <? 12)) peakHours),
             (existsb (fun h => (12 <=? h) && (h <? 18)) peakHours),
             (existsb (fun h => (18 <=? h) && (h <? 24)) peakHours),
             (existsb (fun h => (0 <=? h) && (h <? 6)) peakHours);
      intros Hsome; try (split; reflexivity).
    now contradiction Hsome. }
  destruct Hstored as [Hjoin Hsplit].
  split; [exact Hjoin|]. rewrite Hjoin, Hsplit. split; [reflexivity|].
  rewrite <- Hlist. unfold Detector.includes. rewrite existsb_exists.
  split.
  - intros (x & Hx & Heq). apply String.eqb_eq in Heq. now subst x.
  - intros Hin. eexists. split; [exact Hin|]. apply String.eqb_refl.
Qed.

Lemma stored_peak_windows_match_the_current_window_witness :
  let peakHours := [9; 14] in
  let pattern :=
    Detector.mkDetected "time_of_day" "Peak usage during hours: 9, 14"
                        (Some (Detector.categorizeTimeWindows peakHours))
                        (Some 1) (Some 2) (Some 3) None (8 # 10) in
  (forall h, In h peakHours -> 0 <= h < 24) /\
  0 <= 10 < 24 /\
  Detector.typical_window_of pattern = "morning,afternoon"%string /\
  Detector.includes (Detector.split (Detector.typical_window_of pattern))
                    (Detector.getCurrentTimeWindow 10) = true.
Proof.
  cbn zeta.
  assert (Hpeaks : forall h, In h [9; 14] -> 0 <= h < 24)
    by (intros h [<-|[<-|[]]]; lia).
  assert (Hhour : 0 <= 10 < 24) by lia.
  split; [exact Hpeaks|]. split; [exact Hhour|].
  destruct (stored_peak_windows_match_the_current_window [9; 14]
              (Detector.mkDetected "time_of_day" "Peak usage during hours: 9, 14"
                 (Some (Detector.categorizeTimeWindows [9; 14]))
                 (Some 1) (Some 2) (Some 3) None (8 # 10))
              10 Hpeaks Hhour eq_refl) as (_ & Hstored).
  destruct (Hstored ltac:(discriminate)) as (Hjoin & _ & Hincl).
  split; [exact Hjoin|].
  apply Hincl. exists 9. split; [now left | reflexivity].
Defined.

(** ** RateLimitManager: how much one post-call drains *)

Lemma filter_map_le {A} (p : A -> bool) (g : A -> A) (l : list A) :
  (forall x, In x l -> p (g x) = true -> p x = true) ->
  (List.length (filter p (map g l)) <= List.length (filter p l))%nat.
Proof.
  induction l as [|a l IH]; cbn; intros H; [lia|].
  assert (IH' : (List.length (filter p (map g l)) <=
                 List.length (filter p l))%nat)
    by (apply IH; intros x Hx; apply H; now right).
  destruct (p (g a)) eqn:Hg.
  - rewrite (H a (or_introl eq_refl) Hg). cbn. lia.
  - destruct (p a); cbn; lia.
Qed.

Lemma filter_map_one_more (p : QueueEntry.row -> bool)
      (f : QueueEntry.row -> QueueEntry.row) queueId (l : list QueueEntry.row) :
  NoDup (map QueueEntry.queue_id l) ->
  (List.length
     (filter p (map (fun e => if Queue.has_queue_id queueId e then f e else e) l))
   <= List.length (filter p l) + 1)%nat.
Proof.
  induction l as [|a l IH]; cbn; intros Hnd; [lia|].
  inversion Hnd as [|? ? Hnot Hnd']; subst.
  destruct (Queue.has_queue_id queueId a) eqn:Ha.
  - apply has_queue_id_spec in Ha.
    assert (Hrest : map (fun e => if Queue.has_queue_id queueId e then f e else e) l
                    = l).
    { rewrite <- (map_id l) at 2. apply map_ext_in. intros x Hx.
      destruct (Queue.has_queue_id queueId x) eqn:Hq; [exfalso|reflexivity].
      apply has_queue_id_spec in Hq. apply Hnot. rewrite Ha, <- Hq.
      now apply in_map. }
    rewrite Hrest.
    destruct (p (f a)), (p a); cbn; lia.
  - specialize (IH Hnd'). destruct (p a); cbn; lia.
Qed.

Lemma update_where_queue_id_completed_le queueId f st :
  (forall e, QueueEntry.status (f e) <> completed) ->
  (completed_count (Queue.update_where_queue_id queueId f st) <=
   completed_count st)%nat.
Proof.
  intros Hf. unfold completed_count, Queue.update_where_queue_id. cbn.
  apply filter_map_le. intros x _.
  destruct (Queue.has_queue_id queueId x); [|trivial].
  intros H. exfalso. apply (Hf x).
  destruct (QueueEntry.status (f x)); cbn in H; congruence.
Qed.

Lemma dequeue_completed_le tz now agentWallet st :
  (completed_count (snd (Queue.dequeue tz now agentWallet st)) <=
   completed_count st)%nat.
Proof.
  funelim (Queue.dequeue tz now agentWallet st).
  - cbn. lia.
  - etransitivity; [exact H|].
    apply update_where_queue_id_completed_le. intros x. cbn. discriminate.
  - cbn [snd].
    apply update_where_queue_id_completed_le. intros x. cbn. discriminate.
Qed.

Lemma completed_count_same st st' :
  request_queue st' = request_queue st ->
  completed_count st' = completed_count st.
Proof. unfold completed_count. now intros ->. Qed.

Lemma drain_completed tz n now :
  forall st,
    NoDup (map QueueEntry.queue_id (request_queue st)) ->
    (completed_count (Manager.drain tz n now st) <= completed_count st + n)%nat.
Proof.
  induction n as [|k IH]; intros st Hids; cbn [Manager.drain]; [lia|].
  pose proof (dequeue_completed_le tz now None st) as Hle.
  pose proof (dequeue_ids tz now None st) as Hids1.
  destruct (Queue.dequeue tz now None st) as [[item|] s1]; cbn [snd] in *; [|lia].
  destruct (wouldExceedLimit_queue now (QueueEntry.agent_wallet item)
              (QueueEntry.provider item) (QueueEntry.model item) per_minute s1)
    as [Hq2 _].
  destruct (Tracker.wouldExceedLimit now (QueueEntry.agent_wallet item)
              (QueueEntry.provider item) (QueueEntry.model item) per_minute s1)
    as [c s2]. cbn [snd] in *.
  pose proof (completed_count_same s1 s2 Hq2) as Hc2.
  destruct (negb (Js.truthy (Tracker.exceeded c))).
  - set (s3 := Queue.complete now (QueueEntry.queue_id item) true None s2).
    destruct (incrementAll_queue now (QueueEntry.agent_wallet item)
                (QueueEntry.provider item) (QueueEntry.model item)
                Manager.windows s3) as [Hq4 _].
    set (s4 := Manager.incrementAll now (QueueEntry.agent_wallet item)
                 (QueueEntry.provider item) (QueueEntry.model item)
                 Manager.windows s3) in *.
    assert (Hids2 : NoDup (map QueueEntry.queue_id (request_queue s2)))
      by (rewrite Hq2, Hids1; exact Hids).
    assert (Hids4 : NoDup (map QueueEntry.queue_id (request_queue s4))).
    { rewrite Hq4. unfold s3. rewrite complete_ids. exact Hids2. }
    specialize (IH s4 Hids4).
    assert (H3 : (completed_count s3 <= completed_count s2 + 1)%nat).
    { unfold completed_count, s3, Queue.complete, Queue.update_where_queue_id.
      cbn. now apply filter_map_one_more. }
    rewrite (completed_count_same s3 s4 Hq4) in IH. lia.
  - pose proof (update_where_queue_id_completed_le (QueueEntry.queue_id item)
                  Queue.pending_row s2) as H3.
    assert (forall e, QueueEntry.status (Queue.pending_row e) <> completed)
      by (intros e; cbn; discriminate).
    specialize (H3 H). lia.
Qed.

(** X25. How much one post-call drains. Over a queue whose rows carry
    distinct identifiers, one post-call marks at most five more entries
    completed than there were, however many entries are pending and however
    many expire on the way. *)
Theorem post_call_completes_at_most_five_entries tz
        now provider model agentId request response st
        (Hids : NoDup (map QueueEntry.queue_id (request_queue st))) :
  (completed_count
     (Manager.afterProvider tz now provider model agentId request response st)
   <= completed_count st + 5)%nat.
Proof.
  unfold Manager.afterProvider.
  set (agentWallet := Js.str_or (Manager.agentWallet request) agentId).
  destruct (negb (Manager.decision_allowed request)); [lia|].
  pose proof (updateTokensAll_frame now agentWallet provider model
                (Manager.tokensUsed response) Manager.windows st)
    as (_ & Hq1 & _).
  set (s1 := Manager.updateTokensAll now agentWallet provider model
               (Manager.tokensUsed response) Manager.windows st) in *.
  pose proof (checkQuotaAvailable_frame now agentWallet s1) as (_ & Hq2 & _).
  destruct (Storage.checkQuotaAvailable now agentWallet s1) as [quota s2].
  cbn [snd] in *.
  assert (Hsame : completed_count s2 = completed_count st)
    by (apply completed_count_same; congruence).
  destruct (Storage.tier quota), (Storage.can_queue quota); try lia.
  destruct (proj1 (processQueue_bounded tz now agentWallet s2)) as (n & Hn & ->).
  assert (Hids2 : NoDup (map QueueEntry.queue_id (request_queue s2)))
    by (rewrite Hq2, Hq1; exact Hids).
  pose proof (drain_completed tz n now s2 Hids2). lia.
Qed.

Lemma post_call_completes_at_most_five_entries_witness :
  let quotaA := Quota.mk "A" "pro" (-1) true 100 true true true
                         (Some 1000000000) in
  let qa := QueueEntry.mk "qa" "A" "anthropic" (Some "m") 0 5 0 3 pending
                          None None in
  let st := set_queue [qa] (set_quotas [quotaA] empty_store) in
  let request :=
    Manager.mkRequest None None
      (Some (Manager.mkDecision "r1" "A" "anthropic" (Some "m") 900 true)) in
  let response := Manager.mkResponse None (Some 10) in
  let st' := Manager.afterProvider Js.utc 1000 "anthropic" (Some "m") "A" request
                                   response st in
  NoDup (map QueueEntry.queue_id (request_queue st)) /\
  (completed_count st' <= completed_count st + 5)%nat.
Proof.
  intros quotaA qa st request response st'.
  assert (Hids : NoDup (map QueueEntry.queue_id (request_queue st))).
  { cbn. constructor; [intros []|constructor]. }
  split; [exact Hids|].
  exact (post_call_completes_at_most_five_entries Js.utc 1000 "anthropic" (Some "m")
           "A" request response st Hids).
Defined.

(** ** RateLimitManager: what becomes of each queue entry *)

Lemma Forall2_same {A} (R : A -> A -> Prop) (l : list A) :
  (forall x, In x l -> R x x) -> Forall2 R l l.
Proof.
  induction l as [|a l IH]; intros H; constructor.
  - apply H. now left.
  - apply IH. intros x Hx. apply H. now right.
Qed.

Lemma Forall2_map_In {A} (R : A -> A -> Prop) (g : A -> A) (l : list A) :
  (forall x, In x l -> R x (g x)) -> Forall2 R l (map g l).
Proof.
  induction l as [|a l IH]; intros H; cbn; constructor.
  - apply H. now left.
  - apply IH. intros x Hx. apply H. now right.
Qed.

Lemma Forall2_compose {A} (R1 R2 R3 : A -> A -> Prop) (l1 l2 l3 : list A) :
  (forall x y z, In x l1 -> R1 x y -> R2 y z -> R3 x z) ->
  Forall2 R1 l1 l2 -> Forall2 R2 l2 l3 -> Forall2 R3 l1 l3.
Proof.
  intros H H12. revert l3.
  induction H12 as [|x y l1 l2 Hxy H12 IH]; intros l3 H23;
    inversion H23; subst; constructor.
  - eapply H; eauto. now left.
  - apply IH; [|assumption]. intros a b c Ha. apply H. now right.
Qed.

Lemma eligible_retries agentWallet e :
  Queue.eligible agentWallet e = true ->
  QueueEntry.retry_count e < QueueEntry.max_retries e.
Proof.
  unfold Queue.eligible. intros H.
  apply andb_true_iff in H. destruct H as [H _].
  apply andb_true_iff in H. destruct H as [_ H]. now apply Z.ltb_lt.
Qed.

Lemma dequeue_rows tz now agentWallet st :
  NoDup (map QueueEntry.queue_id (request_queue st)) ->
  Forall2 (dequeued_row tz now (fst (Queue.dequeue tz now agentWallet st)))
          (request_queue st)
          (request_queue (snd (Queue.dequeue tz now agentWallet st))).
Proof.
  funelim (Queue.dequeue tz now agentWallet st); intros Hids.
  - cbn [fst snd]. apply Forall2_same. intros x _. right.
    split; [discriminate | now left].
  - destruct (candidate_In _ _ _ e) as [Hin0 Hel0].
    pose proof e0 as Hage. apply Z.ltb_lt in Hage.
    set (st1 := Queue.complete now (QueueEntry.queue_id item) false
                               (Some Queue.expired_message) st) in *.
    assert (Hids1 : NoDup (map QueueEntry.queue_id (request_queue st1)))
      by (unfold st1; now rewrite complete_ids).
    specialize (H Hids1).
    set (o := fst (Queue.dequeue tz now agentWallet st1)) in *.
    assert (Hnot : forall x, o = Some x -> QueueEntry.status x = pending).
    { intros x Hx. unfold o in Hx.
      destruct (Queue.dequeue tz now agentWallet st1) as [r s'] eqn:Hrun.
      cbn in Hx. subst r.
      destruct (dequeue_returns_fresh tz _ _ _ _ _ Hrun) as [_ Hel].
      eapply eligible_pending; eauto. }
    eapply Forall2_compose; [| |exact H].
    2:{ unfold st1, Queue.complete, Queue.update_where_queue_id. cbn.
        apply (Forall2_map_In (fun x y =>
                 y = if Queue.has_queue_id (QueueEntry.queue_id item) x
                     then Queue.completed_row now false
                            (Some Queue.expired_message) x
                     else x)).
        reflexivity. }
    intros x y z Hx -> Hz. cbn beta in Hz.
    destruct (Queue.has_queue_id (QueueEntry.queue_id item) x) eqn:Hid;
      [|exact Hz].
    apply has_queue_id_spec in Hid.
    assert (x = item)
      by (exact (unique_queue_id_row _ x item Hids Hx Hin0 Hid)).
    subst x.
    destruct Hz as [[Ho _]|[Hne Hz]].
    + apply Hnot in Ho. cbn in Ho. discriminate.
    + right. split; [exact Hne|].
      destruct Hz as [->|(Hs & _)]; [|cbn in Hs; discriminate].
      right. split; [eapply eligible_pending; eauto|]. now split.
  - cbn [fst snd].
    destruct (candidate_In _ _ _ e) as [Hin0 Hel0].
    unfold Queue.update_where_queue_id. cbn.
    apply Forall2_map_In. intros x Hx.
    destruct (Queue.has_queue_id (QueueEntry.queue_id item) x) eqn:Hid.
    + apply has_queue_id_spec in Hid.
      assert (x = item)
        by (exact (unique_queue_id_row _ x item Hids Hx Hin0 Hid)).
      subst x. left. now split.
    + right. split; [|now left].
      intros it Hit. inversion Hit; subst it.
      intros Heq. apply has_queue_id_spec in Heq. congruence.
Qed.

Lemma drain_rows tz n now :
  forall st,
    NoDup (map QueueEntry.queue_id (request_queue st)) ->
    Forall2 (drained_entry tz now) (request_queue st)
            (request_queue (Manager.drain tz n now st)).
Proof.
  induction n as [|k IH]; intros st Hids; cbn [Manager.drain].
  - apply Forall2_same. intros x _. left. now left.
  - pose proof (dequeue_rows tz now None st Hids) as Hrows.
    pose proof (dequeue_ids tz now None st) as Hids1.
    pose proof (dequeue_returns_fresh tz now None st) as Hfresh.
    destruct (Queue.dequeue tz now None st) as [[item|] s1]; cbn [fst snd] in *.
    2:{ eapply Forall2_impl; [|exact Hrows].
        intros x y [[Ho _]|[_ H]]; [discriminate | now left]. }
    destruct (Hfresh item s1 eq_refl) as [Hage Hel].
    pose proof (eligible_pending _ _ Hel) as Hpend.
    pose proof (eligible_retries _ _ Hel) as Hretry.
    destruct (wouldExceedLimit_queue now (QueueEntry.agent_wallet item)
                (QueueEntry.provider item) (QueueEntry.model item) per_minute s1)
      as [Hq2 _].
    destruct (Tracker.wouldExceedLimit now (QueueEntry.agent_wallet item)
                (QueueEntry.provider item) (QueueEntry.model item) per_minute s1)
      as [c s2]. cbn [snd] in *.
    rewrite <- Hq2 in Hrows.
    destruct (negb (Js.truthy (Tracker.exceeded c))).
    + set (s3 := Queue.complete now (QueueEntry.queue_id item) true None s2).
      destruct (incrementAll_queue now (QueueEntry.agent_wallet item)
                  (QueueEntry.provider item) (QueueEntry.model item)
                  Manager.windows s3) as [Hq4 _].
      set (s4 := Manager.incrementAll now (QueueEntry.agent_wallet item)
                   (QueueEntry.provider item) (QueueEntry.model item)
                   Manager.windows s3) in *.
      assert (Hids4 : NoDup (map QueueEntry.queue_id (request_queue s4))).
      { rewrite Hq4. unfold s3. rewrite complete_ids, Hq2, Hids1. exact Hids. }
      specialize (IH s4 Hids4). rewrite Hq4 in IH.
      assert (Hstep : Forall2 (drained_entry tz now) (request_queue st)
                              (request_queue s3)).
      { eapply Forall2_compose; [|exact Hrows|].
        2:{ unfold s3, Queue.complete, Queue.update_where_queue_id. cbn.
            apply (Forall2_map_In (fun x y =>
                     y = if Queue.has_queue_id (QueueEntry.queue_id item) x
                         then Queue.completed_row now true None x else x)).
            reflexivity. }
        intros x y z _ Hxy ->.
        destruct Hxy as [[Ho ->]|[Hne Hxy]].
        - inversion Ho; subst x. cbn [Queue.processing_row QueueEntry.queue_id].
          unfold Queue.has_queue_id. cbn [QueueEntry.queue_id].
          rewrite String.eqb_refl.
          right. repeat (split; [assumption|]). now left.
        - specialize (Hne item eq_refl).
          assert (Hy : QueueEntry.queue_id y = QueueEntry.queue_id x)
            by (destruct Hxy as [->|(_ & _ & ->)]; reflexivity).
          assert (Hid : Queue.has_queue_id (QueueEntry.queue_id item) y = false).
          { destruct (Queue.has_queue_id (QueueEntry.queue_id item) y) eqn:E;
              [|reflexivity].
            apply has_queue_id_spec in E. congruence. }
          rewrite Hid. now left. }
      eapply Forall2_compose; [|exact Hstep|exact IH].
      intros x y z _ Hxy Hyz.
      destruct Hxy as [[->|(Hs & Hold & ->)]|(Hs & Hf & Hr & [->| ->])].
      * exact Hyz.
      * destruct Hyz as [[->|(Hs' & _)]|(Hs' & _)];
          [|cbn in Hs'; discriminate|cbn in Hs'; discriminate].
        left. right. now repeat split.
      * destruct Hyz as [[->|(Hs' & _)]|(Hs' & _)];
          [|cbn in Hs'; discriminate|cbn in Hs'; discriminate].
        right. repeat (split; [assumption|]). now left.
      * assert (Hagain :
          Queue.processing_row now (Queue.pending_row (Queue.processing_row now x))
          = Queue.processing_row now x) by reflexivity.
        destruct Hyz as [[->|(_ & Hold & _)]|(_ & _ & _ & Hz)].
        -- right. repeat (split; [assumption|]). now right.
        -- cbn [QueueEntry.queued_at Queue.pending_row Queue.processing_row]
             in Hold. lia.
        -- rewrite Hagain in Hz. right. repeat (split; [assumption|]). exact Hz.
    + eapply Forall2_compose; [|exact Hrows|].
      2:{ unfold Queue.update_where_queue_id. cbn.
          apply (Forall2_map_In (fun x y =>
                   y = if Queue.has_queue_id (QueueEntry.queue_id item) x
                       then Queue.pending_row x else x)).
          reflexivity. }
      intros x y z _ Hxy ->.
      destruct Hxy as [[Ho ->]|[Hne Hxy]].
      * inversion Ho; subst x. cbn [Queue.processing_row QueueEntry.queue_id].
        unfold Queue.has_queue_id. cbn [QueueEntry.queue_id].
        rewrite String.eqb_refl.
        right. repeat (split; [assumption|]). now right.
      * specialize (Hne item eq_refl).
        assert (Hy : QueueEntry.queue_id y = QueueEntry.queue_id x)
          by (destruct Hxy as [->|(_ & _ & ->)]; reflexivity).
        assert (Hid : Queue.has_queue_id (QueueEntry.queue_id item) y = false).
        { destruct (Queue.has_queue_id (QueueEntry.queue_id item) y) eqn:E;
            [|reflexivity].
          apply has_queue_id_spec in E. congruence. }
        rewrite Hid. now left.
Qed.

(** X26. What becomes of each queue entry in a post-call. Over a queue
    whose rows carry distinct identifiers, the post-call leaves the queue row
    for row as follows. Every row keeps its identifier, tenant, priority and
    queued_at. A row that was not pending is untouched. A row that was pending
    is afterwards pending with the same retry_count, or completed with the
    same retry_count (only if its age was within the maximum queue age and it
    had retries left), or failed with the expiry message and one more retry
    counted (only if its age was above the maximum queue age): the drain
    fails an entry for no other reason, and loses none. The age is the one
    the drain computes: [now] minus the stored queued_at, read back in the
    zone [tz] of the process. *)
Theorem post_call_entry_lifecycle tz
        now provider model agentId request response st
        (Hids : NoDup (map QueueEntry.queue_id (request_queue st))) :
  Forall2
    (fun e e' =>
       QueueEntry.queue_id e' = QueueEntry.queue_id e /\
       QueueEntry.agent_wallet e' = QueueEntry.agent_wallet e /\
       QueueEntry.priority e' = QueueEntry.priority e /\
       QueueEntry.queued_at e' = QueueEntry.queued_at e /\
       (QueueEntry.status e <> pending -> e' = e) /\
       (QueueEntry.status e = pending ->
        (QueueEntry.status e' = pending /\
         QueueEntry.retry_count e' = QueueEntry.retry_count e) \/
        (QueueEntry.status e' = completed /\
         QueueEntry.retry_count e' = QueueEntry.retry_count e /\
         now - tz (QueueEntry.queued_at e) <= Queue.maxQueueAge /\
         QueueEntry.retry_count e < QueueEntry.max_retries e) \/
        (QueueEntry.status e' = failed /\
         QueueEntry.error e' = Some Queue.expired_message /\
         QueueEntry.retry_count e' = QueueEntry.retry_count e + 1 /\
         Queue.maxQueueAge < now - tz (QueueEntry.queued_at e))))
    (request_queue st)
    (request_queue
       (Manager.afterProvider tz now provider model agentId request response st)).
Proof.
  assert (Hrows : Forall2 (drained_entry tz now) (request_queue st)
                    (request_queue
                       (Manager.afterProvider tz now provider model agentId
                                              request response st))).
  { unfold Manager.afterProvider.
    set (agentWallet := Js.str_or (Manager.agentWallet request) agentId).
    assert (Hrefl : Forall2 (drained_entry tz now) (request_queue st)
                            (request_queue st))
      by (apply Forall2_same; intros x _; left; now left).
    destruct (negb (Manager.decision_allowed request)); [exact Hrefl|].
    pose proof (updateTokensAll_frame now agentWallet provider model
                  (Manager.tokensUsed response) Manager.windows st)
      as (_ & Hq1 & _).
    set (s1 := Manager.updateTokensAll now agentWallet provider model
                 (Manager.tokensUsed response) Manager.windows st) in *.
    pose proof (checkQuotaAvailable_frame now agentWallet s1) as (_ & Hq2 & _).
    destruct (Storage.checkQuotaAvailable now agentWallet s1) as [quota s2].
    cbn [snd] in *.
    assert (Hq : request_queue s2 = request_queue st) by congruence.
    destruct (Storage.tier quota), (Storage.can_queue quota);
      try (rewrite Hq; exact Hrefl).
    unfold Manager.processQueue.
    destruct (Queue.getQueueSize agentWallet s2 =? 0);
      [rewrite Hq; exact Hrefl|].
    rewrite <- Hq. apply drain_rows. rewrite Hq. exact Hids. }
  eapply Forall2_impl; [|exact Hrows].
  intros e e' [[->|(Hs & Hold & ->)]|(Hs & Hf & Hr & [->| ->])].
  - do 4 (split; [reflexivity|]). split; [reflexivity|].
    intros Hp. left. now split.
  - cbn. do 4 (split; [reflexivity|]). split; [congruence|].
    intros _. right. right. now repeat split.
  - cbn. do 4 (split; [reflexivity|]). split; [congruence|].
    intros _. right. left. repeat split; [lia | assumption | assumption].
  - cbn. do 4 (split; [reflexivity|]). split; [congruence|].
    intros _. left. now split.
Qed.

Lemma post_call_entry_lifecycle_witness :
  let quotaA := Quota.mk "A" "pro" (-1) true 100 true true true
                         (Some 1000000000) in
  let qa := QueueEntry.mk "qa" "A" "anthropic" (Some "m") 0 5 0 3 pending
                          None None in
  let st := set_queue [qa] (set_quotas [quotaA] empty_store) in
  let request :=
    Manager.mkRequest None None
      (Some (Manager.mkDecision "r1" "A" "anthropic" (Some "m") 900 true)) in
  let st' := Manager.afterProvider Js.utc 1000 "anthropic" (Some "m") "A" request
                                   (Manager.mkResponse None (Some 10)) st in
  NoDup (map QueueEntry.queue_id (request_queue st)) /\
  List.length (request_queue st') = List.length (request_queue st).
Proof.
  intros quotaA qa st request st'.
  assert (Hids : NoDup (map QueueEntry.queue_id (request_queue st))).
  { cbn. constructor; [intros []|constructor]. }
  split; [exact Hids|].
  symmetry.
  exact (Forall2_length
           (post_call_entry_lifecycle Js.utc 1000 "anthropic" (Some "m") "A" request
              (Manager.mkResponse None (Some 10)) st Hids)).
Defined.

(** ** RateLimitManager: what the pre-call does to the queue *)

Lemma enqueue_outcomes_queue now queueId agentWallet provider model priority st :
  forall e,
    fst (Queue.enqueue now queueId agentWallet provider model priority st)
      = Queue.Throw e ->
    request_queue
      (snd (Queue.enqueue now queueId agentWallet provider model priority st))
    = request_queue st.
Proof.
  intros e. unfold Queue.enqueue.
  pose proof (checkQuotaAvailable_frame now agentWallet st) as (_ & Hq & _).
  destruct (Storage.checkQuotaAvailable now agentWallet st) as [quota s1].
  cbn [snd] in Hq.
  destruct (negb (Storage.can_queue quota)); [intros _; exact Hq|].
  destruct (Storage.max_queue_size quota <=? Queue.getQueueSize agentWallet s1);
    [intros _; exact Hq|].
  destruct (existsb (Queue.has_queue_id queueId) (request_queue s1));
    [intros _; exact Hq | discriminate].
Qed.

(** X27. The pre-call and the queue. The pre-call changes the request queue
    only when it answers that the request was queued: then the identifier it
    reports is the one drawn, and exactly one row was appended, pending, for
    the request's tenant, provider and model, with queued_at the column
    default (CURRENT_TIMESTAMP: the whole second of [now]), with no retry
    counted, three retries allowed and the request's priority (5 when the
    request gives none, or 0). With every other outcome (admitted, blocked,
    queue full, enqueue failure) the queue is left exactly as it was. *)
Theorem pre_call_queues_exactly_when_it_says_so
        now queueId requestId provider model agentId requestData st :
  let agentWallet := Js.str_or (Manager.agentWallet requestData) agentId in
  let r := Manager.beforeProvider now queueId requestId provider model agentId
                                  requestData st in
  match fst (fst r) with
  | Manager.Thrown (Manager.RequestQueued qid _ _ _) =>
      qid = queueId /\
      request_queue (snd r) =
        (request_queue st ++
           [QueueEntry.mk queueId agentWallet provider model
                          (1000 * (now / 1000))
                          (Js.or_default (Manager.priority requestData) 5)
                          0 3 pending None None])%list
  | _ => request_queue (snd r) = request_queue st
  end.
Proof.
  cbn zeta. unfold Manager.beforeProvider.
  set (agentWallet := Js.str_or (Manager.agentWallet requestData) agentId).
  pose proof (checkQuotaAvailable_frame now agentWallet st) as (_ & Hq1 & _).
  destruct (Storage.checkQuotaAvailable now agentWallet st) as [quota st1].
  cbn [snd] in Hq1.
  destruct (negb (Storage.available quota)); [exact Hq1|].
  pose proof (firstExceeded_frame now agentWallet provider model
                Manager.windows st1) as (_ & Hq2 & _).
  destruct (Manager.firstExceeded now agentWallet provider model
              Manager.windows st1) as [[[t c]|] st2]; cbn [snd] in Hq2.
  - assert (Hsame : request_queue st2 = request_queue st) by congruence.
    destruct (Storage.tier quota), (Storage.can_queue quota); cbn [fst snd];
      try exact Hsame.
    destruct (Storage.max_queue_size quota <=? _); cbn [fst snd];
      [exact Hsame|].
    pose proof (enqueue_ok now queueId agentWallet provider model
                  (Some (Js.or_default (Manager.priority requestData) 5)) st2)
      as Hok.
    pose proof (enqueue_outcomes_queue now queueId agentWallet provider model
                  (Some (Js.or_default (Manager.priority requestData) 5)) st2)
      as Hfail.
    destruct (Queue.enqueue now queueId agentWallet provider model _ st2)
      as [[qid|e] st3]; cbn [fst snd] in *.
    + destruct (Hok qid st3 eq_refl) as (-> & Hq3 & _).
      split; [reflexivity|].
      unfold Storage.recordEvent. cbn [request_queue set_events].
      rewrite Hq3, Hsame. reflexivity.
    + rewrite (Hfail e eq_refl). exact Hsame.
  - cbn [fst snd].
    pose proof (incrementAll_frame now agentWallet provider model Manager.windows
      (Storage.recordEvent now
         (Storage.mkEventData agentWallet provider model EventType.allowed
                              None None None None (Some requestId) false) st2))
      as (_ & Hq3 & _).
    rewrite Hq3. cbn. congruence.
Qed.


(** ** Window table: the rows of one horizon *)

Lemma filter_map_commute {A} (p : A -> bool) (g : A -> A) l :
  (forall x, p (g x) = p x) -> filter p (map g l) = map g (filter p l).
Proof.
  intros Hp. induction l as [|x l IH]; cbn; [reflexivity|].
  rewrite Hp. destruct (p x); cbn; now rewrite IH.
Qed.

Lemma of_type_In t st w :
  In w (of_type t st) <->
  In w (rate_limit_windows st) /\ Window.window_type w = t.
Proof. unfold of_type. rewrite filter_In, WindowType_eqb_spec. tauto. Qed.

Lemma of_type_same t st st' :
  rate_limit_windows st' = rate_limit_windows st ->
  of_type t st' = of_type t st.
Proof. unfold of_type. now intros ->. Qed.

Lemma of_type_update wid f t st :
  keeps_identity f ->
  of_type t (Tracker.update_where_id wid f st) = at_id wid f (of_type t st).
Proof.
  intros Hf. unfold of_type, at_id, Tracker.update_where_id. cbn.
  apply filter_map_commute. intros x.
  destruct (Nat.eqb (Window.id x) wid); [|reflexivity].
  destruct (Hf x) as (_ & _ & _ & _ & Ht & _). now rewrite Ht.
Qed.

Lemma at_id_absent wid f ws :
  (forall w, In w ws -> Window.id w <> wid) -> at_id wid f ws = ws.
Proof.
  intros H. unfold at_id. rewrite <- (map_id ws) at 2.
  apply map_ext_in. intros w Hin.
  destruct (Nat.eqb_spec (Window.id w) wid); [|reflexivity].
  exfalso. now apply (H w Hin).
Qed.

Lemma at_id_ids wid f ws y :
  keeps_identity f -> In y (at_id wid f ws) ->
  exists x, In x ws /\ Window.id y = Window.id x.
Proof.
  intros Hf Hin. unfold at_id in Hin. apply in_map_iff in Hin.
  destruct Hin as (x & Hy & Hx). exists x. split; [exact Hx|].
  destruct (Nat.eqb (Window.id x) wid); subst y; [|reflexivity].
  now destruct (Hf x) as (Hid & _).
Qed.

Lemma at_id_other_type st w0 f t :
  windows_wf st -> In w0 (rate_limit_windows st) ->
  Window.window_type w0 <> t ->
  at_id (Window.id w0) f (of_type t st) = of_type t st.
Proof.
  intros (Hnd & _) Hin Hne. apply at_id_absent. intros w Hw Hid.
  apply of_type_In in Hw. destruct Hw as [Hw Ht].
  assert (w = w0) by (eapply unique_id_row; eauto). subst. contradiction.
Qed.

Lemma at_id_snoc wid f ws c :
  Window.id c = wid ->
  at_id wid f (ws ++ [c]) = (at_id wid f ws ++ [f c])%list.
Proof.
  intros Hid. unfold at_id. rewrite map_app. cbn.
  rewrite Hid, Nat.eqb_refl. reflexivity.
Qed.

Lemma WindowType_eqb_refl t : WindowType_eqb t t = true.
Proof. now destruct t. Qed.

Lemma WindowType_eqb_neq t t' : t <> t' -> WindowType_eqb t t' = false.
Proof. destruct t, t'; intros H; try reflexivity; now contradiction H. Qed.

Lemma of_type_create now agentWallet provider model t st t' :
  of_type t' (snd (Tracker.createWindow now agentWallet provider model t st)) =
  (of_type t' st ++
     (if WindowType_eqb t t'
      then [fst (Tracker.createWindow now agentWallet provider model t st)]
      else []))%list.
Proof.
  pose proof (createWindow_rows now agentWallet provider model t st) as H.
  cbn zeta in H. destruct H as (Hrows & _ & _ & (_ & _ & _ & Ht) & _).
  unfold of_type. rewrite Hrows, filter_app. cbn. rewrite Ht.
  destruct (WindowType_eqb t t'); reflexivity.
Qed.

(** The three cases of settling a horizon. *)
Lemma settle_cases now agentWallet provider model t st :
  windows_wf st ->
  match Tracker.select_current agentWallet provider model t st with
  | Some w0 =>
      if Window.window_end w0 <? now
      then settle now agentWallet provider model t st =
           Tracker.createWindow now agentWallet provider model t
             (Tracker.update_where_id (Window.id w0) Tracker.deactivate st)
      else settle now agentWallet provider model t st = (w0, st)
  | None =>
      settle now agentWallet provider model t st =
      Tracker.createWindow now agentWallet provider model t st
  end.
Proof.
  intros Hwf.
  destruct (Tracker.select_current agentWallet provider model t st)
    as [w0|] eqn:Hsel.
  - destruct (Z.ltb_spec (Window.window_end w0) now) as [Hended|Hlive].
    + unfold settle, Tracker.getCurrentWindow. rewrite Hsel.
      apply Z.ltb_lt in Hended. rewrite Hended.
      destruct (select_current_Some _ _ _ _ _ _ Hsel) as (Hin0 & Hk0 & Ha0).
      unfold Tracker.rotateWindow.
      destruct Hk0 as (K1 & K2 & K3 & K4). rewrite K1, K2, K3, K4.
      set (st1 := Tracker.update_where_id (Window.id w0) Tracker.deactivate st).
      assert (Hwf1 : windows_wf st1)
        by (apply update_where_id_wf;
            [apply keeps_identity_deactivate | exact Hwf]).
      pose proof (deactivate_clears_key _ _ _ _ _ _ Hwf Hsel) as Hsel1.
      fold st1 in Hsel1.
      pose proof (createWindow_rows now agentWallet provider model t st1)
        as Hrows.
      pose proof (createWindow_wf now agentWallet provider model t st1 Hwf1
                    Hsel1) as Hwf2.
      destruct (Tracker.createWindow now agentWallet provider model t st1)
        as [nw st2].
      cbn [fst snd] in *.
      destruct Hrows as (Hrows & _ & _ & Hk & Ha & _).
      assert (Hsel2 : Tracker.select_current agentWallet provider model t st2
                      = Some nw).
      { apply select_current_unique; try assumption.
        rewrite Hrows. apply in_app_iff. right. now left. }
      now rewrite Hsel2.
    + now apply settle_live.
  - unfold settle, Tracker.getCurrentWindow. rewrite Hsel.
    pose proof (createWindow_rows now agentWallet provider model t st) as Hrows.
    destruct (Tracker.createWindow now agentWallet provider model t st)
      as [nw st1]. cbn [fst snd] in Hrows.
    destruct Hrows as (_ & _ & _ & _ & _ & _ & Hend & _).
    pose proof (windowDurations_pos t).
    destruct (Z.ltb_spec (Window.window_end nw) now); [lia | reflexivity].
Qed.

Lemma createWindow_opened now agentWallet provider model t st :
  opened now agentWallet provider model t 0 0
         (fst (Tracker.createWindow now agentWallet provider model t st)) /\
  Window.id (fst (Tracker.createWindow now agentWallet provider model t st))
  = next_window_id st.
Proof.
  pose proof (createWindow_rows now agentWallet provider model t st) as H.
  cbn zeta in H.
  destruct H as (_ & _ & Hid & Hk & Ha & Hs & He & Hc).
  unfold counts in Hc. injection Hc as Hr Ht.
  split; [|exact Hid]. repeat split; try assumption; apply Hk.
Qed.

Lemma settle_settled_rows now agentWallet provider model t st :
  windows_wf st ->
  settled_rows now agentWallet provider model t st
    (of_type t (snd (settle now agentWallet provider model t st)))
    (fst (settle now agentWallet provider model t st)).
Proof.
  intros Hwf. pose proof (settle_cases now agentWallet provider model t st Hwf)
    as Hc.
  unfold settled_rows.
  destruct (Tracker.select_current agentWallet provider model t st)
    as [w0|] eqn:Hsel.
  - destruct (Window.window_end w0 <? now).
    + rewrite Hc, of_type_create, WindowType_eqb_refl.
      rewrite of_type_update by apply keeps_identity_deactivate.
      destruct (createWindow_opened now agentWallet provider model t
                  (Tracker.update_where_id (Window.id w0) Tracker.deactivate st))
        as [Ho Hid].
      split; [reflexivity|]. split; [exact Ho|]. rewrite Hid. cbn. lia.
    + rewrite Hc. now split.
  - rewrite Hc, of_type_create, WindowType_eqb_refl.
    destruct (createWindow_opened now agentWallet provider model t st)
      as [Ho Hid].
    split; [reflexivity|]. split; [exact Ho|]. rewrite Hid. lia.
Qed.

Lemma settle_of_type_other now agentWallet provider model t st t' :
  windows_wf st -> t' <> t ->
  of_type t' (snd (settle now agentWallet provider model t st)) = of_type t' st.
Proof.
  intros Hwf Hne.
  pose proof (settle_cases now agentWallet provider model t st Hwf) as Hc.
  assert (Hneq : WindowType_eqb t t' = false)
    by (apply WindowType_eqb_neq; congruence).
  destruct (Tracker.select_current agentWallet provider model t st)
    as [w0|] eqn:Hsel.
  - destruct (Window.window_end w0 <? now).
    + rewrite Hc, of_type_create, Hneq, app_nil_r.
      rewrite of_type_update by apply keeps_identity_deactivate.
      destruct (select_current_Some _ _ _ _ _ _ Hsel) as (Hin0 & Hk0 & _).
      apply at_id_other_type; [exact Hwf | exact Hin0|].
      destruct Hk0 as (_ & _ & _ & Ht). congruence.
    + now rewrite Hc.
  - now rewrite Hc, of_type_create, Hneq, app_nil_r.
Qed.

Lemma settle_next_id now agentWallet provider model t st :
  windows_wf st ->
  (next_window_id st <=
   next_window_id (snd (settle now agentWallet provider model t st)))%nat.
Proof.
  intros Hwf.
  pose proof (settle_cases now agentWallet provider model t st Hwf) as Hc.
  destruct (Tracker.select_current agentWallet provider model t st) as [w0|].
  - destruct (Window.window_end w0 <? now).
    + rewrite Hc.
      pose proof (createWindow_rows now agentWallet provider model t
                    (Tracker.update_where_id (Window.id w0) Tracker.deactivate st))
        as H.
      cbn zeta in H. destruct H as (_ & Hn & _). rewrite Hn. cbn. lia.
    + rewrite Hc. cbn. lia.
  - rewrite Hc.
    pose proof (createWindow_rows now agentWallet provider model t st) as H.
    cbn zeta in H. destruct H as (_ & Hn & _). rewrite Hn. lia.
Qed.

Lemma settled_rows_transfer now agentWallet provider model t st st' rows w :
  Tracker.select_current agentWallet provider model t st' =
  Tracker.select_current agentWallet provider model t st ->
  of_type t st' = of_type t st ->
  (next_window_id st <= next_window_id st')%nat ->
  settled_rows now agentWallet provider model t st' rows w ->
  settled_rows now agentWallet provider model t st rows w.
Proof.
  unfold settled_rows. intros -> -> Hle H.
  destruct (Tracker.select_current agentWallet provider model t st) as [w0|].
  - destruct (Window.window_end w0 <? now); [|exact H].
    destruct H as (H1 & H2 & H3). repeat split; try assumption; try apply H2.
    lia.
  - destruct H as (H1 & H2 & H3). repeat split; try assumption; try apply H2.
    lia.
Qed.

(** The admission checks of a pre-call that finds no limit exceeded, horizon
    by horizon. *)
Lemma firstExceeded_rows now agentWallet provider model ts :
  NoDup ts ->
  forall st s,
    windows_wf st ->
    Manager.firstExceeded now agentWallet provider model ts st = (None, s) ->
    windows_wf s /\
    (next_window_id st <= next_window_id s)%nat /\
    (forall t, ~ In t ts ->
       of_type t s = of_type t st /\
       Tracker.select_current agentWallet provider model t s =
       Tracker.select_current agentWallet provider model t st) /\
    (forall t, In t ts ->
       exists w,
         settled_rows now agentWallet provider model t st (of_type t s) w /\
         Tracker.select_current agentWallet provider model t s = Some w /\
         now <= Window.window_end w).
Proof.
  induction 1 as [|t1 rest Hnotin Hnd IH]; intros st s Hwf Hrun.
  - cbn in Hrun. inversion Hrun; subst s.
    split; [exact Hwf|]. split; [lia|]. split; [now split | intros t []].
  - cbn [Manager.firstExceeded] in Hrun.
    rewrite wouldExceedLimit_settle in Hrun.
    destruct (Js.truthy _); [discriminate|].
    destruct (settle_spec now agentWallet provider model t1 st Hwf)
      as (Hwf1 & _ & _ & _ & _ & _ & Hother).
    pose proof (settle_selected now agentWallet provider model t1 st Hwf)
      as [Hsel1 Hlive1].
    pose proof (settle_settled_rows now agentWallet provider model t1 st Hwf)
      as Hrows1.
    pose proof (settle_next_id now agentWallet provider model t1 st Hwf) as Hn1.
    set (w1 := fst (settle now agentWallet provider model t1 st)) in *.
    set (s1 := snd (settle now agentWallet provider model t1 st)) in *.
    destruct (IH s1 s Hwf1 Hrun) as (Hwfs & Hns & Hout & Hin).
    split; [exact Hwfs|]. split; [lia|]. split.
    + intros t Ht.
      assert (Hne : t <> t1) by (intros ->; apply Ht; now left).
      assert (Hr : ~ In t rest) by (intros H; apply Ht; now right).
      destruct (Hout t Hr) as [Ho Hs]. split.
      * rewrite Ho. now apply settle_of_type_other.
      * rewrite Hs. now apply Hother.
    + intros t [<-|Ht].
      * destruct (Hout t1 Hnotin) as [Ho Hs].
        exists w1. rewrite Ho, Hs. now repeat split.
      * assert (Hne : t <> t1) by (intros ->; contradiction).
        destruct (Hin t Ht) as (w & Hr & Hs & Hl).
        exists w. split; [|now split].
        eapply settled_rows_transfer; [| | |exact Hr].
        -- now apply Hother.
        -- now apply settle_of_type_other.
        -- exact Hn1.
Qed.

(** The increments of an admitting pre-call, horizon by horizon: each one is
    an UPDATE of the key's current window. *)
Lemma incrementAll_rows now agentWallet provider model ts :
  NoDup ts ->
  forall st,
    windows_wf st ->
    (forall t, In t ts ->
       exists w,
         Tracker.select_current agentWallet provider model t st = Some w /\
         now <= Window.window_end w) ->
    let s := Manager.incrementAll now agentWallet provider model ts st in
    (forall t, ~ In t ts -> of_type t s = of_type t st) /\
    (forall t w, In t ts ->
       Tracker.select_current agentWallet provider model t st = Some w ->
       of_type t s =
       at_id (Window.id w) (Tracker.bump_counts now 0) (of_type t st)).
Proof.
  induction 1 as [|t1 rest Hnotin Hnd IH]; intros st Hwf Hlive; cbn zeta.
  - split; [reflexivity | intros t w []].
  - cbn [Manager.incrementAll].
    destruct (Hlive t1 (or_introl eq_refl)) as (w1 & Hsel1 & Hl1).
    rewrite incrementWindow_settle.
    rewrite (settle_live now _ _ _ _ _ _ Hsel1 Hl1). cbn [fst snd].
    set (s1 := Tracker.update_where_id (Window.id w1)
                 (Tracker.bump_counts now 0) st).
    destruct (select_current_Some _ _ _ _ _ _ Hsel1) as (Hin1 & Hk1 & _).
    assert (Ht1 : Window.window_type w1 = t1) by apply Hk1.
    assert (Hwf1 : windows_wf s1)
      by (apply update_where_id_wf; [apply keeps_identity_bump | exact Hwf]).
    assert (Hsame : forall t, t <> t1 ->
      Tracker.select_current agentWallet provider model t s1 =
      Tracker.select_current agentWallet provider model t st).
    { intros t Hne. apply update_where_id_other_type;
        [apply keeps_identity_bump | exact Hwf | exact Hin1 | congruence]. }
    assert (Hrows : forall t,
      of_type t s1 = at_id (Window.id w1) (Tracker.bump_counts now 0)
                           (of_type t st))
      by (intros t; apply of_type_update, keeps_identity_bump).
    assert (Hrows' : forall t, t <> t1 -> of_type t s1 = of_type t st).
    { intros t Hne. rewrite Hrows.
      apply at_id_other_type; [exact Hwf | exact Hin1 | congruence]. }
    assert (Hlive' : forall t, In t rest ->
      exists w,
        Tracker.select_current agentWallet provider model t s1 = Some w /\
        now <= Window.window_end w).
    { intros t Ht.
      assert (Hne : t <> t1) by (intros ->; contradiction).
      rewrite (Hsame t Hne). apply Hlive. now right. }
    destruct (IH s1 Hwf1 Hlive') as [Hout Hin]. split.
    + intros t Ht.
      assert (Hne : t <> t1) by (intros ->; apply Ht; now left).
      assert (Hr : ~ In t rest) by (intros H; apply Ht; now right).
      rewrite (Hout t Hr). now apply Hrows'.
    + intros t w [<-|Ht] Hsel.
      * rewrite Hsel1 in Hsel. inversion Hsel; subst w.
        rewrite (Hout t1 Hnotin). apply Hrows.
      * assert (Hne : t <> t1) by (intros ->; contradiction).
        rewrite (Hin t w Ht) by (now rewrite Hsame).
        now rewrite Hrows'.
Qed.

(** The token additions of a post-call, horizon by horizon, for a key that
    has a current window in each. *)
Lemma updateTokensAll_rows now agentWallet provider model tokens ts :
  NoDup ts ->
  forall st,
    windows_wf st ->
    (forall t, In t ts ->
       Tracker.select_current agentWallet provider model t st <> None) ->
    let s := Manager.updateTokensAll now agentWallet provider model tokens ts
                                     st in
    next_window_id s = next_window_id st /\
    (forall t, ~ In t ts -> of_type t s = of_type t st) /\
    (forall t w, In t ts ->
       Tracker.select_current agentWallet provider model t st = Some w ->
       of_type t s =
       at_id (Window.id w) (Tracker.add_tokens now tokens) (of_type t st)).
Proof.
  induction 1 as [|t1 rest Hnotin Hnd IH]; intros st Hwf Hsome; cbn zeta.
  - split; [reflexivity|]. split; [reflexivity | intros t w []].
  - cbn [Manager.updateTokensAll].
    destruct (Tracker.select_current agentWallet provider model t1 st)
      as [w1|] eqn:Hsel1;
      [|exfalso; apply (Hsome t1 (or_introl eq_refl)); exact Hsel1].
    unfold Tracker.updateTokenCount, Tracker.getCurrentWindow.
    rewrite Hsel1.
    set (s1 := Tracker.update_where_id (Window.id w1)
                 (Tracker.add_tokens now tokens) st).
    destruct (select_current_Some _ _ _ _ _ _ Hsel1) as (Hin1 & Hk1 & _).
    assert (Ht1 : Window.window_type w1 = t1) by apply Hk1.
    assert (Hwf1 : windows_wf s1)
      by (apply update_where_id_wf;
          [apply keeps_identity_add_tokens | exact Hwf]).
    assert (Hsame : forall t, t <> t1 ->
      Tracker.select_current agentWallet provider model t s1 =
      Tracker.select_current agentWallet provider model t st).
    { intros t Hne. apply update_where_id_other_type;
        [apply keeps_identity_add_tokens | exact Hwf | exact Hin1
        | congruence]. }
    assert (Hrows : forall t,
      of_type t s1 = at_id (Window.id w1) (Tracker.add_tokens now tokens)
                           (of_type t st))
      by (intros t; apply of_type_update, keeps_identity_add_tokens).
    assert (Hrows' : forall t, t <> t1 -> of_type t s1 = of_type t st).
    { intros t Hne. rewrite Hrows.
      apply at_id_other_type; [exact Hwf | exact Hin1 | congruence]. }
    assert (Hsome' : forall t, In t rest ->
      Tracker.select_current agentWallet provider model t s1 <> None).
    { intros t Ht.
      assert (Hne : t <> t1) by (intros ->; contradiction).
      rewrite (Hsame t Hne). apply Hsome. now right. }
    destruct (IH s1 Hwf1 Hsome') as (Hn & Hout & Hin).
    split; [exact Hn|]. split.
    + intros t Ht.
      assert (Hne : t <> t1) by (intros ->; apply Ht; now left).
      assert (Hr : ~ In t rest) by (intros H; apply Ht; now right).
      rewrite (Hout t Hr). now apply Hrows'.
    + intros t w [<-|Ht] Hsel.
      * rewrite Hsel1 in Hsel. inversion Hsel; subst w.
        rewrite (Hout t1 Hnotin). apply Hrows.
      * assert (Hne : t <> t1) by (intros ->; contradiction).
        rewrite (Hin t w Ht) by (now rewrite Hsame).
        now rewrite Hrows'.
Qed.


(** ** Manager: accounting of an admitted request, row by row *)

(** C7 (as the code has it). Over a window table that satisfies the
    invariant [windows_ok] (unique row ids, at most one active window per key,
    deactivated windows have ended), for every admitted request:
    - the pre-call leaves, for each horizon, a current window whose
      request_count is the live count found at the pre-call plus one and
      whose token_count is the live token count (zero tokens added), and
      attaches the allowed decision to the request;
    - the token accounting of the subsequent post-call (one token addition per
      horizon) leaves each horizon's current window with the same
      request_count and with token_count raised by the tokens used, and no
      row of the table changes in any field other than token_count and
      last_updated;
    - when the tenant's effective quota does not grant queueing, or the
      tenant has no pending entry, that is all the post-call does to the
      window table (otherwise the queue drain follows);
    - row by row, the pre-call does exactly this to the rows of each horizon:
      when the key's current window has not ended, that one row counts one
      more request (an UPDATE of its id) and every other row is as it was;
      when it has ended, that one row is deactivated, one window of the key
      is opened at [now] with one request and no token, and every other row
      is as it was; when the key has no window, one such window is opened and
      every row is as it was;
    - row by row, the token accounting creates no row and, in each horizon,
      adds the tokens to the key's current window (an UPDATE of its id) and
      leaves every other row as it was. *)
Theorem admitted_request_accounting tz
        now now' queueId requestId provider model agentId requestData response st
        (Hok : windows_ok now st)
        (Hclock : now <= now')
        (Hadmitted :
           fst (fst (Manager.beforeProvider now queueId requestId provider model
                                            agentId requestData st))
           = Manager.Returned) :
  let agentWallet := Js.str_or (Manager.agentWallet requestData) agentId in
  let pre := Manager.beforeProvider now queueId requestId provider model agentId
                                    requestData st in
  let request' := snd (fst pre) in
  let st1 := snd pre in
  let st2 := Manager.updateTokensAll now' agentWallet provider model
                                     (Manager.tokensUsed response)
                                     Manager.windows st1 in
  (windows_ok now st1 /\ Manager.decision_allowed request' = true) /\
  (forall t,
     exists w,
       Tracker.select_current agentWallet provider model t st1 = Some w /\
       Window.request_count w =
         fst (live_counts now agentWallet provider model t st) + 1 /\
       Window.token_count w =
         snd (live_counts now agentWallet provider model t st)) /\
  (tokens_only st1 st2 /\
   windows_ok now' st2 /\
   forall t,
     exists w w',
       Tracker.select_current agentWallet provider model t st1 = Some w /\
       Tracker.select_current agentWallet provider model t st2 = Some w' /\
       Window.request_count w' = Window.request_count w /\
       Window.token_count w' = Window.token_count w + Manager.tokensUsed response) /\
  (Storage.can_queue (fst (Storage.checkQuotaAvailable now' agentWallet st1))
     = false \/ Queue.getQueueSize agentWallet st1 = 0 ->
   rate_limit_windows
     (Manager.afterProvider tz now' provider model agentId request' response st1)
   = rate_limit_windows st2) /\
  (forall t,
     match Tracker.select_current agentWallet provider model t st with
     | Some w0 =>
         if Window.window_end w0 <? now
         then exists c,
                of_type t st1 =
                  (at_id (Window.id w0) Tracker.deactivate (of_type t st)
                     ++ [c])%list /\
                opened now agentWallet provider model t 1 0 c
         else of_type t st1 =
                at_id (Window.id w0) (Tracker.bump_counts now 0) (of_type t st)
     | None =>
         exists c,
           of_type t st1 = (of_type t st ++ [c])%list /\
           opened now agentWallet provider model t 1 0 c
     end) /\
  (next_window_id st2 = next_window_id st1 /\
   forall t,
     exists w,
       Tracker.select_current agentWallet provider model t st1 = Some w /\
       of_type t st2 =
         at_id (Window.id w)
               (Tracker.add_tokens now' (Manager.tokensUsed response))
               (of_type t st1)).
Proof.
  cbn zeta.
  destruct (admitted_request_counts tz now now' queueId requestId provider model
              agentId requestData response st Hok Hclock Hadmitted)
    as (HA & HB & HC & HD).
  cbn zeta in HA, HB, HC, HD.
  split; [exact HA|]. split; [exact HB|]. split; [exact HC|].
  split; [exact HD|].
  pose proof (proj1 Hok) as Hwf.
  set (agentWallet := Js.str_or (Manager.agentWallet requestData) agentId) in *.
  destruct (beforeProvider_returned now queueId requestId provider model agentId
              requestData st Hadmitted) as (sa & sb & Hsa & Hfirst & Hst1 & _).
  fold agentWallet in Hsa, Hfirst, Hst1.
  set (pre := Manager.beforeProvider now queueId requestId provider model agentId
                                     requestData st) in *.
  destruct (checkQuotaAvailable_windows now agentWallet st) as [Hwa Hna].
  rewrite <- Hsa in Hwa, Hna.
  assert (Hwfa : windows_wf sa) by (eapply windows_wf_same; eauto).
  destruct (firstExceeded_rows now agentWallet provider model Manager.windows
              NoDup_windows sa sb Hwfa Hfirst) as (Hwfb & _ & _ & Hsettled).
  set (ev := Storage.mkEventData agentWallet provider model EventType.allowed
                                 None None None None (Some requestId) false) in *.
  set (sc := Storage.recordEvent now ev sb) in *.
  assert (Hwfc : windows_wf sc)
    by (eapply windows_wf_same; [| |exact Hwfb]; reflexivity).
  assert (Hlive : forall t, In t Manager.windows ->
    exists w,
      Tracker.select_current agentWallet provider model t sc = Some w /\
      now <= Window.window_end w).
  { intros t Ht. destruct (Hsettled t Ht) as (w & _ & Hsel & Hl).
    exists w. split; [|exact Hl].
    rewrite (select_current_same agentWallet provider model t sb sc)
      by reflexivity.
    exact Hsel. }
  destruct (incrementAll_rows now agentWallet provider model Manager.windows
              NoDup_windows sc Hwfc Hlive) as [_ Hinc].
  rewrite <- Hst1 in Hinc.
  split.
  - intros t.
    destruct (Hsettled t (In_windows t)) as (w & Hrows & Hsel & Hl).
    assert (Hselc : Tracker.select_current agentWallet provider model t sc
                    = Some w).
    { rewrite (select_current_same agentWallet provider model t sb sc)
        by reflexivity.
      exact Hsel. }
    pose proof (Hinc t w (In_windows t) Hselc) as Hfinal.
    rewrite (of_type_same t sb sc eq_refl) in Hfinal.
    apply (settled_rows_transfer now agentWallet provider model t st sa) in Hrows;
      [|now apply select_current_same | now apply of_type_same | lia].
    unfold settled_rows in Hrows.
    assert (Hfresh : forall X c,
      (forall x, In x X -> (Window.id x < next_window_id st)%nat) ->
      (next_window_id st <= Window.id c)%nat ->
      at_id (Window.id c) (Tracker.bump_counts now 0) (X ++ [c]) =
      (X ++ [Tracker.bump_counts now 0 c])%list).
    { intros X c HX Hc. rewrite at_id_snoc by reflexivity. f_equal.
      apply at_id_absent. intros x Hx Hid. specialize (HX x Hx). lia. }
    assert (Hopened : forall c,
      opened now agentWallet provider model t 0 0 c ->
      opened now agentWallet provider model t 1 0 (Tracker.bump_counts now 0 c)).
    { intros c (Hk & Ha & Hs & He & Hr & Htk).
      repeat split; cbn; try assumption; try apply Hk; lia. }
    assert (Hids : forall x, In x (of_type t st) ->
                             (Window.id x < next_window_id st)%nat).
    { intros x Hx. apply of_type_In in Hx. destruct Hx as [Hx _].
      destruct Hwf as (_ & Hlt & _). now apply Hlt. }
    destruct (Tracker.select_current agentWallet provider model t st)
      as [w0|].
    + destruct (Window.window_end w0 <? now).
      * destruct Hrows as (Hr & Ho & Hid).
        exists (Tracker.bump_counts now 0 w).
        split; [|now apply Hopened].
        rewrite Hfinal, Hr. apply Hfresh; [|exact Hid].
        intros x Hx.
        destruct (at_id_ids _ _ _ _ keeps_identity_deactivate Hx)
          as (x0 & Hx0 & Hidx).
        rewrite Hidx. now apply Hids.
      * destruct Hrows as (Hr & ->). now rewrite Hfinal, Hr.
    + destruct Hrows as (Hr & Ho & Hid).
      exists (Tracker.bump_counts now 0 w).
      split; [|now apply Hopened].
      rewrite Hfinal, Hr. now apply Hfresh.
  - pose proof (proj1 (proj1 HA)) as Hwf1.
    assert (Hsome : forall t, In t Manager.windows ->
      Tracker.select_current agentWallet provider model t (snd pre) <> None).
    { intros t _. destruct (HB t) as (w & Hsel & _). congruence. }
    destruct (updateTokensAll_rows now' agentWallet provider model
                (Manager.tokensUsed response) Manager.windows NoDup_windows
                (snd pre) Hwf1 Hsome) as (Hn & _ & Htok).
    split; [exact Hn|]. intros t. destruct (HB t) as (w & Hsel & _).
    exists w. split; [exact Hsel|].
    apply Htok; [apply In_windows | exact Hsel].
Qed.

Lemma admitted_request_accounting_witness :
  let mine :=
    Window.mk 1 "T1" "anthropic" (Some "m") per_minute 0 60000 3 20
              (Some 50) (Some 40000) true 0 in
  let other :=
    Window.mk 2 "T2" "anthropic" (Some "m") per_minute 0 60000 7 90
              (Some 50) (Some 40000) true 0 in
  let st := set_windows [mine; other] 3 empty_store in
  let request := Manager.mkRequest None None None in
  let response := Manager.mkResponse None (Some 10) in
  let pre := Manager.beforeProvider 1000 "q1" "r1" "anthropic" (Some "m") "T1"
                                    request st in
  let st2 := Manager.updateTokensAll 2000 "T1" "anthropic" (Some "m") 10
                                     Manager.windows (snd pre) in
  windows_ok 1000 st /\
  1000 <= 2000 /\
  fst (fst pre) = Manager.Returned /\
  of_type per_minute (snd pre) =
    at_id 1 (Tracker.bump_counts 1000 0) (of_type per_minute st) /\
  map (fun w => (Window.id w, Window.request_count w, Window.token_count w))
      (of_type per_minute st2) = [(1%nat, 4, 30); (2%nat, 7, 90)] /\
  rate_limit_windows
    (Manager.afterProvider Js.utc 2000 "anthropic" (Some "m") "T1"
                           (snd (fst pre)) response (snd pre)) =
  rate_limit_windows st2.
Proof.
  intros mine other st request response pre st2.
  assert (Hok : windows_ok 1000 st).
  { split; [split; [|split]|].
    - cbn. constructor; [|constructor; [intros []|constructor]].
      intros [H|[]]. discriminate.
    - intros w [<-|[<-|[]]]; cbn; lia.
    - intros w1 w2 [<-|[<-|[]]] [<-|[<-|[]]] _ _ (H1 & _);
        try reflexivity; discriminate.
    - intros w [<-|[<-|[]]]; cbn; (split; [lia | discriminate]). }
  assert (Hclock : 1000 <= 2000) by lia.
  assert (Hadm : fst (fst pre) = Manager.Returned) by reflexivity.
  destruct (admitted_request_accounting Js.utc 1000 2000 "q1" "r1" "anthropic"
              (Some "m") "T1" request response st Hok Hclock Hadm)
    as (_ & _ & _ & Hpost & Hframe & _).
  split; [exact Hok|]. split; [exact Hclock|]. split; [exact Hadm|].
  split; [exact (Hframe per_minute)|]. split; [reflexivity|].
  apply Hpost. left. reflexivity.
Defined.


(** ** RateLimitManager: the pre-call for a provider outside the table *)

Lemma anthropic_free_ceilings t :
  Tracker.getLimitForWindowType anthropic_free t Tracker.requests
  = anthropic_free_requests t /\
  Tracker.getLimitForWindowType anthropic_free t Tracker.tokens
  = anthropic_free_tokens t.
Proof. destruct t; split; reflexivity. Qed.

Lemma since_same n provider st st' :
  rate_limit_windows st' = rate_limit_windows st ->
  rate_limit_configs st' = rate_limit_configs st ->
  anthropic_free_since n provider st -> anthropic_free_since n provider st'.
Proof.
  unfold anthropic_free_since, no_stored_config. intros Hw Hc.
  rewrite Hw, Hc. tauto.
Qed.

Lemma createWindow_since n now agentWallet p' model t provider st :
  ~ builtin_provider provider ->
  anthropic_free_since n provider st ->
  anthropic_free_since n provider
    (snd (Tracker.createWindow now agentWallet p' model t st)).
Proof.
  intros Hunk [Hno Hws].
  pose proof (createWindow_rows now agentWallet p' model t st) as Hrows.
  cbn zeta in Hrows. destruct Hrows as (Hrows & _ & _ & Hk & _).
  pose proof (createWindow_limits now agentWallet p' model t st) as Hl.
  cbn zeta in Hl.
  pose proof (createWindow_frame now agentWallet p' model t st) as (Hcs & _).
  split.
  - unfold no_stored_config. rewrite Hcs. exact Hno.
  - intros w Hin Hp Hn. rewrite Hrows in Hin. apply in_app_iff in Hin.
    destruct Hin as [Hin|[<-|[]]]; [now apply Hws|].
    destruct Hk as (_ & Hkp & _ & Hkt).
    assert (p' = provider) by congruence. subst p'.
    rewrite (getLimits_unknown_provider now agentWallet provider model st
               Hunk Hno) in Hl.
    destruct Hl as [Hr Ht]. unfold anthropic_free_window.
    rewrite Hr, Ht, Hkt. apply anthropic_free_ceilings.
Qed.

Lemma update_where_id_since n wid f provider st :
  (forall w, Window.id (f w) = Window.id w /\
             Window.provider (f w) = Window.provider w /\
             Window.window_type (f w) = Window.window_type w /\
             Window.limit_requests (f w) = Window.limit_requests w /\
             Window.limit_tokens (f w) = Window.limit_tokens w) ->
  anthropic_free_since n provider st ->
  anthropic_free_since n provider (Tracker.update_where_id wid f st).
Proof.
  intros Hf [Hno Hws]. split; [exact Hno|].
  intros w Hin Hp Hn. unfold Tracker.update_where_id in Hin. cbn in Hin.
  apply in_map_iff in Hin. destruct Hin as (x & Hx & Hin).
  destruct (Nat.eqb (Window.id x) wid); subst w; [|now apply Hws].
  destruct (Hf x) as (E0 & E1 & E2 & E3 & E4). unfold anthropic_free_window.
  rewrite E2, E3, E4. apply Hws; [exact Hin | congruence | congruence].
Qed.

Lemma settle_since n now agentWallet p' model t provider st :
  ~ builtin_provider provider -> windows_wf st ->
  anthropic_free_since n provider st ->
  anthropic_free_since n provider
    (snd (settle now agentWallet p' model t st)).
Proof.
  intros Hunk Hwf Hu.
  pose proof (settle_cases now agentWallet p' model t st Hwf) as Hc.
  destruct (Tracker.select_current agentWallet p' model t st) as [w0|].
  - destruct (Window.window_end w0 <? now).
    + rewrite Hc. apply createWindow_since; [exact Hunk|].
      apply update_where_id_since; [|exact Hu]. intros w. now repeat split.
    + now rewrite Hc.
  - rewrite Hc. now apply createWindow_since.
Qed.

Lemma incrementWindow_since n now agentWallet p' model t tokens provider st :
  ~ builtin_provider provider -> windows_wf st ->
  anthropic_free_since n provider st ->
  anthropic_free_since n provider
    (Tracker.incrementWindow now agentWallet p' model t tokens st).
Proof.
  intros Hunk Hwf Hu. rewrite incrementWindow_settle.
  apply update_where_id_since; [intros w; now repeat split|].
  now apply settle_since.
Qed.

Lemma incrementAll_since n now agentWallet p' model provider ts :
  forall st,
    ~ builtin_provider provider -> windows_wf st ->
    anthropic_free_since n provider st ->
    anthropic_free_since n provider
      (Manager.incrementAll now agentWallet p' model ts st).
Proof.
  induction ts as [|t rest IH]; intros st Hunk Hwf Hu; [exact Hu|].
  cbn [Manager.incrementAll].
  destruct (incrementWindow_counts now agentWallet p' model t 0 st Hwf)
    as (Hwf1 & _).
  apply IH; [exact Hunk | exact Hwf1 | now apply incrementWindow_since].
Qed.

Lemma firstExceeded_since n now agentWallet p' model provider ts :
  forall st,
    ~ builtin_provider provider -> windows_wf st ->
    anthropic_free_since n provider st ->
    windows_wf (snd (Manager.firstExceeded now agentWallet p' model ts st)) /\
    anthropic_free_since n provider
      (snd (Manager.firstExceeded now agentWallet p' model ts st)).
Proof.
  induction ts as [|t rest IH]; intros st Hunk Hwf Hu; [now split|].
  cbn [Manager.firstExceeded]. rewrite wouldExceedLimit_settle.
  destruct (settle_spec now agentWallet p' model t st Hwf) as (Hwf1 & _).
  pose proof (settle_since n now agentWallet p' model t provider st Hunk Hwf Hu)
    as Hu1.
  destruct (Js.truthy _); [now split|]. now apply IH.
Qed.

(** Whether a window under the anthropic free-tier ceilings is exceeded. *)
Lemma exceeded_under_ceilings w :
  anthropic_free_window w ->
  let c := Tracker.checkWindowLimitDetailed w in
  (Js.truthy (Tracker.exceeded c) = true <->
   match Window.window_type w with
   | per_minute => 50 <= Window.request_count w \/ 40000 <= Window.token_count w
   | per_hour => False
   | per_day => 1000 <= Window.request_count w \/ 300000 <= Window.token_count w
   end) /\
  Tracker.current c = Window.request_count w /\
  (forall l, anthropic_free_requests (Window.window_type w) = Some l ->
             Tracker.limit c = l).
Proof.
  intros [Hr Ht]. cbn zeta.
  unfold Tracker.checkWindowLimitDetailed, Tracker.limit_reached, Js.or, Js.and.
  cbn [Tracker.exceeded Tracker.current Tracker.limit].
  rewrite Hr, Ht.
  destruct (Window.window_type w); cbn.
  - split; [|split; [reflexivity | intros l H; now inversion H]].
    destruct (Z.leb_spec 50 (Window.request_count w)) as [Ha|Ha];
      destruct (Z.leb_spec 40000 (Window.token_count w)) as [Hb|Hb]; cbn;
      split; intros Hx; try reflexivity; try discriminate; try lia; auto.
  - split; [|split; [reflexivity | intros l H; discriminate]].
    split; [discriminate | contradiction].
  - split; [|split; [reflexivity | intros l H; now inversion H]].
    destruct (Z.leb_spec 1000 (Window.request_count w)) as [Ha|Ha];
      destruct (Z.leb_spec 300000 (Window.token_count w)) as [Hb|Hb]; cbn;
      split; intros Hx; try reflexivity; try discriminate; try lia; auto.
Qed.

(** The admission checks of a pre-call for such a provider: each one settles
    on a window under the anthropic free-tier ceilings whose counts are the
    live counts found at the pre-call. *)
Lemma firstExceeded_under now agentWallet provider model ts :
  forall st o s,
    ~ builtin_provider provider -> windows_wf st ->
    under_anthropic_free provider st ->
    Manager.firstExceeded now agentWallet provider model ts st = (o, s) ->
    windows_wf s /\ under_anthropic_free provider s /\
    match o with
    | None =>
        forall t, In t ts ->
          exists w,
            Window.window_type w = t /\ anthropic_free_window w /\
            counts w = live_counts now agentWallet provider model t st /\
            Js.truthy (Tracker.exceeded (Tracker.checkWindowLimitDetailed w))
            = false
    | Some (t, c) =>
        In t ts /\
        exists w,
          Window.window_type w = t /\ anthropic_free_window w /\
          counts w = live_counts now agentWallet provider model t st /\
          c = Tracker.checkWindowLimitDetailed w /\
          Js.truthy (Tracker.exceeded c) = true
    end.
Proof.
  induction ts as [|t1 rest IH]; intros st o s Hunk Hwf Hu Hrun.
  - cbn in Hrun. inversion Hrun; subst o s.
    split; [exact Hwf|]. split; [exact Hu|]. intros t [].
  - cbn [Manager.firstExceeded] in Hrun.
    rewrite wouldExceedLimit_settle in Hrun.
    destruct (settle_spec now agentWallet provider model t1 st Hwf)
      as (Hwf1 & Hin1 & Hk1 & _ & _ & Hc1 & _).
    pose proof (settle_since 0 now agentWallet provider model t1 provider st
                  Hunk Hwf Hu) as Hu1.
    pose proof (wouldExceedLimit_counts now agentWallet provider model t1 st Hwf)
      as [_ Hlive].
    cbn zeta in Hlive. rewrite wouldExceedLimit_settle in Hlive.
    cbn [snd] in Hlive.
    set (w1 := fst (settle now agentWallet provider model t1 st)) in *.
    set (s1 := snd (settle now agentWallet provider model t1 st)) in *.
    assert (Hceil : anthropic_free_window w1).
    { apply (proj2 Hu1); [exact Hin1 | apply Hk1 | lia]. }
    assert (Ht1 : Window.window_type w1 = t1) by apply Hk1.
    destruct (Js.truthy (Tracker.exceeded (Tracker.checkWindowLimitDetailed w1)))
      eqn:Hex.
    + inversion Hrun; subst o s.
      split; [exact Hwf1|]. split; [exact Hu1|].
      split; [now left|]. exists w1.
      split; [exact Ht1|]. split; [exact Hceil|]. split; [exact Hc1|].
      split; [reflexivity | exact Hex].
    + destruct (IH s1 o s Hunk Hwf1 Hu1 Hrun) as (Hwfs & Hus & Hres).
      split; [exact Hwfs|]. split; [exact Hus|].
      destruct o as [[t c]|].
      * destruct Hres as (Ht & w & Hw1 & Hw2 & Hw3 & Hw4).
        split; [now right|]. exists w. rewrite <- Hlive.
        split; [exact Hw1|]. split; [exact Hw2|]. split; [exact Hw3|].
        exact Hw4.
      * intros t [<-|Ht].
        -- exists w1.
           split; [exact Ht1|]. split; [exact Hceil|]. split; [exact Hc1|].
           exact Hex.
        -- destruct (Hres t Ht) as (w & Hw1 & Hw2 & Hw3 & Hw4).
           exists w. rewrite <- Hlive.
           split; [exact Hw1|]. split; [exact Hw2|]. split; [exact Hw3|].
           exact Hw4.
Qed.

Lemma enqueue_configs now queueId agentWallet provider model priority st :
  rate_limit_configs
    (snd (Queue.enqueue now queueId agentWallet provider model priority st))
  = rate_limit_configs st.
Proof.
  unfold Queue.enqueue.
  pose proof (checkQuotaAvailable_configs now agentWallet st) as Hc.
  destruct (Storage.checkQuotaAvailable now agentWallet st) as [quota st1].
  cbn [snd] in Hc.
  destruct (negb (Storage.can_queue quota)); [exact Hc|].
  destruct (Storage.max_queue_size quota <=? _); [exact Hc|].
  destruct (existsb _ _); exact Hc.
Qed.

(** The pre-call keeps the window table well formed and the provider's
    windows under the anthropic free-tier ceilings, and ends in a return, a
    refusal by a limit, or an error of the enqueue. *)
Lemma beforeProvider_since
      n now queueId requestId provider model agentId requestData st :
  ~ builtin_provider provider -> windows_wf st ->
  anthropic_free_since n provider st ->
  let r := Manager.beforeProvider now queueId requestId provider model agentId
                                  requestData st in
  windows_wf (snd r) /\
  anthropic_free_since n provider (snd r) /\
  (fst (fst r) = Manager.Returned \/
   (exists t c l, reported (fst (fst r)) = Some (t, c, l)) \/
   (exists e, fst (fst r) = Manager.Thrown (Manager.EnqueueFailed e))).
Proof.
  intros Hunknown Hwf Hstate. cbn zeta. unfold Manager.beforeProvider.
  set (agentWallet := Js.str_or (Manager.agentWallet requestData) agentId).
  pose proof (checkQuotaAvailable_available now agentWallet st) as Hav.
  destruct (checkQuotaAvailable_windows now agentWallet st) as [Hwa Hna].
  pose proof (checkQuotaAvailable_configs now agentWallet st) as Hca.
  destruct (Storage.checkQuotaAvailable now agentWallet st) as [quota sa].
  cbn [fst snd] in Hav, Hwa, Hna, Hca. rewrite Hav. cbn [negb].
  assert (Hwfa : windows_wf sa) by (eapply windows_wf_same; eauto).
  assert (Hua : anthropic_free_since n provider sa)
    by (eapply since_same; eauto).
  destruct (firstExceeded_since n now agentWallet provider model provider
              Manager.windows sa Hunknown Hwfa Hua) as [Hwfb Hub].
  destruct (Manager.firstExceeded now agentWallet provider model
              Manager.windows sa) as [o sb].
  cbn [snd] in Hwfb, Hub.
  assert (Hfinal : forall s',
    rate_limit_windows s' = rate_limit_windows sb ->
    next_window_id s' = next_window_id sb ->
    rate_limit_configs s' = rate_limit_configs sb ->
    windows_wf s' /\ anthropic_free_since n provider s').
  { intros s' H1 H2 H3. split;
      [eapply windows_wf_same; eauto | eapply since_same; eauto]. }
  destruct o as [[t c]|].
  - destruct (Storage.tier quota), (Storage.can_queue quota); cbn [fst snd].
    1,2,4:
      (destruct (Hfinal _ eq_refl eq_refl eq_refl) as [F1 F2];
       split; [exact F1|]; split; [exact F2|];
       right; left; do 3 eexists; reflexivity).
    destruct (Storage.max_queue_size quota <=? _); cbn [fst snd].
    { destruct (Hfinal sb eq_refl eq_refl eq_refl) as [F1 F2].
      split; [exact F1|]. split; [exact F2|].
      right; left; do 3 eexists; reflexivity. }
    destruct (enqueue_windows now queueId agentWallet provider model
                (Some (Js.or_default (Manager.priority requestData) 5)) sb)
      as [Hwq Hnq].
    pose proof (enqueue_configs now queueId agentWallet provider model
                  (Some (Js.or_default (Manager.priority requestData) 5)) sb)
      as Hcq.
    destruct (Queue.enqueue now queueId agentWallet provider model _ sb)
      as [[qid|e] sq]; cbn [fst snd] in *.
    + destruct (Hfinal (Storage.recordEvent now
                  (Manager.limitEvent EventType.queued agentWallet provider model
                     requestId t c true) sq) Hwq Hnq Hcq) as [F1 F2].
      split; [exact F1|]. split; [exact F2|].
      right; left; do 3 eexists; reflexivity.
    + destruct (Hfinal sq Hwq Hnq Hcq) as [F1 F2].
      split; [exact F1|]. split; [exact F2|].
      right; right; eexists; reflexivity.
  - cbn [fst snd].
    set (ev := Storage.mkEventData agentWallet provider model EventType.allowed
                                   None None None None (Some requestId) false).
    destruct (Hfinal (Storage.recordEvent now ev sb) eq_refl eq_refl eq_refl)
      as [Hwfc Huc].
    split; [|split; [|now left]].
    + now destruct (incrementAll_counts now agentWallet provider model
                      Manager.windows NoDup_windows _ Hwfc) as (H & _).
    + now apply incrementAll_since.
Qed.

(** The decision of a pre-call for a provider in the state
    [under_anthropic_free]. *)
Lemma beforeProvider_decision_under
      now queueId requestId provider model agentId requestData st :
  ~ builtin_provider provider -> windows_wf st ->
  under_anthropic_free provider st ->
  let agentWallet := Js.str_or (Manager.agentWallet requestData) agentId in
  let r := Manager.beforeProvider now queueId requestId provider model agentId
                                  requestData st in
  let outcome := fst (fst r) in
  let live t := live_counts now agentWallet provider model t st in
  (outcome = Manager.Returned <->
   fst (live per_minute) < 50 /\ snd (live per_minute) < 40000 /\
   fst (live per_day) < 1000 /\ snd (live per_day) < 300000) /\
  (forall t c l,
     reported outcome = Some (t, c, l) ->
     c = fst (live t) /\
     anthropic_free_requests t = Some l /\
     (l <= fst (live t) \/
      exists k, anthropic_free_tokens t = Some k /\ k <= snd (live t))).
Proof.
  intros Hunknown Hwf Hstate. cbn zeta.
  set (agentWallet := Js.str_or (Manager.agentWallet requestData) agentId).
  unfold Manager.beforeProvider. fold agentWallet.
  pose proof (checkQuotaAvailable_available now agentWallet st) as Hav.
  destruct (checkQuotaAvailable_windows now agentWallet st) as [Hwa Hna].
  pose proof (checkQuotaAvailable_configs now agentWallet st) as Hca.
  destruct (Storage.checkQuotaAvailable now agentWallet st) as [quota sa].
  cbn [fst snd] in Hav, Hwa, Hna, Hca. rewrite Hav. cbn [negb].
  assert (Hwfa : windows_wf sa) by (eapply windows_wf_same; eauto).
  assert (Hua : under_anthropic_free provider sa)
    by (eapply since_same; eauto).
  assert (Hlive : forall t,
    live_counts now agentWallet provider model t sa =
    live_counts now agentWallet provider model t st).
  { intros t. apply live_counts_same. now apply select_current_same. }
  destruct (Manager.firstExceeded now agentWallet provider model
              Manager.windows sa) as [o sb] eqn:Hfirst.
  destruct (firstExceeded_under now agentWallet provider model Manager.windows
              sa o sb Hunknown Hwfa Hua Hfirst) as (Hwfb & Hub & Hres).
  destruct o as [[t c]|].
  - destruct Hres as (_ & w & Hwt & Hceil & Hcounts & -> & Hex).
    rewrite Hlive in Hcounts.
    destruct (exceeded_under_ceilings w Hceil) as (Hiff & Hcur & Hlim).
    cbn zeta in Hiff, Hcur, Hlim.
    apply Hiff in Hex. rewrite Hwt in Hex, Hlim.
    assert (Hrc : Window.request_count w
                  = fst (live_counts now agentWallet provider model t st))
      by (rewrite <- Hcounts; reflexivity).
    assert (Htc : Window.token_count w
                  = snd (live_counts now agentWallet provider model t st))
      by (rewrite <- Hcounts; reflexivity).
    assert (Hno : ~ (fst (live_counts now agentWallet provider model per_minute st)
                       < 50 /\
                     snd (live_counts now agentWallet provider model per_minute st)
                       < 40000 /\
                     fst (live_counts now agentWallet provider model per_day st)
                       < 1000 /\
                     snd (live_counts now agentWallet provider model per_day st)
                       < 300000)).
    { intros (H1 & H2 & H3 & H4). destruct t; [|exact Hex|]; lia. }
    assert (Hrep : forall t' c' l',
      Some (t, Tracker.current (Tracker.checkWindowLimitDetailed w),
            Tracker.limit (Tracker.checkWindowLimitDetailed w))
      = Some (t', c', l') ->
      c' = fst (live_counts now agentWallet provider model t' st) /\
      anthropic_free_requests t' = Some l' /\
      (l' <= fst (live_counts now agentWallet provider model t' st) \/
       exists k, anthropic_free_tokens t' = Some k /\
                 k <= snd (live_counts now agentWallet provider model t' st))).
    { intros t' c' l' H. injection H as <- <- <-.
      split; [exact Hrc|].
      destruct t; [|contradiction|].
      - pose proof (Hlim 50 eq_refl) as E.
        change (Js.or_default (Window.limit_requests w) 0 = 50) in E.
        rewrite E. split; [reflexivity|].
        destruct Hex as [H1|H1]; [left; lia | right; exists 40000; split;
          [reflexivity | lia]].
      - pose proof (Hlim 1000 eq_refl) as E.
        change (Js.or_default (Window.limit_requests w) 0 = 1000) in E.
        rewrite E. split; [reflexivity|].
        destruct Hex as [H1|H1]; [left; lia | right; exists 300000; split;
          [reflexivity | lia]]. }
    destruct (Storage.tier quota), (Storage.can_queue quota); cbn [fst snd].
    1,2,4:
      (split; [split; [discriminate | intros H; now contradiction Hno]|];
       exact Hrep).
    destruct (Storage.max_queue_size quota <=? _); cbn [fst snd].
    { split; [split; [discriminate | intros H; now contradiction Hno]|].
      exact Hrep. }
    destruct (Queue.enqueue now queueId agentWallet provider model _ sb)
      as [[qid|e] sq]; cbn [fst snd] in *.
    + split; [split; [discriminate | intros H; now contradiction Hno]|].
      exact Hrep.
    + split; [split; [discriminate | intros H; now contradiction Hno]|].
      intros t' c' l' H; discriminate.
  - cbn [fst snd]. split; [|intros t c l H; discriminate].
    split; [intros _ | reflexivity].
    destruct (Hres per_minute (In_windows per_minute))
      as (w1 & Ht1 & Hc1 & Hk1 & He1).
    destruct (Hres per_day (In_windows per_day))
      as (w3 & Ht3 & Hc3 & Hk3 & He3).
    rewrite Hlive in Hk1, Hk3.
    destruct (exceeded_under_ceilings w1 Hc1) as (Hi1 & _).
    destruct (exceeded_under_ceilings w3 Hc3) as (Hi3 & _).
    cbn zeta in Hi1, Hi3. rewrite Ht1 in Hi1. rewrite Ht3 in Hi3.
    rewrite <- Hk1, <- Hk3. unfold counts. cbn [fst snd].
    destruct (Z.lt_ge_cases (Window.request_count w1) 50);
      destruct (Z.lt_ge_cases (Window.token_count w1) 40000);
      destruct (Z.lt_ge_cases (Window.request_count w3) 1000);
      destruct (Z.lt_ge_cases (Window.token_count w3) 300000);
      try (repeat split; assumption);
      exfalso;
      try (assert (Js.truthy (Tracker.exceeded
                     (Tracker.checkWindowLimitDetailed w1)) = true)
             by (apply Hi1; auto); congruence);
      try (assert (Js.truthy (Tracker.exceeded
                     (Tracker.checkWindowLimitDetailed w3)) = true)
             by (apply Hi3; auto); congruence).
Qed.

(** C9 (as the code has it). For a provider that is neither built in nor
    configured, limit resolution does not fail: [getLimits] answers with the
    built-in anthropic free-tier ceilings, for either tier, and every window
    [createWindow] opens for that provider starts with zero counts under
    those ceilings (50 requests and 40000 tokens per minute, none per hour,
    1000 requests and 300000 tokens per day). Every pre-call for such a
    provider, over a well-formed window table, ends in a return, a refusal
    by a limit (blocked, queued, or queue full) or an error of the enqueue,
    never in a rejection of the provider; every window it opens (every row
    with a rowid from the counter's value before the call on) carries those
    ceilings, and no configuration is stored. When the provider's windows
    are all of that kind (as they are as long as the provider has never been
    configured), the admission decision is the one of those ceilings: the
    pre-call returns exactly when the key's live counts are below 50 requests
    and 40000 tokens in the minute and below 1000 requests and 300000 tokens
    in the day; a refusal reports the horizon whose ceiling was reached, the
    live request count and the anthropic free-tier request ceiling of that
    horizon; and the provider's windows are still all of that kind after the
    pre-call. *)
Theorem unknown_provider_uses_anthropic_free
        now queueId requestId provider model agentId requestData st
        (Hunknown : ~ builtin_provider provider)
        (Hnoconfig : no_stored_config provider st)
        (Hwf : windows_wf st) :
  let agentWallet := Js.str_or (Manager.agentWallet requestData) agentId in
  let r := Manager.beforeProvider now queueId requestId provider model agentId
                                  requestData st in
  let outcome := fst (fst r) in
  let live t := live_counts now agentWallet provider model t st in
  fst (Tracker.getLimits now agentWallet provider model st) = anthropic_free /\
  (forall t,
     let w := fst (Tracker.createWindow now agentWallet provider model t st) in
     Window.request_count w = 0 /\ Window.token_count w = 0 /\
     Window.is_active w = true /\
     Window.limit_requests w =
       match t with
       | per_minute => Some 50 | per_hour => None | per_day => Some 1000
       end /\
     Window.limit_tokens w =
       match t with
       | per_minute => Some 40000 | per_hour => None | per_day => Some 300000
       end) /\
  (outcome = Manager.Returned \/
   (exists t c l, reported outcome = Some (t, c, l)) \/
   (exists e, outcome = Manager.Thrown (Manager.EnqueueFailed e))) /\
  windows_wf (snd r) /\
  no_stored_config provider (snd r) /\
  (forall w, In w (rate_limit_windows (snd r)) ->
             Window.provider w = provider ->
             (next_window_id st <= Window.id w)%nat ->
             anthropic_free_window w) /\
  (under_anthropic_free provider st ->
   (outcome = Manager.Returned <->
    fst (live per_minute) < 50 /\ snd (live per_minute) < 40000 /\
    fst (live per_day) < 1000 /\ snd (live per_day) < 300000) /\
   (forall t c l,
      reported outcome = Some (t, c, l) ->
      c = fst (live t) /\
      anthropic_free_requests t = Some l /\
      (l <= fst (live t) \/
       exists k, anthropic_free_tokens t = Some k /\ k <= snd (live t))) /\
   under_anthropic_free provider (snd r)).
Proof.
  cbn zeta.
  set (agentWallet := Js.str_or (Manager.agentWallet requestData) agentId).
  pose proof (getLimits_unknown_provider now agentWallet provider model st
                Hunknown Hnoconfig) as Hl.
  split; [exact Hl|]. split.
  { intros t. unfold Tracker.createWindow.
    destruct (Tracker.getLimits now agentWallet provider model st) as [l st1].
    cbn [fst] in Hl. subst l. cbn [fst Window.request_count Window.token_count
      Window.is_active Window.limit_requests Window.limit_tokens].
    destruct t; repeat split; reflexivity. }
  assert (Hsince : anthropic_free_since (next_window_id st) provider st).
  { split; [exact Hnoconfig|]. intros w Hin _ Hn.
    destruct Hwf as (_ & Hlt & _). specialize (Hlt w Hin). lia. }
  destruct (beforeProvider_since (next_window_id st) now queueId requestId
              provider model agentId requestData st Hunknown Hwf Hsince)
    as (Hwf' & [Hno' Hws'] & Hshape).
  split; [exact Hshape|]. split; [exact Hwf'|]. split; [exact Hno'|].
  split; [exact Hws'|].
  intros Hstate.
  destruct (beforeProvider_decision_under now queueId requestId provider model
              agentId requestData st Hunknown Hwf Hstate) as [Hiff Hrep].
  split; [exact Hiff|]. split; [exact Hrep|].
  now destruct (beforeProvider_since 0 now queueId requestId provider model
                  agentId requestData st Hunknown Hwf Hstate) as (_ & H & _).
Qed.

Lemma unknown_provider_uses_anthropic_free_witness :
  let full :=
    Window.mk 1 "T1" "mistral" (Some "m") per_minute 0 60000 50 0
              (Some 50) (Some 40000) true 0 in
  let st := set_windows [full] 2 empty_store in
  let pre := Manager.beforeProvider 1000 "q1" "r1" "mistral" (Some "m") "T1"
                                    (Manager.mkRequest None None None) st in
  ~ builtin_provider "mistral" /\
  no_stored_config "mistral" st /\
  windows_wf st /\
  under_anthropic_free "mistral" st /\
  fst (Tracker.getLimits 1000 "T1" "mistral" (Some "m") st) = anthropic_free /\
  fst (fst pre) <> Manager.Returned /\
  under_anthropic_free "mistral" (snd pre).
Proof.
  intros full st pre.
  assert (Hunk : ~ builtin_provider "mistral").
  { unfold builtin_provider. intros [H|[H|H]]; discriminate. }
  assert (Hno : no_stored_config "mistral" st) by (intros c []).
  assert (Hwf : windows_wf st) by apply (windows_wf_singleton full).
  assert (Hst : under_anthropic_free "mistral" st).
  { split; [exact Hno|]. intros w [<-|[]] _ _. split; reflexivity. }
  pose proof (unknown_provider_uses_anthropic_free 1000 "q1" "r1" "mistral"
                (Some "m") "T1" (Manager.mkRequest None None None) st
                Hunk Hno Hwf) as (H1 & _ & _ & _ & _ & _ & Hcond).
  cbn zeta in H1, Hcond. destruct (Hcond Hst) as (H3 & _ & H7).
  split; [exact Hunk|]. split; [exact Hno|]. split; [exact Hwf|].
  split; [exact Hst|]. split; [exact H1|]. split; [|exact H7].
  intros Hret. apply H3 in Hret. destruct Hret as (Hlt & _).
  vm_compute in Hlt. discriminate.
Defined.
